(** * Component tree (max-tree) engine of libTIM: a shallow embedding

    The development follows [Algorithms/ComponentTree.hxx] (construction,
    attributes, filters, reconstruction), [Algorithms/Morphology.hxx]
    (border padding) and [Common/ImageIO.hxx] (PGM/PPM readers).

    Conventions.
    - C++ integers ([int], [int64_t], [long]) are [Z]; signed arithmetic is
      assumed not to overflow.  [unsigned int] values are [Z] with their
      wrap-around written out where the code converts them.
    - A [Node*] is an index into the heap of allocated nodes; the null
      pointer is [None].
    - [long double] values are kept as the expression that computes them
      (type [ldouble]): no rounding is chosen.
    - Loops whose termination depends on the data take a [fuel] argument
      and return [None] when it runs out; [None] is also the result of an
      access outside an array or through a null pointer. *)

From Stdlib Require Import ZArith Lia.
From stdpp Require Import base option numbers functions list.

Local Open Scope Z_scope.

(** ** Numbers *)

(** Pixel type parameter [T] of [Image<T>] and [ComponentTree<T>]:
    [cast] is the conversion [(T)x] from [int] and [tmax] is
    [std::numeric_limits<T>::max()]. *)
Record PixelType := mkPixelType { cast : Z → Z; tmax : Z }.

Definition U8 : PixelType := mkPixelType (λ x, x mod 256) 255.
Definition U16 : PixelType := mkPixelType (λ x, x mod 65536) 65535.

(** [(int)delta] for [unsigned int delta] on a 32-bit [int]. *)
Definition int_of_uint (d : Z) : Z :=
  let w := d mod 2 ^ 32 in if w <? 2 ^ 31 then w else w - 2 ^ 32.

(** Symbolic [long double] / [double] values. *)
Inductive ldouble : Type :=
| LdInt (z : Z)
| LdMax
| LdPi
| LdAdd (a b : ldouble)
| LdSub (a b : ldouble)
| LdMul (a b : ldouble)
| LdDiv (a b : ldouble)
| LdToInt (a : ldouble).

(** ** Nodes *)

Abbreviation NodeId := nat (only parsing).

Inductive IntAttr : Type :=
| area | contrast | volume | sum | sum_square
| area_nghb | sum_nghb | sum_square_nghb
| contourLength | subNodes
| xmin | xmax | ymin | ymax | zmin | zmax.

Inductive NumAttr : Type :=
| mean | variance | mean_nghb | variance_nghb | otsu | mser
| area_derivative_h | area_derivative_areaN | area_derivative_areaN_h
| area_derivative_areaN_h_derivative
| area_derivative_delta_h | area_derivative_delta_areaF
| mean_gradient_border
| complexity | compacity.

Global Instance IntAttr_eq_dec : EqDecision IntAttr.
Proof. solve_decision. Defined.
Global Instance NumAttr_eq_dec : EqDecision NumAttr.
Proof. solve_decision. Defined.

(** The node record.  The integer attribute slots are grouped in [iattr],
    the slots filled by floating-point computations in [nattr]
    ([complexity] and [compacity] are [int] slots assigned from a [double]
    expression, kept symbolic as [LdToInt _]). *)
Record Node := mkNode {
  label : Z;
  ori_h : Z;
  h : Z;
  father : option NodeId;
  childs : list NodeId;
  pixels : list Z;
  pixels_border : list Z;
  active : bool;
  status : bool;
  iattr : IntAttr → Z;
  nattr : NumAttr → ldouble
}.

Definition set_h (v : Z) (n : Node) : Node :=
  mkNode (label n) (ori_h n) v (father n) (childs n) (pixels n)
         (pixels_border n) (active n) (status n) (iattr n) (nattr n).
Definition set_father (f : option NodeId) (n : Node) : Node :=
  mkNode (label n) (ori_h n) (h n) f (childs n) (pixels n)
         (pixels_border n) (active n) (status n) (iattr n) (nattr n).
Definition set_childs (c : list NodeId) (n : Node) : Node :=
  mkNode (label n) (ori_h n) (h n) (father n) c (pixels n)
         (pixels_border n) (active n) (status n) (iattr n) (nattr n).
Definition set_pixels (p : list Z) (n : Node) : Node :=
  mkNode (label n) (ori_h n) (h n) (father n) (childs n) p
         (pixels_border n) (active n) (status n) (iattr n) (nattr n).
Definition set_pixels_border (p : list Z) (n : Node) : Node :=
  mkNode (label n) (ori_h n) (h n) (father n) (childs n) (pixels n)
         p (active n) (status n) (iattr n) (nattr n).
Definition set_active (b : bool) (n : Node) : Node :=
  mkNode (label n) (ori_h n) (h n) (father n) (childs n) (pixels n)
         (pixels_border n) b (status n) (iattr n) (nattr n).
Definition set_status (b : bool) (n : Node) : Node :=
  mkNode (label n) (ori_h n) (h n) (father n) (childs n) (pixels n)
         (pixels_border n) (active n) b (iattr n) (nattr n).
Definition set_iattr (a : IntAttr) (v : Z) (n : Node) : Node :=
  mkNode (label n) (ori_h n) (h n) (father n) (childs n) (pixels n)
         (pixels_border n) (active n) (status n) (<[a := v]> (iattr n)) (nattr n).
Definition set_nattr (a : NumAttr) (v : ldouble) (n : Node) : Node :=
  mkNode (label n) (ori_h n) (h n) (father n) (childs n) (pixels n)
         (pixels_border n) (active n) (status n) (iattr n) (<[a := v]> (nattr n)).

Definition INT_MAX : Z := 2 ^ 31 - 1.
Definition INT_MIN : Z := - 2 ^ 31.

(** Modelled from the spec: the default constructor of [Node] (declared in
    ComponentTree.h, which is not part of the sources at hand).  The node
    is active, its attribute slots are zero, its lists are empty, its
    bounding box is the empty box and its parent link is not set. *)
Definition init_iattr (a : IntAttr) : Z :=
  match a with
  | xmin | ymin | zmin => INT_MAX
  | xmax | ymax | zmax => INT_MIN
  | _ => 0
  end.

Definition default_node : Node :=
  mkNode (-1) 0 0 None [] [] [] true true init_iattr (λ _, LdInt 0).

(** [new_node(h, n)]: allocation is left to the caller. *)
Definition new_node (hv n : Z) : Node :=
  mkNode n hv hv None [] [] [] true true init_iattr (λ _, LdInt 0).

(** The heap of allocated nodes. *)
Abbreviation Heap := (list Node) (only parsing).

(** [n->field = ...] through a pointer. *)
Definition upd (n : NodeId) (f : Node → Node) (hp : Heap) : option Heap :=
  nd ← hp !! n; Some (<[n := f nd]> hp).

(** ** Images *)

Record Image := mkImage {
  sizeX : Z;
  sizeY : Z;
  sizeZ : Z;
  data : list Z
}.

Definition zget {A} (l : list A) (i : Z) : option A :=
  if i <? 0 then None else l !! Z.to_nat i.

Definition zset {A} (l : list A) (i : Z) (x : A) : option (list A) :=
  if (0 <=? i) && (i <? Z.of_nat (length l))
  then Some (<[Z.to_nat i := x]> l) else None.

(** [res(o) = v] *)
Definition img_write (res : Image) (o v : Z) : option Image :=
  d ← zset (data res) o v;
  Some (mkImage (sizeX res) (sizeY res) (sizeZ res) d).

(** [res.fill(v)] *)
Definition fill (v : Z) (res : Image) : Image :=
  mkImage (sizeX res) (sizeY res) (sizeZ res)
          (replicate (length (data res)) v).

(** [for (it in offs) res(it) = v]: every offset of the list is set. *)
Fixpoint paint (res : Image) (offs : list Z) (v : Z) : option Image :=
  match offs with
  | [] => Some res
  | o :: offs' => res' ← img_write res o v; paint res' offs' v
  end.

(** ** Breadth-first loops

    Every traversal of the tree in the source has the shape
    [fifo.push(x); while (!fifo.empty()) { n = fifo.front(); fifo.pop();
    body }], where the body pushes further nodes at the back of the
    queue.  [queue_loop visit] is that loop: [visit s n] is the body, it
    returns the new state and the nodes pushed, in order. *)
Fixpoint queue_loop {S : Type} (visit : S → NodeId → option (S * list NodeId))
    (fuel : nat) (s : S) (fifo : list NodeId) : option S :=
  match fuel with
  | O => None
  | Datatypes.S fuel' =>
      match fifo with
      | [] => Some s
      | n :: fifo' =>
          '(s', pushed) ← visit s n;
          queue_loop visit fuel' s' (fifo' ++ pushed)
      end
  end.

(** ** How a call ends

    A call returns, or it runs into behaviour that C++ leaves undefined:
    the end of a function declared to return a value is reached without
    a [return] statement, or a variable that was never written is read.
    Nothing is known of a call once it is undefined, so [Undefined]
    carries no state. *)
Inductive Outcome (A : Type) : Type :=
| Returns (a : A)
| Undefined.
Arguments Returns {A} a.
Arguments Undefined {A}.

(** ** Filters *)

Definition setFalse_visit (hp : Heap) (tmp : NodeId) : option (Heap * list NodeId) :=
  nd ← hp !! tmp;
  Some (<[tmp := set_active false nd]> hp, childs nd).

Definition setFalse (fuel : nat) (m_root : option NodeId) (hp : Heap) : option Heap :=
  match m_root with
  | Some r => queue_loop setFalse_visit fuel hp [r]
  | None => Some hp
  end.

Definition restore_visit (hp : Heap) (cur : NodeId) : option (Heap * list NodeId) :=
  nd ← hp !! cur;
  Some (<[cur := set_h (ori_h nd) (set_active true nd)]> hp, childs nd).

(** The body of [restore()], up to its closing brace: the tree it leaves. *)
Definition restore_loop (fuel : nat) (m_root : option NodeId) (hp : Heap) : option Heap :=
  match m_root with
  | Some r => queue_loop restore_visit fuel hp [r]
  | None => Some hp
  end.

(** [restore()] is declared [int] and its body holds no [return]
    statement: once the loop is over (or at once, for a null root) the
    call flows off the end of the function and is undefined. *)
Definition restore (fuel : nat) (m_root : option NodeId) (hp : Heap)
    : option (Outcome (Z * Heap)) :=
  _ ← restore_loop fuel m_root hp; Some Undefined.

(** The three threshold filters run the same loop on the attribute they
    compare. *)
Definition filter_visit (a : IntAttr) (tMin tMax : Z) (hp : Heap) (cur : NodeId)
    : option (Heap * list NodeId) :=
  nd ← hp !! cur;
  let hp' :=
    if (iattr nd a <? tMin) || (iattr nd a >? tMax)
    then <[cur := set_active false nd]> hp else hp in
  Some (hp', childs nd).

Definition attrFiltering (a : IntAttr) (fuel : nat) (tMin tMax : Z)
    (m_root : option NodeId) (hp : Heap) : option Heap :=
  match m_root with
  | Some r => queue_loop (filter_visit a tMin tMax) fuel hp [r]
  | None => Some hp
  end.

(** [areaFiltering] and [contrastFiltering] end with [return 0]: the tree
    they leave is what the model keeps of the call. *)
Definition areaFiltering := attrFiltering area.
Definition contrastFiltering := attrFiltering contrast.

(** The body of [volumicFiltering], up to its closing brace. *)
Definition volumicFiltering_loop := attrFiltering volume.

(** [volumicFiltering] is declared [int] like the other two, and its body
    holds no [return] statement: after the loop the call flows off the
    end of the function and is undefined. *)
Definition volumicFiltering (fuel : nat) (tMin tMax : Z) (m_root : option NodeId)
    (hp : Heap) : option (Outcome (Z * Heap)) :=
  _ ← volumicFiltering_loop fuel tMin tMax m_root hp; Some Undefined.

(** ** Pixel aggregation *)

(** [merge_pixels(tree)]: all pixels of the subtree, in queue order. *)
Definition merge_pixels_visit (hp : Heap) (res : list Z) (tmp : NodeId)
    : option (list Z * list NodeId) :=
  nd ← hp !! tmp; Some (res ++ pixels nd, childs nd).

Definition merge_pixels (fuel : nat) (hp : Heap) (tree : NodeId) : option (list Z) :=
  queue_loop (merge_pixels_visit hp) fuel [] [tree].

(** [merge_pixelsFalseNodes(tree)]: the scan stops at active nodes. *)
Definition merge_pixelsFalseNodes_visit (hp : Heap) (res : list Z) (tmp : NodeId)
    : option (list Z * list NodeId) :=
  nd ← hp !! tmp;
  if active nd then Some (res, []) else Some (res ++ pixels nd, childs nd).

Definition merge_pixelsFalseNodes (fuel : nat) (hp : Heap) (tree : NodeId)
    : option (list Z) :=
  queue_loop (merge_pixelsFalseNodes_visit hp) fuel [] [tree].

(** ** Reconstruction *)

Inductive ConstructionDecision : Type := MIN | MAX | DIRECT.

(** [constructImageMin]: the loop over the children of [tmp]. *)
Fixpoint constructImageMin_childs (T : PixelType) (fuel : nat) (hp : Heap) (hv : Z)
    (cs : list NodeId) (res : Image) (pushed : list NodeId)
    : option (Image * list NodeId) :=
  match cs with
  | [] => Some (res, pushed)
  | c :: cs' =>
      cn ← hp !! c;
      if active cn
      then constructImageMin_childs T fuel hp hv cs' res (pushed ++ [c])
      else
        subPixels ← merge_pixels fuel hp c;
        res' ← paint res subPixels (cast T hv);
        constructImageMin_childs T fuel hp hv cs' res' pushed
  end.

Definition constructImageMin_visit (T : PixelType) (fuel : nat) (hp : Heap)
    (res : Image) (tmp : NodeId) : option (Image * list NodeId) :=
  nd ← hp !! tmp;
  res' ← paint res (pixels nd) (cast T (h nd));
  constructImageMin_childs T fuel hp (h nd) (childs nd) res' [].

Definition constructImageMin (T : PixelType) (fuel : nat) (hp : Heap)
    (m_root : NodeId) (res : Image) : option Image :=
  rn ← hp !! m_root;
  if active rn
  then queue_loop (constructImageMin_visit T fuel hp) fuel res [m_root]
  else Some (fill 0 res).

(** [constructImageMax] (marked as not working in the source): first
    loop, collecting the leaves and setting [status]. *)
Definition constructImageMax_collect (s : Heap * list NodeId) (cur : NodeId)
    : option ((Heap * list NodeId) * list NodeId) :=
  let '(hp, fifoLeafs) := s in
  nd ← hp !! cur;
  let hp' := <[cur := set_status true nd]> hp in
  match childs nd with
  | [] => Some ((hp', fifoLeafs ++ [cur]), [])
  | cs => Some ((hp', fifoLeafs), cs)
  end.

(** Second loop, over [fifoLeafs].  The parent is read only when [tmp] is
    not active (the test is [!tmp->active && tmp->father->status]). *)
Definition constructImageMax_leaf (T : PixelType) (fuel : nat) (s : Heap * Image)
    (tmp : NodeId) : option ((Heap * Image) * list NodeId) :=
  let '(hp, res) := s in
  nd ← hp !! tmp;
  if active nd
  then
    subPixels ← merge_pixels fuel hp tmp;
    res' ← paint res subPixels (cast T (h nd));
    Some ((hp, res'), [])
  else
    f ← father nd;
    fn ← hp !! f;
    if status fn
    then Some ((<[f := set_status false fn]> hp, res), [f])
    else Some ((hp, res), []).

Definition constructImageMax (T : PixelType) (fuel : nat) (hp : Heap)
    (m_root : NodeId) (res : Image) : option (Heap * Image) :=
  '(hp1, fifoLeafs) ← queue_loop constructImageMax_collect fuel (hp, []) [m_root];
  queue_loop (constructImageMax_leaf T fuel) fuel (hp1, fill 0 res) fifoLeafs.

(** [constructImageDirect]: the loop over the children of an active
    [tmp]. *)
Fixpoint constructImageDirect_childs (T : PixelType) (fuel : nat) (hp : Heap) (hv : Z)
    (cs : list NodeId) (res : Image) : option Image :=
  match cs with
  | [] => Some res
  | c :: cs' =>
      cn ← hp !! c;
      if active cn
      then constructImageDirect_childs T fuel hp hv cs' res
      else
        subPixels ← merge_pixelsFalseNodes fuel hp c;
        res' ← paint res subPixels (cast T hv);
        constructImageDirect_childs T fuel hp hv cs' res'
  end.

Definition constructImageDirect_visit (T : PixelType) (fuel : nat) (hp : Heap)
    (res : Image) (tmp : NodeId) : option (Image * list NodeId) :=
  nd ← hp !! tmp;
  if active nd
  then
    res' ← paint res (pixels nd) (cast T (h nd));
    res'' ← constructImageDirect_childs T fuel hp (h nd) (childs nd) res';
    Some (res'', childs nd)
  else Some (res, childs nd).

Definition constructImageDirect (T : PixelType) (fuel : nat) (hp : Heap)
    (m_root : NodeId) (res : Image) : option Image :=
  queue_loop (constructImageDirect_visit T fuel hp) fuel (fill 0 res) [m_root].

(** [constructImageDirectExpe], first loop: the active nodes met first on
    each branch are queued in [fifo2]. *)
Definition constructImageDirectExpe_collect (hp : Heap) (fifo2 : list NodeId)
    (tmp : NodeId) : option (list NodeId * list NodeId) :=
  nd ← hp !! tmp;
  if active nd then Some (fifo2 ++ [tmp], []) else Some (fifo2, childs nd).

(** Second loop, the children of [tmp]: [if (!c->active) c->h = tmp->h]. *)
Fixpoint constructImageDirectExpe_childs (hp : Heap) (tmp : NodeId)
    (cs : list NodeId) : option Heap :=
  match cs with
  | [] => Some hp
  | c :: cs' =>
      cn ← hp !! c;
      if active cn
      then constructImageDirectExpe_childs hp tmp cs'
      else
        tn ← hp !! tmp;
        constructImageDirectExpe_childs (<[c := set_h (h tn) cn]> hp) tmp cs'
  end.

Definition constructImageDirectExpe_paint (T : PixelType) (s : Heap * Image)
    (tmp : NodeId) : option ((Heap * Image) * list NodeId) :=
  let '(hp, res) := s in
  nd ← hp !! tmp;
  res' ← paint res (pixels nd) (cast T (h nd));
  hp' ← constructImageDirectExpe_childs hp tmp (childs nd);
  Some ((hp', res'), childs nd).

Definition constructImageDirectExpe (T : PixelType) (fuel : nat) (hp : Heap)
    (m_root : NodeId) (res : Image) : option (Heap * Image) :=
  fifo2 ← queue_loop (constructImageDirectExpe_collect hp) fuel [] [m_root];
  queue_loop (constructImageDirectExpe_paint T) fuel (hp, fill 0 res) fifo2.

(** [constructImage(decision)].  [res] is the image just allocated with
    the size of [m_img]; its content is whatever the allocation left.
    The tree may be changed (fields [status] and [h]), so the heap is
    returned with the image.  [T(0)] is written [0]. *)
Definition constructImage (T : PixelType) (fuel : nat) (hp : Heap)
    (m_root : option NodeId) (res : Image) (decision : ConstructionDecision)
    : option (Heap * Image) :=
  match m_root with
  | Some r =>
      match decision with
      | MIN => res' ← constructImageMin T fuel hp r res; Some (hp, res')
      | MAX => constructImageMax T fuel hp r res
      | DIRECT => constructImageDirectExpe T fuel hp r res
      end
  | None => Some (hp, fill 0 res)
  end.

(** ** Attribute computation

    The recursive attribute functions of [SalembierRecursiveImplementation]
    all have the shape

      [prologue; for (c in tree->childs) { r = f(c); use r; } epilogue]

    [traverse enter child leave] is that shape: [enter] is the prologue
    (it sets up the local variables [L]), [child tree c r] is what the
    loop body does with the value [r] returned for the child [c], and
    [leave] is the epilogue, which gives the returned value. *)

Fixpoint for_each {S A : Type} (body : S → A → option S) (s : S) (l : list A)
    : option S :=
  match l with
  | [] => Some s
  | x :: l' => s' ← body s x; for_each body s' l'
  end.

Fixpoint traverse {L R : Type}
    (enter : list Node → NodeId → option (L * list Node))
    (child : NodeId → NodeId → R → L * list Node → option (L * list Node))
    (leave : NodeId → L * list Node → option (R * list Node))
    (fuel : nat) (hp : list Node) (tree : NodeId) : option (R * list Node) :=
  match fuel with
  | O => None
  | S fuel' =>
      s0 ← enter hp tree;
      nd ← s0.2 !! tree;
      s ← for_each (λ s c, '(r, hp') ← traverse enter child leave fuel' s.2 c;
                          child tree c r (s.1, hp'))
                   s0 (childs nd);
      leave tree s
  end.

(** [(int)x] for a 64-bit [x]. *)
Definition to_int32 (x : Z) : Z := (x + 2 ^ 31) mod 2 ^ 32 - 2 ^ 31.

(** [n->a (op)= ...] on an integer slot. *)
Definition upd_iattr (n : NodeId) (a : IntAttr) (f : Z → Z) (hp : list Node)
    : option (list Node) :=
  upd n (λ nd, set_iattr a (f (iattr nd a)) nd) hp.

Definition computeContrast : nat → list Node → NodeId → option (Z * list Node) :=
  traverse
    (λ hp tree, nd ← hp !! tree; Some ((h nd, 0), hp))
    (λ tree c r s,
       let '((current_level, current_max), hp) := s in
       cn ← hp !! c;
       let current_contrast := (h cn - current_level) + r in
       Some ((current_level,
              if current_contrast >? current_max then current_contrast else current_max),
             hp))
    (λ tree s,
       let '((_, current_max), hp) := s in
       hp' ← upd tree (set_iattr contrast current_max) hp;
       Some (current_max, hp')).

(** The three accumulations [tree->a += f(child)]. *)
Definition computeSumOf (a : IntAttr) : nat → list Node → NodeId → option (Z * list Node) :=
  traverse
    (λ hp tree, Some (tt, hp))
    (λ tree c r s, hp' ← upd_iattr tree a (λ v, v + r) s.2; Some (tt, hp'))
    (λ tree s, nd ← s.2 !! tree; Some (iattr nd a, s.2)).

Definition computeArea := computeSumOf area.
Definition computeSum := computeSumOf sum.
Definition computeSumSquare := computeSumOf sum_square.

(** [tree->subNodes = tree->childs.size() + computeSubNodes(child)]: an
    assignment, not an accumulation. *)
Definition computeSubNodes : nat → list Node → NodeId → option (Z * list Node) :=
  traverse
    (λ hp tree, Some (tt, hp))
    (λ tree c r s,
       hp' ← upd tree (λ nd, set_iattr subNodes (Z.of_nat (length (childs nd)) + r) nd) s.2;
       Some (tt, hp'))
    (λ tree s, nd ← s.2 !! tree; Some (iattr nd subNodes, s.2)).

Definition computeVolume : nat → list Node → NodeId → option (Z * list Node) :=
  traverse
    (λ hp tree,
       nd ← hp !! tree;
       f ← father nd;
       local_contrast ←
         (if decide (f = tree) then Some (h nd)
          else fn ← hp !! f; Some (h nd - h fn));
       hp' ← upd tree (set_iattr volume (to_int32 (iattr nd area) * local_contrast)) hp;
       Some (tt, hp'))
    (λ tree c r s, hp' ← upd_iattr tree volume (λ v, v + r) s.2; Some (tt, hp'))
    (λ tree s, nd ← s.2 !! tree; Some (iattr nd volume, s.2)).

(** The functions that only write the node after the loop. *)
Definition after_children (epilogue : NodeId → list Node → option (list Node))
    : nat → list Node → NodeId → option (unit * list Node) :=
  traverse
    (λ hp tree, Some (tt, hp))
    (λ tree c (r : unit) s, Some s)
    (λ tree s, hp' ← epilogue tree s.2; Some (tt, hp')).

Definition computeAreaDerivative := after_children (λ tree hp,
  nd ← hp !! tree; f ← father nd; fn ← hp !! f;
  let d_area := LdInt (iattr fn area - iattr nd area) in
  let d_h := LdInt (h nd - h fn) in
  upd tree (λ nd,
    set_nattr area_derivative_areaN (LdDiv d_area (LdInt (iattr nd area)))
      (set_nattr area_derivative_h (LdDiv d_area d_h)
        (set_nattr area_derivative_areaN_h
           (LdDiv (LdDiv d_area d_h) (LdInt (iattr nd area))) nd))) hp).

Definition computeAreaDerivative2 := after_children (λ tree hp,
  nd ← hp !! tree; f ← father nd; fn ← hp !! f;
  upd tree (set_nattr area_derivative_areaN_h_derivative
              (LdSub (nattr fn area_derivative_areaN_h)
                     (nattr nd area_derivative_areaN_h))) hp).

(** The loop of [computeMSER] over the copies [node] of the ancestors:
    [while (h_node - node.h < delta && node.father != node.father->father)
       node = *node.father]. *)
Fixpoint mser_walk (fuel : nat) (hp : list Node) (h_node delta : Z) (node : Node)
    : option Node :=
  match fuel with
  | O => None
  | S fuel' =>
      if h_node - h node <? delta then
        f ← father node;
        fn ← hp !! f;
        if decide (father node = father fn) then Some node
        else mser_walk fuel' hp h_node delta fn
      else Some node
  end.

Definition computeMSER_node (fuel : nat) (delta : Z) (tree : NodeId) (hp : list Node)
    : option (list Node) :=
  hp1 ← upd tree (λ nd, set_nattr area_derivative_delta_areaF LdMax
                         (set_nattr area_derivative_delta_h LdMax
                           (set_nattr mser LdMax nd))) hp;
  node ← hp1 !! tree;
  let area_node := iattr node area in
  let h_node := h node in
  f ← father node;
  _ ← hp1 !! f;
  node' ← mser_walk fuel hp1 h_node (int_of_uint delta) node;
  if h_node - h node' >=? int_of_uint delta then
    let area_father := iattr node' area in
    let h_father := h node' in
    upd tree (λ nd,
      set_nattr area_derivative_delta_areaF
        (LdDiv (LdInt (area_father - area_node)) (LdInt area_father))
        (set_nattr area_derivative_delta_h
           (LdDiv (LdInt (area_father - area_node)) (LdInt (h_node - h_father)))
           (set_nattr mser
              (LdDiv (LdInt (area_father - area_node)) (LdInt area_node)) nd))) hp1
  else Some hp1.

Definition computeMSER (fuel : nat) (hp : list Node) (tree : NodeId) (delta : Z)
    : option (unit * list Node) :=
  after_children (computeMSER_node fuel delta) fuel hp tree.

Definition computeMean := after_children (λ tree hp,
  upd tree (λ nd, set_nattr mean (LdDiv (LdInt (iattr nd sum)) (LdInt (iattr nd area))) nd) hp).

Definition computeVariance := after_children (λ tree hp,
  upd tree (λ nd, set_nattr variance
     (LdSub (LdDiv (LdInt (iattr nd sum_square)) (LdInt (iattr nd area)))
            (LdMul (nattr nd mean) (nattr nd mean))) nd) hp).

(** The value assigned to [otsu]. *)
Definition otsu_of (nd : Node) : ldouble :=
  LdDiv (LdMul (LdSub (nattr nd mean) (nattr nd mean_nghb))
               (LdSub (nattr nd mean) (nattr nd mean_nghb)))
        (LdAdd (nattr nd variance) (nattr nd variance_nghb)).

Definition computeOtsu := after_children (λ tree hp,
  upd tree (λ nd, set_nattr otsu (otsu_of nd) nd) hp).

(** [computeBorderGradient]: [imGradient] is the gradient image kept by
    the builder. *)
Definition computeBorderGradient (imGradient : Image) := after_children (λ tree hp,
  nd ← hp !! tree;
  total ← for_each (λ acc p, g ← zget (data imGradient) p; Some (LdAdd acc (LdInt g)))
                   (LdInt 0) (pixels_border nd);
  upd tree (set_nattr mean_gradient_border
              (LdDiv total (LdInt (Z.of_nat (length (pixels_border nd)))))) hp).

Definition computeComplexityAndCompacity_visit (hp : list Node) (n : NodeId)
    : option (list Node * list NodeId) :=
  nd ← hp !! n;
  let cl := iattr nd contourLength in
  let ar := iattr nd area in
  let nd1 :=
    if decide (ar = 0) then nd
    else set_nattr complexity
           (LdToInt (LdDiv (LdMul (LdInt 1000) (LdInt cl)) (LdInt ar))) nd in
  let nd2 :=
    if decide (cl = 0) then set_nattr compacity (LdInt 0) nd1
    else set_nattr compacity
           (LdToInt (LdMul (LdDiv (LdMul (LdMul (LdInt 4) LdPi) (LdInt ar))
                                  (LdMul (LdInt cl) (LdInt cl)))
                           (LdInt 1000))) nd1 in
  Some (<[n := nd2]> hp, childs nd).

Definition computeComplexityAndCompacity (fuel : nat) (hp : list Node) (tree : NodeId)
    : option (list Node) :=
  queue_loop computeComplexityAndCompacity_visit fuel hp [tree].

(** [computeBoundingBox]: the first loop stacks the nodes in queue order,
    the second pops them and widens the box of the parent. *)
Definition computeBoundingBox_pop (hp : list Node) (tmp : NodeId) : option (list Node) :=
  nd ← hp !! tmp;
  f ← father nd;
  if decide (f = tmp) then Some hp
  else
    upd f (λ fn,
      set_iattr zmax (Z.max (iattr fn zmax) (iattr nd zmax))
        (set_iattr zmin (Z.min (iattr fn zmin) (iattr nd zmin))
          (set_iattr ymax (Z.max (iattr fn ymax) (iattr nd ymax))
            (set_iattr ymin (Z.min (iattr fn ymin) (iattr nd ymin))
              (set_iattr xmax (Z.max (iattr fn xmax) (iattr nd xmax))
                (set_iattr xmin (Z.min (iattr fn xmin) (iattr nd xmin)) fn)))))) hp.

Definition computeBoundingBox (fuel : nat) (hp : list Node) (tree : NodeId)
    : option (list Node) :=
  stackNodes ← queue_loop (λ stack tmp, nd ← hp !! tmp; Some (tmp :: stack, childs nd))
                          fuel [] [tree];
  for_each computeBoundingBox_pop hp stackNodes.

(** ** Image geometry *)

(** Modelled from the spec: the coordinate arithmetic of [Image] (declared
    in Common/Image.hxx, which is not part of the sources at hand).  The
    pixel at [(x, y, z)] of an image of width [W] and height [H] has the
    linear offset [x + y·W + z·W·H]. *)
Definition getOffset (W H : Z) (p : Z * Z * Z) : Z :=
  let '(x, y, z) := p in x + y * W + z * W * H.

Definition getCoord (W H : Z) (o : Z) : Z * Z * Z :=
  (o mod W, (o / W) mod H, o / (W * H)).

(** [isPosValid]: the coordinates are inside the image. *)
Definition isPosValid (im : Image) (p : Z * Z * Z) : bool :=
  let '(x, y, z) := p in
  (0 <=? x) && (x <? sizeX im) && (0 <=? y) && (y <? sizeY im) &&
  (0 <=? z) && (z <? sizeZ im).

(** [getMin()] and [getMax()] over the pixels; an empty image has
    neither. *)
Definition getMin (im : Image) : option Z :=
  match data im with
  | [] => None
  | v :: l => Some (foldr Z.min v l)
  end.

Definition getMax (im : Image) : option Z :=
  match data im with
  | [] => None
  | v :: l => Some (foldr Z.max v l)
  end.

(** [addBorders(im, preWidth, postWidth, value)] (Morphology.hxx): the
    image is copied at [preWidth] into a larger image filled with
    [value]. *)
Definition addBorders (im : Image) (pre post : Z * Z * Z) (value : Z) : Image :=
  let '(bx, by_, bz) := pre in
  let '(fx, fy, fz) := post in
  let W := sizeX im + bx + fx in
  let H := sizeY im + by_ + fy in
  let D := sizeZ im + bz + fz in
  mkImage W H D
    ((λ o : Z,
        let '(x, y, z) := getCoord W H o in
        if isPosValid im (x - bx, y - by_, z - bz)
        then default value (zget (data im) (getOffset (sizeX im) (sizeY im)
                                              (x - bx, y - by_, z - bz)))
        else value) <$> seqZ 0 (W * H * D)).

(** ** Neighborhoods *)

(** A flat structuring element: its points, in order. *)
Definition FlatSE := list (Z * Z * Z).

(** Modelled from the spec: [make2DN8] (Common/FlatSE.hxx is not part of
    the sources at hand): the eight displacements of the 2D 8-connected
    neighborhood, without the origin. *)
Definition make2DN8 : FlatSE :=
  [ (-1, -1, 0); (0, -1, 0); (1, -1, 0);
    (-1, 0, 0);              (1, 0, 0);
    (-1, 1, 0);  (0, 1, 0);  (1, 1, 0) ].

(** Modelled from the spec: [setContext(size)] binds the points to an
    image size, giving their flat offsets. *)
Definition setContext (se : FlatSE) (W H : Z) : list Z :=
  getOffset W H <$> se.

(** Modelled from the spec: [getNegativeOffsets()] and
    [getPositiveOffsets()], the extent of the points on each axis below
    and above the origin, used as widths of the border. *)
Definition getNegativeOffsets (se : FlatSE) : Z * Z * Z :=
  (foldr (λ p m, Z.max m (- p.1.1)) 0 se,
   foldr (λ p m, Z.max m (- p.1.2)) 0 se,
   foldr (λ p m, Z.max m (- p.2)) 0 se).

Definition getPositiveOffsets (se : FlatSE) : Z * Z * Z :=
  (foldr (λ p m, Z.max m p.1.1) 0 se,
   foldr (λ p m, Z.max m p.1.2) 0 se,
   foldr (λ p m, Z.max m p.2) 0 se).

(** Modelled from the spec: [make2DEuclidianBall(r)], the points of the
    plane at Euclidean distance at most [r] from the origin. *)
Definition make2DEuclidianBall (r : Z) : FlatSE :=
  x ← seqZ (- r) (2 * r + 1);
  y ← seqZ (- r) (2 * r + 1);
  if x * x + y * y <=? r * r then [(x, y, 0)] else [].

(** ** The builder *)

(** Modelled from the spec: the cell states of the status image (the
    constants are declared in ComponentTree.h, which is not part of the
    sources at hand).  They are distinct and negative; any other value is
    the label of a node. *)
Definition NOT_ACTIVE : Z := -1.
Definition ACTIVE : Z := -2.
Definition BORDER_STATUS : Z := -3.

(** Modelled from the spec: the value written in the border of the
    padded image. *)
Definition BORDER : Z := 0.

(** The part of [SalembierRecursiveImplementation] that [init] fixes. *)
Record Strategy := mkStrategy {
  imBorder : Image;
  imGradient : Image;
  se : list Z;
  oriSize : Z * Z * Z;
  back : Z * Z * Z;
  front : Z * Z * Z;
  hMin : Z;
  hMax : Z
}.

Definition hToIndex (c : Strategy) (v : Z) : Z := v - hMin c.
Definition indexToH (c : Strategy) (i : Z) : Z := i + hMin c.
Definition numberOfLevels (c : Strategy) : Z := hMax c - hMin c + 1.

(** The part that the construction changes, with the heap of nodes. *)
Record Flood := mkFlood {
  STATUS : list Z;
  hq : list (list Z);
  number_nodes : list Z;
  node_at_level : list bool;
  index : list (list (option NodeId));
  heap : list Node
}.

Definition set_STATUS (v : list Z) (s : Flood) : Flood :=
  mkFlood v (hq s) (number_nodes s) (node_at_level s) (index s) (heap s).
Definition set_hq (v : list (list Z)) (s : Flood) : Flood :=
  mkFlood (STATUS s) v (number_nodes s) (node_at_level s) (index s) (heap s).
Definition set_number_nodes (v : list Z) (s : Flood) : Flood :=
  mkFlood (STATUS s) (hq s) v (node_at_level s) (index s) (heap s).
Definition set_node_at_level (v : list bool) (s : Flood) : Flood :=
  mkFlood (STATUS s) (hq s) (number_nodes s) v (index s) (heap s).
Definition set_index (v : list (list (option NodeId))) (s : Flood) : Flood :=
  mkFlood (STATUS s) (hq s) (number_nodes s) (node_at_level s) v (heap s).
Definition set_heap (v : list Node) (s : Flood) : Flood :=
  mkFlood (STATUS s) (hq s) (number_nodes s) (node_at_level s) (index s) v.

(** Conversion of an offset of the padded image to the offset of the
    same pixel in the original image. *)
Definition imOffset_of (c : Strategy) (imBorderOffset : Z) : Z * (Z * Z * Z) :=
  let '(x, y, z) := getCoord (sizeX (imBorder c)) (sizeY (imBorder c)) imBorderOffset in
  let '(bx, by_, bz) := back c in
  let '(ox, oy, _) := oriSize c in
  let '(x', y', z') := (x - bx, y - by_, z - bz) in
  (x' + y' * ox + z' * ox * oy, (x', y', z')).

(** [update_attributes(n, imBorderOffset)].  The product [n->h * n->h]
    is a product of two [int] in the source; it is taken in [Z] here,
    which is the same as long as the square of the level fits an [int]:
    what is proved of [sum_square] assumes it ([squares_fit]). *)
Definition update_attributes (c : Strategy) (n : NodeId) (imBorderOffset : Z)
    (hp : list Node) : option (list Node) :=
  let '(imOffset, (x, y, z)) := imOffset_of c imBorderOffset in
  upd n (λ nd,
    let nd1 := set_pixels (pixels nd ++ [imOffset]) nd in
    let nd2 := set_iattr area (iattr nd1 area + 1) nd1 in
    let nd3 := set_iattr sum (iattr nd2 sum + h nd2) nd2 in
    let nd4 := set_iattr sum_square (iattr nd3 sum_square + h nd3 * h nd3) nd3 in
    let nd5 := if x <? iattr nd4 xmin then set_iattr xmin x nd4 else nd4 in
    let nd6 := if x >? iattr nd5 xmax then set_iattr xmax x nd5 else nd5 in
    let nd7 := if y <? iattr nd6 ymin then set_iattr ymin y nd6 else nd6 in
    let nd8 := if y >? iattr nd7 ymax then set_iattr ymax y nd7 else nd7 in
    let nd9 := if z <? iattr nd8 zmin then set_iattr zmin z nd8 else nd8 in
    if z >? iattr nd9 zmax then set_iattr zmax z nd9 else nd9) hp.

(** [link_node(tree, child)] *)
Definition link_node (tree child : NodeId) (hp : list Node) : option (list Node) :=
  hp1 ← upd child (set_father (Some tree)) hp;
  upd tree (λ nd, set_childs (childs nd ++ [child]) nd) hp1.

(** [if (index[l][k] == 0) index[l][k] = new_node(indexToH(l), k)], and
    the node found there afterwards. *)
Definition node_at (c : Strategy) (l k : Z) (s : Flood) : option (NodeId * Flood) :=
  row ← zget (index s) l;
  cell ← zget row k;
  match cell with
  | Some n => Some (n, s)
  | None =>
      let n := length (heap s) in
      row' ← zset row k (Some n);
      idx' ← zset (index s) l row';
      Some (n, set_heap (heap s ++ [new_node (indexToH c l) k]) (set_index idx' s))
  end.

(** [m = h - 1; while (m >= hToIndex(hMin) && node_at_level[m] == false) m--]:
    [k] levels remain below. *)
Fixpoint scan_down (k : nat) (nal : list bool) : option Z :=
  match k with
  | O => Some (-1)
  | S k' =>
      match nal !! k' with
      | Some true => Some (Z.of_nat k')
      | Some false => scan_down k' nal
      | None => None
      end
  end.

(** The end of [flood(h)], after its loop. *)
Definition flood_close (c : Strategy) (hl : Z) (s : Flood) : option (Z * Flood) :=
  nn ← zget (number_nodes s) hl;
  nns ← zset (number_nodes s) hl (nn + 1);
  let s1 := set_number_nodes nns s in
  m ← scan_down (Z.to_nat hl) (node_at_level s1);
  s3 ←
    (if 0 <=? m then
       let i := nn + 1 - 1 in
       j ← zget (number_nodes s1) m;
       '(parent, s2) ← node_at c m j s1;
       row ← zget (index s2) hl;
       child ← zget row i;
       child ← child;
       hp' ← link_node parent child (heap s2);
       Some (set_heap hp' s2)
     else
       row ← zget (index s1) 0;
       r ← zget row 0;
       r ← r;
       hp' ← upd r (set_father (Some r)) (heap s1);
       Some (set_heap hp' s1));
  nal ← zset (node_at_level s3) hl false;
  Some (m, set_node_at_level nal s3).

(** What [flood(h)] does with the pixel [p] it pops, before looking at
    the neighbors. *)
Definition flood_pop (c : Strategy) (hl p : Z) (rest : list Z) (s : Flood)
    : option Flood :=
  hq' ← zset (hq s) hl rest;
  nn ← zget (number_nodes s) hl;
  st ← zset (STATUS s) p nn;
  '(n, s1) ← node_at c hl nn (set_STATUS st (set_hq hq' s));
  hp' ← update_attributes c n p (heap s1);
  Some (set_heap hp' s1).

(** [hq[l].push(q); STATUS(q) = NOT_ACTIVE; node_at_level[l] = true] *)
Definition flood_push (l q : Z) (s : Flood) : option Flood :=
  fifo ← zget (hq s) l;
  hq' ← zset (hq s) l (fifo ++ [q]);
  st ← zset (STATUS s) q NOT_ACTIVE;
  nal ← zset (node_at_level s) l true;
  Some (set_node_at_level nal (set_STATUS st (set_hq hq' s))).

(** What [flood(h)] does with the neighbor [p + it] of the pixel [p] it
    popped; [rise m] stands for the inner loop
    [do m = flood(m) while (m != h)]. *)
Definition flood_neighbor (c : Strategy) (rise : Z → Flood → option Flood)
    (p : Z) (s : Flood) (it : Z) : option Flood :=
  let q := p + it in
  stq ← zget (STATUS s) q;
  if decide (stq = ACTIVE) then
    vq ← zget (data (imBorder c)) q;
    s' ← flood_push (hToIndex c vq) q s;
    vp ← zget (data (imBorder c)) p;
    if vq >? vp then rise (hToIndex c vq) s' else Some s'
  else Some s.

(** [flood(h)].  [flood_while] is its loop on [hq[h]] and [flood_rise]
    the inner loop [do m = flood(m) while (m != h)]. *)
Fixpoint flood (c : Strategy) (fuel : nat) (hl : Z) (s : Flood) {struct fuel}
    : option (Z * Flood) :=
  match fuel with
  | O => None
  | S fuel' =>
      s' ← flood_while c fuel' hl s;
      flood_close c hl s'
  end
with flood_while (c : Strategy) (fuel : nat) (hl : Z) (s : Flood) {struct fuel}
    : option Flood :=
  match fuel with
  | O => None
  | S fuel' =>
      fifo ← zget (hq s) hl;
      match fifo with
      | [] => Some s
      | p :: rest =>
          s1 ← flood_pop c hl p rest s;
          s2 ← for_each (flood_neighbor c (flood_rise c fuel' hl) p) s1 (se c);
          flood_while c fuel' hl s2
      end
  end
with flood_rise (c : Strategy) (fuel : nat) (hl m : Z) (s : Flood) {struct fuel}
    : option Flood :=
  match fuel with
  | O => None
  | S fuel' =>
      '(m', s') ← flood c fuel' m s;
      if decide (m' = hl) then Some s' else flood_rise c fuel' hl m' s'
  end.

(** The first offset of the padded image at level [hMin] whose status is
    [ACTIVE]. *)
Definition first_active (c : Strategy) (st : list Z) : option Z :=
  head (filter (λ o, zget (data (imBorder c)) o = Some (hMin c) ∧
                     zget st o = Some ACTIVE)
               (seqZ 0 (Z.of_nat (length (data (imBorder c)))))).

(** [computeTree()]: the root pointer and the final state.  (The copy of
    the cropped status image into the tree object is left out: nothing
    modelled here reads it.) *)
Definition computeTree (c : Strategy) (fuel : nat) (s : Flood)
    : option (option NodeId * Flood) :=
  s1 ← match first_active c (STATUS s) with
       | Some offset =>
           fifo ← zget (hq s) (hToIndex c (hMin c));
           hq' ← zset (hq s) (hToIndex c (hMin c)) (fifo ++ [offset]);
           Some (set_hq hq' s)
       | None => Some s
       end;
  nal ← zset (node_at_level s1) (hToIndex c (hMin c)) true;
  '(_, s2) ← flood c fuel (hToIndex c (hMin c)) (set_node_at_level nal s1);
  row ← zget (index s2) (hToIndex c (hMin c));
  root ← zget row 0;
  Some (root, s2).

(** [init(img, connexity)].  The gradient image is taken as given (it is
    computed by [morphologicalGradient], whose helpers are not part of
    the sources at hand). *)
Definition init (img gradient : Image) (connexity : FlatSE) : option (Strategy * Flood) :=
  let bk := getNegativeOffsets connexity in
  let fr := getPositiveOffsets connexity in
  let imB := addBorders img bk fr BORDER in
  let st := addBorders (fill ACTIVE img) bk fr BORDER_STATUS in
  lo ← getMin img;
  hi ← getMax img;
  let levels := Z.to_nat (hi - lo + 1) in
  let histo := (λ i : nat, length (filter (λ v, v - lo = Z.of_nat i) (data img)))
                 <$> seq 0 levels in
  Some (mkStrategy imB gradient (setContext connexity (sizeX imB) (sizeY imB))
                   (sizeX img, sizeY img, sizeZ img) bk fr lo hi,
        mkFlood (data st) (replicate levels []) (replicate levels 0)
                (replicate levels false)
                ((λ n, replicate n None) <$> histo) []).

(** ** The contour scan *)

(** [tmp->contourLength++], and the pixel saved when asked. *)
Definition contour_mark (c : Strategy) (save_pixels : bool) (offset : Z)
    (tmp : NodeId) (hp : list Node) : option (list Node) :=
  upd tmp (λ nd,
    let nd1 := set_iattr contourLength (iattr nd contourLength + 1) nd in
    if save_pixels
    then set_pixels_border (pixels_border nd1 ++ [(imOffset_of c offset).1]) nd1
    else nd1) hp.

(** [while (tmp->h > minValue) { mark; tmp = tmp->father; }] *)
Fixpoint contour_walk (c : Strategy) (save_pixels : bool) (offset minValue : Z)
    (fuel : nat) (tmp : NodeId) (hp : list Node) : option (list Node) :=
  match fuel with
  | O => None
  | S fuel' =>
      nd ← hp !! tmp;
      if h nd >? minValue then
        hp' ← contour_mark c save_pixels offset tmp hp;
        f ← father nd;
        contour_walk c save_pixels offset minValue fuel' f hp'
      else Some hp
  end.

(** [while (!stop) { mark; if (tmp != tmp->father) tmp = tmp->father;
    else stop = true; }] *)
Fixpoint contour_walk_root (c : Strategy) (save_pixels : bool) (offset : Z)
    (fuel : nat) (tmp : NodeId) (hp : list Node) : option (list Node) :=
  match fuel with
  | O => None
  | S fuel' =>
      hp' ← contour_mark c save_pixels offset tmp hp;
      nd ← hp' !! tmp;
      if decide (father nd = Some tmp) then Some hp'
      else f ← father nd; contour_walk_root c save_pixels offset fuel' f hp'
  end.

(** The scan of the neighbors of the pixel at [offset], of value [v]:
    the flags [contour] and [hitsBorder] and [minValue]. *)
Definition contour_neighbors (c : Strategy) (T : PixelType) (st : list Z)
    (offset v : Z) : option (bool * bool * Z) :=
  for_each (S := bool * bool * Z)
    (λ (flags : bool * bool * Z) it,
       let '(contour, hitsBorder, minValue) := flags in
       let q := offset + it in
       stq ← zget st q;
       if decide (stq ≠ BORDER_STATUS) then
         vq ← zget (data (imBorder c)) q;
         if v >? vq
         then Some (true, hitsBorder, if vq <? minValue then vq else minValue)
         else Some (contour, hitsBorder, minValue)
       else Some (true, true, hMin c))
    (false, false, tmax T) (se c).

Definition computeContour_pixel (c : Strategy) (T : PixelType) (fuel : nat)
    (save_pixels : bool) (s : Flood) (offset : Z) : option Flood :=
  v ← zget (data (imBorder c)) offset;
  sto ← zget (STATUS s) offset;
  flags ← (if decide (sto ≠ BORDER_STATUS)
           then contour_neighbors c T (STATUS s) offset v
           else Some (false, false, tmax T));
  let '(contour, hitsBorder, minValue) := (flags : bool * bool * Z) in
  if contour then
    row ← zget (index s) (hToIndex c v);
    tmp ← zget row sto;
    tmp ← tmp;
    hp' ← (if hitsBorder
           then contour_walk_root c save_pixels offset fuel tmp (heap s)
           else contour_walk c save_pixels offset minValue fuel tmp (heap s));
    Some (set_heap hp' s)
  else Some s.

Definition computeContour (c : Strategy) (T : PixelType) (fuel : nat)
    (save_pixels : bool) (s : Flood) : option Flood :=
  for_each (computeContour_pixel c T fuel save_pixels) s
           (seqZ 0 (Z.of_nat (length (data (imBorder c))))).

(** ** Neighborhood-ring statistics *)

(** The loop over the ball around one pixel of the node.  The product
    [m_img(q) * m_img(q)] is a product of two [int] in the source; it is
    taken in [Z] here, which is the same as long as the square of the
    value fits an [int]: what is proved of [sum_square_nghb] assumes it
    ([squares_fit]). *)
Definition nghb_pixel (m_img : Image) (ball : FlatSE) (n : NodeId)
    (s : list bool * list Node) (px : Z) : option (list bool * list Node) :=
  let '(x, y, z) := getCoord (sizeX m_img) (sizeY m_img) px in
  for_each (S := list bool * list Node)
    (λ (s : list bool * list Node) (d : Z * Z * Z),
       let '(act, hp) := s in
       let q := (x + d.1.1, y + d.1.2, z + d.2) in
       if isPosValid m_img q then
         let oq := getOffset (sizeX m_img) (sizeY m_img) q in
         a ← zget act oq;
         if a : bool then
           v ← zget (data m_img) oq;
           hp' ← upd n (λ nd,
                   set_iattr sum_square_nghb (iattr nd sum_square_nghb + v * v)
                     (set_iattr sum_nghb (iattr nd sum_nghb + v)
                        (set_iattr area_nghb (iattr nd area_nghb + 1) nd))) hp;
           act' ← zset act oq false;
           Some (act', hp')
         else Some (act, hp)
       else Some (act, hp))
    s ball.

Definition computeNeighborhoodAttributes_visit (fuel : nat) (m_img : Image)
    (ball : FlatSE) (hp : list Node) (n : NodeId) : option (list Node * list NodeId) :=
  let act0 := replicate (length (data m_img)) true in
  pixels ← merge_pixels fuel hp n;
  act1 ← for_each (λ act px, zset act px false) act0 pixels;
  '(_, hp1) ← for_each (nghb_pixel m_img ball n) (act1, hp) pixels;
  nd ← hp1 !! n;
  let hp2 :=
    if iattr nd area_nghb >? 0 then
      let m := LdDiv (LdInt (iattr nd sum_nghb)) (LdInt (iattr nd area_nghb)) in
      <[n := set_nattr variance_nghb
               (LdSub (LdDiv (LdInt (iattr nd sum_square_nghb))
                             (LdInt (iattr nd area_nghb)))
                      (LdMul m m))
               (set_nattr mean_nghb m nd)]> hp1
    else hp1 in
  Some (hp2, childs nd).

(** [computeNeighborhoodAttributes(r)], on a non-null root. *)
Definition computeNeighborhoodAttributes (fuel : nat) (m_img : Image) (r : Z)
    (m_root : NodeId) (hp : list Node) : option (list Node) :=
  queue_loop (computeNeighborhoodAttributes_visit fuel m_img (make2DEuclidianBall r))
             fuel hp [m_root].

(** ** The attribute passes *)

(** Modelled from the spec: the enumeration [ComputedAttributes] (declared
    in ComponentTree.h, which is not part of the sources at hand), a
    bitmask with one bit per bundle, in the order of the spec. *)
Definition AREA : Z := 1.
Definition AREA_DERIVATIVES : Z := 2.
Definition CONTRAST : Z := 4.
Definition VOLUME : Z := 8.
Definition BORDER_GRADIENT : Z := 16.
Definition COMP_LEXITY_ACITY : Z := 32.
Definition BOUNDING_BOX : Z := 64.
Definition SUB_NODES : Z := 128.
Definition OTSU : Z := 256.

(** [ca & flag] as a condition. *)
Definition has (ca flag : Z) : bool := negb (Z.land ca flag =? 0).

(** [tree->a = f(tree)] for a function returning the value. *)
Definition assign (a : IntAttr)
    (f : nat → list Node → NodeId → option (Z * list Node))
    (fuel : nat) (tree : NodeId) (hp : list Node) : option (list Node) :=
  '(r, hp') ← f fuel hp tree; upd tree (set_iattr a r) hp'.

(** A pass on the heap of the state. *)
Definition on_heap (f : list Node → option (list Node)) (s : Flood) : option Flood :=
  hp' ← f (heap s); Some (set_heap hp' s).

Definition void {A} (f : option (A * list Node)) : option (list Node) :=
  r ← f; Some r.2.

(** A step taken only when the flag is set. *)
Definition when (b : bool) (f : Flood → option Flood) (s : Flood) : option Flood :=
  if b then f s else Some s.

(** [computeAttributes(tree)] *)
Definition computeAttributes (c : Strategy) (T : PixelType) (fuel : nat)
    (tree : option NodeId) (s : Flood) : option Flood :=
  match tree with
  | None => Some s
  | Some t =>
      s ← on_heap (assign area computeArea fuel t) s;
      s ← on_heap (assign contrast computeContrast fuel t) s;
      s ← on_heap (assign volume computeVolume fuel t) s;
      s ← computeContour c T fuel false s;
      s ← on_heap (λ hp, computeComplexityAndCompacity fuel hp t) s;
      s ← on_heap (λ hp, computeBoundingBox fuel hp t) s;
      on_heap (assign subNodes computeSubNodes fuel t) s
  end.

(** [computeAttributes(tree, delta)] *)
Definition computeAttributes_delta (fuel : nat) (tree : option NodeId) (delta : Z)
    (s : Flood) : option Flood :=
  match tree with
  | None => Some s
  | Some t =>
      s ← on_heap (assign area computeArea fuel t) s;
      s ← on_heap (λ hp, void (computeAreaDerivative fuel hp t)) s;
      s ← on_heap (λ hp, void (computeAreaDerivative2 fuel hp t)) s;
      s ← on_heap (λ hp, void (computeMSER fuel hp t delta)) s;
      s ← on_heap (assign contrast computeContrast fuel t) s;
      on_heap (assign volume computeVolume fuel t) s
  end.

(** [computeAttributes(tree, ca, delta)] *)
Definition computeAttributes_ca (c : Strategy) (T : PixelType) (fuel : nat)
    (tree : option NodeId) (ca delta : Z) (s : Flood) : option Flood :=
  match tree with
  | None => Some s
  | Some t =>
      s ← when (has ca AREA) (λ s,
             s ← on_heap (assign area computeArea fuel t) s;
             when (has ca OTSU) (λ s,
               s ← on_heap (assign sum computeSum fuel t) s;
               s ← on_heap (assign sum_square computeSumSquare fuel t) s;
               s ← on_heap (λ hp, void (computeMean fuel hp t)) s;
               s ← on_heap (λ hp, void (computeVariance fuel hp t)) s;
               on_heap (λ hp, void (computeOtsu fuel hp t)) s) s) s;
      s ← when (has ca AREA_DERIVATIVES) (λ s,
             s ← on_heap (λ hp, void (computeAreaDerivative fuel hp t)) s;
             s ← on_heap (λ hp, void (computeAreaDerivative2 fuel hp t)) s;
             on_heap (λ hp, void (computeMSER fuel hp t delta)) s) s;
      s ← when (has ca CONTRAST) (on_heap (assign contrast computeContrast fuel t)) s;
      s ← when (has ca VOLUME) (on_heap (assign volume computeVolume fuel t)) s;
      s ← when (has ca BORDER_GRADIENT) (λ s,
             s ← computeContour c T fuel true s;
             on_heap (λ hp, void (computeBorderGradient (imGradient c) fuel hp t)) s) s;
      s ← when (has ca COMP_LEXITY_ACITY) (λ s,
             if has ca BORDER_GRADIENT
             then on_heap (λ hp, computeComplexityAndCompacity fuel hp t) s
             else
               s ← computeContour c T fuel false s;
               on_heap (λ hp, computeComplexityAndCompacity fuel hp t) s) s;
      s ← when (has ca BOUNDING_BOX) (on_heap (λ hp, computeBoundingBox fuel hp t)) s;
      when (has ca SUB_NODES) (on_heap (assign subNodes computeSubNodes fuel t)) s
  end.

(** ** The constructors of [ComponentTree] *)

Record ComponentTree := mkTree {
  m_root : option NodeId;
  m_img : Image;
  nodes : list Node
}.

(** [ComponentTree(img, connexity)] *)
Definition ComponentTree_se (T : PixelType) (fuel : nat) (img gradient : Image)
    (connexity : FlatSE) : option ComponentTree :=
  '(c, s) ← init img gradient connexity;
  '(root, s) ← computeTree c fuel s;
  s ← computeAttributes c T fuel root s;
  Some (mkTree root img (heap s)).

(** [ComponentTree(img)] *)
Definition ComponentTree_img (T : PixelType) (fuel : nat) (img gradient : Image)
    : option ComponentTree :=
  ComponentTree_se T fuel img gradient make2DN8.

(** [ComponentTree(img, connexity, delta)] *)
Definition ComponentTree_delta (T : PixelType) (fuel : nat) (img gradient : Image)
    (connexity : FlatSE) (delta : Z) : option ComponentTree :=
  '(c, s) ← init img gradient connexity;
  '(root, s) ← computeTree c fuel s;
  s ← computeAttributes_delta fuel root delta s;
  Some (mkTree root img (heap s)).

(** [ComponentTree(img, connexity, ca, delta)] *)
Definition ComponentTree_ca (T : PixelType) (fuel : nat) (img gradient : Image)
    (connexity : FlatSE) (ca delta : Z) : option ComponentTree :=
  '(c, s) ← init img gradient connexity;
  '(root, s) ← computeTree c fuel s;
  s ← when (has ca OTSU) (λ s,
         r ← root;
         on_heap (computeNeighborhoodAttributes fuel img (int_of_uint delta) r) s) s;
  s ← computeAttributes_ca c T fuel root ca delta s;
  Some (mkTree root img (heap s)).

(** ** Image files (Common/ImageIO.hxx)

    Characters are their codes in [Z].  An input stream is what is left
    to read and its state bits.  The stream operations follow the C++
    standard library: an extraction from a stream that is not [good]
    fails and leaves its target as it was. *)

Record ifstream := mkStream {
  rest : list Z;
  eofbit : bool;
  failbit : bool
}.

Definition good (f : ifstream) : bool := negb (eofbit f) && negb (failbit f).

Definition is_space (ch : Z) : bool :=
  bool_decide (ch = 32 ∨ (9 ≤ ch ≤ 13)).

Fixpoint take_while (p : Z → bool) (l : list Z) : list Z :=
  match l with
  | ch :: l' => if p ch then ch :: take_while p l' else []
  | [] => []
  end.

Fixpoint drop_while (p : Z → bool) (l : list Z) : list Z :=
  match l with
  | ch :: l' => if p ch then drop_while p l' else l
  | [] => []
  end.

(** [file >> str] for a [std::string]: leading white space is skipped,
    then the characters up to the next white space are taken. *)
Definition read_token (f : ifstream) (str : list Z) : ifstream * list Z :=
  if good f then
    match drop_while is_space (rest f) with
    | [] => (mkStream [] true true, str)
    | l =>
        let tok := take_while (λ ch, negb (is_space ch)) l in
        let l' := drop_while (λ ch, negb (is_space ch)) l in
        (mkStream l' (bool_decide (l' = [])) false, tok)
    end
  else (mkStream (rest f) (eofbit f) true, str).

(** [file.getline(buf, 256, '\n')]: characters are taken until the end
    of the file is met, or the next character is the newline, which is
    taken and dropped, or 255 characters are stored, in which case
    [failbit] is set; the three conditions are tested in this order, so a
    line of exactly 255 characters is read whole.  A call that takes no
    character sets [failbit] too. *)
Definition getline256 (f : ifstream) : ifstream :=
  if good f then
    let line := take_while (λ ch, negb (ch =? 10)) (rest f) in
    let l' := drop_while (λ ch, negb (ch =? 10)) (rest f) in
    if decide (255 < Z.of_nat (length line)) then
      mkStream (drop 255 (rest f)) false true
    else
      match l' with
      | [] => mkStream [] true (bool_decide (line = []))
      | _ :: l'' => mkStream l'' false false
      end
  else mkStream (rest f) (eofbit f) true.

(** [file.get(ch)] *)
Definition get_char (f : ifstream) : ifstream :=
  if good f then
    match rest f with
    | [] => mkStream [] true true
    | _ :: l => mkStream l false false
    end
  else mkStream (rest f) (eofbit f) true.

(** [while (str[0] == '#') { file.getline(buf, 256, '\n'); file >> str; }] *)
Fixpoint skip_comments (fuel : nat) (f : ifstream) (str : list Z)
    : option (ifstream * list Z) :=
  match fuel with
  | O => None
  | S fuel' =>
      match str with
      | 35 :: _ =>
          let '(f', str') := read_token (getline256 f) str in
          skip_comments fuel' f' str'
      | _ => Some (f, str)
      end
  end.

Definition GImageIO_NextLine (fuel : nat) (f : ifstream) : option (ifstream * list Z) :=
  let '(f1, str) := read_token f [] in
  '(f2, str') ← skip_comments fuel f1 str;
  Some (get_char f2, str').

(** [str_stream >> x] for an [unsigned int], on a string stream that
    holds the token [str] (which has no white space) and whose state was
    reset: what is written to [x], [None] when [x] is left as it was.

    On an empty token the extraction meets the end of the stream before
    any character and writes nothing.  Otherwise an optional sign and the
    decimal digits that follow are taken: without a digit the extraction
    fails and writes 0; digits that make a number of 2^32 or more give
    the largest [unsigned int]; after a sign '-' the number is negated as
    an [unsigned int]. *)
Definition is_digit (ch : Z) : bool := (48 <=? ch) && (ch <=? 57).

Definition read_uint (str : list Z) : option Z :=
  match str with
  | [] => None
  | ch :: str' =>
      let signed := (ch =? 43) || (ch =? 45) in
      let digits := take_while is_digit (if signed then str' else str) in
      let v := foldl (λ acc ch, 10 * acc + (ch - 48)) 0 digits in
      Some (if bool_decide (digits = []) then 0
            else if 2 ^ 32 <=? v then 2 ^ 32 - 1
            else if ch =? 45 then (- v) mod 2 ^ 32
            else v)
  end.

(** The four variables that [GImageIO_ReadPPMHeader] fills.  The numbers
    are declared without a value by the readers: [None] is a variable
    that was never written. *)
Record PPMHeader := mkHeader {
  format : list Z;
  width : option Z;
  height : option Z;
  colormax : option Z
}.

Definition GImageIO_ReadPPMHeader (fuel : nat) (f : ifstream)
    : option (ifstream * PPMHeader) :=
  '(f, str1) ← GImageIO_NextLine fuel f;
  '(f, str2) ← GImageIO_NextLine fuel f;
  '(f, str3) ← GImageIO_NextLine fuel f;
  '(f, str4) ← GImageIO_NextLine fuel f;
  Some (f, mkHeader str1 (read_uint str2) (read_uint str3) (read_uint str4)).

(** The fields of an [Image] object that the readers touch.  [im_data] is
    the pixel buffer, kept as raw bytes ([None] for a null pointer). *)
Record ImageObject := mkImageObject {
  im_data : option (list Z);
  im_size : Z * Z * Z;
  im_dataSize : Z;
  im_spacing : Z * Z * Z
}.

(** The characters "P5" and "P6". *)
Definition P5 : list Z := [80; 53].
Definition P6 : list Z := [80; 54].

(** [new T[n]] followed by [file.read(data, count)], for a buffer of
    [size] bytes: the characters read come first, the rest of the buffer
    is what the allocation left ([junk]).  Nothing is read from a stream
    that is not [good]. *)
Definition read_raster (f : ifstream) (size count : Z) (junk : list Z) : list Z :=
  let got := if good f then take (Z.to_nat count) (rest f) else [] in
  take (Z.to_nat size) (got ++ drop (length got) junk).

(** A set of files: the content of a file by name, [None] when it cannot
    be opened. *)
Definition Files := list Z → option (list Z).

(** The three readers share their body: [magic] is the expected format,
    [check_max] tells whether [colormax] is tested, [elem] is the size of
    a pixel in bytes and [dataSize * per_pixel] characters are read.

    The test [format != magic || colormax >= 256] reads [colormax] only
    when the format is the expected one; the sizes are read after it.
    Reading one of these variables when the header read has not written
    it is undefined. *)
Definition load_body (magic : list Z) (check_max : bool) (elem per_pixel : Z)
    (fuel : nat) (files : Files) (filename : list Z) (junk : list Z)
    (im : ImageObject) : option (Outcome (Z * ImageObject)) :=
  match files filename with
  | None => Some (Returns (0, im))
  | Some content =>
      '(f, hd) ← GImageIO_ReadPPMHeader fuel (mkStream content false false);
      if bool_decide (format hd ≠ magic) then Some (Returns (0, im))
      else
        match (if check_max then colormax hd else Some 0) with
        | None => Some Undefined
        | Some cmax =>
            if cmax >=? 256 then Some (Returns (0, im))
            else
              match width hd, height hd with
              | Some w, Some h =>
                  let dataSize := (w * h) mod 2 ^ 32 in
                  Some (Returns
                          (1, mkImageObject
                                (Some (read_raster f (dataSize * elem)
                                                   (dataSize * per_pixel) junk))
                                (w, h, 1) dataSize (1, 1, 1)))
              | _, _ => Some Undefined
              end
        end
  end.

(** [Image<U8>::load], [Image<U16>::load] and [Image<RGB>::load] *)
Definition load_U8 := load_body P5 true 1 1.
Definition load_U16 := load_body P5 false 2 1.
Definition load_RGB := load_body P6 true 3 3.


(** The characters of "P6 4 3 255" followed by a newline, and of
    "P5 4 3 300" followed by a newline. *)
Definition header_P6 : list Z := [80; 54; 32; 52; 32; 51; 32; 50; 53; 53; 10].
Definition header_300 : list Z := [80; 53; 32; 52; 32; 51; 32; 51; 48; 48; 10].


(** The characters of "P5 4 3 -1" followed by a newline, and of "P5 4 3":
    a negative [colormax], and a header cut before its [colormax]. *)
Definition header_minus : list Z := [80; 53; 32; 52; 32; 51; 32; 45; 49; 10].
Definition header_short : list Z := [80; 53; 32; 52; 32; 51].

(** ** Well-formed trees in the heap *)

(** A computation with fuel converges to [r] when every large enough
    fuel gives [r]. *)
Definition converges {A : Type} (f : nat → option A) (r : A) : Prop :=
  ∃ k : nat, ∀ fuel : nat, (k ≤ fuel)%nat → f fuel = Some r.

(** [tree_ok d hp n]: the nodes below [n] are allocated, the parent link
    of every child points back to its parent, and the subtree of [n] has
    fewer than [d] levels. *)
Fixpoint tree_ok (d : nat) (hp : Heap) (n : NodeId) : bool :=
  match d with
  | O => false
  | S d' =>
      match hp !! n with
      | None => false
      | Some nd =>
          forallb (λ c, match hp !! c with
                        | Some cn => bool_decide (father cn = Some n) && tree_ok d' hp c
                        | None => false
                        end) (childs nd)
      end
  end.

(** The root of a tree is its own parent. *)
Definition root_ok (hp : Heap) (r : NodeId) : bool :=
  match hp !! r with
  | Some rn => bool_decide (father rn = Some r)
  | None => false
  end.

(** [reach hp a b]: [b] is [a] or one of its descendants. *)
Inductive reach (hp : Heap) (a : NodeId) : NodeId → Prop :=
| reach_refl : reach hp a a
| reach_child m c nd :
    reach hp a m → hp !! m = Some nd → c ∈ childs nd → reach hp a c.

(** Number of nodes of the subtree of [n], explored to depth [d]. *)
Fixpoint weight (d : nat) (hp : Heap) (n : NodeId) : nat :=
  match d with
  | O => O
  | S d' =>
      match hp !! n with
      | None => O
      | Some nd => S (sum_list (weight d' hp <$> childs nd))
      end
  end.

(** Two heaps with the same links. *)
Definition links (nd : Node) : option NodeId * list NodeId := (father nd, childs nd).

Definition same_links (hp hp' : Heap) : Prop :=
  ∀ n : NodeId, links <$> hp !! n = links <$> hp' !! n.

(** The visit of a traversal that rewrites each node by [g]. *)
Definition map_visit (g : Node → Node) (hp : Heap) (n : NodeId)
    : option (Heap * list NodeId) :=
  nd ← hp !! n; Some (<[n := g nd]> hp, childs nd).

(** What a threshold filter does to one node. *)
Definition filter_node (a : IntAttr) (tMin tMax : Z) (nd : Node) : Node :=
  if (iattr nd a <? tMin) || (iattr nd a >? tMax) then set_active false nd else nd.

(** [under_active hp a n]: [a] is active, [n] is a proper descendant of
    [a] that is not active, and neither is any node strictly between
    them: [a] is the nearest active ancestor of [n]. *)
Inductive under_active (hp : Heap) (a : NodeId) : NodeId → Prop :=
| under_child an c cn :
    hp !! a = Some an → active an = true → c ∈ childs an →
    hp !! c = Some cn → active cn = false → under_active hp a c
| under_step m mn c cn :
    under_active hp a m → hp !! m = Some mn → c ∈ childs mn →
    hp !! c = Some cn → active cn = false → under_active hp a c.

(** Effect of a threshold filter on attribute [a], from heap [hp] to
    heap [hp']: no node is added or removed, every node keeps all its
    fields but [active], and [active] is cleared exactly on the nodes of
    the tree whose attribute is outside [[lo, hi]]. *)
Definition filter_post (a : IntAttr) (lo hi : Z) (hp : Heap) (root : NodeId)
    (hp' : Heap) : Prop :=
  length hp' = length hp ∧
  ∀ n nd, hp !! n = Some nd →
    ∃ nd', hp' !! n = Some nd' ∧
           nd' = set_active (active nd') nd ∧
           (reach hp root n →
              active nd' = active nd && bool_decide (lo ≤ iattr nd a ≤ hi)) ∧
           (¬ reach hp root n → active nd' = active nd).

(** [level_of hp root n v]: [n] is in the tree and [v] is the level of
    the nearest active node among [n] and its ancestors. *)
Inductive level_of (hp : Heap) (root : NodeId) : NodeId → Z → Prop :=
| level_active n nd :
    reach hp root n → hp !! n = Some nd → active nd = true →
    level_of hp root n (h nd)
| level_inactive m mn c cn v :
    level_of hp root m v → hp !! m = Some mn → c ∈ childs mn →
    hp !! c = Some cn → active cn = false → level_of hp root c v.

(** The pixels of the tree fit in an image of [len] pixels. *)
Definition pixels_in_range (hp : Heap) (root : NodeId) (len : nat) : Prop :=
  ∀ n nd o, reach hp root n → hp !! n = Some nd → o ∈ pixels nd →
            0 ≤ o < Z.of_nat len.

(** A small tree used to exercise the statements: node 0 is the root
    (level 0, pixels 0 and 1), node 1 its child (level 3, pixel 2, not
    active) and node 2 the child of node 1 (level 5, pixel 3). *)
Definition ex_node (hv : Z) (f : NodeId) (cs : list NodeId) (px : list Z)
    (act : bool) (ar : Z) : Node :=
  mkNode 0 hv hv (Some f) cs px [] act true (<[area := ar]> init_iattr) (λ _, LdInt 0).

Definition ex_heap : list Node :=
  [ ex_node 0 0%nat [1%nat] [0; 1] true 4;
    ex_node 3 0%nat [2%nat] [2] false 2;
    ex_node 5 1%nat [] [3] true 1 ].

Definition ex_res : Image := mkImage 4 1 1 [9; 9; 9; 9].

(** The same tree with an inactive root. *)
Definition setFalse_heap_example : list Node :=
  [ set_active false (ex_node 0 0%nat [1%nat] [0; 1] true 4);
    ex_node 3 0%nat [2%nat] [2] false 2;
    ex_node 5 1%nat [] [3] true 1 ].

(** [covered hp fifo2 n]: [n] is below one of the nodes queued for the
    second pass of [constructImageDirectExpe]. *)
Definition covered (hp : Heap) (fifo2 : list NodeId) (n : NodeId) : Prop :=
  ∃ t, t ∈ fifo2 ∧ reach hp t n.

(** Content of the image after the nodes of [V] were painted: a pixel is
    still zero if no node of [V] holds it, and otherwise carries the
    level of a node of [V] that holds it. *)
Definition painted_by (T : PixelType) (hp : Heap) (root : NodeId)
    (V : list NodeId) (res : Image) : Prop :=
  ∀ i : nat, (i < length (data res))%nat →
    (data res !! i = Some 0 ∧
     ∀ m nd, m ∈ V → hp !! m = Some nd → Z.of_nat i ∉ pixels nd) ∨
    (∃ m nd v, m ∈ V ∧ hp !! m = Some nd ∧ Z.of_nat i ∈ pixels nd ∧
               level_of hp root m v ∧ data res !! i = Some (cast T v)).

(** The image [2 1 0 1 2] (one row): its tree has a root at level 0 with
    two children at level 1, each with one child at level 2. *)
Definition img_valley : Image := mkImage 5 1 1 [2; 1; 0; 1; 2].

(** The image [1 1 2 3] (one row): a chain of three nodes. *)
Definition img_step : Image := mkImage 4 1 1 [1; 1; 2; 3].

(** The 3×3 image with a single peak in the middle. *)
Definition img_peak : Image := mkImage 3 3 1 [0; 0; 0; 0; 5; 0; 0; 0; 0].

(** [frame P hp hp']: the heap [hp'] has the nodes of [hp], each changed
    at most as [P] allows. *)
Definition frame (P : Node → Node → Prop) (hp hp' : Heap) : Prop :=
  length hp = length hp' ∧
  ∀ n nd, hp !! n = Some nd → ∃ nd', hp' !! n = Some nd' ∧ P nd nd'.

(** [keeps KI KN pb nd nd']: the node [nd'] is [nd] except for the integer
    slots of [KI], the slots of [KN] and, when [pb] holds, the list
    [pixels_border]. *)
Definition keeps (KI : list IntAttr) (KN : list NumAttr) (pb : bool)
    (nd nd' : Node) : Prop :=
  label nd' = label nd ∧ ori_h nd' = ori_h nd ∧ h nd' = h nd ∧
  father nd' = father nd ∧ childs nd' = childs nd ∧ pixels nd' = pixels nd ∧
  active nd' = active nd ∧ status nd' = status nd ∧
  (pb = false → pixels_border nd' = pixels_border nd) ∧
  (∀ a, a ∉ KI → iattr nd' a = iattr nd a) ∧
  (∀ a, a ∉ KN → nattr nd' a = nattr nd a).

(** Where the ancestor walk of [computeMSER] stops, for a start node of
    level [hn] and a threshold [Δ]: at the first node of the chain
    (starting with the node itself) whose level is at least [Δ] below
    [hn], and at the latest at the node whose parent is the root (or at
    the root, when the walk starts there). *)
Inductive stops_at (hp : Heap) (Δ hn : Z) : NodeId → NodeId → Prop :=
| stops_met n nd :
    hp !! n = Some nd → Δ ≤ hn - h nd → stops_at hp Δ hn n n
| stops_top n nd f fn :
    hp !! n = Some nd → hn - h nd < Δ →
    father nd = Some f → hp !! f = Some fn → father fn = Some f →
    stops_at hp Δ hn n n
| stops_up n nd f fn a :
    hp !! n = Some nd → hn - h nd < Δ →
    father nd = Some f → hp !! f = Some fn → father fn ≠ Some f →
    stops_at hp Δ hn f a → stops_at hp Δ hn n a.

(** The value left in [mser] for a node [nd] whose walk stopped at the
    node [an]. *)
Definition mser_of (Δ : Z) (nd an : Node) : ldouble :=
  if decide (Δ ≤ h nd - h an)
  then LdDiv (LdInt (iattr an area - iattr nd area)) (LdInt (iattr nd area))
  else LdMax.

(** The slots written by [computeMSER]. *)
Definition mser_slots : list NumAttr :=
  [mser; area_derivative_delta_h; area_derivative_delta_areaF].

(** A tree in the heap whose root is its own parent. *)
Definition wf_tree (D : nat) (hp : Heap) (root : NodeId) : Prop :=
  tree_ok D hp root = true ∧ root_ok hp root = true.

(** ** The flooding: what holds of its state *)

Section FloodSpec.

(** The fixed part of the builder and the status image before the
    flooding starts. *)
Variable c : Strategy.
Variable st0 : list Z.

Definition val (p : Z) : option Z := zget (data (imBorder c)) p.

(** The pixels of the input image, as offsets of the padded one. *)
Definition interior (p : Z) : Prop := zget st0 p = Some ACTIVE.

Definition at_level (p l : Z) : Prop :=
  zget st0 p = Some ACTIVE ∧ val p = Some (indexToH c l).

(** Length of the row of level [l] in the table of nodes. *)
Variable cap : Z → nat.

(** What [init] guarantees. *)
Record ctx_ok : Prop := mkCtxOk {
  ctx_len : length (data (imBorder c)) = length st0;
  ctx_vals : ∀ p v, zget st0 p = Some v → v = ACTIVE ∨ v = BORDER_STATUS;
  ctx_nbr : ∀ p d, interior p → d ∈ se c → is_Some (zget st0 (p + d));
  ctx_range : ∀ p, interior p → ∃ v, val p = Some v ∧ hMin c ≤ v ≤ hMax c;
  ctx_cap : ∀ l ps, NoDup ps → (∀ p, p ∈ ps → at_level p l) →
                    (length ps ≤ cap l)%nat;
  ctx_inj : ∀ p q, interior p → interior q →
                   (imOffset_of c p).1 = (imOffset_of c q).1 → p = q
}.

Definition st_at (s : Flood) (p : Z) : option Z := zget (STATUS s) p.
Definition hq_at (s : Flood) (l : Z) : option (list Z) := zget (hq s) l.
Definition nn_at (s : Flood) (l : Z) : option Z := zget (number_nodes s) l.
Definition nal_at (s : Flood) (l : Z) : option bool := zget (node_at_level s) l.
Definition index_at (s : Flood) (l k : Z) : option NodeId :=
  row ← zget (index s) l; cell ← zget row k; cell.

(** A node of level [l] is being filled: a pixel carries the label of
    the next node of that level. *)
Definition started (s : Flood) (l : Z) : Prop :=
  ∃ p k, at_level p l ∧ nn_at s l = Some k ∧ st_at s p = Some k.

(** Number of pixels that have no label yet. *)
Definition unlabelled (s : Flood) : nat :=
  length (filter (λ v, v = ACTIVE ∨ v = NOT_ACTIVE) (STATUS s)).

(** Every labelled pixel outside [X] has no neighbor left [ACTIVE]. *)
Definition closed (X : Z → Prop) (s : Flood) : Prop :=
  ∀ p k d, st_at s p = Some k → 0 ≤ k → ¬ X p → d ∈ se c →
           st_at s (p + d) ≠ Some ACTIVE.

(** The slots that the builder leaves as the constructor of the nodes
    set them: those of the neighborhood statistics and the slots of
    type [long double]. *)
Definition blank (nd : Node) : Prop :=
  nattr nd = (λ _, LdInt 0) ∧ iattr nd area_nghb = 0 ∧
  iattr nd sum_nghb = 0 ∧ iattr nd sum_square_nghb = 0.

(** The counters that [update_attributes] keeps for the pixels of the
    node itself: their number, and the sums of their values and of the
    squares of their values, all at the level of the node. *)
Definition counts (nd : Node) : Prop :=
  iattr nd area = Z.of_nat (length (pixels nd)) ∧
  iattr nd sum = Z.of_nat (length (pixels nd)) * h nd ∧
  iattr nd sum_square = Z.of_nat (length (pixels nd)) * (h nd * h nd).

(** The table of nodes and the heap. *)
Record hinv (s : Flood) : Prop := mkHinv {
  inv_len_index : Z.of_nat (length (index s)) = numberOfLevels c;
  inv_rows : ∀ l row, zget (index s) l = Some row → length row = cap l;
  inv_index : ∀ l k n, index_at s l k = Some n →
    ∃ nd kn, heap s !! n = Some nd ∧ h nd = indexToH c l ∧ label nd = k ∧
             nn_at s l = Some kn ∧ 0 ≤ k ≤ kn ∧ (k = kn → nal_at s l = Some true);
  inv_heap_index : ∀ n nd, heap s !! n = Some nd →
    index_at s (hToIndex c (h nd)) (label nd) = Some n;
  inv_open : ∀ n nd kn, heap s !! n = Some nd →
    nn_at s (hToIndex c (h nd)) = Some kn → label nd = kn → father nd = None;
  inv_closed : ∀ n nd kn, heap s !! n = Some nd →
    nn_at s (hToIndex c (h nd)) = Some kn → label nd < kn →
    (∃ f fn, father nd = Some f ∧ heap s !! f = Some fn ∧ h fn < h nd ∧ n ∈ childs fn) ∨
    (father nd = Some n ∧ h nd = hMin c);
  inv_childs : ∀ n nd ch, heap s !! n = Some nd → ch ∈ childs nd →
    ∃ cn, heap s !! ch = Some cn ∧ father cn = Some n ∧ h nd < h cn;
  inv_pixels : ∀ n nd o, heap s !! n = Some nd → o ∈ pixels nd →
    ∃ p, interior p ∧ o = (imOffset_of c p).1 ∧ val p = Some (h nd);
  inv_fresh : ∀ n nd, heap s !! n = Some nd →
    active nd = true ∧ iattr nd contourLength = 0 ∧ pixels_border nd = [];
  inv_blank : ∀ n nd, heap s !! n = Some nd →
    NoDup (childs nd) ∧ blank nd
}.

Record inv (s : Flood) : Prop := mkInv {
  inv_len_status : length (STATUS s) = length st0;
  inv_len_hq : Z.of_nat (length (hq s)) = numberOfLevels c;
  inv_len_nn : Z.of_nat (length (number_nodes s)) = numberOfLevels c;
  inv_len_nal : Z.of_nat (length (node_at_level s)) = numberOfLevels c;
  inv_border : ∀ p, zget st0 p = Some BORDER_STATUS → st_at s p = Some BORDER_STATUS;
  inv_interior : ∀ p, interior p →
    ∃ v, st_at s p = Some v ∧ (v = ACTIVE ∨ v = NOT_ACTIVE ∨ 0 ≤ v);
  inv_queue : ∀ l q p, hq_at s l = Some q → p ∈ q →
    at_level p l ∧ st_at s p = Some NOT_ACTIVE;
  inv_nodup : ∀ l q, hq_at s l = Some q → NoDup q;
  inv_waiting : ∀ p l, at_level p l → st_at s p = Some NOT_ACTIVE →
    ∃ q, hq_at s l = Some q ∧ p ∈ q;
  inv_nn_pos : ∀ l k, nn_at s l = Some k → 0 ≤ k;
  inv_label : ∀ p l k, at_level p l → st_at s p = Some k → 0 ≤ k →
    ∃ kn n nd, nn_at s l = Some kn ∧ k ≤ kn ∧ index_at s l k = Some n ∧
               heap s !! n = Some nd ∧ (imOffset_of c p).1 ∈ pixels nd;
  inv_closed_label : ∀ l kn k, nn_at s l = Some kn → 0 ≤ k < kn →
    ∃ p, at_level p l ∧ st_at s p = Some k;
  inv_nal : ∀ l, nal_at s l = Some true →
    (∃ p rest, hq_at s l = Some (p :: rest)) ∨ started s l;
  inv_nal_q : ∀ l p rest, hq_at s l = Some (p :: rest) → nal_at s l = Some true;
  inv_nal_s : ∀ l, started s l → nal_at s l = Some true;
  inv_root : nn_at s 0 = Some 0 ∨
             (nn_at s 0 = Some 1 ∧ ∀ l, nal_at s l ≠ Some true);
  inv_h :> hinv s;
  inv_owner : ∀ n nd p, heap s !! n = Some nd → interior p →
    (imOffset_of c p).1 ∈ pixels nd → st_at s p = Some (label nd);
  inv_pix_nodup : ∀ n nd, heap s !! n = Some nd → NoDup (pixels nd);
  inv_counts : ∀ n nd, heap s !! n = Some nd → counts nd
}.

(** From [s] to [s'] the table of nodes and the lists of pixels only
    grew. *)
Definition grows (s s' : Flood) : Prop :=
  (∀ l k n, index_at s l k = Some n → index_at s' l k = Some n) ∧
  (∀ n nd, heap s !! n = Some nd →
     ∃ nd', heap s' !! n = Some nd' ∧ ∀ o, o ∈ pixels nd → o ∈ pixels nd').

(** From [s] to [s'] no node got a pixel, another label or other
    counters, and a node that [s] does not have holds no pixel. *)
Definition settled (s s' : Flood) : Prop :=
  ∀ n nd', heap s' !! n = Some nd' →
    (pixels nd' = [] ∧ counts nd') ∨
    ∃ nd, heap s !! n = Some nd ∧ pixels nd' = pixels nd ∧ label nd' = label nd ∧
          (counts nd → counts nd').

(** The state after [hq[l].push(q); STATUS(q) = NOT_ACTIVE;
    node_at_level[l] = true]. *)
Definition push_state (l q : Z) (fifo : list Z) (s : Flood) : Flood :=
  set_node_at_level (<[Z.to_nat l := true]> (node_at_level s))
    (set_STATUS (<[Z.to_nat q := NOT_ACTIVE]> (STATUS s))
       (set_hq (<[Z.to_nat l := fifo ++ [q]]> (hq s)) s)).

(** The state where a node of level [l] and label [k] was allocated. *)
Definition alloc (l k : Z) (s : Flood) : Flood :=
  set_heap (heap s ++ [new_node (indexToH c l) k])
    (set_index (<[Z.to_nat l := <[Z.to_nat k := Some (length (heap s))]>
                                  (default [] (zget (index s) l))]> (index s)) s).

(** The node of level [l] and label [k], allocated if it was not. *)
Definition ensure (l k : Z) (s : Flood) : NodeId * Flood :=
  match index_at s l k with
  | Some n => (n, s)
  | None => (length (heap s), alloc l k s)
  end.

(** [below hl s s']: from [s] to [s'] the levels below [hl] only had
    pixels queued, labels were only added, at levels from [hl] on, and
    no pixel went back to [ACTIVE]. *)
Record below (hl : Z) (s s' : Flood) : Prop := mkBelow {
  below_nn : ∀ l, l < hl → nn_at s' l = nn_at s l;
  below_hq : ∀ l q, l < hl → hq_at s l = Some q → ∃ q', hq_at s' l = Some (q ++ q');
  below_nal : ∀ l, l < hl → nal_at s l = Some true → nal_at s' l = Some true;
  below_label : ∀ p k, st_at s p = Some k → 0 ≤ k → st_at s' p = Some k;
  below_active : ∀ p, st_at s p ≠ Some ACTIVE → st_at s' p ≠ Some ACTIVE;
  below_new : ∀ p l k, at_level p l → l < hl → st_at s' p = Some k → 0 ≤ k →
                       st_at s p = Some k;
  below_unl : (unlabelled s' ≤ unlabelled s)%nat
}.

(** The property [closed] is kept, for every set of pixels left out. *)
Definition keeps_closed (s s' : Flood) : Prop :=
  ∀ X, closed X s → closed X s'.

(** Conditions common to the calls of [flood], of its loop and of the
    inner loop, at level [hl]. *)
Definition at_work (hl : Z) (s : Flood) : Prop :=
  inv s ∧ 0 ≤ hl ∧ nal_at s 0 = Some true ∧ nal_at s hl = Some true.

Definition quiet_above (hl : Z) (s : Flood) : Prop :=
  ∀ l, hl < l → nal_at s l ≠ Some true.

Definition flood_pre (hl : Z) (s : Flood) : Prop :=
  at_work hl s ∧ quiet_above hl s ∧ (∃ p rest, hq_at s hl = Some (p :: rest)).

Definition flood_post (hl : Z) (s : Flood) (m : Z) (s' : Flood) : Prop :=
  inv s' ∧ -1 ≤ m < hl ∧ (0 < hl → 0 ≤ m) ∧
  (0 ≤ m → nal_at s' m = Some true) ∧ quiet_above m s' ∧
  below hl s s' ∧ keeps_closed s s' ∧ (unlabelled s' < unlabelled s)%nat.

Definition while_pre (hl : Z) (s : Flood) : Prop :=
  at_work hl s ∧ quiet_above hl s.

Definition while_post (hl : Z) (s s' : Flood) : Prop :=
  at_work hl s' ∧ quiet_above hl s' ∧ hq_at s' hl = Some [] ∧
  below hl s s' ∧ keeps_closed s s' ∧ nn_at s' hl = nn_at s hl ∧
  (started s hl → started s' hl) ∧
  ((∃ p rest, hq_at s hl = Some (p :: rest)) →
     started s' hl ∧ (unlabelled s' < unlabelled s)%nat).

Definition rise_pre (hl m : Z) (s : Flood) : Prop :=
  at_work hl s ∧ hl < m ∧ nal_at s m = Some true ∧ quiet_above m s ∧
  (∃ p rest, hq_at s m = Some (p :: rest)) ∧
  (∀ l, hl < l → ¬ started s l).

Definition rise_post (hl : Z) (s s' : Flood) : Prop :=
  at_work hl s' ∧ quiet_above hl s' ∧ below (hl + 1) s s' ∧ keeps_closed s s'.

(** What is assumed of the inner loop when the neighbors are scanned
    with [fuel]. *)
Definition rise_ok (fuel : nat) : Prop :=
  ∀ hl m s, rise_pre hl m s → (3 * unlabelled s + 3 ≤ fuel)%nat →
    ∃ s', flood_rise c fuel hl m s = Some s' ∧ rise_post hl s s'.

Definition while_ok (fuel : nat) : Prop :=
  ∀ hl s, while_pre hl s → (3 * unlabelled s + 1 ≤ fuel)%nat →
    ∃ s', flood_while c fuel hl s = Some s' ∧ while_post hl s s'.

Definition flood_ok (fuel : nat) : Prop :=
  ∀ hl s, flood_pre hl s → (3 * unlabelled s + 2 ≤ fuel)%nat →
    ∃ m s', flood c fuel hl s = Some (m, s') ∧ flood_post hl s m s'.

(** The state that [init] leaves. *)
Definition initial (s : Flood) : Prop :=
  let L := Z.to_nat (numberOfLevels c) in
  STATUS s = st0 ∧ hq s = replicate L [] ∧ number_nodes s = replicate L 0 ∧
  node_at_level s = replicate L false ∧
  index s = (λ i : nat, replicate (cap (Z.of_nat i)) None) <$> seq 0 L ∧
  heap s = [].

(** A pixel with a label. *)
Definition labelled (s : Flood) (p : Z) : Prop := ∃ k, st_at s p = Some k ∧ 0 ≤ k.

(** The state that [computeTree] leaves, with the root [root] and the
    pixel [p0] it started from. *)
Definition final (s : Flood) (root : NodeId) (p0 : Z) : Prop :=
  inv s ∧ (∀ l, nal_at s l ≠ Some true) ∧ closed (λ _, False) s ∧
  index_at s 0 0 = Some root ∧ labelled s p0.

(** [path p q]: the pixel [q] is reached from [p] by steps of the
    neighborhood that stay in the image. *)
Inductive path (p : Z) : Z → Prop :=
| path_refl : path p p
| path_step q d : path p q → d ∈ se c → interior (q + d) → path p (q + d).

(** The fields of a node that the flooding reads. *)
Definition same_node (nd nd' : Node) : Prop :=
  label nd' = label nd ∧ h nd' = h nd ∧ active nd' = active nd ∧
  iattr nd' contourLength = iattr nd contourLength ∧
  pixels_border nd' = pixels_border nd ∧
  (blank nd → blank nd').

(** What closing a node does to the node [nd] stored at [n]: the closed
    node [child] gets the parent [f], which gets it as a child (the root
    is closed with itself as parent and is not made its own child). *)
Definition link_mod (f child n : NodeId) (nd : Node) : Node :=
  let nd1 := if decide (n = child) then set_father (Some f) nd else nd in
  if decide (n = f ∧ f ≠ child)
  then set_childs (childs nd1 ++ [child]) nd1 else nd1.

End FloodSpec.

Arguments ctx_len {c st0 cap} _.
Arguments ctx_vals {c st0 cap} _.
Arguments ctx_nbr {c st0 cap} _.
Arguments ctx_range {c st0 cap} _.
Arguments ctx_cap {c st0 cap} _.
Arguments ctx_inj {c st0 cap} _.
Arguments inv_len_index {c st0 cap s} _.
Arguments inv_rows {c st0 cap s} _.
Arguments inv_index {c st0 cap s} _.
Arguments inv_heap_index {c st0 cap s} _.
Arguments inv_open {c st0 cap s} _.
Arguments inv_closed {c st0 cap s} _.
Arguments inv_childs {c st0 cap s} _.
Arguments inv_pixels {c st0 cap s} _.
Arguments inv_fresh {c st0 cap s} _.
Arguments inv_blank {c st0 cap s} _.
Arguments inv_len_status {c st0 cap s} _.
Arguments inv_len_hq {c st0 cap s} _.
Arguments inv_len_nn {c st0 cap s} _.
Arguments inv_len_nal {c st0 cap s} _.
Arguments inv_border {c st0 cap s} _.
Arguments inv_interior {c st0 cap s} _.
Arguments inv_queue {c st0 cap s} _.
Arguments inv_nodup {c st0 cap s} _.
Arguments inv_waiting {c st0 cap s} _.
Arguments inv_nn_pos {c st0 cap s} _.
Arguments inv_label {c st0 cap s} _.
Arguments inv_closed_label {c st0 cap s} _.
Arguments inv_nal {c st0 cap s} _.
Arguments inv_nal_q {c st0 cap s} _.
Arguments inv_nal_s {c st0 cap s} _.
Arguments inv_root {c st0 cap s} _.
Arguments inv_h {c st0 cap s} _.
Arguments inv_owner {c st0 cap s} _.
Arguments inv_pix_nodup {c st0 cap s} _.
Arguments inv_counts {c st0 cap s} _.
Arguments below_nn {c st0 hl s s'} _.
Arguments below_hq {c st0 hl s s'} _.
Arguments below_nal {c st0 hl s s'} _.
Arguments below_label {c st0 hl s s'} _.
Arguments below_active {c st0 hl s s'} _.
Arguments below_new {c st0 hl s s'} _.
Arguments below_unl {c st0 hl s s'} _.

(** ** Images given to the builder *)

(** An image with at least one pixel whose buffer has the length its
    sizes announce. *)
Definition image_ok (img : Image) : Prop :=
  0 < sizeX img ∧ 0 < sizeY img ∧ 0 < sizeZ img ∧
  Z.of_nat (length (data img)) = sizeX img * sizeY img * sizeZ img.

(** The offset, in the image padded by [bk] before its origin, of the
    pixel at [(x, y, z)] of the image. *)
Definition pad (W H : Z) (bk : Z * Z * Z) (p : Z * Z * Z) : Z :=
  getOffset W H (p.1.1 + bk.1.1, p.1.2 + bk.1.2, p.2 + bk.2).

(** The coordinates are those of a pixel of the image. *)
Definition inside (img : Image) (p : Z * Z * Z) : Prop :=
  0 ≤ p.1.1 < sizeX img ∧ 0 ≤ p.1.2 < sizeY img ∧ 0 ≤ p.2 < sizeZ img.

(** The length of the rows of the table of nodes that [init] allocates:
    the number of pixels of each level. *)
Definition histo (img : Image) (lo : Z) (l : Z) : nat :=
  length (filter (λ v, v - lo = l) (data img)).

(** The builder and the state that [init] returns for an image whose
    least and greatest values are [lo] and [hi]. *)
Definition init_strategy (img gradient : Image) (connexity : FlatSE) (lo hi : Z)
    : Strategy :=
  let bk := getNegativeOffsets connexity in
  let fr := getPositiveOffsets connexity in
  let imB := addBorders img bk fr BORDER in
  mkStrategy imB gradient (setContext connexity (sizeX imB) (sizeY imB))
             (sizeX img, sizeY img, sizeZ img) bk fr lo hi.

Definition init_status (img : Image) (connexity : FlatSE) : list Z :=
  data (addBorders (fill ACTIVE img) (getNegativeOffsets connexity)
                   (getPositiveOffsets connexity) BORDER_STATUS).

(** The pixels of the image are values of the pixel type [T]. *)
Definition image_of (T : PixelType) (img : Image) : Prop :=
  Forall (λ v, cast T v = v ∧ v ≤ tmax T) (data img).

(** The square of every value of the image fits an [int]: no product
    [n->h * n->h] of [update_attributes] and no product
    [m_img(q) * m_img(q)] of [computeNeighborhoodAttributes] overflows. *)
Definition squares_fit (img : Image) : Prop :=
  Forall (λ v, v * v < 2 ^ 31) (data img).

(** ** Neighborhoods that connect the image *)

Definition shift (p d : Z * Z * Z) : Z * Z * Z :=
  (p.1.1 + d.1.1, p.1.2 + d.1.2, p.2 + d.2).

(** [linked img connexity p q]: the pixel [q] is reached from [p] by
    steps of the neighborhood through pixels of the image. *)
Inductive linked (img : Image) (connexity : FlatSE) (p : Z * Z * Z)
    : Z * Z * Z → Prop :=
| linked_refl : linked img connexity p p
| linked_step q d :
    linked img connexity p q → d ∈ connexity → inside img (shift q d) →
    linked img connexity p (shift q d).

(** The neighborhood connects the pixels of the image. *)
Definition connected (img : Image) (connexity : FlatSE) : Prop :=
  ∀ p q, inside img p → inside img q → linked img connexity p q.

(** ** What the attribute passes rely on *)

(** [up_ok lo hi root hp]: the levels are between [lo] and [hi], every
    node but [root] has its parent, at a strictly lower level, and
    [root], at level [lo], is its own parent. *)
Definition up_ok (lo hi : Z) (root : NodeId) (hp : Heap) : Prop :=
  (∃ rn, hp !! root = Some rn ∧ father rn = Some root ∧ h rn = lo) ∧
  ∀ n nd, hp !! n = Some nd →
    lo ≤ h nd ≤ hi ∧
    (n = root ∨
     ∃ f fn, father nd = Some f ∧ f ≠ n ∧ hp !! f = Some fn ∧ h fn < h nd).

(** The links and the level of a node. *)
Definition same_tree (nd nd' : Node) : Prop :=
  father nd' = father nd ∧ childs nd' = childs nd ∧ h nd' = h nd.

(** The pixels saved on the contours are offsets of an image of [N]
    pixels. *)
Definition pb_ok (N : Z) (hp : Heap) : Prop :=
  ∀ n nd p, hp !! n = Some nd → p ∈ pixels_border nd → 0 ≤ p < N.

(** The pixel at the offset [o] of the padded image is a pixel of the
    image with a neighbor outside of it. *)
Definition frame_pixel (c : Strategy) (st : list Z) (o : Z) : bool :=
  bool_decide (zget st o ≠ Some BORDER_STATUS) &&
  existsb (λ d, bool_decide (zget st (o + d) = Some BORDER_STATUS)) (se c).

(** Number of pixels of the image on its frame. *)
Definition frame_count (c : Strategy) (st : list Z) : Z :=
  Z.of_nat (length (filter (λ o, frame_pixel c st o = true)
                           (seqZ 0 (Z.of_nat (length (data (imBorder c))))))).

(** What a walk changes: contour lengths, and the lists of contour
    pixels, which receive the pixel of the walk. *)
Definition walked (c : Strategy) (save : bool) (offset : Z) (hp hp' : list Node)
    : Prop :=
  frame (keeps [contourLength] [] save) hp hp' ∧
  ∀ n nd nd' p, hp !! n = Some nd → hp' !! n = Some nd' → p ∈ pixels_border nd' →
                p ∈ pixels_border nd ∨ p = (imOffset_of c offset).1.

(** What the contour scan changes: contour lengths, and the lists of
    contour pixels, which receive offsets of an image of [N] pixels. *)
Definition contoured (save : bool) (N : Z) (hp hp' : list Node) : Prop :=
  frame (keeps [contourLength] [] save) hp hp' ∧
  ∀ n nd nd' p, hp !! n = Some nd → hp' !! n = Some nd' → p ∈ pixels_border nd' →
                p ∈ pixels_border nd ∨ 0 ≤ p < N.

(** The state during the scan: that of the builder, with a heap that
    kept the tree. *)
Definition scanning (c : Strategy) (sF : Flood) (root : NodeId) (s : Flood) : Prop :=
  STATUS s = STATUS sF ∧ index s = index sF ∧
  up_ok (hMin c) (hMax c) root (heap s) ∧ length (heap s) = length (heap sF).


(** What the builder leaves when the neighborhood connects the image:
    every pixel has a label, and the offsets of the pixels are those of
    an image of [N] pixels. *)
Definition built (c : Strategy) (st0 : list Z) (cap : Z → nat) (sF : Flood)
    (root : NodeId) (p0 : Z) (N : Z) : Prop :=
  ctx_ok c st0 cap ∧ final c st0 cap sF root p0 ∧
  (∀ q, interior st0 q → labelled sF q) ∧
  (∀ q, interior st0 q → 0 ≤ (imOffset_of c q).1 < N).

(** A state of the attribute passes: the table of the builder, and a
    heap that kept its tree. *)
Definition ready (c : Strategy) (sF : Flood) (root : NodeId) (s : Flood) : Prop :=
  scanning c sF root s ∧ wf_tree (Z.to_nat (numberOfLevels c)) (heap s) root.

(** The slots written by [computeAttributes(tree)]. *)
Definition attr_slots : list IntAttr :=
  [area; contrast; volume; contourLength; xmin; xmax; ymin; ymax; zmin; zmax; subNodes].
Definition attr_nslots : list NumAttr := [complexity; compacity].

(** ** The neighborhood statistics *)

(** The slots written by [computeNeighborhoodAttributes]. *)
Definition nghb_slots : list IntAttr := [area_nghb; sum_nghb; sum_square_nghb].
Definition nghb_nslots : list NumAttr := [mean_nghb; variance_nghb].

(** [o] is a pixel of the subtree of [n]. *)
Definition subtree_pixel (hp : Heap) (n : NodeId) (o : Z) : Prop :=
  ∃ m nd, reach hp n m ∧ hp !! m = Some nd ∧ o ∈ pixels nd.

(** The offset of the point at the displacement [d] from the pixel [p],
    when it is a point of the image. *)
Definition nghb_target (m_img : Image) (p : Z) (d : Z * Z * Z) : option Z :=
  let '(x, y, z) := getCoord (sizeX m_img) (sizeY m_img) p in
  let q := (x + d.1.1, y + d.1.2, z + d.2) in
  if isPosValid m_img q then Some (getOffset (sizeX m_img) (sizeY m_img) q) else None.

(** [q] is in the ring of the node [n]: a point of the image in the ball
    around a pixel of the subtree of [n] that is not a pixel of this
    subtree. *)
Definition ring_pixel (m_img : Image) (ball : FlatSE) (hp : Heap) (n : NodeId)
    (q : Z) : Prop :=
  ¬ subtree_pixel hp n q ∧
  ∃ p d, subtree_pixel hp n p ∧ d ∈ ball ∧ nghb_target m_img p d = Some q.

(** Sum of [f] over the values of the pixels of [R]. *)
Definition pixel_sum (f : Z → Z) (m_img : Image) (R : list Z) : Z :=
  foldr (λ q acc, f (default 0 (zget (data m_img) q)) + acc) 0 R.

(** The node [nd], at [n], holds the statistics of its ring: the number
    of pixels of the ring, the sums of their values and of the squares of
    their values and, when the ring is not empty, their mean and
    variance; mean and variance of an empty ring are left at 0. *)
Definition ring_stats (m_img : Image) (ball : FlatSE) (hp : Heap) (n : NodeId)
    (nd : Node) : Prop :=
  ∃ R, NoDup R ∧ (∀ q, q ∈ R ↔ ring_pixel m_img ball hp n q) ∧
       iattr nd area_nghb = Z.of_nat (length R) ∧
       iattr nd sum_nghb = pixel_sum (λ v, v) m_img R ∧
       iattr nd sum_square_nghb = pixel_sum (λ v, v * v) m_img R ∧
       nattr nd mean_nghb =
         (if decide (R = []) then LdInt 0
          else LdDiv (LdInt (iattr nd sum_nghb)) (LdInt (iattr nd area_nghb))) ∧
       nattr nd variance_nghb =
         (if decide (R = []) then LdInt 0
          else LdSub (LdDiv (LdInt (iattr nd sum_square_nghb)) (LdInt (iattr nd area_nghb)))
                     (LdMul (nattr nd mean_nghb) (nattr nd mean_nghb))).

(** The table [active] of [computeNeighborhoodAttributes]: a flag for
    each pixel of the image, set for the pixels outside of [X]. *)
Definition act_ok (m_img : Image) (act : list bool) (X : Z → Prop) : Prop :=
  length act = length (data m_img) ∧
  ∀ q, 0 ≤ q < Z.of_nat (length (data m_img)) →
       ∃ b, zget act q = Some b ∧ (b = true ↔ ¬ X q).

(** The node [nd'] is [nd] with the pixels of [R] added to its
    neighborhood counters. *)
Definition ring_acc (m_img : Image) (nd nd' : Node) (R : list Z) : Prop :=
  keeps nghb_slots [] false nd nd' ∧
  iattr nd' area_nghb = iattr nd area_nghb + Z.of_nat (length R) ∧
  iattr nd' sum_nghb = iattr nd sum_nghb + pixel_sum (λ v, v) m_img R ∧
  iattr nd' sum_square_nghb =
    iattr nd sum_square_nghb + pixel_sum (λ v, v * v) m_img R.

(** The state of the loops of [computeNeighborhoodAttributes] on the node
    [nd], at [n] in [hp], whose subtree has the pixels [px], once the
    points of [Dn] were examined: the points outside of [px] were
    counted, once each. *)
Definition ring_state (m_img : Image) (px : list Z) (hp : Heap) (n : NodeId)
    (nd : Node) (Dn : Z → Prop) (s : list bool * list Node) : Prop :=
  ∃ R nd', s.2 = <[n := nd']> hp ∧ ring_acc m_img nd nd' R ∧ NoDup R ∧
           (∀ q, q ∈ R ↔ (q ∉ px) ∧ Dn q) ∧
           act_ok m_img s.1 (λ q, q ∈ px ∨ q ∈ R).

(** ** The rule [MIN] of the reconstruction *)

(** [chained hp a n]: [n] is reached from [a] through active nodes, [a]
    and [n] included. *)
Inductive chained (hp : Heap) (a : NodeId) : NodeId → Prop :=
| chained_refl an : hp !! a = Some an → active an = true → chained hp a a
| chained_child m mn c cn :
    chained hp a m → hp !! m = Some mn → c ∈ childs mn →
    hp !! c = Some cn → active cn = true → chained hp a c.

(** [cut_at hp a m]: [m] is [a], or a node of the subtree of a child of
    [a] that is not active. *)
Definition cut_at (hp : Heap) (a m : NodeId) : Prop :=
  m = a ∨
  ∃ an c cn, hp !! a = Some an ∧ c ∈ childs an ∧ hp !! c = Some cn ∧
             active cn = false ∧ reach hp c m.

(** The level that the rule [MIN] gives to the pixels of [m]: that of
    the last node on the path from the root to [m] that is reached
    through active nodes only. *)
Definition min_level (hp : Heap) (root m : NodeId) (v : Z) : Prop :=
  ∃ a an, chained hp root a ∧ cut_at hp a m ∧ hp !! a = Some an ∧ v = h an.

(** ** The counters of the subtrees *)

(** Sum of [f] over the nodes of the subtree of [n], explored to depth
    [d]. *)
Fixpoint subtree_sum (d : nat) (hp : Heap) (f : NodeId → Node → Z) (n : NodeId) : Z :=
  match d with
  | O => 0
  | S d' =>
      match hp !! n with
      | None => 0
      | Some nd => f n nd + foldr Z.add 0 (subtree_sum d' hp f <$> childs nd)
      end
  end.

(** [local_contrast] of [computeVolume] for the node [nd] at [n]: its
    level for the root, the difference with the level of its parent for
    another node. *)
Definition local_contrast (hp : Heap) (n : NodeId) (nd : Node) : Z :=
  match father nd with
  | Some f => if decide (f = n) then h nd else h nd - default 0 (h <$> hp !! f)
  | None => 0
  end.

(** [R] lists the pixels of the subtree of [n], once each. *)
Definition region_of (hp : Heap) (n : NodeId) (R : list Z) : Prop :=
  NoDup R ∧ ∀ q, q ∈ R ↔ subtree_pixel hp n q.

(** The node [nd], at [n], holds the number of pixels of its subtree. *)
Definition region_area (hp : Heap) (n : NodeId) (nd : Node) : Prop :=
  ∃ R, region_of hp n R ∧ iattr nd area = Z.of_nat (length R).

(** The node [nd], at [n], holds the number of pixels of its subtree, the
    sum of their values and the sum of the squares of their values. *)
Definition region_sums (m_img : Image) (hp : Heap) (n : NodeId) (nd : Node) : Prop :=
  ∃ R, region_of hp n R ∧
       iattr nd area = Z.of_nat (length R) ∧
       iattr nd sum = pixel_sum (λ v, v) m_img R ∧
       iattr nd sum_square = pixel_sum (λ v, v * v) m_img R.

(** The node [nd], at [n], holds in [volume] the sum, over the pixels of
    its subtree, of the value of the pixel minus the level of the parent
    of [n] (minus 0 for the root). *)
Definition region_volume (m_img : Image) (hp : Heap) (n : NodeId) (nd : Node) : Prop :=
  ∃ R f fn, region_of hp n R ∧ father nd = Some f ∧ hp !! f = Some fn ∧
            iattr nd volume =
              pixel_sum (λ v, v - (if decide (f = n) then 0 else h fn)) m_img R.

(** What the counting passes rely on: a list of children names no node
    twice, a list of pixels holds no pixel twice and only pixels whose
    value is the level of the node, and no two nodes hold the same
    pixel. *)
Definition regions_ok (m_img : Image) (hp : Heap) : Prop :=
  (∀ n nd, hp !! n = Some nd →
     NoDup (childs nd) ∧ NoDup (pixels nd) ∧
     ∀ o, o ∈ pixels nd → zget (data m_img) o = Some (h nd)) ∧
  (∀ n n' nd nd' o, hp !! n = Some nd → hp !! n' = Some nd' →
     o ∈ pixels nd → o ∈ pixels nd' → n = n').

(** [v] is the greatest difference between the level of a node of the
    subtree of [n] and the level [hn]. *)
Definition top_value (hp : Heap) (n : NodeId) (hn v : Z) : Prop :=
  (∀ m md, reach hp n m → hp !! m = Some md → h md - hn ≤ v) ∧
  ∃ m md, reach hp n m ∧ hp !! m = Some md ∧ v = h md - hn.

(** [v] is this difference for the node at [m] and its own level. *)
Definition top_at (hp : Heap) (m : NodeId) (v : Z) : Prop :=
  ∃ md, hp !! m = Some md ∧ top_value hp m (h md) v.

(** The node [nd], at [n], holds in [contrast] the height of its
    subtree: the greatest level of the subtree minus its own level. *)
Definition top_contrast (hp : Heap) (n : NodeId) (nd : Node) : Prop :=
  top_value hp n (h nd) (iattr nd contrast).

(** ** The passes selected by a mask *)

(** The slots written by the bundles other than [AREA] and [OTSU]. *)
Definition late_slots : list IntAttr :=
  [contrast; volume; contourLength; subNodes; xmin; xmax; ymin; ymax; zmin; zmax].
Definition late_nslots : list NumAttr :=
  [mser; area_derivative_h; area_derivative_areaN; area_derivative_areaN_h;
   area_derivative_areaN_h_derivative; area_derivative_delta_h;
   area_derivative_delta_areaF; mean_gradient_border; complexity; compacity].

(** A step of the attribute engine that returns on every state of the
    passes, writes the slots of these bundles only, and keeps the contour
    pixels inside an image of [N] pixels. *)
Definition stage (c : Strategy) (sF : Flood) (root : NodeId) (N : Z)
    (f : nat → Flood → option Flood) : Prop :=
  ∀ s, ready c sF root s → pb_ok N (heap s) →
       ∃ hp', converges (λ fuel, f fuel s) (set_heap hp' s) ∧
              frame (keeps late_slots late_nslots true) (heap s) hp' ∧
              pb_ok N hp'.

(** The node holds its mean, its variance and its Otsu criterion. *)
Definition otsu_node (nd : Node) : Prop :=
  nattr nd mean = LdDiv (LdInt (iattr nd sum)) (LdInt (iattr nd area)) ∧
  nattr nd variance =
    LdSub (LdDiv (LdInt (iattr nd sum_square)) (LdInt (iattr nd area)))
          (LdMul (nattr nd mean) (nattr nd mean)) ∧
  nattr nd otsu = otsu_of nd.

(** The slots written by [computeAttributes(tree, ca, delta)]. *)
Definition ca_slots : list IntAttr :=
  [area; sum; sum_square; contrast; volume; contourLength; subNodes;
   xmin; xmax; ymin; ymax; zmin; zmax].
Definition ca_nslots : list NumAttr :=
  [mean; variance; otsu; mser; area_derivative_h; area_derivative_areaN;
   area_derivative_areaN_h; area_derivative_areaN_h_derivative;
   area_derivative_delta_h; area_derivative_delta_areaF; mean_gradient_border;
   complexity; compacity].

(** ** Lookup of the node of a pixel *)

(** [offsetToNode(offset)]: the loop over the queue.  The result is the
    first node of the queue order whose list of pixels holds [offset],
    and the null pointer when the queue runs empty. *)
Fixpoint offsetToNode_loop (fuel : nat) (hp : Heap) (offset : Z) (fifo : list NodeId)
    : option (option NodeId) :=
  match fuel with
  | O => None
  | S fuel' =>
      match fifo with
      | [] => Some None
      | n :: fifo' =>
          nd ← hp !! n;
          if existsb (λ p, p =? offset) (pixels nd) then Some (Some n)
          else offsetToNode_loop fuel' hp offset (fifo' ++ childs nd)
      end
  end.

(** A null root is pushed and skipped by the test [n != 0]. *)
Definition offsetToNode (fuel : nat) (m_root : option NodeId) (hp : Heap) (offset : Z)
    : option (option NodeId) :=
  match m_root with
  | Some r => offsetToNode_loop fuel hp offset [r]
  | None => Some None
  end.

(** [indexedNodes()]: the table, of the size of the image, that gives
    for each offset the node whose list of pixels holds it.  The entries
    start as null pointers; [index[*it] = n] outside of the table does
    not return.  The size is computed in [unsigned int]. *)
Fixpoint indexedNodes_pixels (index : list (option NodeId)) (n : NodeId) (px : list Z)
    : option (list (option NodeId)) :=
  match px with
  | [] => Some index
  | o :: px' => index' ← zset index o (Some n); indexedNodes_pixels index' n px'
  end.

Definition indexedNodes_visit (hp : Heap) (index : list (option NodeId)) (n : NodeId)
    : option (list (option NodeId) * list NodeId) :=
  nd ← hp !! n;
  index' ← indexedNodes_pixels index n (pixels nd);
  Some (index', childs nd).

Definition indexedNodes (fuel : nat) (m_img : Image) (m_root : option NodeId) (hp : Heap)
    : option (list (option NodeId)) :=
  let img_size := (sizeX m_img * sizeY m_img * sizeZ m_img) mod 2 ^ 32 in
  let index := replicate (Z.to_nat img_size) None in
  match m_root with
  | Some r => queue_loop (indexedNodes_visit hp) fuel index [r]
  | None => Some index
  end.

(** ** Inclusion of a structuring element in a component *)

(** [isInclude(se, pixels)]: [se] is given by its offsets. *)
Definition isInclude (se : list Z) (pixels : list Z) : bool :=
  if Z.of_nat (length se) >? Z.of_nat (length pixels) then false
  else existsb (λ p, forallb (λ d, existsb (λ p2, p2 =? d + p) pixels) se) pixels.

(** ** Writing image files *)

(** [file << n] for a number that is not negative: its decimal digits.
    The fuel is the number of binary digits of [n], which is enough. *)
Fixpoint decimal_digits (fuel : nat) (n : Z) (acc : list Z) : list Z :=
  let acc' := (48 + n mod 10) :: acc in
  match fuel with
  | O => acc'
  | S fuel' => if n <? 10 then acc' else decimal_digits fuel' (n / 10) acc'
  end.

Definition decimal (n : Z) : list Z :=
  decimal_digits (Z.to_nat (Z.log2 n)) n [].

(** The characters of "#CREATOR: GImage " and of "255". *)
Definition creator : list Z :=
  [35; 67; 82; 69; 65; 84; 79; 82; 58; 32; 71; 73; 109; 97; 103; 101; 32].
Definition max255 : list Z := [50; 53; 53].

(** [Image<U8>::save(filename)]: the content written to the file, for a
    file that can be opened ([ok]); the call returns 0 and writes nothing
    otherwise.  [data] is the buffer of the image, of which
    [width * height] bytes are written. *)
Definition save_U8 (ok : bool) (sizeX sizeY : Z) (data : list Z)
    : Z * option (list Z) :=
  if ok then
    (1, Some (P5 ++ [10] ++ creator ++ [10] ++
              decimal sizeX ++ [32] ++ decimal sizeY ++ [10] ++ max255 ++ [10] ++
              take (Z.to_nat (sizeX * sizeY)) data ++ [10]))
  else (0, None).

(** * Trees in the heap: traversal lemmas *)

Lemma converges_fun {A} (f : nat → option A) r1 r2 :
  converges f r1 → converges f r2 → r1 = r2.
Proof.
  intros [k1 H1] [k2 H2].
  specialize (H1 (k1 `max` k2)%nat). specialize (H2 (k1 `max` k2)%nat).
  rewrite H1 in H2 by lia. injection H2 as ->; [done | lia].
Qed.

Lemma sum_list_app (l1 l2 : list nat) :
  sum_list (l1 ++ l2) = (sum_list l1 + sum_list l2)%nat.
Proof. induction l1; simpl; lia. Qed.

Lemma queue_loop_total {S : Type} (visit : S → NodeId → option (S * list NodeId))
    (W : NodeId → nat) (I : S → list NodeId → Prop) :
  (∀ s n q, I s (n :: q) →
     ∃ s' pushed, visit s n = Some (s', pushed) ∧ I s' (q ++ pushed) ∧
                  (sum_list (W <$> pushed) < W n)%nat) →
  ∀ s q, I s q →
    ∃ s', (∀ fuel, (sum_list (W <$> q) < fuel)%nat → queue_loop visit fuel s q = Some s')
          ∧ I s' [].
Proof.
  intros Hstep s q. remember (sum_list (W <$> q)) as k eqn:Hk.
  revert s q Hk. induction k as [k IH] using lt_wf_ind. intros s [|n q] -> HI.
  - exists s. split; [|done]. intros [|fuel] ?; [lia|done].
  - destruct (Hstep _ _ _ HI) as (s' & pushed & Hv & HI' & Hlt).
    destruct (IH (sum_list (W <$> (q ++ pushed)))) with (s := s') (q := q ++ pushed)
      as (s'' & Hrun & Hfin); [|done|exact HI'|].
    + rewrite fmap_app, sum_list_app, fmap_cons. simpl. lia.
    + exists s''. split; [|done]. intros [|fuel] Hf; [lia|]. simpl. rewrite Hv. simpl.
      apply Hrun. rewrite fmap_app, sum_list_app. rewrite fmap_cons in Hf. simpl in Hf. lia.
Qed.

Lemma converges_of_bound {A} (f : nat → option A) r k :
  (∀ fuel, (k < fuel)%nat → f fuel = Some r) → converges f r.
Proof. intros H. exists (S k). intros fuel ?. apply H. lia. Qed.

(** ** [tree_ok], [reach] and [weight] *)

Lemma tree_ok_unfold d hp n :
  tree_ok (S d) hp n = true ↔
  ∃ nd, hp !! n = Some nd ∧
        ∀ c, c ∈ childs nd →
             ∃ cn, hp !! c = Some cn ∧ father cn = Some n ∧ tree_ok d hp c = true.
Proof.
  simpl. destruct (hp !! n) as [nd|]; [|split; [done|intros (?&?&_); done]].
  rewrite forallb_forall. split.
  - intros H. exists nd. split; [done|]. intros c Hc.
    apply list_elem_of_In, H in Hc. destruct (hp !! c) as [cn|]; [|done].
    apply andb_true_iff in Hc as [Hf Hc]. apply bool_decide_eq_true in Hf. eauto.
  - intros (nd' & [= <-] & H) c Hc. apply list_elem_of_In, H in Hc as (cn & -> & Hf & Hc).
    rewrite Hc, andb_true_r. by apply bool_decide_eq_true.
Qed.

Lemma tree_ok_S d hp n : tree_ok d hp n = true → tree_ok (S d) hp n = true.
Proof.
  revert n. induction d as [|d IH]; intros n; [done|].
  rewrite !tree_ok_unfold. intros (nd & Hn & Hc). exists nd. split; [done|].
  intros c Hin. destruct (Hc c Hin) as (cn & ? & ? & ?). eauto.
Qed.

Lemma tree_ok_mono d d' hp n :
  (d ≤ d')%nat → tree_ok d hp n = true → tree_ok d' hp n = true.
Proof. induction 1; [done|]. intros. by apply tree_ok_S, IHle. Qed.

Lemma weight_stable d hp n d' :
  tree_ok d hp n = true → (d ≤ d')%nat → weight d' hp n = weight d hp n.
Proof.
  revert n d'. induction d as [|d IH]; intros n d' Hok Hle; [done|].
  destruct d' as [|d']; [lia|].
  apply tree_ok_unfold in Hok as (nd & Hn & Hc). simpl. rewrite Hn. f_equal. f_equal.
  apply list_fmap_ext. intros i c Hi. apply list_elem_of_lookup_2 in Hi.
  destruct (Hc c Hi) as (cn & _ & _ & Hok). apply IH; [done|lia].
Qed.

Lemma tree_ok_reach d hp a n :
  tree_ok d hp a = true → reach hp a n →
  ∃ d', (S d' ≤ d)%nat ∧ tree_ok (S d') hp n = true.
Proof.
  intros Hok Hr. induction Hr as [|m c nd Hr IH Hm Hc].
  - destruct d as [|d]; [done|]. exists d. done.
  - destruct IH as (d' & Hle & Hok'). apply tree_ok_unfold in Hok' as (nd' & Hm' & Hcs).
    assert (nd' = nd) as -> by congruence.
    destruct (Hcs c Hc) as (cn & _ & _ & Hokc).
    destruct d' as [|d'']; [done|]. exists d''. split; [lia|done].
Qed.

Lemma weight_reach D hp root n :
  tree_ok D hp root = true → reach hp root n →
  ∃ nd, hp !! n = Some nd ∧
        weight D hp n = S (sum_list (weight D hp <$> childs nd)) ∧
        ∀ c, c ∈ childs nd → ∃ cn, hp !! c = Some cn ∧ father cn = Some n.
Proof.
  intros Hok Hr. destruct (tree_ok_reach _ _ _ _ Hok Hr) as (d' & Hle & Hokn).
  pose proof Hokn as Hokn'. apply tree_ok_unfold in Hokn' as (nd & Hn & Hcs).
  exists nd. split; [done|]. split.
  - rewrite (weight_stable _ _ _ D Hokn Hle). simpl. rewrite Hn. f_equal. f_equal.
    apply list_fmap_ext. intros i c Hi. apply list_elem_of_lookup_2 in Hi.
    destruct (Hcs c Hi) as (cn & _ & _ & Hokc). symmetry. apply weight_stable; [done|lia].
  - intros c Hc. destruct (Hcs c Hc) as (cn & ? & ? & _). eauto.
Qed.

Lemma reach_trans hp a b c : reach hp a b → reach hp b c → reach hp a c.
Proof. intros Hab Hbc. induction Hbc; [done|]. eapply reach_child; eauto. Qed.

Lemma reach_head hp a b :
  reach hp a b →
  b = a ∨ ∃ nd c, hp !! a = Some nd ∧ c ∈ childs nd ∧ reach hp c b.
Proof.
  induction 1 as [|m c nd Hr IH Hm Hc]; [by left|]. right.
  destruct IH as [->|(nd' & c' & Ha & Hc' & Hr')].
  - exists nd, c. split_and!; [done..|constructor].
  - exists nd', c'. split_and!; [done..|]. eapply reach_child; eauto.
Qed.

Lemma sum_list_sublist_weight (W : NodeId → nat) (l1 l2 : list NodeId) :
  sublist l1 l2 → (sum_list (W <$> l1) ≤ sum_list (W <$> l2))%nat.
Proof. induction 1; csimpl; lia. Qed.

(** ** Traversals that rewrite every node *)

Lemma map_bfs (g : Node → Node) hp0 root D :
  tree_ok D hp0 root = true →
  (∀ nd, childs (g nd) = childs nd) →
  (∀ nd, g (g nd) = g nd) →
  ∃ hp', converges (λ fuel, queue_loop (map_visit g) fuel hp0 [root]) hp' ∧
         length hp' = length hp0 ∧
         (∀ n, reach hp0 root n → hp' !! n = g <$> hp0 !! n) ∧
         (∀ n, ¬ reach hp0 root n → hp' !! n = hp0 !! n) ∧
         (∀ n, reach hp0 root n ∨ ¬ reach hp0 root n).
Proof.
  intros Hok Hg Hidem.
  set (I := λ (hp : Heap) (q : list NodeId),
    ∃ V : list NodeId,
      (∀ n, n ∈ V → reach hp0 root n) ∧ (∀ n, n ∈ q → reach hp0 root n) ∧
      (∀ n, reach hp0 root n → n ∈ V ∨ ∃ m, m ∈ q ∧ reach hp0 m n) ∧
      length hp = length hp0 ∧
      ∀ n, hp !! n = if decide (n ∈ V) then g <$> hp0 !! n else hp0 !! n).
  destruct (queue_loop_total (map_visit g) (weight D hp0) I) with (s := hp0) (q := [root])
    as (hp' & Hrun & V & HV & _ & Hall & Hlen & Hlook).
  - intros hp n q (V & HV & Hq & Hall & Hlen & Hlook).
    assert (reach hp0 root n) as Hrn by (apply Hq; left).
    destruct (weight_reach _ _ _ _ Hok Hrn) as (nd0 & Hn0 & Hw & _).
    assert (∃ nd, hp !! n = Some nd ∧ childs nd = childs nd0 ∧ g nd = g nd0) as (nd & Hn & Hcs & Hgn).
    { pose proof (Hlook n) as Hn. rewrite Hn0 in Hn.
      destruct (decide (n ∈ V)); simpl in Hn; eauto. }
    exists (<[n := g nd]> hp), (childs nd). unfold map_visit. rewrite Hn. simpl.
    split; [done|]. split; [|rewrite Hcs, Hw; lia].
    exists (n :: V). split_and!.
    + intros m [->|?]%elem_of_cons; auto.
    + intros m [?|Hm]%elem_of_app; [apply Hq; by right|].
      rewrite Hcs in Hm. eapply reach_child; eauto.
    + intros m Hm. destruct (Hall m Hm) as [?|(m' & [->|Hm']%elem_of_cons & Hr)].
      * left. by right.
      * apply reach_head in Hr as [->|(nd' & c & Hn' & Hc & Hr)]; [left; by left|].
        right. exists c. split; [|done]. apply elem_of_app. right.
        rewrite Hcs. congruence.
      * right. exists m'. split; [|done]. apply elem_of_app. by left.
    + by rewrite length_insert.
    + intros m. destruct (decide (m = n)) as [->|Hne].
      * rewrite list_lookup_insert_eq by (apply lookup_lt_Some in Hn; done).
        rewrite decide_True by (by left). by rewrite Hn0, Hgn.
      * rewrite list_lookup_insert_ne by done. rewrite Hlook.
        destruct (decide (m ∈ V)); [rewrite decide_True by (by right)|
                                    rewrite decide_False by (by intros [?|?]%elem_of_cons)]; done.
  - exists []. split_and!; try done.
    + intros n Hn. by apply elem_of_nil in Hn.
    + intros n Hn. apply elem_of_cons in Hn as [->|Hn]; [constructor|by apply elem_of_nil in Hn].
    + intros n Hn. right. exists root. split; [by left|done].
  - assert (∀ n, reach hp0 root n → n ∈ V) as HV'.
    { intros n Hn. destruct (Hall n Hn) as [?|(?&Hnil&_)]; [done|by apply elem_of_nil in Hnil]. }
    exists hp'. split; [by eapply converges_of_bound|]. split; [done|]. split_and!.
    + intros n Hn. rewrite Hlook. by rewrite decide_True by auto.
    + intros n Hn. rewrite Hlook. rewrite decide_False; [done|]. intros ?. apply Hn. auto.
    + intros n. destruct (decide (n ∈ V)); [left; auto|right; auto].
Qed.

(** ** Heaps with the same links *)

Lemma same_links_lookup hp hp' n nd :
  same_links hp hp' → hp !! n = Some nd →
  ∃ nd', hp' !! n = Some nd' ∧ childs nd' = childs nd ∧ father nd' = father nd.
Proof.
  intros Hs Hn. specialize (Hs n). rewrite Hn in Hs. simpl in Hs.
  destruct (hp' !! n) as [nd'|]; [|done]. injection Hs as Hf Hc. eauto.
Qed.

Lemma same_links_sym hp hp' : same_links hp hp' → same_links hp' hp.
Proof. intros H n. by rewrite H. Qed.

Lemma same_links_trans hp1 hp2 hp3 :
  same_links hp1 hp2 → same_links hp2 hp3 → same_links hp1 hp3.
Proof. intros H1 H2 n. by rewrite H1, H2. Qed.

Lemma tree_ok_same_links d hp hp' n :
  same_links hp hp' → tree_ok d hp n = true → tree_ok d hp' n = true.
Proof.
  intros Hs. revert n. induction d as [|d IH]; intros n; [done|].
  rewrite !tree_ok_unfold. intros (nd & Hn & Hc).
  destruct (same_links_lookup _ _ _ _ Hs Hn) as (nd' & Hn' & Hcs & _).
  exists nd'. split; [done|]. intros c Hin. rewrite Hcs in Hin.
  destruct (Hc c Hin) as (cn & Hcn & Hf & Hok).
  destruct (same_links_lookup _ _ _ _ Hs Hcn) as (cn' & Hcn' & _ & Hf').
  exists cn'. split_and!; [done|congruence|by apply IH].
Qed.

Lemma reach_same_links hp hp' a b :
  same_links hp hp' → reach hp a b → reach hp' a b.
Proof.
  intros Hs. induction 1 as [|m c nd Hr IH Hm Hc]; [constructor|].
  destruct (same_links_lookup _ _ _ _ Hs Hm) as (nd' & Hm' & Hcs & _).
  eapply reach_child; [done..|]. by rewrite Hcs.
Qed.

(** * Filters *)

Lemma filter_visit_map a lo hi hp cur :
  filter_visit a lo hi hp cur = map_visit (filter_node a lo hi) hp cur.
Proof.
  unfold filter_visit, map_visit, filter_node.
  destruct (hp !! cur) as [nd|] eqn:Hn; simpl; [|done].
  destruct (_ || _); [done|]. by rewrite list_insert_id.
Qed.

Lemma queue_loop_ext {S} (v1 v2 : S → nat → option (S * list nat)) fuel s q :
  (∀ s n, v1 s n = v2 s n) → queue_loop v1 fuel s q = queue_loop v2 fuel s q.
Proof.
  intros He. revert s q. induction fuel as [|fuel IH]; intros s q; [done|].
  destruct q as [|n q]; [done|]. simpl. rewrite He.
  destruct (v2 s n) as [[s' p]|]; simpl; [apply IH|done].
Qed.

Lemma attrFiltering_spec a lo hi hp root D :
  tree_ok D hp root = true →
  ∃ hp', converges (λ fuel, attrFiltering a fuel lo hi (Some root) hp) hp' ∧
         filter_post a lo hi hp root hp'.
Proof.
  intros Hok.
  destruct (map_bfs (filter_node a lo hi) hp root D Hok)
    as (hp' & Hc & Hlen & Hin & Hout & Hdec).
  { intros nd. unfold filter_node. by destruct (_ || _). }
  { intros nd. unfold filter_node.
    destruct ((iattr nd a <? lo) || (iattr nd a >? hi)) eqn:E; simpl; by rewrite E. }
  exists hp'. split.
  - destruct Hc as [k Hk]. exists k. intros fuel Hf. simpl.
    rewrite (queue_loop_ext _ _ _ _ _ (filter_visit_map a lo hi)). by apply Hk.
  - split; [done|]. intros n nd Hn. destruct (Hdec n) as [Hr|Hr].
    + rewrite (Hin n Hr), Hn. simpl. eexists. split; [done|].
      unfold filter_node.
      destruct (iattr nd a <? lo) eqn:E1; destruct (iattr nd a >? hi) eqn:E2; simpl;
        (split; [by destruct nd|]); (split; [|done]); intros _.
      all: try (symmetry; apply andb_false_iff; right; apply bool_decide_eq_false; lia).
      rewrite bool_decide_eq_true_2; [by rewrite andb_true_r|]. lia.
    + rewrite (Hout n Hr), Hn. eexists. split; [done|]. split; [by destruct nd|]. done.
Qed.

(** C6: [areaFiltering] and [contrastFiltering] return, having cleared
    [active] exactly on the nodes of the tree whose attribute is outside
    [[lo, hi]]; no node is removed, no flag is set to true and no other
    field of any node changes.  The loop of [volumicFiltering] does the
    same with [volume], but this function, declared [int] like the other
    two, has no [return] statement: the call is undefined once its loop
    is over. *)
Theorem volumicFiltering_has_no_return (lo hi : Z) (hp : list Node)
    (root D : nat) :
  tree_ok D hp root = true →
  (∃ hp', converges (λ fuel, areaFiltering fuel lo hi (Some root) hp) hp' ∧
          filter_post area lo hi hp root hp') ∧
  (∃ hp', converges (λ fuel, contrastFiltering fuel lo hi (Some root) hp) hp' ∧
          filter_post contrast lo hi hp root hp') ∧
  (∃ hp', converges (λ fuel, volumicFiltering_loop fuel lo hi (Some root) hp) hp' ∧
          filter_post volume lo hi hp root hp') ∧
  converges (λ fuel, volumicFiltering fuel lo hi (Some root) hp) Undefined.
Proof.
  intros Hok. split_and!; [by eapply attrFiltering_spec..|].
  destruct (attrFiltering_spec volume lo hi hp root D Hok) as (hp' & [k Hk] & _).
  exists k. intros fuel Hf. unfold volumicFiltering, volumicFiltering_loop.
  by rewrite (Hk fuel Hf).
Qed.

Lemma volumicFiltering_has_no_return_witness :
  tree_ok 3 ex_heap 0 = true ∧
  (∃ hp', converges (λ fuel, areaFiltering fuel 2 9 (Some 0%nat) ex_heap) hp' ∧
          filter_post area 2 9 ex_heap 0 hp') ∧
  (∃ hp', converges (λ fuel, contrastFiltering fuel 2 9 (Some 0%nat) ex_heap) hp' ∧
          filter_post contrast 2 9 ex_heap 0 hp') ∧
  (∃ hp', converges (λ fuel, volumicFiltering_loop fuel 2 9 (Some 0%nat) ex_heap) hp' ∧
          filter_post volume 2 9 ex_heap 0 hp') ∧
  converges (λ fuel, volumicFiltering fuel 2 9 (Some 0%nat) ex_heap) Undefined.
Proof.
  split; [reflexivity|].
  exact (volumicFiltering_has_no_return 2 9 ex_heap 0 3 eq_refl).
Defined.

(** * Reconstruction under MIN with an inactive root *)

Lemma fill_lookup v res (i : nat) x :
  data (fill v res) !! i = Some x → x = v.
Proof. simpl. intros [-> _]%lookup_replicate. done. Qed.

(** C10: when the root is not active, [constructImage(MIN)] returns the
    image filled with zero, whatever the other nodes are. *)
Theorem constructImage_MIN_inactive_root (T : PixelType) (fuel : nat)
    (hp : list Node) (r : nat) (rn : Node) (res : Image) :
  hp !! r = Some rn → active rn = false →
  ∃ res', constructImage T fuel hp (Some r) res MIN = Some (hp, res') ∧
          length (data res') = length (data res) ∧
          ∀ (i : nat) x, data res' !! i = Some x → x = 0.
Proof.
  intros Hr Hact. exists (fill 0 res). split_and!.
  - simpl. unfold constructImageMin. rewrite Hr. simpl. by rewrite Hact.
  - simpl. by rewrite length_replicate.
  - apply fill_lookup.
Qed.

Lemma constructImage_MIN_inactive_root_witness :
  ∃ res', constructImage U8 0 (setFalse_heap_example) (Some 0%nat) ex_res MIN
            = Some (setFalse_heap_example, res') ∧
          length (data res') = length (data ex_res) ∧
          ∀ (i : nat) x, data res' !! i = Some x → x = 0.
Proof.
  exact (constructImage_MIN_inactive_root U8 0 setFalse_heap_example 0
           (set_active false (ex_node 0 0%nat [1%nat] [0; 1] true 4)) ex_res
           eq_refl eq_refl).
Defined.

(** * Reconstruction under DIRECT *)

Lemma set_h_id nd : set_h (h nd) nd = nd.
Proof. by destruct nd. Qed.

Lemma zset_Some {A} (l : list A) i x :
  0 ≤ i < Z.of_nat (length l) → zset l i x = Some (<[Z.to_nat i := x]> l).
Proof.
  intros Hi. unfold zset.
  destruct (0 <=? i) eqn:E1; [|lia]. destruct (i <? Z.of_nat (length l)) eqn:E2; [done|lia].
Qed.

Lemma paint_spec res offs v :
  (∀ o, o ∈ offs → 0 ≤ o < Z.of_nat (length (data res))) →
  ∃ res', paint res offs v = Some res' ∧
          sizeX res' = sizeX res ∧ sizeY res' = sizeY res ∧ sizeZ res' = sizeZ res ∧
          length (data res') = length (data res) ∧
          ∀ i : nat, data res' !! i =
                     if decide (Z.of_nat i ∈ offs) then Some v else data res !! i.
Proof.
  revert res. induction offs as [|o offs IH]; intros res Hr.
  - exists res. split_and!; done.
  - assert (0 ≤ o < Z.of_nat (length (data res))) as Ho by (apply Hr; left).
    simpl. unfold img_write. rewrite zset_Some by done. simpl.
    destruct (IH (mkImage (sizeX res) (sizeY res) (sizeZ res) (<[Z.to_nat o:=v]> (data res))))
      as (res' & Hp & ? & ? & ? & Hlen & Hlook).
    { simpl. rewrite length_insert. intros o' Ho'. apply Hr. by right. }
    simpl in *. rewrite length_insert in Hlen.
    exists res'. split_and!; try done. intros i. rewrite Hlook.
    destruct (decide (Z.of_nat i ∈ offs)) as [Hi|Hi].
    + rewrite decide_True; [done|by right].
    + destruct (decide (Z.of_nat i = o)) as [<-|Hne].
      * rewrite decide_True by (by left). rewrite Nat2Z.id.
        apply list_lookup_insert_eq. lia.
      * rewrite decide_False by (by intros [?|?]%elem_of_cons).
        apply list_lookup_insert_ne. lia.
Qed.

Lemma level_of_reach hp root n v : level_of hp root n v → reach hp root n.
Proof. induction 1; [done|]. eapply reach_child; eauto. Qed.

Lemma level_of_fun D hp root n v1 v2 :
  tree_ok D hp root = true →
  level_of hp root n v1 → level_of hp root n v2 → v1 = v2.
Proof.
  intros Hok H1. revert v2. induction H1 as [n nd Hr Hn Ha|m mn c cn v H1 IH Hm Hc Hcn Ha];
    intros v2 H2.
  - inversion H2; subst; congruence.
  - inversion H2 as [|m' mn' c' cn' v' H1' Hm' Hc' Hcn' Ha']; subst; [congruence|].
    apply IH. replace m with m'; [done|].
    destruct (weight_reach _ _ _ _ Hok (level_of_reach _ _ _ _ H1)) as (x & Hx & _ & Hf).
    destruct (weight_reach _ _ _ _ Hok (level_of_reach _ _ _ _ H1')) as (x' & Hx' & _ & Hf').
    assert (x = mn) as -> by congruence. assert (x' = mn') as -> by congruence.
    destruct (Hf c Hc) as (y & Hy & Hfy). destruct (Hf' c Hc') as (y' & Hy' & Hfy').
    congruence.
Qed.

Lemma under_active_level hp root a an n :
  reach hp root a → hp !! a = Some an → under_active hp a n →
  level_of hp root n (h an).
Proof.
  intros Hr Ha. induction 1 as [an' c cn Ha' Hact Hc Hcn Hin|m mn c cn Hu IH Hm Hc Hcn Hin].
  - assert (an' = an) as -> by congruence.
    apply (level_inactive _ _ a an c cn); [|done..]. by apply level_active.
  - by apply (level_inactive _ _ m mn c cn).
Qed.

Lemma child_not_self D hp root m nd :
  tree_ok D hp root = true → reach hp root m → hp !! m = Some nd → m ∉ childs nd.
Proof.
  intros Hok Hr Hm Hin.
  destruct (weight_reach _ _ _ _ Hok Hr) as (nd' & Hm' & Hw & _).
  assert (nd' = nd) as -> by congruence.
  apply list_elem_of_split in Hin as (l1 & l2 & Heq).
  rewrite Heq, fmap_app, sum_list_app, fmap_cons in Hw. simpl in Hw. lia.
Qed.

(** The loop over the children in the second pass. *)
Lemma constructImageDirectExpe_childs_spec hp tmp tn cs :
  hp !! tmp = Some tn → tmp ∉ cs →
  (∀ c, c ∈ cs → is_Some (hp !! c)) →
  ∃ hp', constructImageDirectExpe_childs hp tmp cs = Some hp' ∧
         length hp' = length hp ∧
         ∀ n, hp' !! n =
              match hp !! n with
              | Some nd => if decide (n ∈ cs) then
                             (if active nd then Some nd else Some (set_h (h tn) nd))
                           else Some nd
              | None => None
              end.
Proof.
  revert hp. induction cs as [|c cs IH]; intros hp Htmp Hnot Hex.
  - exists hp. split_and!; try done. intros n. destruct (hp !! n); [|done].
    rewrite decide_False; [done|apply not_elem_of_nil].
  - apply not_elem_of_cons in Hnot as [Hne Hnot].
    destruct (Hex c) as [cn Hc]; [by left|]. simpl. rewrite Hc. simpl.
    destruct (active cn) eqn:Hact.
    + destruct (IH hp Htmp Hnot) as (hp' & Hrun & Hlen & Hlook).
      { intros c' Hc'. apply Hex. by right. }
      exists hp'. split_and!; try done. intros n. rewrite Hlook.
      destruct (hp !! n) as [nd|] eqn:Hn; [|done].
      destruct (decide (n ∈ cs)).
      * rewrite decide_True; [done|by right].
      * destruct (decide (n = c)) as [->|].
        -- rewrite decide_True by (by left). assert (nd = cn) as -> by congruence.
           by rewrite Hact.
        -- rewrite decide_False; [done|by intros [?|?]%elem_of_cons].
    + rewrite Htmp. simpl.
      destruct (IH (<[c := set_h (h tn) cn]> hp)) as (hp' & Hrun & Hlen & Hlook).
      { by rewrite list_lookup_insert_ne. }
      { done. }
      { intros c' Hc'. destruct (decide (c' = c)) as [->|].
        - rewrite list_lookup_insert_eq; [done|by eapply lookup_lt_Some].
        - rewrite list_lookup_insert_ne by done. apply Hex. by right. }
      rewrite length_insert in Hlen.
      exists hp'. split_and!; try done. intros n. rewrite Hlook.
      destruct (decide (n = c)) as [->|Hnc].
      * rewrite list_lookup_insert_eq by (by eapply lookup_lt_Some). rewrite Hc.
        rewrite (decide_True (P := c ∈ c :: cs)) by (by left). simpl. rewrite Hact.
        by destruct (decide (c ∈ cs)).
      * rewrite list_lookup_insert_ne by done. destruct (hp !! n) as [nd|]; [|done].
        destruct (decide (n ∈ cs)).
        -- rewrite decide_True; [done|by right].
        -- rewrite decide_False; [done|by intros [?|?]%elem_of_cons].
Qed.

(** First pass: the queue [fifo2]. *)
Lemma constructImageDirectExpe_collect_spec hp root D :
  tree_ok D hp root = true →
  ∃ fifo2,
    converges (λ fuel, queue_loop (constructImageDirectExpe_collect hp) fuel [] [root]) fifo2 ∧
    (∀ t, t ∈ fifo2 → reach hp root t ∧ ∃ tn, hp !! t = Some tn ∧ active tn = true) ∧
    (∀ n nd, reach hp root n → hp !! n = Some nd → active nd = true → covered hp fifo2 n).
Proof.
  intros Hok.
  set (I := λ (fifo2 q : list nat),
    (∀ t, t ∈ fifo2 → reach hp root t ∧ ∃ tn, hp !! t = Some tn ∧ active tn = true) ∧
    (∀ m, m ∈ q → reach hp root m) ∧
    (∀ n nd, reach hp root n → hp !! n = Some nd → active nd = true →
       covered hp fifo2 n ∨ ∃ m, m ∈ q ∧ reach hp m n)).
  destruct (queue_loop_total (constructImageDirectExpe_collect hp) (weight D hp) I)
    with (s := @nil nat) (q := [root]) as (fifo2 & Hrun & Hf & _ & Hall).
  - intros fifo2 m q (Hf & Hq & Hall).
    assert (reach hp root m) as Hrm by (apply Hq; left).
    destruct (weight_reach _ _ _ _ Hok Hrm) as (nd & Hm & Hw & _).
    unfold constructImageDirectExpe_collect. rewrite Hm. simpl.
    destruct (active nd) eqn:Hact.
    + exists (fifo2 ++ [m]), []. split; [done|]. split; [|rewrite Hw; simpl; lia].
      rewrite app_nil_r. split_and!.
      * intros t [?|Ht]%elem_of_app; [auto|]. apply list_elem_of_singleton in Ht as ->. eauto.
      * intros x Hx. apply Hq. by right.
      * intros n nd' Hn Hn' Ha. destruct (Hall n nd' Hn Hn' Ha) as [(t & Ht & Hr)|(x & Hx & Hr)].
        -- left. exists t. split; [apply elem_of_app; by left|done].
        -- apply elem_of_cons in Hx as [->|Hx].
           ++ left. exists m. split; [apply elem_of_app; right; by left|done].
           ++ right. eauto.
    + exists fifo2, (childs nd). split; [done|]. split; [|rewrite Hw; lia]. split_and!.
      * done.
      * intros x [?|Hx]%elem_of_app; [apply Hq; by right|]. eapply reach_child; eauto.
      * intros n nd' Hn Hn' Ha. destruct (Hall n nd' Hn Hn' Ha) as [?|(x & Hx & Hr)]; [by left|].
        right. apply elem_of_cons in Hx as [->|Hx].
        -- apply reach_head in Hr as [->|(nd'' & c & Hm' & Hc & Hr)]; [congruence|].
           exists c. split; [|done]. apply elem_of_app. right. congruence.
        -- exists x. split; [|done]. apply elem_of_app. by left.
  - split_and!.
    + intros t Ht. by apply elem_of_nil in Ht.
    + intros m Hm. apply list_elem_of_singleton in Hm as ->. constructor.
    + intros n nd Hn _ _. right. exists root. split; [by left|done].
  - exists fifo2. split; [by eapply converges_of_bound|]. split; [done|].
    intros n nd Hn Hn' Ha. destruct (Hall n nd Hn Hn' Ha) as [?|(x & Hx & _)]; [done|].
    by apply elem_of_nil in Hx.
Qed.

(** Second pass, from any queue of active nodes of the tree. *)
Lemma constructImageDirectExpe_paint_spec T hp0 root D fifo2 res0 :
  tree_ok D hp0 root = true →
  pixels_in_range hp0 root (length (data res0)) →
  (∀ t, t ∈ fifo2 → reach hp0 root t ∧ ∃ tn, hp0 !! t = Some tn ∧ active tn = true) →
  ∃ hp' res' V,
    converges (λ fuel, queue_loop (constructImageDirectExpe_paint T) fuel
                                  (hp0, fill 0 res0) fifo2) (hp', res') ∧
    length hp' = length hp0 ∧
    (∀ n, n ∈ V ↔ covered hp0 fifo2 n) ∧
    (∀ n, n ∈ V → ∃ v nd0, level_of hp0 root n v ∧ hp0 !! n = Some nd0 ∧
                           hp' !! n = Some (set_h v nd0)) ∧
    (∀ n, n ∉ V → hp' !! n = hp0 !! n) ∧
    (length (data res') = length (data res0) ∧ sizeX res' = sizeX res0 ∧
     sizeY res' = sizeY res0 ∧ sizeZ res' = sizeZ res0) ∧
    painted_by T hp0 root V res'.
Proof.
  intros Hok Hpix Hfifo.
  set (I := λ (s : list Node * Image) (q : list nat),
    ∃ V : list nat,
      (∀ m, m ∈ V ++ q → covered hp0 fifo2 m ∧ reach hp0 root m ∧
          ∃ v nd0, level_of hp0 root m v ∧ hp0 !! m = Some nd0 ∧
                   s.1 !! m = Some (set_h v nd0)) ∧
      (∀ n, n ∉ V ++ q → s.1 !! n = hp0 !! n) ∧
      length s.1 = length hp0 ∧
      (∀ n, covered hp0 fifo2 n → n ∈ V ∨ ∃ m, m ∈ q ∧ reach hp0 m n) ∧
      (length (data s.2) = length (data res0) ∧ sizeX s.2 = sizeX res0 ∧
       sizeY s.2 = sizeY res0 ∧ sizeZ s.2 = sizeZ res0) ∧
      painted_by T hp0 root V s.2).
  destruct (queue_loop_total (constructImageDirectExpe_paint T) (weight D hp0) I)
    with (s := (hp0, fill 0 res0)) (q := fifo2)
    as ([hp' res'] & Hrun & V & Ha & Hb & Hlen & Hd & (He1 & He2 & He3 & He4) & Hf).
  - intros [hp res] m q (V & Ha & Hb & Hlen & Hd & (Hrl & Hsx & Hsy & Hsz) & Hf). simpl in *.
    destruct (Ha m) as (Hcov & Hrm & v & nd0 & Hlev & Hm0 & Hm);
      [apply elem_of_app; right; by left|].
    destruct (weight_reach _ _ _ _ Hok Hrm) as (nd0' & Hm0' & Hw & Hch).
    assert (nd0' = nd0) as -> by congruence.
    rewrite Hm. simpl.
    destruct (paint_spec res (pixels nd0) (cast T v)) as (res1 & Hp & Hs1 & Hs2 & Hs3 & Hl1 & Hlk1).
    { intros o Ho. rewrite Hrl. by eapply Hpix. }
    rewrite Hp. simpl.
    assert (∀ n nd, hp0 !! n = Some nd → ∃ v', hp !! n = Some (set_h v' nd)) as Hg.
    { intros n nd Hn. destruct (decide (n ∈ V ++ m :: q)) as [Hin|Hin].
      - destruct (Ha n Hin) as (_ & _ & v' & nd' & _ & Hn' & Hn''). exists v'. congruence.
      - exists (h nd). rewrite set_h_id, Hb; done. }
    destruct (constructImageDirectExpe_childs_spec hp m (set_h v nd0) (childs nd0))
      as (hp1 & Hc & Hl2 & Hlk2).
    { done. } { by eapply child_not_self. }
    { intros c Hc. destruct (Hch c Hc) as (cn & Hcn & _).
      destruct (Hg c cn Hcn) as (v' & Hv'). rewrite Hv'. by eexists. }
    simpl in Hlk2. rewrite Hc. simpl.
    exists (hp1, res1), (childs nd0). split; [done|]. split; [|rewrite Hw; lia].
    exists (V ++ [m]). simpl. split_and!.
    + intros x Hx.
      destruct (decide (x ∈ childs nd0)) as [Hxc|Hxc].
      * destruct (Hch x Hxc) as (cn & Hcn & Hfa).
        assert (reach hp0 root x) as Hrx by (eapply reach_child; eauto).
        split; [|split; [done|]].
        { destruct Hcov as (t & Ht & Hr). exists t. split; [done|]. eapply reach_child; eauto. }
        rewrite Hlk2. destruct (decide (x ∈ V ++ m :: q)) as [Hin|Hin].
        -- destruct (Ha x Hin) as (_ & _ & vx & ndx & Hlx & Hx0 & Hx1).
           assert (ndx = cn) as -> by congruence. rewrite Hx1.
           rewrite decide_True by done. simpl. destruct (active cn) eqn:Hact.
           ++ exists vx, cn. done.
           ++ exists v, cn. split; [|done]. by apply (level_inactive _ _ m nd0 x cn).
        -- rewrite (Hb x Hin), Hcn. rewrite decide_True by done.
           destruct (active cn) eqn:Hact.
           ++ exists (h cn), cn. rewrite set_h_id. split; [|done]. by apply level_active.
           ++ exists v, cn. split; [|done]. by apply (level_inactive _ _ m nd0 x cn).
      * assert (x ∈ V ++ m :: q) as Hin.
        { rewrite !elem_of_app in Hx. rewrite elem_of_app, elem_of_cons.
          destruct Hx as [[?|Hx]|[?|?]];
            [auto|apply list_elem_of_singleton in Hx; auto|auto|done]. }
        destruct (Ha x Hin) as (? & ? & vx & ndx & Hlx & Hx0 & Hx1).
        split; [done|]. split; [done|]. exists vx, ndx. split; [done|]. split; [done|].
        rewrite Hlk2, Hx1. by rewrite decide_False.
    + intros n Hn. rewrite Hlk2.
      assert (n ∉ childs nd0) as Hnc.
      { intros ?. apply Hn. rewrite !elem_of_app. auto. }
      assert (n ∉ V ++ m :: q) as Hnq.
      { intros Hin. apply Hn. rewrite !elem_of_app in *. rewrite elem_of_cons in Hin.
        destruct Hin as [?|[->|?]]; auto. left. right. by left. }
      rewrite (Hb n Hnq). destruct (hp0 !! n); [|done]. by rewrite decide_False.
    + by rewrite Hl2.
    + intros n Hn. destruct (Hd n Hn) as [?|(x & [->|Hx]%elem_of_cons & Hr)].
      * left. apply elem_of_app. by left.
      * apply reach_head in Hr as [->|(nd' & c & Hn' & Hc' & Hr)].
        -- left. apply elem_of_app. right. by left.
        -- right. exists c. split; [|done]. apply elem_of_app. right. congruence.
      * right. exists x. split; [|done]. apply elem_of_app. by left.
    + by rewrite Hl1.
    + by rewrite Hs1.
    + by rewrite Hs2.
    + by rewrite Hs3.
    + intros i Hi. rewrite Hlk1. rewrite Hl1 in Hi.
      destruct (decide (Z.of_nat i ∈ pixels nd0)) as [Hin|Hin].
      * right. exists m, nd0, v. split_and!; try done. apply elem_of_app. right. by left.
      * destruct (Hf i Hi) as [[Hz Hno]|(x & ndx & vx & Hx & ?)].
        -- left. split; [done|]. intros x ndx [Hx|Hx]%elem_of_app Hx0; [by eapply Hno|].
           apply list_elem_of_singleton in Hx as ->. congruence.
        -- right. exists x, ndx, vx. split; [|done]. apply elem_of_app. by left.
  - exists []. simpl. split_and!.
    + intros m Hm. destruct (Hfifo m Hm) as (Hr & tn & Ht & Hact).
      split; [exists m; split; [done|constructor]|]. split; [done|].
      exists (h tn), tn. rewrite set_h_id. split; [|done]. by apply level_active.
    + done.
    + done.
    + intros n (t & Ht & Hr). right. eauto.
    + by rewrite length_replicate.
    + done.
    + done.
    + done.
    + intros i Hi. left. simpl in *. split.
      * apply lookup_replicate. split; [done|]. by rewrite length_replicate in Hi.
      * intros m nd Hm. by apply elem_of_nil in Hm.
  - simpl in *. rewrite app_nil_r in Ha, Hb.
    exists hp', res', V. split; [by eapply converges_of_bound|]. split; [done|].
    split_and!; try done.
    + intros n. split; [intros Hn; by apply Ha|].
      intros Hn. destruct (Hd n Hn) as [?|(x & Hx & _)]; [done|by apply elem_of_nil in Hx].
    + intros n Hn. destruct (Ha n Hn) as (_ & _ & v & nd0 & ?). eauto.
Qed.

Lemma under_active_reach hp a n : under_active hp a n → reach hp a n.
Proof.
  induction 1 as [an c cn Ha Hact Hc Hcn Hin|m mn c cn Hu IH Hm Hc Hcn Hin].
  - apply (reach_child _ _ a c an); [constructor|done|done].
  - by apply (reach_child _ _ m c mn).
Qed.

Lemma under_active_parent hp a n :
  under_active hp a n →
  ∃ m mn, (m = a ∨ under_active hp a m) ∧ hp !! m = Some mn ∧ n ∈ childs mn.
Proof. destruct 1; eauto 10. Qed.

Lemma pixels_in_range_Forall hp root len :
  Forall (λ nd, Forall (λ o, 0 ≤ o < Z.of_nat len) (pixels nd)) hp →
  pixels_in_range hp root len.
Proof.
  intros HF n nd o _ Hn Ho.
  pose proof (Forall_lookup_1 _ _ _ _ HF Hn) as HF'. simpl in HF'.
  apply list_elem_of_lookup_1 in Ho as [i Hi].
  exact (Forall_lookup_1 _ _ _ _ HF' Hi).
Qed.

(** C9: [constructImage(DIRECT)] writes to the tree.  Every inactive node
    [n] with a nearest active ancestor [a] ends with the level of [a] in
    its field [h], which is the level its parent holds after the pass;
    nothing else of the node changes.  The loop of [restore] then makes
    every node of the tree active again with [h] equal to [ori_h], but
    [restore], declared [int], has no [return] statement: the call is
    undefined once its loop is over. *)
Theorem constructImage_DIRECT_overwrites_h (T : PixelType) (hp : list Node)
    (root D : nat) (res : Image) :
  tree_ok D hp root = true →
  pixels_in_range hp root (length (data res)) →
  ∃ hp' res',
    converges (λ fuel, constructImage T fuel hp (Some root) res DIRECT) (hp', res') ∧
    (∀ a an n nd,
        reach hp root a → hp !! a = Some an → under_active hp a n →
        hp !! n = Some nd →
        hp' !! n = Some (set_h (h an) nd) ∧
        (h an ≠ h nd → hp' !! n ≠ hp !! n) ∧
        ∃ f fn', father nd = Some f ∧ hp' !! f = Some fn' ∧ h fn' = h an) ∧
    (∃ hp'',
      converges (λ fuel, restore_loop fuel (Some root) hp') hp'' ∧
      ∀ n nd, reach hp root n → hp !! n = Some nd →
              hp'' !! n = Some (set_h (ori_h nd) (set_active true nd))) ∧
    converges (λ fuel, restore fuel (Some root) hp') Undefined.
Proof.
  intros Hok Hpix.
  destruct (constructImageDirectExpe_collect_spec hp root D Hok) as (fifo2 & [k1 Hk1] & Hact & Hcov).
  destruct (constructImageDirectExpe_paint_spec T hp root D fifo2 res Hok Hpix Hact)
    as (hp' & res' & V & [k2 Hk2] & Hlen & HV & Hin & Hout & _ & _).
  assert (∀ n nd, hp !! n = Some nd → ∃ v, hp' !! n = Some (set_h v nd)) as Hsh.
  { intros n nd Hn. destruct (decide (n ∈ V)) as [Hv|Hv].
    - destruct (Hin n Hv) as (v & nd0 & _ & Hn0 & Hn'). exists v. congruence.
    - exists (h nd). rewrite set_h_id, Hout; done. }
  assert (same_links hp hp') as Hsl.
  { intros n. destruct (hp !! n) as [nd|] eqn:Hn.
    - destruct (Hsh n nd Hn) as (v & ->). done.
    - apply lookup_ge_None in Hn. rewrite (proj2 (lookup_ge_None hp' n)); [done|lia]. }
  assert (∀ a an m, reach hp root a → hp !! a = Some an → active an = true →
            reach hp a m → level_of hp root m (h an) →
            ∃ mn, hp !! m = Some mn ∧ hp' !! m = Some (set_h (h an) mn)) as Hlev.
  { intros a an m Hra Ha Haa Hrm Hl.
    assert (m ∈ V) as Hv.
    { apply HV. destruct (Hcov a an Hra Ha Haa) as (t & Ht & Hrt).
      exists t. split; [done|]. by eapply reach_trans. }
    destruct (Hin m Hv) as (v & mn & Hl' & Hm & Hm').
    rewrite (level_of_fun _ _ _ _ _ _ Hok Hl Hl'). eauto. }
  exists hp', res'. split.
  { exists (k1 `max` k2)%nat. intros fuel Hf. simpl. unfold constructImageDirectExpe.
    rewrite Hk1 by lia. simpl. apply Hk2. lia. }
  split.
  - intros a an n nd Hra Ha Hu Hn.
    assert (active an = true) as Haa.
    { clear -Hu Ha. induction Hu; [congruence|auto]. }
    destruct (Hlev a an n Hra Ha Haa (under_active_reach _ _ _ Hu)
                (under_active_level _ _ _ _ _ Hra Ha Hu)) as (nd' & Hn' & Hn'').
    assert (nd' = nd) as -> by congruence.
    split; [done|]. split.
    { rewrite Hn'', Hn. intros Hne Heq. apply Hne.
      assert (set_h (h an) nd = nd) as Heq' by congruence.
      by apply (f_equal h) in Heq'. }
    destruct (under_active_parent _ _ _ Hu) as (m & mn & Hm & Hmn & Hc).
    assert (reach hp a m ∧ level_of hp root m (h an)) as [Hrm Hlm].
    { destruct Hm as [->|Hm].
      - split; [constructor|]. by apply level_active.
      - split; [by apply under_active_reach|by eapply under_active_level]. }
    destruct (Hlev a an m Hra Ha Haa Hrm Hlm) as (mn' & Hmn' & Hm').
    destruct (weight_reach _ _ _ _ Hok (reach_trans _ _ _ _ Hra Hrm)) as (x & Hx & _ & Hf).
    assert (x = mn) as -> by congruence.
    destruct (Hf n Hc) as (y & Hy & Hfy). assert (y = nd) as -> by congruence.
    exists m, (set_h (h an) mn'). done.
  - destruct (map_bfs (λ nd, set_h (ori_h nd) (set_active true nd)) hp' root D)
      as (hp'' & Hc & _ & Hr & _).
    { by eapply tree_ok_same_links. } { done. } { done. }
    split.
    + exists hp''. split; [done|]. intros n nd Hrn Hn.
      rewrite Hr by (by eapply reach_same_links).
      destruct (Hsh n nd Hn) as (v & ->). done.
    + assert (converges (λ fuel, restore_loop fuel (Some root) hp') hp'') as [k Hk] by exact Hc.
      exists k. intros fuel Hf. unfold restore.
      pose proof (Hk fuel Hf) as E. cbv beta in E. by rewrite E.
Qed.

Lemma constructImage_DIRECT_overwrites_h_witness :
  tree_ok 3 ex_heap 0 = true ∧
  pixels_in_range ex_heap 0 (length (data ex_res)) ∧
  ∃ hp' res',
    converges (λ fuel, constructImage U8 fuel ex_heap (Some 0%nat) ex_res DIRECT) (hp', res') ∧
    (∀ a an n nd,
        reach ex_heap 0 a → ex_heap !! a = Some an → under_active ex_heap a n →
        ex_heap !! n = Some nd →
        hp' !! n = Some (set_h (h an) nd) ∧
        (h an ≠ h nd → hp' !! n ≠ ex_heap !! n) ∧
        ∃ f fn', father nd = Some f ∧ hp' !! f = Some fn' ∧ h fn' = h an) ∧
    (∃ hp'',
      converges (λ fuel, restore_loop fuel (Some 0%nat) hp') hp'' ∧
      ∀ n nd, reach ex_heap 0 n → ex_heap !! n = Some nd →
              hp'' !! n = Some (set_h (ori_h nd) (set_active true nd))) ∧
    converges (λ fuel, restore fuel (Some 0%nat) hp') Undefined.
Proof.
  assert (pixels_in_range ex_heap 0 (length (data ex_res))) as Hp.
  { apply pixels_in_range_Forall. repeat constructor; simpl; lia. }
  split; [reflexivity|]. split; [exact Hp|].
  exact (constructImage_DIRECT_overwrites_h U8 ex_heap 0 3 ex_res eq_refl Hp).
Defined.

(** * Image readers *)




Lemma load_body_returns magic chk elem pp fuel files filename junk im r im' :
  load_body magic chk elem pp fuel files filename junk im = Some (Returns (r, im')) →
  r = 0 ∨ r = 1.
Proof.
  unfold load_body. destruct (files filename) as [content|]; [|intros [= <- _]; by left].
  destruct (GImageIO_ReadPPMHeader _ _) as [[f hd]|]; simpl; [|done].
  destruct (bool_decide _); [intros [= <- _]; by left|].
  destruct (if chk then colormax hd else Some 0) as [cmax|]; [|done].
  destruct (cmax >=? 256); [intros [= <- _]; by left|].
  destruct (width hd), (height hd); try done. intros [= <- _]. by right.
Qed.

(** ** A header without comment is read to its end *)


Lemma drop_while_suffix (p : Z → bool) (l : list Z) (x : Z) :
  x ∈ drop_while p l → x ∈ l.
Proof.
  induction l as [|ch l IH]; simpl; [done|]. destruct (p ch); [|done].
  intros ?. right. auto.
Qed.







(** The 8-bit reader on a colour file, on a file with [colormax] 300 and
    on a file with [colormax] -1, which reads as 4294967295. *)
Example load_U8_wrong_magic (im : ImageObject) :
  load_U8 5 (λ _, Some header_P6) [] [] im = Some (Returns (0, im)).
Proof. reflexivity. Qed.

Example load_U8_colormax_300 (im : ImageObject) :
  load_U8 5 (λ _, Some header_300) [] [] im = Some (Returns (0, im)).
Proof. reflexivity. Qed.

Example load_U8_colormax_minus (im : ImageObject) :
  read_uint [45; 49] = Some 4294967295 ∧
  load_U8 5 (λ _, Some header_minus) [] [] im = Some (Returns (0, im)).
Proof. split; reflexivity. Qed.

(** A header cut before its [colormax]: the 8-bit reader tests a variable
    that was never written. *)
Example load_U8_colormax_missing (im : ImageObject) :
  load_U8 5 (λ _, Some header_short) [] [] im = Some Undefined.
Proof. reflexivity. Qed.

(** A file that ends inside a comment: the header is never read to its
    end, whatever the fuel. *)
Lemma skip_comments_stuck fuel f str :
  good f = false → skip_comments fuel f (35 :: str) = None.
Proof.
  revert f. induction fuel as [|fuel IH]; intros f Hg; [done|].
  assert (getline256 f = mkStream (rest f) (eofbit f) true) as Hl.
  { unfold getline256. by rewrite Hg. }
  assert (read_token (getline256 f) (35 :: str)
          = (mkStream (rest f) (eofbit f) true, 35 :: str)) as Ht.
  { rewrite Hl. unfold read_token, good. simpl. by rewrite andb_false_r. }
  cbn [skip_comments]. rewrite Ht. apply IH.
  unfold good. simpl. by rewrite andb_false_r.
Qed.

(** The reader never returns on the file made of the single character
    '#'. *)
Example load_U8_unterminated_comment fuel (im : ImageObject) :
  load_U8 fuel (λ _, Some [35]) [] [] im = None.
Proof.
  unfold load_U8, load_body, GImageIO_ReadPPMHeader, GImageIO_NextLine. simpl.
  by rewrite skip_comments_stuck.
Qed.


(** * Attributes *)

(** C3: on the image [2 1 0 1 2] the root has four proper descendants
    (two children with one child each), so the recurrence gives
    [2 + (1 + 1) = 4]; [computeSubNodes] leaves 3 in the root, the number
    of children plus the count of the last child only. *)
Theorem computeSubNodes_keeps_last_child_only :
  ∃ t rn c1 c2 n1 n2,
    ComponentTree_img U8 100 img_valley img_valley = Some t ∧
    m_root t = Some 0%nat ∧ nodes t !! 0%nat = Some rn ∧
    childs rn = [c1; c2] ∧ nodes t !! c1 = Some n1 ∧ nodes t !! c2 = Some n2 ∧
    weight 5 (nodes t) 0 = 5%nat ∧
    iattr n1 subNodes = 1 ∧ iattr n2 subNodes = 1 ∧
    iattr rn subNodes = 3 ∧
    iattr rn subNodes ≠ Z.of_nat (length (childs rn)) + (iattr n1 subNodes + iattr n2 subNodes).
Proof.
  eexists _, _, _, _, _, _. split; [vm_compute; reflexivity|].
  simpl. split_and!; try reflexivity. done.
Qed.

(** ** More on trees *)

Lemma reach_dec D hp root n :
  tree_ok D hp root = true → reach hp root n ∨ ¬ reach hp root n.
Proof.
  intros Hok. destruct (map_bfs (λ nd, nd) hp root D Hok) as (? & _ & _ & _ & _ & Hd); auto.
Qed.

Lemma tree_ok_sub D hp root t :
  tree_ok D hp root = true → reach hp root t → tree_ok D hp t = true.
Proof.
  intros Hok Hr. destruct (tree_ok_reach _ _ _ _ Hok Hr) as (d & Hle & Hokt).
  by eapply tree_ok_mono.
Qed.

Lemma weight_child D hp root t nd c :
  tree_ok D hp root = true → reach hp root t → hp !! t = Some nd → c ∈ childs nd →
  (weight D hp c < weight D hp t)%nat.
Proof.
  intros Hok Hr Ht Hc. destruct (weight_reach _ _ _ _ Hok Hr) as (nd' & Ht' & Hw & _).
  assert (nd' = nd) as -> by congruence.
  apply list_elem_of_split in Hc as (l1 & l2 & Heq).
  rewrite Hw, Heq, fmap_app, sum_list_app, fmap_cons. simpl. lia.
Qed.

Lemma weight_reach_le D hp root t m :
  tree_ok D hp root = true → reach hp root t → reach hp t m →
  (weight D hp m ≤ weight D hp t)%nat.
Proof.
  intros Hok Hr. induction 1 as [|x c nd Hrx IH Hx Hc]; [done|].
  assert (reach hp root x) as Hrx' by (by eapply reach_trans).
  pose proof (weight_child _ _ _ _ _ _ Hok Hrx' Hx Hc). lia.
Qed.

Lemma child_not_above D hp root t nd c :
  tree_ok D hp root = true → reach hp root t → hp !! t = Some nd → c ∈ childs nd →
  ¬ reach hp c t.
Proof.
  intros Hok Hr Ht Hc Hct.
  pose proof (weight_child _ _ _ _ _ _ Hok Hr Ht Hc).
  assert (reach hp root c) as Hrc by (eapply reach_child; eauto).
  pose proof (weight_reach_le _ _ _ _ _ Hok Hrc Hct). lia.
Qed.

(** ** The traversal scheme *)

Lemma frame_refl (P : Node → Node → Prop) hp :
  (∀ nd, P nd nd) → frame P hp hp.
Proof. intros HP. split; [done|]. eauto. Qed.

Lemma frame_trans (P : Node → Node → Prop) hp1 hp2 hp3 :
  (∀ a b c, P a b → P b c → P a c) →
  frame P hp1 hp2 → frame P hp2 hp3 → frame P hp1 hp3.
Proof.
  intros HP [Hl1 H1] [Hl2 H2]. split; [congruence|]. intros n nd Hn.
  destruct (H1 n nd Hn) as (nd2 & Hn2 & HP2). destruct (H2 n nd2 Hn2) as (nd3 & Hn3 & HP3).
  eauto.
Qed.

Lemma frame_insert (P : Node → Node → Prop) hp t nd nd' :
  (∀ nd, P nd nd) → hp !! t = Some nd → P nd nd' → frame P hp (<[t := nd']> hp).
Proof.
  intros HP Ht HPn. split; [by rewrite length_insert|]. intros n x Hn.
  destruct (decide (n = t)) as [->|Hne].
  - rewrite list_lookup_insert_eq by (by eapply lookup_lt_Some).
    assert (x = nd) as -> by congruence. eauto.
  - rewrite list_lookup_insert_ne by done. eauto.
Qed.

Lemma frame_same_links (P : Node → Node → Prop) hp hp' :
  (∀ nd nd', P nd nd' → links nd = links nd') → frame P hp hp' → same_links hp hp'.
Proof.
  intros HP [Hl H] n. destruct (hp !! n) as [nd|] eqn:Hn.
  - destruct (H n nd Hn) as (nd' & -> & HP'). simpl. f_equal. by apply HP.
  - apply lookup_ge_None in Hn. rewrite (proj2 (lookup_ge_None hp' n)); [done|lia].
Qed.

Section TraverseSpec.
Context {L R : Type}.
(** The three parts of the body may themselves take fuel: they are
    indexed by it, and give their result from [K] on. *)
Variable enter : nat → list Node → nat → option (L * list Node).
Variable child : nat → nat → nat → R → L * list Node → option (L * list Node).
Variable leave : nat → nat → L * list Node → option (R * list Node).
Variable K : nat.
Variable hp0 : list Node.
Variable root : nat.
Variable D : nat.
Variable P : Node → Node → Prop.
Variable Q : nat → Node → Prop.

Hypothesis Hok : tree_ok D hp0 root = true.
Hypothesis P_refl : ∀ nd, P nd nd.
Hypothesis P_trans : ∀ a b c, P a b → P b c → P a c.
Hypothesis P_links : ∀ nd nd', P nd nd' → links nd = links nd'.
Hypothesis H_enter : ∀ hp t nd,
  frame P hp0 hp → reach hp0 root t → hp !! t = Some nd →
  ∃ l nd', (∀ F, (K ≤ F)%nat → enter F hp t = Some (l, <[t := nd']> hp)) ∧ P nd nd'.
Hypothesis H_child : ∀ hp t nd c r l,
  frame P hp0 hp → reach hp0 root t → hp !! t = Some nd → c ∈ childs nd →
  ∃ l' nd', (∀ F, (K ≤ F)%nat → child F t c r (l, hp) = Some (l', <[t := nd']> hp)) ∧
            P nd nd'.
Hypothesis H_leave : ∀ hp t nd l,
  frame P hp0 hp → reach hp0 root t → hp !! t = Some nd →
  ∃ r nd', (∀ F, (K ≤ F)%nat → leave F t (l, hp) = Some (r, <[t := nd']> hp)) ∧
           P nd nd' ∧ Q t nd'.

Lemma traverse_spec d t hp :
  tree_ok d hp0 t = true → reach hp0 root t → frame P hp0 hp →
  ∃ r hp',
    (∀ F fuel, (K ≤ F)%nat → (d ≤ fuel)%nat →
       traverse (enter F) (child F) (leave F) fuel hp t = Some (r, hp')) ∧
    frame P hp hp' ∧
    (∀ m, reach hp0 t m → ∃ nd', hp' !! m = Some nd' ∧ Q m nd') ∧
    (∀ m, ¬ reach hp0 t m → hp' !! m = hp !! m).
Proof.
  revert t hp. induction d as [|d IH]; intros t hp Hokt Hrt Hfr; [done|].
  apply tree_ok_unfold in Hokt as (nd0 & Ht0 & Hcs).
  destruct (proj2 Hfr t nd0 Ht0) as (nd & Ht & HP0).
  destruct (H_enter hp t nd Hfr Hrt Ht) as (l0 & nd1 & Hen & HP1).
  assert (childs nd1 = childs nd0) as Hch1.
  { pose proof (P_links _ _ (P_trans _ _ _ HP0 HP1)) as Hl. by injection Hl. }
  (* the loop over the children *)
  assert (∀ cs l hpc ndc,
    (∀ c, c ∈ cs → c ∈ childs nd0) →
    frame P hp hpc → hpc !! t = Some ndc →
    ∃ l' hp' nd',
      (∀ F fuel, (K ≤ F)%nat → (d ≤ fuel)%nat →
         for_each (λ s c, '(r, hp') ← traverse (enter F) (child F) (leave F) fuel s.2 c;
                          child F t c r (s.1, hp')) (l, hpc) cs = Some (l', hp')) ∧
      frame P hpc hp' ∧ hp' !! t = Some nd' ∧
      (∀ m, (∃ c, c ∈ cs ∧ reach hp0 c m) → ∃ x, hp' !! m = Some x ∧ Q m x) ∧
      (∀ m, m ≠ t → ¬ (∃ c, c ∈ cs ∧ reach hp0 c m) → hp' !! m = hpc !! m)) as Hloop.
  { induction cs as [|c cs IHcs]; intros l hpc ndc Hsub Hfc Htc.
    - exists l, hpc, ndc. split_and!; [done|by apply frame_refl|done| |done].
      intros m (c & Hc & _). by apply elem_of_nil in Hc.
    - assert (c ∈ childs nd0) as Hc by (apply Hsub; by left).
      destruct (Hcs c Hc) as (cn & Hcn & Hfa & Hokc).
      assert (reach hp0 root c) as Hrc by (eapply reach_child; eauto).
      assert (frame P hp0 hpc) as Hf0c by (by eapply frame_trans).
      destruct (IH c hpc Hokc Hrc Hf0c) as (r & hp1 & Hrun & Hf1 & HQ1 & Hun1).
      assert (¬ reach hp0 c t) as Hnct
        by exact (child_not_above D hp0 root t nd0 c Hok Hrt Ht0 Hc).
      assert (hp1 !! t = Some ndc) as Ht1 by (by rewrite Hun1).
      assert (childs ndc = childs nd0) as Hchc.
      { destruct (proj2 Hf0c t nd0 Ht0) as (x & Hx & HPx).
        assert (x = ndc) as -> by congruence.
        pose proof (P_links _ _ HPx) as Hl. by injection Hl. }
      destruct (H_child hp1 t ndc c r l) as (l1 & nd2 & Hchild & HP2).
      { by eapply frame_trans. } { done. } { done. } { by rewrite Hchc. }
      destruct (IHcs l1 (<[t := nd2]> hp1) nd2) as (l' & hp' & nd' & Hrun' & Hf' & Ht' & HQ' & Hun').
      { intros c' Hc'. apply Hsub. by right. }
      { eapply frame_trans; [done|exact Hfc|]. eapply frame_trans; [done|exact Hf1|].
        by eapply frame_insert. }
      { apply list_lookup_insert_eq. by eapply lookup_lt_Some. }
      exists l', hp', nd'. split_and!.
      + intros F fuel HF Hfuel. simpl. rewrite (Hrun F fuel HF Hfuel). simpl.
        rewrite (Hchild F HF). simpl. by apply Hrun'.
      + eapply frame_trans; [done|exact Hf1|]. eapply frame_trans; [done| |exact Hf'].
        by eapply frame_insert.
      + done.
      + intros m (c' & Hc' & Hrm).
        destruct (reach_dec D hp0 root m Hok) as [Hrootm|Hnm].
        2:{ exfalso. apply Hnm. eapply reach_trans; [|exact Hrm].
            eapply reach_child; [exact Hrt|exact Ht0|]. apply Hsub. done. }
        assert (m ≠ t) as Hmt.
        { intros ->. apply (child_not_above D hp0 root t nd0 c' Hok Hrt Ht0); [|done].
          apply Hsub. done. }
        assert ((∃ c'', c'' ∈ cs ∧ reach hp0 c'' m) ∨
                ¬ (∃ c'', c'' ∈ cs ∧ reach hp0 c'' m)) as [Hin|Hout].
        { clear -Hok Hsub Hcs Hrt Ht0.
          assert (∀ c'', c'' ∈ cs → reach hp0 root c'') as Hr'.
          { intros c'' Hc''. eapply reach_child; [exact Hrt|exact Ht0|]. apply Hsub. by right. }
          clear Hsub. induction cs as [|a cs IHc].
          - right. intros (x & Hx & _). by apply elem_of_nil in Hx.
          - destruct IHc as [Hy|Hn]; [intros; apply Hr'; by right| |].
            + left. destruct Hy as (x & Hx & ?). exists x. split; [by right|done].
            + assert (reach hp0 a m ∨ ¬ reach hp0 a m) as [Hy|Hn'].
              { eapply (reach_dec D). eapply tree_ok_sub; [exact Hok|]. apply Hr'. by left. }
              * left. exists a. split; [by left|done].
              * right. intros (x & [->|Hx]%elem_of_cons & ?); [done|]. apply Hn. eauto. }
        * by apply HQ'.
        * rewrite (Hun' m Hmt Hout). rewrite list_lookup_insert_ne by done.
          apply elem_of_cons in Hc' as [->|Hc']; [by apply HQ1|].
          exfalso. apply Hout. eauto.
      + intros m Hmt Hno. rewrite Hun'; [|done|].
        2:{ intros (c' & Hc' & ?). apply Hno. exists c'. split; [by right|done]. }
        rewrite list_lookup_insert_ne by done. apply Hun1.
        intros Hr. apply Hno. exists c. split; [by left|done]. }
  destruct (Hloop (childs nd0) l0 (<[t := nd1]> hp) nd1) as (l' & hp1 & nd2 & Hrun & Hf1 & Ht1 & HQ1 & Hun1).
  { done. } { by eapply frame_insert. }
  { apply list_lookup_insert_eq. by eapply lookup_lt_Some. }
  destruct (H_leave hp1 t nd2 l') as (r & nd3 & Hlv & HP3 & HQ3).
  { eapply frame_trans; [done|exact Hfr|]. eapply frame_trans; [done| |exact Hf1].
    by eapply frame_insert. }
  { done. } { done. }
  exists r, (<[t := nd3]> hp1). split_and!.
  - intros F [|fuel] HF Hfuel; [lia|]. simpl. rewrite (Hen F HF). simpl.
    rewrite list_lookup_insert_eq by (by eapply lookup_lt_Some). simpl.
    rewrite Hch1. rewrite (Hrun F fuel) by (done || lia). simpl. by apply Hlv.
  - eapply frame_trans; [done| |by eapply frame_insert].
    eapply frame_trans; [done| |exact Hf1]. by eapply frame_insert.
  - intros m Hm. destruct (decide (m = t)) as [->|Hmt].
    + rewrite list_lookup_insert_eq by (by eapply lookup_lt_Some). eauto.
    + rewrite list_lookup_insert_ne by done. apply HQ1.
      apply reach_head in Hm as [->|(x & c & Hx & Hc & Hr)]; [done|].
      assert (x = nd0) as -> by congruence. eauto.
  - intros m Hm. assert (m ≠ t) as Hmt by (intros ->; apply Hm; constructor).
    rewrite list_lookup_insert_ne by done. rewrite Hun1; [|done|].
    + by rewrite list_lookup_insert_ne.
    + intros (c & Hc & Hr). apply Hm. eapply reach_trans; [|exact Hr].
      eapply reach_child; [constructor|exact Ht0|done].
Qed.
End TraverseSpec.

(** ** Node changes *)

(** Membership in, and absence from, a list written out. *)
Ltac in_slots :=
  repeat first [ apply list_elem_of_here | apply list_elem_of_further ].
Ltac not_in_slots :=
  repeat (apply not_elem_of_cons; split; [discriminate|]); apply not_elem_of_nil.

Lemma keeps_refl KI KN pb nd : keeps KI KN pb nd nd.
Proof. unfold keeps. split_and!; done. Qed.

Lemma keeps_trans KI KN pb a b c :
  keeps KI KN pb a b → keeps KI KN pb b c → keeps KI KN pb a c.
Proof.
  unfold keeps. intros (?&?&?&?&?&?&?&?&Hb1&Hi1&Hn1) (?&?&?&?&?&?&?&?&Hb2&Hi2&Hn2).
  split_and!; try congruence.
  - intros Hpb. rewrite Hb2, Hb1; done.
  - intros a0 Ha. rewrite Hi2, Hi1; done.
  - intros a0 Ha. rewrite Hn2, Hn1; done.
Qed.

Lemma keeps_links KI KN pb nd nd' : keeps KI KN pb nd nd' → links nd = links nd'.
Proof. unfold keeps, links. intros (?&?&?&?&?&_). congruence. Qed.

Lemma keeps_weaken KI KN pb KI' KN' pb' nd nd' :
  KI ⊆ KI' → KN ⊆ KN' → (pb = true → pb' = true) →
  keeps KI KN pb nd nd' → keeps KI' KN' pb' nd nd'.
Proof.
  unfold keeps. intros HI HN Hpb (?&?&?&?&?&?&?&?&Hb&Hi&Hn).
  split_and!; try done.
  - intros ->. apply Hb. destruct pb; [by specialize (Hpb eq_refl)|done].
  - intros a Ha. apply Hi. intros ?. apply Ha. by apply HI.
  - intros a Ha. apply Hn. intros ?. apply Ha. by apply HN.
Qed.

Lemma keeps_set_nattr KI KN pb a v nd :
  a ∈ KN → keeps KI KN pb nd (set_nattr a v nd).
Proof.
  intros Ha. unfold keeps. simpl. split_and!; try done.
  intros b Hb. rewrite fn_lookup_insert_ne; [done|]. intros ->. done.
Qed.

Lemma keeps_set_iattr KI KN pb a v nd :
  a ∈ KI → keeps KI KN pb nd (set_iattr a v nd).
Proof.
  intros Ha. unfold keeps. simpl. split_and!; try done.
  intros b Hb. rewrite fn_lookup_insert_ne; [done|]. intros ->. done.
Qed.

(** ** Functions that write the node after the loop *)

Lemma after_children_spec (epi : nat → nat → list Node → option (list Node)) K
    hp0 root D (P : Node → Node → Prop) (Q : nat → Node → Prop) :
  tree_ok D hp0 root = true →
  (∀ nd, P nd nd) → (∀ a b c, P a b → P b c → P a c) →
  (∀ nd nd', P nd nd' → links nd = links nd') →
  (∀ hp t nd, frame P hp0 hp → reach hp0 root t → hp !! t = Some nd →
     ∃ nd', (∀ F, (K ≤ F)%nat → epi F t hp = Some (<[t := nd']> hp)) ∧ P nd nd' ∧ Q t nd') →
  ∃ hp',
    (∀ F fuel, (K ≤ F)%nat → (D ≤ fuel)%nat →
       after_children (epi F) fuel hp0 root = Some (tt, hp')) ∧
    frame P hp0 hp' ∧
    (∀ m, reach hp0 root m → ∃ nd', hp' !! m = Some nd' ∧ Q m nd') ∧
    (∀ m, ¬ reach hp0 root m → hp' !! m = hp0 !! m).
Proof.
  intros Hok Pr Pt Pl Hepi.
  destruct (traverse_spec (L := unit) (R := unit)
              (λ _ hp t, Some (tt, hp)) (λ _ t c r s, Some s)
              (λ F t s, hp' ← epi F t s.2; Some (tt, hp'))
              K hp0 root D P Q Hok Pr Pt Pl) with (d := D) (t := root) (hp := hp0)
    as ([] & hp' & Hrun & Hfr & HQ & Hun).
  - intros hp t nd _ _ Ht. exists tt, nd. split; [|done]. intros F _.
    by rewrite list_insert_id.
  - intros hp t nd c r [] _ _ Ht _. exists tt, nd. split; [|done]. intros F _.
    by rewrite list_insert_id.
  - intros hp t nd [] Hfr Hr Ht. destruct (Hepi hp t nd Hfr Hr Ht) as (nd' & He & HP & HQ).
    exists tt, nd'. split; [|done]. intros F HF. simpl. by rewrite (He F HF).
  - done.
  - constructor.
  - by apply frame_refl.
  - exists hp'. split_and!; try done.
Qed.

(** ** [computeMSER] *)

Lemma root_ok_father hp root :
  root_ok hp root = true → ∃ rn, hp !! root = Some rn ∧ father rn = Some root.
Proof.
  unfold root_ok. destruct (hp !! root) as [rn|]; [|done].
  intros H%bool_decide_eq_true. eauto.
Qed.

Lemma father_reach D hp root t :
  tree_ok D hp root = true → root_ok hp root = true → reach hp root t →
  ∃ nd f fn, hp !! t = Some nd ∧ father nd = Some f ∧ hp !! f = Some fn ∧ reach hp root f.
Proof.
  intros Hok Hroot Hr. destruct Hr as [|m c mn Hrm Hm Hc].
  - destruct (root_ok_father _ _ Hroot) as (rn & Hrn & Hf).
    exists rn, root, rn. split_and!; try done. constructor.
  - destruct (weight_reach _ _ _ _ Hok Hrm) as (mn' & Hm' & _ & Hch).
    assert (mn' = mn) as -> by congruence.
    destruct (Hch c Hc) as (cn & Hcn & Hf). exists cn, m, mn. done.
Qed.

Lemma frame_keeps_lookup KI KN pb hp0 hp n nd0 :
  frame (keeps KI KN pb) hp0 hp → hp0 !! n = Some nd0 →
  ∃ nd, hp !! n = Some nd ∧ keeps KI KN pb nd0 nd.
Proof. intros [_ H] Hn. by apply H. Qed.

Lemma mser_walk_total D hp0 root Δ hn hp t :
  tree_ok D hp0 root = true → root_ok hp0 root = true →
  frame (keeps [] mser_slots false) hp0 hp →
  reach hp0 root t →
  ∃ a anode d k,
    stops_at hp0 Δ hn t a ∧ reach hp0 root a ∧ (a = t ∨ a ≠ root) ∧
    hp !! a = Some anode ∧
    tree_ok d hp0 t = true ∧ (k + d ≤ D + 1)%nat ∧
    ∀ node fuel, hp !! t = Some node → (k ≤ fuel)%nat →
                 mser_walk fuel hp hn Δ node = Some anode.
Proof.
  intros Hok Hroot Hfr Hr. induction Hr as [|m c mn Hrm IH Hm Hc].
  - destruct (root_ok_father _ _ Hroot) as (rn & Hrn & Hf).
    destruct (frame_keeps_lookup _ _ _ _ _ _ _ Hfr Hrn) as (node & Hnode & Hk).
    destruct Hk as (_ & _ & Hh & Hfa & _).
    exists root, node, D, 1%nat. split_and!; try done.
    + destruct (decide (hn - h rn < Δ)).
      * by eapply stops_top.
      * eapply stops_met; [done|lia].
    + constructor.
    + by left.
    + lia.
    + intros node' [|fuel] Hn' Hfuel; [lia|]. assert (node' = node) as -> by congruence.
      simpl. destruct (hn - h node <? Δ) eqn:E; [|done].
      rewrite Hfa, Hf. simpl. rewrite Hnode. simpl. rewrite Hfa, Hf.
      by rewrite decide_True.
  - destruct IH as (am & amnode & dm & km & Hstop & Hra & Hor & Ham & Hokm & Hle & Hwalk).
    destruct dm as [|dm]; [done|].
    apply tree_ok_unfold in Hokm as (mn' & Hm' & Hcs).
    assert (mn' = mn) as -> by congruence.
    destruct (Hcs c Hc) as (cn & Hcn & Hfc & Hokc).
    destruct (frame_keeps_lookup _ _ _ _ _ _ _ Hfr Hcn) as (cnode & Hcnode & Hkc).
    destruct (frame_keeps_lookup _ _ _ _ _ _ _ Hfr Hm) as (mnode & Hmnode & Hkm).
    destruct Hkc as (_ & _ & Hhc & Hfac & _). destruct Hkm as (_ & _ & Hhm & Hfam & _).
    assert (reach hp0 root c) as Hrc by exact (reach_child _ _ m c mn Hrm Hm Hc).
    destruct (decide (hn - h cn < Δ)) as [Hlt|Hge].
    + destruct (decide (father mn = Some m)) as [Htop|Hup].
      * exists c, cnode, dm, 1%nat. split_and!; try done.
        -- by eapply stops_top.
        -- by left.
        -- lia.
        -- intros node [|fuel] Hn Hfuel; [lia|]. assert (node = cnode) as -> by congruence.
           simpl. rewrite Hhc. destruct (hn - h cn <? Δ) eqn:E; [|lia].
           rewrite Hfac, Hfc. simpl. rewrite Hmnode. simpl. rewrite Hfam.
           by rewrite decide_True.
      * exists am, amnode, dm, (S km). split_and!; try done.
        -- by eapply stops_up.
        -- right. destruct Hor as [->|?]; [|done]. intros ->.
           destruct (root_ok_father _ _ Hroot) as (rn & Hrn & Hf). congruence.
        -- lia.
        -- intros node [|fuel] Hn Hfuel; [lia|]. assert (node = cnode) as -> by congruence.
           simpl. rewrite Hhc. destruct (hn - h cn <? Δ) eqn:E; [|lia].
           rewrite Hfac, Hfc. simpl. rewrite Hmnode. simpl. rewrite Hfam.
           rewrite decide_False by congruence. apply Hwalk; [done|lia].
    + exists c, cnode, dm, 1%nat. split_and!; try done.
      * eapply stops_met; [done|lia].
      * by left.
      * lia.
      * intros node [|fuel] Hn Hfuel; [lia|]. assert (node = cnode) as -> by congruence.
        simpl. rewrite Hhc. destruct (hn - h cn <? Δ) eqn:E; [lia|done].
Qed.

Lemma upd_Some hp n nd (f : Node → Node) :
  hp !! n = Some nd → upd n f hp = Some (<[n := f nd]> hp).
Proof. unfold upd. by intros ->. Qed.

Lemma computeMSER_node_spec D hp0 root delta hp t nd :
  tree_ok D hp0 root = true → root_ok hp0 root = true →
  frame (keeps [] mser_slots false) hp0 hp → reach hp0 root t → hp !! t = Some nd →
  ∃ nd',
    (∀ F, (D ≤ F)%nat → computeMSER_node F delta t hp = Some (<[t := nd']> hp)) ∧
    keeps [] mser_slots false nd nd' ∧
    ∃ a an nd0,
      hp0 !! t = Some nd0 ∧ hp0 !! a = Some an ∧
      stops_at hp0 (int_of_uint delta) (h nd0) t a ∧ (a = t ∨ a ≠ root) ∧
      nattr nd' mser = mser_of (int_of_uint delta) nd0 an.
Proof.
  intros Hok Hroot Hfr Hr Ht.
  set (Δ := int_of_uint delta).
  remember (set_nattr area_derivative_delta_areaF LdMax
              (set_nattr area_derivative_delta_h LdMax (set_nattr mser LdMax nd)))
    as ndm eqn:Hndm.
  assert (nattr ndm mser = LdMax) as Hmax.
  { rewrite Hndm. simpl. rewrite fn_lookup_insert_ne by done.
    rewrite fn_lookup_insert_ne by done. by rewrite fn_lookup_insert. }
  assert (keeps [] mser_slots false nd ndm) as Hkm.
  { rewrite Hndm. eapply keeps_trans; [|apply keeps_set_nattr; unfold mser_slots; in_slots].
    eapply keeps_trans; [|apply keeps_set_nattr; unfold mser_slots; in_slots].
    apply keeps_set_nattr; unfold mser_slots; in_slots. }
  assert (frame (keeps [] mser_slots false) hp0 (<[t := ndm]> hp)) as Hfr1.
  { eapply frame_trans; [apply keeps_trans|exact Hfr|].
    eapply frame_insert; [apply keeps_refl|done|done]. }
  destruct (father_reach _ _ _ _ Hok Hroot Hr) as (nd0 & f & fn0 & Ht0 & Hf0 & Hfn0 & Hrf).
  destruct (frame_keeps_lookup _ _ _ _ _ _ _ Hfr1 Ht0) as (x & Hx & Hk0).
  assert (<[t := ndm]> hp !! t = Some ndm) as Htm
    by (apply list_lookup_insert_eq; by eapply lookup_lt_Some).
  assert (x = ndm) as -> by congruence.
  destruct (frame_keeps_lookup _ _ _ _ _ _ _ Hfr1 Hfn0) as (fn & Hfn & _).
  destruct (mser_walk_total D hp0 root Δ (h ndm) (<[t := ndm]> hp) t Hok Hroot Hfr1 Hr)
    as (a & anode & d & k & Hstop & Hra & Hor & Ha & Hokt & Hle & Hwalk).
  assert (k ≤ D)%nat as HkD by (destruct d; [done|lia]).
  destruct (tree_ok_reach _ _ _ _ Hok Hra) as (? & _ & Hoka).
  apply tree_ok_unfold in Hoka as (an & Han & _).
  destruct (frame_keeps_lookup _ _ _ _ _ _ _ Hfr1 Han) as (y & Hy & Hka).
  assert (y = anode) as -> by congruence.
  destruct Hk0 as (_ & _ & Hh0 & Hfa0 & _ & _ & _ & _ & _ & Hi0 & _).
  destruct Hka as (_ & _ & Hha & _ & _ & _ & _ & _ & _ & Hia & _).
  remember (set_nattr area_derivative_delta_areaF
              (LdDiv (LdInt (iattr anode area - iattr ndm area)) (LdInt (iattr anode area)))
              (set_nattr area_derivative_delta_h
                 (LdDiv (LdInt (iattr anode area - iattr ndm area))
                        (LdInt (h ndm - h anode)))
                 (set_nattr mser
                    (LdDiv (LdInt (iattr anode area - iattr ndm area))
                           (LdInt (iattr ndm area))) ndm))) as ndf eqn:Hndf.
  assert (nattr ndf mser
          = LdDiv (LdInt (iattr anode area - iattr ndm area)) (LdInt (iattr ndm area))) as Hfin.
  { rewrite Hndf. simpl. rewrite fn_lookup_insert_ne by done.
    rewrite fn_lookup_insert_ne by done. by rewrite fn_lookup_insert. }
  assert (keeps [] mser_slots false ndm ndf) as Hkf.
  { rewrite Hndf. eapply keeps_trans; [|apply keeps_set_nattr; unfold mser_slots; in_slots].
    eapply keeps_trans; [|apply keeps_set_nattr; unfold mser_slots; in_slots].
    apply keeps_set_nattr; unfold mser_slots; in_slots. }
  exists (if h ndm - h anode >=? Δ then ndf else ndm). split_and!.
  - intros F HF. unfold computeMSER_node. rewrite (upd_Some _ _ _ _ Ht). cbv beta.
    rewrite <- Hndm. simpl. rewrite Htm. simpl. rewrite Hfa0, Hf0. simpl. rewrite Hfn. simpl.
    fold Δ. rewrite (Hwalk ndm F Htm) by lia. simpl.
    destruct (h ndm - h anode >=? Δ); [|done].
    rewrite (upd_Some _ _ _ _ Htm). cbv beta. rewrite <- Hndf.
    by rewrite list_insert_insert_eq.
  - destruct (h ndm - h anode >=? Δ); [by eapply keeps_trans|done].
  - exists a, an, nd0. rewrite <- Hh0. split_and!; try done.
    unfold mser_of. rewrite <- Hh0, <- Hha.
    destruct (h ndm - h anode >=? Δ) eqn:E.
    + rewrite decide_True by lia. rewrite Hfin.
      rewrite <- (Hi0 area), <- (Hia area); [done|apply not_elem_of_nil..].
    + by rewrite decide_False by lia.
Qed.

Lemma stops_at_fun hp Δ hn n a1 a2 :
  stops_at hp Δ hn n a1 → stops_at hp Δ hn n a2 → a1 = a2.
Proof.
  intros H1. revert a2.
  induction H1 as [n nd Hn Hge|n nd f fn Hn Hlt Hf Hfn Htop|n nd f fn a Hn Hlt Hf Hfn Hup H1 IH];
    intros a2 H2; inversion H2; simplify_eq; try done; try lia.
  by apply IH.
Qed.

(** C4, as the code has it: the walk of [computeMSER] starts at the node
    itself and never looks at the root (unless it starts there): it stops
    at the first node whose level is at least [(int)delta] below, and at
    the latest at the child of the root.  When the node where it stops
    meets the threshold, [mser] is [(a.area - n.area) / n.area]; otherwise
    it is the largest [long double], also when the root would have met
    the threshold. *)
Theorem computeMSER_stops_below_root (hp : list Node) (root D : nat) (delta : Z) :
  tree_ok D hp root = true → root_ok hp root = true →
  ∃ hp',
    converges (λ fuel, computeMSER fuel hp root delta) (tt, hp') ∧
    ∀ n nd, reach hp root n → hp !! n = Some nd →
      ∃ a an nd',
        stops_at hp (int_of_uint delta) (h nd) n a ∧
        (∀ a', stops_at hp (int_of_uint delta) (h nd) n a' → a' = a) ∧
        (a = n ∨ a ≠ root) ∧
        hp !! a = Some an ∧ hp' !! n = Some nd' ∧
        nattr nd' mser = mser_of (int_of_uint delta) nd an.
Proof.
  intros Hok Hroot.
  destruct (after_children_spec (λ F, computeMSER_node F delta) D hp root D
              (keeps [] mser_slots false)
              (λ t nd', ∃ a an nd0,
                 hp !! t = Some nd0 ∧ hp !! a = Some an ∧
                 stops_at hp (int_of_uint delta) (h nd0) t a ∧ (a = t ∨ a ≠ root) ∧
                 nattr nd' mser = mser_of (int_of_uint delta) nd0 an))
    as (hp' & Hrun & _ & HQ & _).
  - done.
  - apply keeps_refl.
  - apply keeps_trans.
  - apply keeps_links.
  - intros hp1 t nd Hfr Hr Ht. by eapply computeMSER_node_spec.
  - exists hp'. split.
    + exists D. intros fuel Hf. unfold computeMSER. by apply Hrun.
    + intros n nd Hr Hn. destruct (HQ n Hr) as (nd' & Hn' & a & an & nd0 & Hn0 & Ha & Hs & Hor & Hm).
      assert (nd0 = nd) as -> by congruence.
      exists a, an, nd'. split_and!; try done.
      intros a' Hs'. by eapply stops_at_fun.
Qed.

Lemma computeMSER_stops_below_root_witness :
  tree_ok 3 ex_heap 0 = true ∧ root_ok ex_heap 0 = true ∧
  ∃ hp',
    converges (λ fuel, computeMSER fuel ex_heap 0%nat 4) (tt, hp') ∧
    ∀ n nd, reach ex_heap 0 n → ex_heap !! n = Some nd →
      ∃ a an nd',
        stops_at ex_heap (int_of_uint 4) (h nd) n a ∧
        (∀ a', stops_at ex_heap (int_of_uint 4) (h nd) n a' → a' = a) ∧
        (a = n ∨ a ≠ 0%nat) ∧
        ex_heap !! a = Some an ∧ hp' !! n = Some nd' ∧
        nattr nd' mser = mser_of (int_of_uint 4) nd an.
Proof.
  split; [reflexivity|]. split; [reflexivity|].
  exact (computeMSER_stops_below_root ex_heap 0 3 4 eq_refl eq_refl).
Defined.

(** On the image [1 1 2 3] with [delta = 2], the node of level 3 meets
    the threshold only at the root (level 1, area 4).  Its [mser] is the
    largest [long double], not [(4 - 1) / 1]. *)
Lemma computeMSER_root_not_reached :
  ∃ t rn mn nd,
    ComponentTree_delta U8 100 img_step img_step make2DN8 2 = Some t ∧
    m_root t = Some 0%nat ∧
    nodes t !! 0%nat = Some rn ∧ nodes t !! 1%nat = Some mn ∧ nodes t !! 2%nat = Some nd ∧
    father nd = Some 1%nat ∧ father mn = Some 0%nat ∧
    h nd - h nd < 2 ∧ h nd - h mn < 2 ∧ 2 ≤ h nd - h rn ∧
    nattr nd mser = LdMax ∧
    nattr nd mser ≠ LdDiv (LdInt (iattr rn area - iattr nd area)) (LdInt (iattr nd area)).
Proof.
  eexists _, _, _, _. split; [vm_compute; reflexivity|].
  simpl. split_and!; try reflexivity; try lia. done.
Qed.

(** * The flooding *)

(** ** Arrays indexed by [Z] *)

Arguments zget : simpl never.
Arguments zset : simpl never.

Lemma zget_Some {A} (l : list A) i x :
  zget l i = Some x ↔ 0 ≤ i ∧ l !! Z.to_nat i = Some x.
Proof.
  unfold zget. destruct (i <? 0) eqn:E; split.
  - done.
  - intros [? _]. lia.
  - intros ?. split; [lia|done].
  - by intros [_ ?].
Qed.

Lemma zget_range {A} (l : list A) i x :
  zget l i = Some x → 0 ≤ i < Z.of_nat (length l).
Proof. intros [? Hl%lookup_lt_Some]%zget_Some. lia. Qed.

Lemma zget_is_Some {A} (l : list A) i :
  0 ≤ i < Z.of_nat (length l) → is_Some (zget l i).
Proof.
  intros Hi. unfold zget. destruct (i <? 0) eqn:E; [lia|].
  apply lookup_lt_is_Some. lia.
Qed.

Lemma zget_None {A} (l : list A) i :
  ¬ (0 ≤ i < Z.of_nat (length l)) → zget l i = None.
Proof.
  intros Hi. destruct (zget l i) eqn:E; [|done]. apply zget_range in E. lia.
Qed.

Lemma zset_inv {A} (l l' : list A) i x :
  zset l i x = Some l' →
  0 ≤ i < Z.of_nat (length l) ∧ l' = <[Z.to_nat i := x]> l.
Proof.
  unfold zset. destruct (0 <=? i) eqn:E1; [|done].
  destruct (i <? Z.of_nat (length l)) eqn:E2; [|done]. simpl. intros [= <-].
  split; [lia|done].
Qed.

Lemma zset_total {A} (l : list A) i x :
  0 ≤ i < Z.of_nat (length l) → zset l i x = Some (<[Z.to_nat i := x]> l).
Proof.
  intros Hi. unfold zset. destruct (0 <=? i) eqn:E1; [|lia].
  destruct (i <? Z.of_nat (length l)) eqn:E2; [done|lia].
Qed.

Lemma zget_insert {A} (l : list A) i j x :
  0 ≤ i < Z.of_nat (length l) →
  zget (<[Z.to_nat i := x]> l) j = if decide (j = i) then Some x else zget l j.
Proof.
  intros Hi. unfold zget. destruct (decide (j = i)) as [->|Hne].
  - destruct (i <? 0) eqn:E; [lia|]. apply list_lookup_insert_eq. lia.
  - destruct (j <? 0) eqn:E; [done|]. apply list_lookup_insert_ne. lia.
Qed.

Lemma zget_insert_eq {A} (l : list A) i x :
  0 ≤ i < Z.of_nat (length l) → zget (<[Z.to_nat i := x]> l) i = Some x.
Proof. intros Hi. rewrite zget_insert by done. by rewrite decide_True. Qed.

Lemma zget_insert_ne {A} (l : list A) i j x :
  0 ≤ i → j ≠ i → zget (<[Z.to_nat i := x]> l) j = zget l j.
Proof.
  intros Hi Hne. unfold zget. destruct (j <? 0) eqn:E; [done|].
  apply list_lookup_insert_ne. lia.
Qed.

Lemma zget_replicate {A} (n : nat) (x y : A) i :
  zget (replicate n x) i = Some y ↔ y = x ∧ 0 ≤ i < Z.of_nat n.
Proof.
  rewrite zget_Some, lookup_replicate. split.
  - intros (? & ? & ?). split; [done|lia].
  - intros (? & ? & ?). split_and!; [lia|done|lia].
Qed.

(** ** Counting unlabelled pixels *)

Lemma filter_insert_length {A} (P : A → Prop) `{∀ x, Decision (P x)}
    (l : list A) (i : nat) x y :
  l !! i = Some x →
  length (filter P (<[i := y]> l)) =
  (length (filter P l) + (if decide (P y) then 1 else 0)
   - (if decide (P x) then 1 else 0))%nat.
Proof.
  revert i. induction l as [|a l IH]; intros i Hi; [done|].
  destruct i as [|i]; simpl in *.
  - injection Hi as ->. rewrite !filter_cons.
    destruct (decide (P y)), (decide (P x)); simpl; lia.
  - rewrite !filter_cons. specialize (IH i Hi).
    assert (if decide (P x) then (1 ≤ length (filter P l))%nat else True) as Hpos.
    { destruct (decide (P x)); [|done].
      assert (x ∈ filter P l) as Hin.
      { apply list_elem_of_filter. split; [done|]. by eapply list_elem_of_lookup_2. }
      destruct (filter P l); [by apply elem_of_nil in Hin|simpl; lia]. }
    destruct (decide (P a)); simpl; rewrite IH;
      destruct (decide (P y)), (decide (P x)); lia.
Qed.

Section Flooding.

Variable c : Strategy.
Variable st0 : list Z.
Variable cap : Z → nat.
Hypothesis Hctx : ctx_ok c st0 cap.

Local Abbreviation inv := (inv c st0 cap).
Local Abbreviation at_level := (at_level c st0).
Local Abbreviation started := (started c st0).
Local Abbreviation interior := (interior st0).
Local Abbreviation closed := (closed c).
Local Abbreviation below := (below c st0).
Local Abbreviation flood_pre := (flood_pre c st0 cap).
Local Abbreviation flood_post := (flood_post c st0 cap).
Local Abbreviation while_post := (while_post c st0 cap).
Local Abbreviation rise_pre := (rise_pre c st0 cap).
Local Abbreviation rise_post := (rise_post c st0 cap).
Local Abbreviation at_work := (at_work c st0 cap).

(** ** Levels *)

Lemma at_level_fun p l l' : at_level p l → at_level p l' → l = l'.
Proof. unfold at_level, indexToH. intros [_ H1] [_ H2]. rewrite H1 in H2. injection H2. lia. Qed.

Lemma at_level_range p l : at_level p l → 0 ≤ l < numberOfLevels c.
Proof.
  intros [Hi Hv]. destruct (ctx_range Hctx p Hi) as (v & Hv' & Hr).
  rewrite Hv in Hv'. injection Hv' as <-. unfold indexToH, numberOfLevels in *. lia.
Qed.

Lemma at_level_intro p v :
  interior p → val c p = Some v → at_level p (hToIndex c v).
Proof.
  intros Hi Hv. split; [done|]. rewrite Hv. f_equal. unfold indexToH, hToIndex. lia.
Qed.

Lemma active_interior s p :
  inv s → st_at s p = Some ACTIVE → interior p.
Proof.
  intros Hinv Hp. pose proof (zget_range _ _ _ Hp) as Hr.
  rewrite (inv_len_status Hinv) in Hr.
  destruct (zget_is_Some st0 p Hr) as [v Hv].
  destruct (ctx_vals Hctx p v Hv) as [->| ->]; [done|].
  rewrite (inv_border Hinv p Hv) in Hp. done.
Qed.

Lemma interior_val p : interior p → ∃ v, val c p = Some v ∧ at_level p (hToIndex c v).
Proof.
  intros Hi. destruct (ctx_range Hctx p Hi) as (v & Hv & _).
  exists v. split; [done|]. by apply at_level_intro.
Qed.

Lemma level_lookup {A} (l : list A) i :
  Z.of_nat (length l) = numberOfLevels c → 0 ≤ i < numberOfLevels c →
  is_Some (zget l i).
Proof. intros Hl Hi. apply zget_is_Some. lia. Qed.

(** ** The table of nodes *)

Local Abbreviation hinv := (hinv c st0 cap).
Local Abbreviation ensure := (ensure c).

Lemma hinv_ext s s' :
  index s' = index s → heap s' = heap s → number_nodes s' = number_nodes s →
  (∀ l, nal_at s l = Some true → nal_at s' l = Some true) →
  hinv s → hinv s'.
Proof.
  intros Hi Hh Hn Hnal H. constructor; unfold nn_at, index_at in *.
  - rewrite Hi. apply (inv_len_index H).
  - rewrite Hi. apply (inv_rows H).
  - rewrite Hi, Hh, Hn. intros l k n Hl.
    destruct (inv_index H l k n Hl) as (nd & kn & H1 & H2 & H3 & H4 & H5 & H6).
    exists nd, kn. split_and!; try done; [lia..|]. intros Hk. apply Hnal. by apply H6.
  - rewrite Hi, Hh. apply (inv_heap_index H).
  - rewrite Hh, Hn. apply (inv_open H).
  - rewrite Hh, Hn. apply (inv_closed H).
  - rewrite Hh. apply (inv_childs H).
  - rewrite Hh. apply (inv_pixels H).
  - rewrite Hh. apply (inv_fresh H).
  - rewrite Hh. apply (inv_blank H).
Qed.

Lemma label_nonneg s n nd : hinv s → heap s !! n = Some nd → 0 ≤ label nd.
Proof.
  intros H Hn. pose proof (inv_heap_index H n nd Hn) as E.
  destruct (inv_index H _ _ _ E) as (nd0 & kn & _ & _ & _ & _ & Hk & _). lia.
Qed.

(** A pixel is held by at most one node. *)
Lemma owner_unique s n n' nd nd' o :
  inv s → heap s !! n = Some nd → heap s !! n' = Some nd' →
  o ∈ pixels nd → o ∈ pixels nd' → n = n'.
Proof.
  intros Hinv Hn Hn' Ho Ho'.
  destruct (inv_pixels Hinv n nd o Hn Ho) as (p & Hp & -> & Hv).
  destruct (inv_pixels Hinv n' nd' _ Hn' Ho') as (p' & Hp' & E & Hv').
  apply (ctx_inj Hctx) in E; [|done..]. subst p'.
  pose proof (inv_owner Hinv n nd p Hn Hp Ho) as E1.
  pose proof (inv_owner Hinv n' nd' p Hn' Hp' Ho') as E2.
  pose proof (inv_heap_index Hinv n nd Hn) as I1.
  pose proof (inv_heap_index Hinv n' nd' Hn') as I2.
  assert (h nd = h nd') as Eh by congruence.
  assert (label nd = label nd') as El by congruence.
  rewrite Eh, El in I1. congruence.
Qed.

(** ** Queueing a pixel *)

Lemma flood_push_run l q s :
  inv s → st_at s q = Some ACTIVE → at_level q l →
  ∃ fifo, hq_at s l = Some fifo ∧ flood_push l q s = Some (push_state l q fifo s).
Proof.
  intros Hinv Hq Hl. pose proof (at_level_range _ _ Hl) as Hr.
  destruct (level_lookup (hq s) l (inv_len_hq Hinv) Hr) as [fifo Hf].
  exists fifo. split; [done|]. unfold flood_push. rewrite Hf. simpl.
  pose proof (inv_len_hq Hinv). pose proof (inv_len_nal Hinv).
  pose proof (zget_range _ _ _ Hq).
  rewrite (zset_total (hq s)) by lia. simpl.
  rewrite (zset_total (STATUS s)) by done. simpl.
  rewrite (zset_total (node_at_level s)) by lia. done.
Qed.

Lemma push_st l q fifo s p :
  is_Some (st_at s q) →
  st_at (push_state l q fifo s) p =
  if decide (p = q) then Some NOT_ACTIVE else st_at s p.
Proof.
  intros [v Hv]. unfold st_at in *. simpl. apply zget_insert. by eapply zget_range.
Qed.

Lemma push_hq l q fifo s l' :
  is_Some (hq_at s l) →
  hq_at (push_state l q fifo s) l' =
  if decide (l' = l) then Some (fifo ++ [q]) else hq_at s l'.
Proof.
  intros [v Hv]. unfold hq_at in *. simpl. apply zget_insert. by eapply zget_range.
Qed.

Lemma push_nal l q fifo s l' :
  is_Some (nal_at s l) →
  nal_at (push_state l q fifo s) l' =
  if decide (l' = l) then Some true else nal_at s l'.
Proof.
  intros [v Hv]. unfold nal_at in *. simpl. apply zget_insert. by eapply zget_range.
Qed.

Lemma started_mono s s' l :
  nn_at s' l = nn_at s l →
  (∀ p k, st_at s p = Some k → 0 ≤ k → st_at s' p = Some k) →
  inv s → started s l → started s' l.
Proof.
  intros Hnn Hst Hinv (p & k & Hp & Hk & Hs). exists p, k.
  split_and!; [done|congruence|]. apply Hst; [done|]. by eapply (inv_nn_pos Hinv).
Qed.

Lemma push_label l q fifo s p k :
  is_Some (st_at s q) → 0 ≤ k →
  st_at (push_state l q fifo s) p = Some k → st_at s p = Some k.
Proof.
  intros Hq Hk. rewrite push_st by done. case_decide; [|done].
  intros [= <-]. unfold NOT_ACTIVE in Hk. lia.
Qed.

Lemma push_label_keep l q fifo s p k :
  st_at s q = Some ACTIVE → 0 ≤ k →
  st_at s p = Some k → st_at (push_state l q fifo s) p = Some k.
Proof.
  intros Hq Hk Hp. rewrite push_st by done. case_decide as E; [|done].
  subst p. rewrite Hq in Hp. injection Hp as <-. unfold ACTIVE in Hk. lia.
Qed.

Lemma push_started l q fifo s l' :
  inv s → st_at s q = Some ACTIVE →
  started (push_state l q fifo s) l' ↔ started s l'.
Proof.
  intros Hinv Hq. split.
  - intros (p & k & Hp & Hk & Hs). exists p, k. split_and!; [done..|].
    eapply push_label; [done| |done]. by eapply (inv_nn_pos Hinv).
  - apply started_mono; [done| |done]. intros p k Hp Hk. by apply push_label_keep.
Qed.

Lemma push_inv l q fifo s :
  inv s → st_at s q = Some ACTIVE → at_level q l → hq_at s l = Some fifo →
  nn_at s 0 = Some 0 → inv (push_state l q fifo s).
Proof.
  intros Hinv Hq Hl Hf Hroot.
  pose proof (at_level_range _ _ Hl) as Hr.
  assert (is_Some (st_at s q)) as Hq' by done.
  assert (is_Some (hq_at s l)) as Hf' by done.
  assert (is_Some (nal_at s l)) as Hn'.
  { apply zget_is_Some. rewrite (inv_len_nal Hinv). done. }
  assert (q ∉ fifo) as Hnotin.
  { intros Hin. destruct (inv_queue Hinv l fifo q Hf Hin) as [_ E].
    rewrite Hq in E. done. }
  constructor.
  - simpl. rewrite length_insert. by apply (inv_len_status Hinv).
  - simpl. rewrite length_insert. by apply (inv_len_hq Hinv).
  - by apply (inv_len_nn Hinv).
  - simpl. rewrite length_insert. by apply (inv_len_nal Hinv).
  - intros p Hp. rewrite push_st by done. case_decide as E.
    + subst p. pose proof (inv_border Hinv q Hp) as Hb.
      rewrite Hq in Hb. done.
    + by apply (inv_border Hinv).
  - intros p Hp. rewrite push_st by done. case_decide as E.
    + exists NOT_ACTIVE. split; [done|]. by right; left.
    + by apply (inv_interior Hinv).
  - intros l' q' p. rewrite push_hq, push_st by done. case_decide as E.
    + subst l'. intros [= <-] [Hin| ->%list_elem_of_singleton]%elem_of_app.
      * destruct (inv_queue Hinv l fifo p Hf Hin) as [H1 H2].
        split; [done|]. case_decide; done.
      * split; [done|]. by rewrite decide_True.
    + intros Hq'' Hin. destruct (inv_queue Hinv l' q' p Hq'' Hin) as [H1 H2].
      split; [done|]. case_decide; done.
  - intros l' q'. rewrite push_hq by done. case_decide as E.
    + intros [= <-]. apply NoDup_app. split_and!.
      * by eapply (inv_nodup Hinv).
      * intros x Hx ->%list_elem_of_singleton. done.
      * apply NoDup_singleton.
    + by apply (inv_nodup Hinv).
  - intros p l' Hp. rewrite push_st, push_hq by done. case_decide as E.
    + subst p. intros _. rewrite (at_level_fun _ _ _ Hp Hl), decide_True by done.
      eexists. split; [done|]. apply elem_of_app. right. by apply list_elem_of_singleton.
    + intros Hs. destruct (inv_waiting Hinv p l' Hp Hs) as (q' & Hq'' & Hin).
      case_decide as E'.
      * subst l'. rewrite Hf in Hq''. injection Hq'' as <-.
        eexists. split; [done|]. apply elem_of_app. by left.
      * by exists q'.
  - by apply (inv_nn_pos Hinv).
  - intros p l' k Hp Hs Hk. apply push_label in Hs; [|done..].
    by apply (inv_label Hinv p l' k).
  - intros l' kn k Hkn Hk.
    destruct (inv_closed_label Hinv l' kn k Hkn Hk) as (p & Hp & Hs).
    exists p. split; [done|]. apply push_label_keep; [done|lia|done].
  - intros l'. rewrite push_nal, push_hq by done. case_decide as E.
    + intros _. left. destruct fifo; simpl; eauto.
    + intros Hn. destruct (inv_nal Hinv l' Hn) as [?|Hs]; [by left|].
      right. by apply push_started.
  - intros l' p rest. rewrite push_hq, push_nal by done. case_decide as E; [done|].
    by apply (inv_nal_q Hinv).
  - intros l' Hs%push_started; [|done..]. rewrite push_nal by done.
    case_decide; [done|]. by apply (inv_nal_s Hinv).
  - by left.
  - apply (hinv_ext s); [done..| |apply Hinv].
    intros l' Hn. rewrite push_nal by done. by case_decide.
  - intros n nd p Hn Hp Hin. apply push_label_keep; [done| |by apply (inv_owner Hinv n)].
    by apply (label_nonneg s n); [apply Hinv|].
  - intros n nd Hn. by apply (inv_pix_nodup Hinv n).
  - intros n nd Hn. by apply (inv_counts Hinv n).
Qed.

End Flooding.

(** ** Allocation of nodes *)

Section Nodes.

Variable c : Strategy.
Variable st0 : list Z.
Variable cap : Z → nat.
Hypothesis Hctx : ctx_ok c st0 cap.

Local Abbreviation hinv := (hinv c st0 cap).
Local Abbreviation ensure := (ensure c).
Local Abbreviation alloc := (alloc c).

Lemma index_at_Some s l k n :
  index_at s l k = Some n ↔
  ∃ row, zget (index s) l = Some row ∧ zget row k = Some (Some n).
Proof.
  unfold index_at. split.
  - destruct (zget (index s) l) as [row|]; [|done]. simpl.
    destruct (zget row k) as [cell|] eqn:E; [|done]. simpl. intros ->. eauto.
  - intros (row & -> & Hk). simpl. by rewrite Hk.
Qed.

Lemma ensure_settled l k s n s' : ensure l k s = (n, s') → settled s s'.
Proof.
  unfold ensure. destruct (index_at s l k); intros [= <- <-] m md Hm.
  - right. by exists md.
  - simpl in Hm. apply lookup_app_Some in Hm as [Hm|[_ Hm]]; [right; by exists md|].
    left. apply list_lookup_singleton_Some in Hm as [_ <-]. done.
Qed.

Lemma node_at_ensure l k s row :
  zget (index s) l = Some row → 0 ≤ k < Z.of_nat (length row) →
  node_at c l k s = Some (ensure l k s).
Proof.
  intros Hrow Hk. unfold node_at, ensure, index_at. rewrite Hrow. simpl.
  destruct (zget_is_Some row k Hk) as [cell Hcell]. rewrite Hcell. simpl.
  destruct cell as [n|]; [done|].
  rewrite (zset_total row) by done. simpl.
  rewrite (zset_total (index s)) by (by eapply zget_range).
  unfold alloc. by rewrite Hrow.
Qed.

Lemma alloc_index_at l k s l' k' row :
  zget (index s) l = Some row → 0 ≤ k < Z.of_nat (length row) →
  index_at (alloc l k s) l' k' =
  if decide (l' = l ∧ k' = k) then Some (length (heap s)) else index_at s l' k'.
Proof.
  intros Hrow Hk. unfold index_at, alloc. simpl. rewrite Hrow. simpl.
  rewrite zget_insert by (by eapply zget_range).
  destruct (decide (l' = l)) as [->|Hl]; simpl.
  - rewrite zget_insert by done. rewrite Hrow. simpl.
    destruct (decide (k' = k)) as [->|Hk'].
    + by rewrite decide_True.
    + by rewrite decide_False by (intros [??]; done).
  - by rewrite decide_False by (intros [??]; done).
Qed.

Lemma alloc_hinv l k s row :
  hinv s → zget (index s) l = Some row → 0 ≤ k < Z.of_nat (length row) →
  index_at s l k = None → nn_at s l = Some k → nal_at s l = Some true →
  hinv (alloc l k s).
Proof.
  intros H Hrow Hk Hnone Hnn Hnal.
  pose proof (zget_range _ _ _ Hrow) as Hl.
  assert (∀ n nd, heap s !! n = Some nd → heap (alloc l k s) !! n = Some nd) as Hold.
  { intros n nd Hn. simpl. by apply lookup_app_l_Some. }
  assert (∀ n nd, heap (alloc l k s) !! n = Some nd →
            heap s !! n = Some nd ∨
            (n = length (heap s) ∧ nd = new_node (indexToH c l) k)) as Hnew.
  { intros n nd. simpl. intros [?|[? Hn]]%lookup_app_Some; [by left|right].
    destruct (n - length (heap s))%nat eqn:E; [|done]. simpl in Hn.
    injection Hn as <-. split; [lia|done]. }
  constructor.
  - simpl. rewrite length_insert. apply (inv_len_index H).
  - intros l' row'. simpl. rewrite zget_insert by done. case_decide as E.
    + subst l'. intros [= <-]. rewrite Hrow. simpl. rewrite length_insert.
      by apply (inv_rows H l).
    + apply (inv_rows H).
  - intros l' k' n. rewrite (alloc_index_at _ _ _ _ _ row) by done.
    case_decide as E.
    + destruct E as [-> ->]. intros [= <-].
      exists (new_node (indexToH c l) k), k. split_and!; try done.
      * simpl. by apply list_lookup_middle.
      * lia.
    + intros Hn. destruct (inv_index H l' k' n Hn) as (nd & kn & H1 & H2).
      exists nd, kn. split; [by apply Hold|done].
  - intros n nd [Hn|[-> ->]]%Hnew.
    + rewrite (alloc_index_at _ _ _ _ _ row) by done.
      pose proof (inv_heap_index H n nd Hn) as Hi. case_decide as E; [|done].
      destruct E as [E1 E2]. rewrite E1, E2 in Hi. congruence.
    + rewrite (alloc_index_at _ _ _ _ _ row) by done. simpl.
      rewrite decide_True; [done|]. unfold hToIndex, indexToH. split; [lia|done].
  - intros n nd kn [Hn|[-> ->]]%Hnew; [by apply (inv_open H n nd kn Hn)|done].
  - intros n nd kn [Hn|[-> ->]]%Hnew.
    + intros Hkn Hlt. destruct (inv_closed H n nd kn Hn Hkn Hlt)
        as [(f & fn & H1 & H2 & H3 & H4)|?]; [left|by right].
      exists f, fn. split_and!; try done. by apply Hold.
    + simpl. replace (hToIndex c (indexToH c l)) with l
        by (unfold hToIndex, indexToH; lia).
      change (nn_at (alloc l k s) l) with (nn_at s l). rewrite Hnn. intros [= <-]. lia.
  - intros n nd ch [Hn|[-> ->]]%Hnew; [|by intros ?%elem_of_nil].
    intros Hch. destruct (inv_childs H n nd ch Hn Hch) as (cn & H1 & H2).
    exists cn. split; [by apply Hold|done].
  - intros n nd o [Hn|[-> ->]]%Hnew; [by apply (inv_pixels H n)|by intros ?%elem_of_nil].
  - intros n nd [Hn|[-> ->]]%Hnew; [by apply (inv_fresh H n)|done].
  - intros n nd [Hn|[-> ->]]%Hnew; [by apply (inv_blank H n)|].
    split; [constructor|done].
Qed.

Lemma ensure_spec l k s row n s' :
  hinv s → zget (index s) l = Some row → 0 ≤ k < Z.of_nat (length row) →
  nn_at s l = Some k → nal_at s l = Some true → ensure l k s = (n, s') →
  hinv s' ∧ STATUS s' = STATUS s ∧ hq s' = hq s ∧
  number_nodes s' = number_nodes s ∧ node_at_level s' = node_at_level s ∧
  grows s s' ∧ index_at s' l k = Some n.
Proof.
  intros H Hrow Hk Hnn Hnal. unfold ensure.
  destruct (index_at s l k) as [m|] eqn:E.
  - intros [= <- <-]. split_and!; try done. split; eauto.
  - intros [= <- <-]. split_and!; try done.
    + by eapply alloc_hinv.
    + split.
      * intros l' k' n' Hn'. rewrite (alloc_index_at _ _ _ _ _ row) by done.
        case_decide as E'; [|done]. destruct E' as [-> ->]. congruence.
      * intros n' nd Hn'. exists nd. split; [|done]. simpl. by apply lookup_app_l_Some.
    + rewrite (alloc_index_at _ _ _ _ _ row) by done. by rewrite decide_True.
Qed.


(** ** Changes of the nodes that keep the table *)

Lemma hinv_heap s s' :
  index s' = index s → number_nodes s' = number_nodes s →
  node_at_level s' = node_at_level s →
  length (heap s') = length (heap s) →
  (∀ n nd nd', heap s !! n = Some nd → heap s' !! n = Some nd' →
     same_node nd nd' ∧ father nd' = father nd ∧ childs nd' = childs nd ∧
     ∀ o, o ∈ pixels nd' →
       ∃ p, interior st0 p ∧ o = (imOffset_of c p).1 ∧ val c p = Some (h nd)) →
  hinv s → hinv s'.
Proof.
  intros Hi Hn Hnal Hlen Hnd H.
  assert (∀ n nd', heap s' !! n = Some nd' → ∃ nd, heap s !! n = Some nd) as Hback.
  { intros n nd' Hn'%lookup_lt_Some. apply lookup_lt_is_Some. lia. }
  assert (∀ n nd, heap s !! n = Some nd → ∃ nd', heap s' !! n = Some nd') as Hforth.
  { intros n nd' Hn'%lookup_lt_Some. apply lookup_lt_is_Some. lia. }
  constructor; unfold nn_at, nal_at, index_at in *.
  - rewrite Hi. apply (inv_len_index H).
  - rewrite Hi. apply (inv_rows H).
  - rewrite Hi, Hn, Hnal. intros l k n Hl.
    destruct (inv_index H l k n Hl) as (nd & kn & H1 & H2 & H3 & H4 & [H5 H5'] & H6).
    destruct (Hforth n nd H1) as [nd' Hn'].
    destruct (Hnd n nd nd' H1 Hn') as ((E1 & E2 & _) & _).
    exists nd', kn. split_and!; [done|congruence|congruence|done..].
  - rewrite Hi. intros n nd' Hn'. destruct (Hback n nd' Hn') as [nd H1].
    destruct (Hnd n nd nd' H1 Hn') as ((E1 & E2 & _) & _). rewrite E1, E2.
    by apply (inv_heap_index H n nd).
  - rewrite Hn. intros n nd' kn Hn'. destruct (Hback n nd' Hn') as [nd H1].
    destruct (Hnd n nd nd' H1 Hn') as ((E1 & E2 & _) & E3 & _). rewrite E1, E2, E3.
    by apply (inv_open H n nd kn).
  - rewrite Hn. intros n nd' kn Hn'. destruct (Hback n nd' Hn') as [nd H1].
    destruct (Hnd n nd nd' H1 Hn') as ((E1 & E2 & _) & E3 & _). rewrite E1, E2, E3.
    intros Hkn Hlt. destruct (inv_closed H n nd kn H1 Hkn Hlt)
      as [(f & fn & F1 & F2 & F3 & F4)|?]; [left|by right].
    destruct (Hforth f fn F2) as [fn' Hf'].
    destruct (Hnd f fn fn' F2 Hf') as ((_ & G2 & _) & _ & G4 & _).
    exists f, fn'. split_and!; [done|done|congruence|congruence].
  - intros n nd' ch Hn'. destruct (Hback n nd' Hn') as [nd H1].
    destruct (Hnd n nd nd' H1 Hn') as ((E1 & E2 & _) & _ & E4 & _). rewrite E2, E4.
    intros Hch. destruct (inv_childs H n nd ch H1 Hch) as (cn & C1 & C2 & C3).
    destruct (Hforth ch cn C1) as [cn' Hc'].
    destruct (Hnd ch cn cn' C1 Hc') as ((_ & G2 & _) & G3 & _).
    exists cn'. split_and!; [done|congruence|congruence].
  - intros n nd' o Hn'. destruct (Hback n nd' Hn') as [nd H1].
    destruct (Hnd n nd nd' H1 Hn') as ((E1 & E2 & _) & _ & _ & E5). rewrite E2.
    apply E5.
  - intros n nd' Hn'. destruct (Hback n nd' Hn') as [nd H1].
    destruct (Hnd n nd nd' H1 Hn') as ((_ & _ & E3 & E4 & E5 & _) & _). rewrite E3, E4, E5.
    by apply (inv_fresh H n).
  - intros n nd' Hn'. destruct (Hback n nd' Hn') as [nd H1].
    destruct (Hnd n nd nd' H1 Hn') as ((_ & _ & _ & _ & _ & E6) & _ & E4 & _).
    destruct (inv_blank H n nd H1) as [B1 B2]. rewrite E4. split; [done|by apply E6].
Qed.

Lemma update_attributes_spec n p hp nd :
  hp !! n = Some nd →
  ∃ nd', update_attributes c n p hp = Some (<[n := nd']> hp) ∧
         same_node nd nd' ∧ father nd' = father nd ∧ childs nd' = childs nd ∧
         pixels nd' = pixels nd ++ [(imOffset_of c p).1] ∧
         (counts nd → counts nd').
Proof.
  intros Hn. unfold update_attributes.
  destruct (imOffset_of c p) as [o [[x y] z]]. unfold upd. rewrite Hn. simpl.
  eexists. split; [reflexivity|]. unfold same_node, counts.
  repeat case_match; simpl; (split_and!; [done..|]); intros (Ha & Hs & Hq);
    rewrite length_app, Nat2Z.inj_add; simpl;
    repeat (rewrite fn_lookup_insert || rewrite fn_lookup_insert_ne by done);
    rewrite ?Ha, ?Hs, ?Hq; split_and!; lia.
Qed.

End Nodes.

(** ** Taking a pixel out of its queue *)

Section Pop.

Variable c : Strategy.
Variable st0 : list Z.
Variable cap : Z → nat.
Hypothesis Hctx : ctx_ok c st0 cap.

Local Abbreviation inv := (inv c st0 cap).
Local Abbreviation hinv := (hinv c st0 cap).
Local Abbreviation at_level := (at_level c st0).
Local Abbreviation started := (started c st0).
Local Abbreviation interior := (interior st0).
Local Abbreviation closed := (closed c).
Local Abbreviation below := (below c st0).
Local Abbreviation ensure := (ensure c).

(** A pixel for each label below [n], all different. *)
Lemma labels_list s l (n : nat) :
  (∀ k, 0 ≤ k < Z.of_nat n → ∃ p, at_level p l ∧ st_at s p = Some k) →
  ∃ ps, length ps = n ∧ NoDup ps ∧
        ∀ p, p ∈ ps → at_level p l ∧ ∃ k, 0 ≤ k < Z.of_nat n ∧ st_at s p = Some k.
Proof.
  induction n as [|n IH]; intros Hk.
  - exists []. split_and!; [done|constructor|]. by intros p ?%elem_of_nil.
  - destruct IH as (ps & Hlen & Hnd & Hps); [intros k ?; apply Hk; lia|].
    destruct (Hk (Z.of_nat n)) as (p & Hp & Hs); [lia|].
    exists (p :: ps). split_and!.
    + simpl. by rewrite Hlen.
    + constructor; [|done]. intros Hin. destruct (Hps p Hin) as (_ & k & Hr & Hs').
      rewrite Hs in Hs'. injection Hs' as <-. lia.
    + intros p' [->|Hin]%elem_of_cons.
      * split; [done|]. exists (Z.of_nat n). split; [lia|done].
      * destruct (Hps p' Hin) as (Hl & k & Hr & Hs'). split; [done|].
        exists k. split; [lia|done].
Qed.

(** The row of a level has room for the node that a pixel of the level
    waits for. *)
Lemma label_room s l kn p v :
  inv s → nn_at s l = Some kn → at_level p l → st_at s p = Some v →
  v < 0 ∨ kn ≤ v → kn < Z.of_nat (cap l).
Proof.
  intros Hinv Hkn Hp Hs Hv. pose proof (inv_nn_pos Hinv l kn Hkn) as Hpos.
  destruct (labels_list s l (Z.to_nat kn)) as (ps & Hlen & Hnd & Hps).
  { intros k Hk. apply (inv_closed_label Hinv l kn k Hkn). lia. }
  assert (p ∉ ps) as Hnotin.
  { intros Hin. destruct (Hps p Hin) as (_ & k & Hr & Hs').
    rewrite Hs in Hs'. injection Hs' as ->. lia. }
  assert (length (p :: ps) ≤ cap l)%nat as Hle.
  { apply (ctx_cap Hctx l).
    - by constructor.
    - intros p' [->|Hin]%elem_of_cons; [done|]. by apply Hps. }
  simpl in Hle. lia.
Qed.

Lemma unlabelled_insert s s' p v w :
  st_at s p = Some v → STATUS s' = <[Z.to_nat p := w]> (STATUS s) →
  unlabelled s' =
  (unlabelled s + (if decide (w = ACTIVE ∨ w = NOT_ACTIVE) then 1 else 0)
   - (if decide (v = ACTIVE ∨ v = NOT_ACTIVE) then 1 else 0))%nat.
Proof.
  intros [_ Hv]%zget_Some Hs'. unfold unlabelled. rewrite Hs'.
  exact (filter_insert_length (λ v, v = ACTIVE ∨ v = NOT_ACTIVE) _ _ v w Hv).
Qed.

Lemma flood_pop_spec hl p rest s :
  inv s → hq_at s hl = Some (p :: rest) →
  ∃ s' nn, flood_pop c hl p rest s = Some s' ∧ nn_at s hl = Some nn ∧
    STATUS s' = <[Z.to_nat p := nn]> (STATUS s) ∧
    hq s' = <[Z.to_nat hl := rest]> (hq s) ∧
    number_nodes s' = number_nodes s ∧ node_at_level s' = node_at_level s ∧
    inv s'.
Proof.
  intros Hinv Hq.
  destruct (inv_queue Hinv hl _ p Hq) as [Hp Hs]; [by apply list_elem_of_here|].
  pose proof (at_level_range _ _ _ Hctx _ _ Hp) as Hr.
  pose proof (inv_nal_q Hinv hl p rest Hq) as Hnal.
  destruct (level_lookup c (number_nodes s) hl (inv_len_nn Hinv) Hr) as [nn Hnn].
  pose proof (inv_nn_pos Hinv hl nn Hnn) as Hpos.
  assert (nn < Z.of_nat (cap hl)) as Hroom.
  { apply (label_room s hl nn p NOT_ACTIVE); try done. by left. }
  destruct (level_lookup c (index s) hl (inv_len_index Hinv) Hr) as [row Hrow].
  pose proof (inv_rows Hinv hl row Hrow) as Hlen.
  pose proof (zget_range _ _ _ Hs) as Hpr.
  pose proof (zget_range _ _ _ Hq) as Hlr.
  pose proof (inv_nodup Hinv hl _ Hq) as Hnodup.
  apply NoDup_cons in Hnodup as [Hnotin Hnodup].
  set (s0 := set_STATUS (<[Z.to_nat p := nn]> (STATUS s))
               (set_hq (<[Z.to_nat hl := rest]> (hq s)) s)).
  assert (hinv s0) as H0 by (apply (hinv_ext c st0 cap s); [done..|apply Hinv]).
  destruct (ensure hl nn s0) as [n s1] eqn:He.
  destruct (ensure_spec c st0 cap hl nn s0 row n s1 H0 Hrow) as
    (H1 & Hst & Hhq & Hnn1 & Hnal1 & [Hgi Hgh] & Hidx); [lia|done..|].
  destruct (inv_index H1 hl nn n Hidx) as (nd & kn & Hn & Hh & Hlab & _).
  destruct (update_attributes_spec c n p (heap s1) nd Hn)
    as (nd' & Hupd & Hsame & Hfa & Hch & Hpx & Hcnt).
  set (s' := set_heap (<[n := nd']> (heap s1)) s1).
  assert (hinv s') as H'.
  { apply (hinv_heap c st0 cap s1); try done.
    - simpl. by rewrite length_insert.
    - intros m md md' Hm. simpl. destruct (decide (m = n)) as [->|Hne].
      + rewrite list_lookup_insert_eq by (by eapply lookup_lt_Some).
        intros [= <-]. rewrite Hm in Hn. injection Hn as ->.
        split_and!; try done. intros o. rewrite Hpx.
        intros [Ho| ->%list_elem_of_singleton]%elem_of_app.
        * by apply (inv_pixels H1 n nd).
        * exists p. split_and!; [apply Hp|done|]. rewrite Hh. apply Hp.
      + rewrite list_lookup_insert_ne by done. rewrite Hm. intros [= <-].
        split_and!; try done. intros o Ho. by apply (inv_pixels H1 m md). }
  assert (∀ x, st_at s' x = if decide (x = p) then Some nn else st_at s x) as Est.
  { intros x. unfold st_at. simpl. rewrite Hst. simpl. by apply zget_insert. }
  assert (∀ l, hq_at s' l = if decide (l = hl) then Some rest else hq_at s l) as Ehq.
  { intros l. unfold hq_at. simpl. rewrite Hhq. simpl. by apply zget_insert. }
  assert (∀ l, nn_at s' l = nn_at s l) as Enn.
  { intros l. unfold nn_at. simpl. by rewrite Hnn1. }
  assert (∀ l, nal_at s' l = nal_at s l) as Enal.
  { intros l. unfold nal_at. simpl. by rewrite Hnal1. }
  assert (∀ x k, st_at s x = Some k → 0 ≤ k → st_at s' x = Some k) as Hkeep.
  { intros x k Hx Hk. rewrite Est. case_decide as E; [|done]. subst x.
    rewrite Hs in Hx. injection Hx as <-. unfold NOT_ACTIVE in Hk. lia. }
  assert (started s' hl) as Hstarted.
  { exists p, nn. split_and!; [done|by rewrite Enn|]. rewrite Est. by rewrite decide_True. }
  pose proof (ensure_settled c hl nn s0 n s1 He) as Hback.
  assert (∀ m md x, heap s1 !! m = Some md → interior x →
            (imOffset_of c x).1 ∈ pixels md →
            st_at s x = Some (label md) ∧ 0 ≤ label md) as Hown1.
  { intros m md x Hm Hx Hin. split; [|by apply (label_nonneg c st0 cap s1 m)].
    destruct (Hback m md Hm) as [[E _]|(md0 & Hm0 & E1 & E2 & _)].
    - rewrite E in Hin. by apply elem_of_nil in Hin.
    - rewrite E1 in Hin. rewrite E2. by apply (inv_owner Hinv m). }
  assert (∀ m md, heap s1 !! m = Some md → NoDup (pixels md)) as Hnd1.
  { intros m md Hm. destruct (Hback m md Hm) as [[-> _]|(md0 & Hm0 & -> & _)].
    - apply NoDup_nil_2.
    - by apply (inv_pix_nodup Hinv m). }
  assert (∀ m md, heap s1 !! m = Some md → counts md) as Hcnt1.
  { intros m md Hm. destruct (Hback m md Hm) as [[_ ?]|(md0 & Hm0 & _ & _ & Hc)]; [done|].
    by apply Hc, (inv_counts Hinv m). }
  exists s', nn. split.
  { unfold flood_pop. rewrite (zset_total (hq s)) by done. simpl.
    rewrite Hnn. simpl. rewrite (zset_total (STATUS s)) by done. simpl. fold s0.
    rewrite (node_at_ensure c hl nn s0 row) by (done || lia). fold (ensure hl nn s0).
    rewrite He. simpl. by rewrite Hupd. }
  split_and!; try done.
  constructor.
  - simpl. rewrite Hst. simpl. rewrite length_insert. apply (inv_len_status Hinv).
  - simpl. rewrite Hhq. simpl. rewrite length_insert. apply (inv_len_hq Hinv).
  - simpl. rewrite Hnn1. apply (inv_len_nn Hinv).
  - simpl. rewrite Hnal1. apply (inv_len_nal Hinv).
  - intros x Hx. rewrite Est. case_decide as E; [|by apply (inv_border Hinv)].
    subst x. pose proof (inv_border Hinv p Hx) as Hb. rewrite Hs in Hb. done.
  - intros x Hx. rewrite Est. case_decide as E; [|by apply (inv_interior Hinv)].
    exists nn. split; [done|]. by right; right.
  - intros l q x. rewrite Ehq, Est. case_decide as E.
    + subst l. intros [= <-] Hin.
      destruct (inv_queue Hinv hl _ x Hq) as [F1 F2]; [by apply list_elem_of_further|].
      split; [done|]. case_decide as E'; [|done]. by subst x.
    + intros Hq' Hin. destruct (inv_queue Hinv l q x Hq' Hin) as [F1 F2].
      split; [done|]. case_decide as E'; [|done]. subst x.
      destruct E. by apply (at_level_fun c st0 p).
  - intros l q. rewrite Ehq. case_decide as E; [by intros [= <-]|].
    apply (inv_nodup Hinv).
  - intros x l Hx. rewrite Est, Ehq. case_decide as E.
    { intros [= E']. unfold NOT_ACTIVE in E'. lia. }
    intros Hsx. destruct (inv_waiting Hinv x l Hx Hsx) as (q & Hq' & Hin).
    case_decide as E'; [|by exists q]. subst l. rewrite Hq in Hq'. injection Hq' as <-.
    exists rest. split; [done|]. apply elem_of_cons in Hin as [?|?]; done.
  - intros l k. rewrite Enn. apply (inv_nn_pos Hinv).
  - intros x l k Hx. rewrite Est, Enn. case_decide as E.
    + subst x. intros [= <-] _. rewrite (at_level_fun c st0 _ _ _ Hx Hp).
      exists nn, n, nd'. split_and!; [done|lia|done| |].
      * simpl. apply list_lookup_insert_eq. by eapply lookup_lt_Some.
      * rewrite Hpx. apply elem_of_app. right. by apply list_elem_of_singleton.
    + intros Hsx Hk. destruct (inv_label Hinv x l k Hx Hsx Hk)
        as (kn' & m & md & L1 & L2 & L3 & L4 & L5).
      destruct (Hgh m md L4) as (md1 & M1 & M2).
      exists kn', m. destruct (decide (m = n)) as [->|Hne].
      * exists nd'. split_and!; [done|done|by apply Hgi| |].
        -- simpl. apply list_lookup_insert_eq. by eapply lookup_lt_Some.
        -- rewrite Hpx. apply elem_of_app. left. rewrite Hn in M1.
           injection M1 as <-. by apply M2.
      * exists md1. split_and!; [done|done|by apply Hgi| |by apply M2].
        simpl. by rewrite list_lookup_insert_ne.
  - intros l kn' k. rewrite Enn. intros Hkn Hk.
    destruct (inv_closed_label Hinv l kn' k Hkn Hk) as (x & Hx & Hsx).
    exists x. split; [done|]. apply Hkeep; [done|lia].
  - intros l. rewrite Enal, Ehq. intros Hl. case_decide as E.
    + subst l. by right.
    + destruct (inv_nal Hinv l Hl) as [?|Hsl]; [by left|right].
      apply (started_mono c st0 cap s); [apply Enn|done..].
  - intros l x q. rewrite Ehq, Enal. case_decide as E; [by subst l|].
    apply (inv_nal_q Hinv).
  - intros l (x & k & Hx & Hk & Hsx). rewrite Enal. rewrite Enn in Hk.
    rewrite Est in Hsx. case_decide as E.
    + subst x. by rewrite (at_level_fun c st0 _ _ _ Hx Hp).
    + apply (inv_nal_s Hinv). by exists x, k.
  - rewrite Enn. destruct (inv_root Hinv) as [?|[? Hno]]; [by left|right].
    split; [done|]. intros l. rewrite Enal. apply Hno.
  - done.
  - intros m md x Hm Hx Hin. simpl in Hm. destruct (decide (m = n)) as [->|Hne].
    + rewrite list_lookup_insert_eq in Hm by (by eapply lookup_lt_Some).
      injection Hm as <-. destruct Hsame as (-> & _). rewrite Hlab.
      rewrite Hpx in Hin. apply elem_of_app in Hin as [Hin|Hin%list_elem_of_singleton].
      * destruct (Hown1 n nd x Hn Hx Hin) as [E ?]. apply Hkeep; [|lia]. congruence.
      * apply (ctx_inj Hctx) in Hin; [|done|apply Hp]. subst x.
        rewrite Est. by rewrite decide_True.
    + rewrite list_lookup_insert_ne in Hm by done.
      destruct (Hown1 m md x Hm Hx Hin) as [E ?]. by apply Hkeep.
  - intros m md Hm. simpl in Hm. destruct (decide (m = n)) as [->|Hne].
    + rewrite list_lookup_insert_eq in Hm by (by eapply lookup_lt_Some).
      injection Hm as <-. rewrite Hpx. apply NoDup_app. split_and!.
      * by apply (Hnd1 n).
      * intros o Ho ->%list_elem_of_singleton.
        destruct (Hown1 n nd p Hn) as [E ?]; [apply Hp|done|].
        rewrite Hs in E. injection E as E. unfold NOT_ACTIVE in E. lia.
      * apply NoDup_singleton.
    + rewrite list_lookup_insert_ne in Hm by done. by apply (Hnd1 m).
  - intros m md Hm. simpl in Hm. destruct (decide (m = n)) as [->|Hne].
    + rewrite list_lookup_insert_eq in Hm by (by eapply lookup_lt_Some).
      injection Hm as <-. by apply Hcnt, (Hcnt1 n).
    + rewrite list_lookup_insert_ne in Hm by done. by apply (Hcnt1 m).
Qed.

Lemma pop_after hl p rest s s' nn :
  inv s → hq_at s hl = Some (p :: rest) → nn_at s hl = Some nn →
  STATUS s' = <[Z.to_nat p := nn]> (STATUS s) →
  hq s' = <[Z.to_nat hl := rest]> (hq s) →
  number_nodes s' = number_nodes s → node_at_level s' = node_at_level s →
  below hl s s' ∧ (∀ X, closed X s → closed (λ x, X x ∨ x = p) s') ∧
  (unlabelled s' < unlabelled s)%nat ∧ started s' hl ∧
  hq_at s' hl = Some rest ∧ nn_at s' hl = Some nn ∧
  (∀ l, nal_at s' l = nal_at s l).
Proof.
  intros Hinv Hq Hnn Hst Hhq Hnn1 Hnal1.
  destruct (inv_queue Hinv hl _ p Hq) as [Hp Hs]; [by apply list_elem_of_here|].
  pose proof (inv_nn_pos Hinv hl nn Hnn) as Hpos.
  pose proof (zget_range _ _ _ Hs) as Hpr.
  pose proof (zget_range _ _ _ Hq) as Hlr.
  assert (∀ x, st_at s' x = if decide (x = p) then Some nn else st_at s x) as Est.
  { intros x. unfold st_at. rewrite Hst. by apply zget_insert. }
  assert (∀ l, hq_at s' l = if decide (l = hl) then Some rest else hq_at s l) as Ehq.
  { intros l. unfold hq_at. rewrite Hhq. by apply zget_insert. }
  assert (∀ l, nn_at s' l = nn_at s l) as Enn.
  { intros l. unfold nn_at. by rewrite Hnn1. }
  assert (∀ l, nal_at s' l = nal_at s l) as Enal.
  { intros l. unfold nal_at. by rewrite Hnal1. }
  assert (∀ x k, st_at s x = Some k → 0 ≤ k → st_at s' x = Some k) as Hkeep.
  { intros x k Hx Hk. rewrite Est. case_decide as E; [|done]. subst x.
    rewrite Hs in Hx. injection Hx as <-. unfold NOT_ACTIVE in Hk. lia. }
  split_and!.
  - constructor.
    + intros l _. apply Enn.
    + intros l q Hl Hq'. exists []. rewrite Ehq, decide_False by lia.
      by rewrite app_nil_r.
    + intros l _. by rewrite Enal.
    + done.
    + intros x Hx. rewrite Est. case_decide; [|done]. intros [= E].
      unfold ACTIVE in E. lia.
    + intros x l k Hx Hl. rewrite Est. case_decide as E; [|done]. subst x.
      pose proof (at_level_fun c st0 _ _ _ Hx Hp). lia.
    + rewrite (unlabelled_insert s s' p NOT_ACTIVE nn Hs Hst).
      rewrite decide_False, decide_True; [lia|by right|].
      unfold ACTIVE, NOT_ACTIVE. lia.
  - intros X HX x k d. rewrite !Est. case_decide as E.
    { intros _ _ Hno. destruct Hno. by right. }
    intros Hx Hk Hno Hd. case_decide as E'.
    { intros [= E'']. unfold ACTIVE in E''. lia. }
    apply (HX x k d); try done. intros ?. apply Hno. by left.
  - rewrite (unlabelled_insert s s' p NOT_ACTIVE nn Hs Hst).
    rewrite decide_False, decide_True; [|by right|unfold ACTIVE, NOT_ACTIVE; lia].
    assert (0 < unlabelled s)%nat; [|lia]. unfold unlabelled.
    apply zget_Some in Hs as [_ Hs].
    assert (NOT_ACTIVE ∈ filter (λ v, v = ACTIVE ∨ v = NOT_ACTIVE) (STATUS s)) as Hin.
    { apply list_elem_of_filter. split; [by right|]. by eapply list_elem_of_lookup_2. }
    destruct (filter _ (STATUS s)); [by apply elem_of_nil in Hin|simpl; lia].
  - exists p, nn. split_and!; [done|by rewrite Enn|]. rewrite Est. by rewrite decide_True.
  - rewrite Ehq. by rewrite decide_True.
  - by rewrite Enn.
  - done.
Qed.

Lemma push_after l q fifo s hl :
  inv s → st_at s q = Some ACTIVE → hq_at s l = Some fifo →
  below hl s (push_state l q fifo s) ∧
  keeps_closed c s (push_state l q fifo s) ∧
  st_at (push_state l q fifo s) q = Some NOT_ACTIVE ∧
  (∀ x, x ≠ q → st_at (push_state l q fifo s) x = st_at s x).
Proof.
  intros Hinv Hq Hf.
  assert (is_Some (st_at s q)) as Hq' by done.
  assert (is_Some (hq_at s l)) as Hf' by done.
  assert (is_Some (nal_at s l)) as Hn'.
  { apply zget_is_Some. apply zget_range in Hf.
    pose proof (inv_len_nal Hinv). pose proof (inv_len_hq Hinv). lia. }
  split_and!.
  - constructor.
    + done.
    + intros l' q' _ Hq''. rewrite push_hq by done. case_decide as E.
      * subst l'. rewrite Hf in Hq''. injection Hq'' as <-. by exists [q].
      * exists []. by rewrite app_nil_r.
    + intros l' _ Hl'. rewrite push_nal by done. by case_decide.
    + intros x k Hx Hk. by apply push_label_keep.
    + intros x Hx. rewrite push_st by done. by case_decide.
    + intros x l' k _ _ Hx Hk. by eapply push_label.
    + rewrite (unlabelled_insert s (push_state l q fifo s) q ACTIVE NOT_ACTIVE Hq eq_refl).
      rewrite !decide_True; [lia|by left|by right].
  - intros X HX x k d Hx Hk Hno Hd. apply push_label in Hx; [|done..].
    rewrite push_st by done. case_decide; [done|]. by apply (HX x k d).
  - rewrite push_st by done. by rewrite decide_True.
  - intros x Hx. rewrite push_st by done. by rewrite decide_False.
Qed.

End Pop.

(** ** Closing a node *)

Lemma scan_down_spec (k : nat) (nal : list bool) :
  (k ≤ length nal)%nat →
  ∃ m, scan_down k nal = Some m ∧ -1 ≤ m < Z.of_nat k ∧
       (0 ≤ m → zget nal m = Some true) ∧
       (∀ j, m < j < Z.of_nat k → zget nal j = Some false).
Proof.
  induction k as [|k IH]; intros Hk.
  - exists (-1). split_and!; [done|lia|lia|lia|lia].
  - simpl. destruct (lookup_lt_is_Some_2 nal k) as [b Hb]; [lia|]. rewrite Hb.
    destruct b.
    + exists (Z.of_nat k). split_and!; [done|lia|lia| |lia].
      intros _. apply zget_Some. split; [lia|]. by rewrite Nat2Z.id.
    + destruct IH as (m & Hm & Hr & Ht & Hf); [lia|].
      exists m. split_and!; [done|lia|lia|done|].
      intros j Hj. destruct (decide (j = Z.of_nat k)) as [->|Hne].
      * apply zget_Some. split; [lia|]. by rewrite Nat2Z.id.
      * apply Hf. lia.
Qed.

Lemma link_mod_fields f child n nd :
  same_node nd (link_mod f child n nd) ∧
  pixels (link_mod f child n nd) = pixels nd ∧
  father (link_mod f child n nd) = (if decide (n = child) then Some f else father nd) ∧
  childs (link_mod f child n nd) =
    (if decide (n = f ∧ f ≠ child) then childs nd ++ [child] else childs nd).
Proof. unfold link_mod, same_node. repeat case_decide; simpl; done. Qed.

Lemma link_mod_counts f child n nd : counts nd → counts (link_mod f child n nd).
Proof. unfold link_mod, counts. repeat case_decide; simpl; done. Qed.

Lemma link_node_spec f child hp fn cn :
  hp !! f = Some fn → hp !! child = Some cn → f ≠ child →
  ∃ hp', link_node f child hp = Some hp' ∧ length hp' = length hp ∧
         ∀ n, hp' !! n = link_mod f child n <$> hp !! n.
Proof.
  intros Hf Hc Hne. unfold link_node, upd. rewrite Hc. simpl.
  rewrite list_lookup_insert_ne by lia. rewrite Hf. simpl.
  eexists. split; [done|]. split; [by rewrite !length_insert|].
  intros n. destruct (decide (n = f)) as [->|Hnf].
  - rewrite list_lookup_insert_eq by (rewrite length_insert; by eapply lookup_lt_Some).
    rewrite Hf. simpl. unfold link_mod. do 2 destruct (decide _); first [done|intuition congruence].
  - rewrite list_lookup_insert_ne by lia.
    destruct (decide (n = child)) as [->|Hnc].
    + rewrite list_lookup_insert_eq by (by eapply lookup_lt_Some). rewrite Hc. simpl.
      unfold link_mod. do 2 destruct (decide _); first [done|intuition congruence].
    + rewrite list_lookup_insert_ne by lia. destruct (hp !! n); [|done]. simpl.
      unfold link_mod. do 2 destruct (decide _); first [done|intuition congruence].
Qed.

Lemma link_root_spec r hp rn :
  hp !! r = Some rn →
  ∃ hp', upd r (set_father (Some r)) hp = Some hp' ∧ length hp' = length hp ∧
         ∀ n, hp' !! n = link_mod r r n <$> hp !! n.
Proof.
  intros Hr. unfold upd. rewrite Hr. simpl. eexists. split; [done|].
  split; [by rewrite length_insert|]. intros n.
  destruct (decide (n = r)) as [->|Hne].
  - rewrite list_lookup_insert_eq by (by eapply lookup_lt_Some). rewrite Hr. simpl.
    unfold link_mod. do 2 destruct (decide _); first [done|intuition congruence].
  - rewrite list_lookup_insert_ne by lia. destruct (hp !! n); [|done]. simpl.
    unfold link_mod. do 2 destruct (decide _); first [done|intuition congruence].
Qed.

Section Close.

Variable c : Strategy.
Variable st0 : list Z.
Variable cap : Z → nat.
Hypothesis Hctx : ctx_ok c st0 cap.

Local Abbreviation inv := (inv c st0 cap).
Local Abbreviation hinv := (hinv c st0 cap).
Local Abbreviation at_level := (at_level c st0).
Local Abbreviation started := (started c st0).
Local Abbreviation interior := (interior st0).
Local Abbreviation closed := (closed c).
Local Abbreviation below := (below c st0).
Local Abbreviation ensure := (ensure c).
Local Abbreviation at_work := (at_work c st0 cap).
Local Abbreviation flood_post := (flood_post c st0 cap).

Lemma ensure_set_number_nodes l k v s :
  ensure l k (set_number_nodes v s) =
  ((ensure l k s).1, set_number_nodes v (ensure l k s).2).
Proof.
  unfold ensure, index_at. simpl. by destruct (zget (index s) l ≫= _).
Qed.

Lemma level_round l : hToIndex c (indexToH c l) = l.
Proof. unfold hToIndex, indexToH. lia. Qed.

Lemma hinv_close s2 s' hl nn f child :
  hinv s2 → nn_at s2 hl = Some nn → nal_at s2 hl = Some true →
  index_at s2 hl nn = Some child →
  (f = child ∧ hl = 0) ∨
  (f ≠ child ∧ ∃ fn, heap s2 !! f = Some fn ∧ h fn < indexToH c hl) →
  index s' = index s2 →
  number_nodes s' = <[Z.to_nat hl := nn + 1]> (number_nodes s2) →
  node_at_level s' = <[Z.to_nat hl := false]> (node_at_level s2) →
  (∀ n, heap s' !! n = link_mod f child n <$> heap s2 !! n) →
  hinv s'.
Proof.
  intros H Hnn Hnal Hchild Hf Hi Hn' Hnal' Hheap.
  assert (∀ l, nn_at s' l = if decide (l = hl) then Some (nn + 1) else nn_at s2 l) as Enn.
  { intros l. unfold nn_at. rewrite Hn'. apply zget_insert. by eapply zget_range. }
  assert (∀ l, nal_at s' l = if decide (l = hl) then Some false else nal_at s2 l) as Enal.
  { intros l. unfold nal_at. rewrite Hnal'. apply zget_insert. by eapply zget_range. }
  assert (∀ l k, index_at s' l k = index_at s2 l k) as Eidx.
  { intros l k. unfold index_at. by rewrite Hi. }
  destruct (inv_index H hl nn child Hchild) as (cn & kc & Hc & Hhc & Hlc & _).
  assert (father cn = None) as Hopen.
  { apply (inv_open H child cn nn Hc); [|done]. by rewrite Hhc, level_round. }
  assert (∀ n nd, heap s2 !! n = Some nd → hToIndex c (h nd) = hl → label nd = nn →
            n = child) as Hsame.
  { intros n nd Hn E1 E2. pose proof (inv_heap_index H n nd Hn) as E.
    rewrite E1, E2, Hchild in E. by injection E. }
  assert (∀ n nd, heap s2 !! n = Some nd → ∃ kn, nn_at s2 (hToIndex c (h nd)) = Some kn ∧
            label nd ≤ kn) as Hle.
  { intros n nd Hn. pose proof (inv_heap_index H n nd Hn) as E.
    destruct (inv_index H _ _ _ E) as (nd0 & kn & _ & _ & _ & E1 & E2 & _).
    exists kn. split; [done|lia]. }
  assert (∀ n nd', heap s' !! n = Some nd' →
            ∃ nd, heap s2 !! n = Some nd ∧ nd' = link_mod f child n nd) as Hback.
  { intros n nd'. rewrite Hheap. intros (nd & ? & ?)%fmap_Some. by exists nd. }
  assert (∀ n nd, heap s2 !! n = Some nd →
            heap s' !! n = Some (link_mod f child n nd)) as Hforth.
  { intros n nd Hn. by rewrite Hheap, Hn. }
  constructor.
  - rewrite Hi. apply (inv_len_index H).
  - rewrite Hi. apply (inv_rows H).
  - intros l k n. rewrite Eidx, Enn, Enal. intros Hl.
    destruct (inv_index H l k n Hl) as (nd & kn & H1 & H2 & H3 & H4 & [H5 H5'] & H6).
    destruct (link_mod_fields f child n nd) as ((F1 & F2 & _) & _).
    exists (link_mod f child n nd). case_decide as E.
    + subst l. rewrite Hnn in H4. injection H4 as <-.
      exists (nn + 1). split_and!; [by apply Hforth|congruence|congruence|done|lia|lia|lia].
    + exists kn. split_and!; [by apply Hforth|congruence|congruence|done..].
  - intros n nd' (nd & Hn & ->)%Hback. rewrite Eidx.
    destruct (link_mod_fields f child n nd) as ((F1 & F2 & _) & _). rewrite F1, F2.
    by apply (inv_heap_index H n nd).
  - intros n nd' kn (nd & Hn & ->)%Hback. rewrite Enn.
    destruct (link_mod_fields f child n nd) as ((F1 & F2 & _) & _ & F3 & _).
    rewrite F1, F2, F3. destruct (Hle n nd Hn) as (kn0 & K1 & K2).
    destruct (decide (hToIndex c (h nd) = hl)) as [E|E].
    + intros [= <-] Hlab. rewrite E, Hnn in K1. injection K1 as <-. lia.
    + intros Hkn Hlab. rewrite decide_False.
      * by apply (inv_open H n nd kn).
      * intros ->. rewrite Hc in Hn. injection Hn as <-. rewrite Hhc, level_round in E. done.
  - intros n nd' kn (nd & Hn & ->)%Hback. rewrite Enn.
    destruct (link_mod_fields f child n nd) as ((F1 & F2 & _) & _ & F3 & _).
    rewrite F1, F2, F3. intros Hkn Hlab.
    assert (n ≠ child →
            (∃ g gn, father nd = Some g ∧ heap s2 !! g = Some gn ∧ h gn < h nd ∧
                     n ∈ childs gn) ∨ (father nd = Some n ∧ h nd = hMin c)) as Hcl.
    { intros Hne. destruct (decide (hToIndex c (h nd) = hl)) as [E|E].
      - try rewrite decide_True in Hkn by done. injection Hkn as <-.
        apply (inv_closed H n nd nn); [done|by rewrite E|].
        destruct (decide (label nd = nn)); [|lia]. destruct Hne. by apply (Hsame n nd).
      - try rewrite decide_False in Hkn by done. by apply (inv_closed H n nd kn). }
    destruct (decide (n = child)) as [->|Hne].
    + rewrite Hc in Hn. injection Hn as <-. destruct Hf as [[-> ->]|(Hfc & fn & Hfn & Hlt)].
      * right. split; [done|]. rewrite Hhc. unfold indexToH. lia.
      * left. exists f, (link_mod f child f fn). split_and!; [done|by apply Hforth| |].
        -- destruct (link_mod_fields f child f fn) as ((_ & -> & _) & _). by rewrite Hhc.
        -- destruct (link_mod_fields f child f fn) as (_ & _ & _ & ->).
           rewrite decide_True by done. apply elem_of_app. right.
           by apply list_elem_of_singleton.
    + specialize (Hcl Hne).
      destruct Hcl as [(g & gn & G1 & G2 & G3 & G4)|[G1 G2]]; [left|by right].
      exists g, (link_mod f child g gn). split_and!; [done|by apply Hforth| |].
      * destruct (link_mod_fields f child g gn) as ((_ & -> & _) & _). done.
      * destruct (link_mod_fields f child g gn) as (_ & _ & _ & ->).
        destruct (decide (g = f ∧ f ≠ child)); [|done]. apply elem_of_app. by left.
  - intros n nd' ch (nd & Hn & ->)%Hback.
    destruct (link_mod_fields f child n nd) as ((F1 & F2 & _) & _ & _ & F4).
    rewrite F2, F4. intros Hch.
    assert (ch ∈ childs nd ∨ (n = f ∧ f ≠ child ∧ ch = child)) as [Hin|(-> & Hfc & ->)].
    { destruct (decide (n = f ∧ f ≠ child)) as [E|E]; [|by left].
      apply elem_of_app in Hch as [?|?%list_elem_of_singleton]; [by left|right].
      by destruct E. }
    + destruct (inv_childs H n nd ch Hn Hin) as (cn0 & C1 & C2 & C3).
      exists (link_mod f child ch cn0).
      destruct (link_mod_fields f child ch cn0) as ((_ & G2 & _) & _ & G3 & _).
      split_and!; [by apply Hforth| |congruence].
      rewrite G3. destruct (decide (ch = child)) as [E|E]; [|done]. subst ch.
      rewrite Hc in C1. injection C1 as <-. congruence.
    + destruct Hf as [[? _]|(_ & fn & Hfn & Hlt)]; [done|].
      rewrite Hfn in Hn. injection Hn as <-.
      exists (link_mod f child child cn).
      destruct (link_mod_fields f child child cn) as ((_ & G2 & _) & _ & G3 & _).
      split_and!; [by apply Hforth| |].
      * rewrite G3. by rewrite decide_True.
      * rewrite G2, Hhc. done.
  - intros n nd' o (nd & Hn & ->)%Hback.
    destruct (link_mod_fields f child n nd) as ((F1 & F2 & _) & F5 & _).
    rewrite F2, F5. by apply (inv_pixels H n nd).
  - intros n nd' (nd & Hn & ->)%Hback.
    destruct (link_mod_fields f child n nd) as ((_ & _ & F3 & F4 & F5 & _) & _).
    rewrite F3, F4, F5. by apply (inv_fresh H n nd).
  - intros n nd' (nd & Hn & ->)%Hback.
    destruct (link_mod_fields f child n nd) as ((_ & _ & _ & _ & _ & F6) & _ & _ & F4).
    destruct (inv_blank H n nd Hn) as [B1 B2]. split; [|by apply F6].
    rewrite F4. destruct (decide (n = f ∧ f ≠ child)) as [[-> Hfc]|E]; [|done].
    apply NoDup_app. split_and!; [done| |apply NoDup_singleton].
    intros ch Hch ->%list_elem_of_singleton.
    destruct (inv_childs H f nd child Hn Hch) as (cn' & Hc' & Hfa & _).
    rewrite Hc in Hc'. injection Hc' as <-. congruence.
Qed.

Lemma close_inv hl nn s s' :
  at_work hl s → quiet_above hl s → hq_at s hl = Some [] →
  started s hl → nn_at s hl = Some nn →
  STATUS s' = STATUS s → hq s' = hq s →
  number_nodes s' = <[Z.to_nat hl := nn + 1]> (number_nodes s) →
  node_at_level s' = <[Z.to_nat hl := false]> (node_at_level s) →
  hinv s' → grows s s' → settled s s' →
  inv s' ∧ below hl s s' ∧ keeps_closed c s s' ∧ unlabelled s' = unlabelled s ∧
  (∀ l, nal_at s' l = if decide (l = hl) then Some false else nal_at s l).
Proof.
  intros (Hinv & Hhl & Hnal0 & Hnalh) Hquiet Hq Hstarted Hnn Hst Hhq Hn' Hnal' H' [Hgi Hgh]
         Hback.
  assert (∀ l, nn_at s' l = if decide (l = hl) then Some (nn + 1) else nn_at s l) as Enn.
  { intros l. unfold nn_at. rewrite Hn'. apply zget_insert. by eapply zget_range. }
  assert (∀ l, nal_at s' l = if decide (l = hl) then Some false else nal_at s l) as Enal.
  { intros l. unfold nal_at. rewrite Hnal'. apply zget_insert. by eapply zget_range. }
  assert (∀ x, st_at s' x = st_at s x) as Est.
  { intros x. unfold st_at. by rewrite Hst. }
  assert (∀ l, hq_at s' l = hq_at s l) as Ehq.
  { intros l. unfold hq_at. by rewrite Hhq. }
  pose proof (inv_nn_pos Hinv hl nn Hnn) as Hpos.
  assert (∀ l, l ≠ hl → started s' l ↔ started s l) as Hstl.
  { intros l Hl. unfold started.
    split; intros (x & k & Hx & Hk & Hsx); exists x, k.
    - rewrite Enn, decide_False in Hk by done. by rewrite Est in Hsx.
    - by rewrite Enn, decide_False, Est. }
  split_and!; [|constructor|..].
  - constructor.
    + rewrite Hst. apply (inv_len_status Hinv).
    + rewrite Hhq. apply (inv_len_hq Hinv).
    + rewrite Hn', length_insert. apply (inv_len_nn Hinv).
    + rewrite Hnal', length_insert. apply (inv_len_nal Hinv).
    + intros x. rewrite Est. apply (inv_border Hinv).
    + intros x. rewrite Est. apply (inv_interior Hinv).
    + intros l q x. rewrite Ehq, Est. apply (inv_queue Hinv).
    + intros l q. rewrite Ehq. apply (inv_nodup Hinv).
    + intros x l. rewrite Est. intros Hx Hsx.
      destruct (inv_waiting Hinv x l Hx Hsx) as (q & ? & ?). exists q. by rewrite Ehq.
    + intros l k. rewrite Enn. case_decide; [intros [= <-]; lia|apply (inv_nn_pos Hinv)].
    + intros x l k Hx. rewrite Est. intros Hsx Hk.
      destruct (inv_label Hinv x l k Hx Hsx Hk) as (kn & n & nd & L1 & L2 & L3 & L4 & L5).
      destruct (Hgh n nd L4) as (nd' & M1 & M2).
      exists (if decide (l = hl) then nn + 1 else kn), n, nd'. rewrite Enn.
      split_and!; [| |by apply Hgi|done|by apply M2].
      * case_decide; [done|done].
      * case_decide as E; [|done]. subst l. rewrite Hnn in L1. injection L1 as <-. lia.
    + intros l kn k. rewrite Enn. case_decide as E.
      * subst l. intros [= <-] Hk. destruct (decide (k = nn)) as [->|Hne].
        -- destruct Hstarted as (x & k' & Hx & Hk' & Hsx). exists x. split; [done|].
           rewrite Est. congruence.
        -- destruct (inv_closed_label Hinv hl nn k Hnn) as (x & Hx & Hsx); [lia|].
           exists x. by rewrite Est.
      * intros Hkn Hk. destruct (inv_closed_label Hinv l kn k Hkn Hk) as (x & Hx & Hsx).
        exists x. by rewrite Est.
    + intros l. rewrite Enal. case_decide as E; [done|]. intros Hl.
      destruct (inv_nal Hinv l Hl) as [(x & rest & ?)|?].
      * left. exists x, rest. by rewrite Ehq.
      * right. by apply Hstl.
    + intros l x rest. rewrite Ehq, Enal. intros Hl. case_decide as E.
      * subst l. rewrite Hq in Hl. done.
      * by apply (inv_nal_q Hinv l x rest).
    + intros l Hl. rewrite Enal. case_decide as E.
      * subst l. destruct Hl as (x & k & Hx & Hk & Hsx).
        rewrite Enn, decide_True in Hk by done. injection Hk as <-. rewrite Est in Hsx.
        destruct (inv_label Hinv x hl (nn + 1) Hx Hsx) as (kn & _ & _ & L1 & L2 & _); [lia|].
        rewrite Hnn in L1. injection L1 as <-. lia.
      * apply (inv_nal_s Hinv). by apply Hstl.
    + destruct (inv_root Hinv) as [Hr|[_ Hno]]; [|by destruct (Hno 0)].
      rewrite Enn. case_decide as E.
      * right. subst hl. rewrite Hnn in Hr. injection Hr as ->. split; [done|].
        intros l. rewrite Enal. case_decide as E'; [done|].
        destruct (decide (0 < l)) as [Hl|Hl]; [by apply Hquiet|].
        unfold nal_at. rewrite zget_None by lia. done.
      * by left.
    + done.
    + intros n nd' x Hn Hx Hin. rewrite Est.
      destruct (Hback n nd' Hn) as [[E _]|(nd & Hn0 & E1 & E2 & _)].
      * rewrite E in Hin. by apply elem_of_nil in Hin.
      * rewrite E1 in Hin. rewrite E2. by apply (inv_owner Hinv n).
    + intros n nd' Hn. destruct (Hback n nd' Hn) as [[-> _]|(nd & Hn0 & -> & _)].
      * apply NoDup_nil_2.
      * by apply (inv_pix_nodup Hinv n).
    + intros n nd' Hn. destruct (Hback n nd' Hn) as [[_ ?]|(nd & Hn0 & _ & _ & Hc)]; [done|].
      by apply Hc, (inv_counts Hinv n).
  - intros l Hl. rewrite Enn. by rewrite decide_False by lia.
  - intros l q Hl Hq'. exists []. by rewrite Ehq, app_nil_r.
  - intros l Hl. rewrite Enal. by rewrite decide_False by lia.
  - intros x k. by rewrite Est.
  - intros x. by rewrite Est.
  - intros x l k _ _. by rewrite Est.
  - unfold unlabelled. by rewrite Hst.
  - intros X HX x k d. rewrite !Est. apply HX.
  - unfold unlabelled. by rewrite Hst.
  - done.
Qed.

Lemma flood_close_spec hl s :
  at_work hl s → quiet_above hl s → hq_at s hl = Some [] → started s hl →
  ∃ m s', flood_close c hl s = Some (m, s') ∧ inv s' ∧ -1 ≤ m < hl ∧
          (0 < hl → 0 ≤ m) ∧ (0 ≤ m → nal_at s' m = Some true) ∧
          quiet_above m s' ∧ below hl s s' ∧ keeps_closed c s s' ∧
          unlabelled s' = unlabelled s.
Proof.
  intros Hwork Hquiet Hq Hstarted.
  pose proof Hwork as (Hinv & Hhl & Hnal0 & Hnalh).
  pose proof Hstarted as (p & nn & Hp & Hnn & Hsp).
  pose proof (at_level_range _ _ _ Hctx _ _ Hp) as Hr.
  pose proof (inv_nn_pos Hinv hl nn Hnn) as Hpos.
  pose proof (zget_range _ _ _ Hnn) as Hnr.
  pose proof (zget_range _ _ _ Hnalh) as Hnalr.
  destruct (inv_label Hinv p hl nn Hp Hsp Hpos) as (kn & child & cn & L1 & L2 & Hchild & Hcn & _).
  destruct (scan_down_spec (Z.to_nat hl) (node_at_level s)) as (m & Hscan & Hm & Hmt & Hmf).
  { lia. }
  assert (∀ s', number_nodes s' = <[Z.to_nat hl := nn + 1]> (number_nodes s) →
            node_at_level s' = <[Z.to_nat hl := false]> (node_at_level s) →
            STATUS s' = STATUS s → hq s' = hq s → hinv s' → grows s s' →
            settled s s' →
            inv s' ∧ -1 ≤ m < hl ∧ (0 < hl → 0 ≤ m) ∧ (0 ≤ m → nal_at s' m = Some true) ∧
            quiet_above m s' ∧ below hl s s' ∧ keeps_closed c s s' ∧
            unlabelled s' = unlabelled s) as Hfinish.
  { intros s' Hn' Hnal' Hst Hhq H' Hgrow Hback.
    destruct (close_inv hl nn s s') as (I1 & I2 & I3 & I4 & Enal); try done.
    split_and!; try done; try lia.
    - intros Hl. destruct (decide (0 ≤ m)); [done|]. exfalso.
      assert (zget (node_at_level s) 0 = Some false) as E by (apply Hmf; lia).
      unfold nal_at in Hnal0. congruence.
    - intros Hm0. rewrite Enal, decide_False by lia. by apply Hmt.
    - intros l Hl. rewrite Enal. case_decide as E; [done|].
      destruct (decide (l < hl)) as [Hlt|Hge].
      + unfold nal_at. rewrite Hmf by lia. done.
      + apply Hquiet. lia. }
  assert (zset (number_nodes s) hl (nn + 1) =
          Some (<[Z.to_nat hl := nn + 1]> (number_nodes s))) as Ezs by (by apply zset_total).
  unfold flood_close. unfold nn_at in Hnn. rewrite Hnn. simpl. rewrite Ezs. simpl.
  rewrite Hscan. simpl. destruct (0 <=? m) eqn:Em.
  - apply Z.leb_le in Em. specialize (Hmt Em).
    assert (0 ≤ m < numberOfLevels c) as Hmr by lia.
    destruct (level_lookup c (number_nodes s) m (inv_len_nn Hinv) Hmr) as [j Hj].
    destruct (level_lookup c (index s) m (inv_len_index Hinv) Hmr) as [rowm Hrowm].
    pose proof (inv_rows Hinv m rowm Hrowm) as Hlen.
    pose proof (inv_nn_pos Hinv m j Hj) as Hjpos.
    assert (j < Z.of_nat (cap m)) as Hroom.
    { destruct (inv_nal Hinv m Hmt) as [(x & rest & Hx)|(x & k & Hx & Hk & Hsx)].
      - destruct (inv_queue Hinv m _ x Hx) as [X1 X2]; [by apply list_elem_of_here|].
        apply (label_room c st0 cap Hctx s m j x NOT_ACTIVE); try done. by left.
      - apply (label_room c st0 cap Hctx s m j x k); try done. right.
        unfold nn_at in Hk. rewrite Hj in Hk. injection Hk as <-. lia. }
    destruct (ensure m j s) as [parent s2] eqn:He.
    destruct (ensure_spec c st0 cap m j s rowm parent s2 (inv_h Hinv) Hrowm) as
      (H2 & Hst & Hhq & Hnn2 & Hnal2 & [Hgi Hgh] & Hidx); [lia|done..|].
    destruct (inv_index H2 m j parent Hidx) as (pn & _ & Hpn & Hhp & _).
    pose proof (Hgi _ _ _ Hchild) as Hchild2.
    destruct (inv_index H2 hl nn child Hchild2) as (cn2 & _ & Hcn2 & Hhc & _).
    assert (parent ≠ child) as Hne.
    { intros ->. rewrite Hpn in Hcn2. injection Hcn2 as <-. rewrite Hhp in Hhc.
      unfold indexToH in Hhc. lia. }
    destruct (link_node_spec parent child (heap s2) pn cn2 Hpn Hcn2 Hne)
      as (hp' & Hlink & Hlen' & Hlook).
    apply index_at_Some in Hchild2 as (rowh & Hrowh & Hcell).
    rewrite zget_insert_ne by lia. rewrite Hj. simpl.
    rewrite (node_at_ensure c m j _ rowm) by (done || lia).
    fold (ensure m j (set_number_nodes (<[Z.to_nat hl := nn + 1]> (number_nodes s)) s)).
    rewrite ensure_set_number_nodes, He. simpl. rewrite Hrowh. simpl.
    rewrite Z.add_simpl_r, Hcell. simpl. rewrite Hlink. simpl.
    rewrite (zset_total (node_at_level s2)) by (by rewrite Hnal2). simpl.
    eexists m, _. split; [done|].
    apply Hfinish; simpl; try done.
    + by rewrite Hnal2.
    + apply (hinv_close s2 _ hl nn parent child); simpl; try done.
      * unfold nn_at. by rewrite Hnn2.
      * unfold nal_at. by rewrite Hnal2.
      * apply index_at_Some. eauto.
      * right. split; [done|]. exists pn. split; [done|]. rewrite Hhp.
        unfold indexToH. lia.
      * by rewrite Hnn2.
    + split.
      * intros l k n Hn. unfold index_at. simpl. by apply Hgi.
      * intros n nd Hn. destruct (Hgh n nd Hn) as (nd2 & N1 & N2).
        exists (link_mod parent child n nd2). simpl. rewrite Hlook, N1. split; [done|].
        destruct (link_mod_fields parent child n nd2) as (_ & -> & _). done.
    + intros n nd'. simpl. rewrite Hlook. intros (nd2 & Hn2 & ->)%fmap_Some.
      destruct (link_mod_fields parent child n nd2) as ((-> & _) & -> & _).
      destruct (ensure_settled c m j s parent s2 He n nd2 Hn2)
        as [[? ?]|(nd & ? & ? & ? & Hc)].
      * left. split; [done|]. by apply link_mod_counts.
      * right. exists nd. split_and!; [done..|]. intros ?. by apply link_mod_counts, Hc.
  - apply Z.leb_gt in Em. assert (hl = 0) as ->.
    { destruct (decide (hl = 0)); [done|]. exfalso.
      assert (zget (node_at_level s) 0 = Some false) as E by (apply Hmf; lia).
      unfold nal_at in Hnal0. congruence. }
    assert (nn = 0) as ->.
    { destruct (inv_root Hinv) as [Hr0|[_ Hno]]; [|by destruct (Hno 0)].
      unfold nn_at in Hr0. congruence. }
    destruct (link_root_spec child (heap s) cn Hcn) as (hp' & Hlink & Hlen' & Hlook).
    apply index_at_Some in Hchild as (rowh & Hrowh & Hcell).
    simpl. rewrite Hrowh. simpl. rewrite Hcell. simpl. rewrite Hlink. simpl.
    rewrite (zset_total (node_at_level s)) by done. simpl.
    eexists m, _. split; [done|].
    apply Hfinish; simpl; try done.
    + apply (hinv_close s _ 0 0 child child); simpl; try done.
      * apply Hinv.
      * apply index_at_Some. eauto.
      * by left.
    + split.
      * done.
      * intros n nd Hn. exists (link_mod child child n nd). simpl.
        rewrite Hlook, Hn. split; [done|].
        destruct (link_mod_fields child child n nd) as (_ & -> & _). done.
    + intros n nd'. simpl. rewrite Hlook. intros (nd & Hn & ->)%fmap_Some.
      destruct (link_mod_fields child child n nd) as ((-> & _) & -> & _).
      right. exists nd. split_and!; [done..|]. apply link_mod_counts.
Qed.

End Close.

(** ** The flooding terminates and keeps the invariant *)

Lemma flood_S c fuel hl s :
  flood c (S fuel) hl s = s' ← flood_while c fuel hl s; flood_close c hl s'.
Proof. done. Qed.

Lemma flood_while_S c fuel hl s :
  flood_while c (S fuel) hl s =
  fifo ← zget (hq s) hl;
  match fifo with
  | [] => Some s
  | p :: rest =>
      s1 ← flood_pop c hl p rest s;
      s2 ← for_each (flood_neighbor c (flood_rise c fuel hl) p) s1 (se c);
      flood_while c fuel hl s2
  end.
Proof. done. Qed.

Lemma flood_rise_S c fuel hl m s :
  flood_rise c (S fuel) hl m s =
  '(m', s') ← flood c fuel m s;
  if decide (m' = hl) then Some s' else flood_rise c fuel hl m' s'.
Proof. done. Qed.

(** More fuel does not change a result. *)
Lemma for_each_mono {S A} (f g : S → A → option S) s l r :
  (∀ s x r, f s x = Some r → g s x = Some r) →
  for_each f s l = Some r → for_each g s l = Some r.
Proof.
  intros Hfg. revert s. induction l as [|x l IH]; intros s; [done|]. simpl.
  destruct (f s x) as [s'|] eqn:E; [|done]. simpl. rewrite (Hfg _ _ _ E). simpl.
  apply IH.
Qed.

Lemma flood_neighbor_mono c (rise rise' : Z → Flood → option Flood) p s it r :
  (∀ m s r, rise m s = Some r → rise' m s = Some r) →
  flood_neighbor c rise p s it = Some r → flood_neighbor c rise' p s it = Some r.
Proof.
  intros Hr. unfold flood_neighbor.
  destruct (zget (STATUS s) (p + it)) as [stq|]; [|done]. simpl.
  destruct (decide (stq = ACTIVE)); [|done].
  destruct (zget (data (imBorder c)) (p + it)) as [vq|]; [|done]. simpl.
  destruct (flood_push (hToIndex c vq) (p + it) s) as [s'|]; [|done]. simpl.
  destruct (zget (data (imBorder c)) p) as [vp|]; [|done]. simpl.
  destruct (vq >? vp); [apply Hr|done].
Qed.

Lemma flood_fuel_S c fuel :
  (∀ hl s r, flood c fuel hl s = Some r → flood c (S fuel) hl s = Some r) ∧
  (∀ hl s r, flood_while c fuel hl s = Some r → flood_while c (S fuel) hl s = Some r) ∧
  (∀ hl m s r, flood_rise c fuel hl m s = Some r → flood_rise c (S fuel) hl m s = Some r).
Proof.
  induction fuel as [|fuel (IHf & IHw & IHr)]; [done|]. split_and!.
  - intros hl s r. rewrite (flood_S c (S fuel)), (flood_S c fuel).
    destruct (flood_while c fuel hl s) as [s'|] eqn:E; [|done].
    by rewrite (IHw _ _ _ E).
  - intros hl s r. rewrite (flood_while_S c (S fuel)), (flood_while_S c fuel).
    destruct (zget (hq s) hl) as [[|p rest]|]; [done| |done]. cbn [mbind option_bind].
    destruct (flood_pop c hl p rest s) as [s1|]; [|done]. cbn [mbind option_bind].
    destruct (for_each _ s1 (se c)) as [s2|] eqn:E; [|done]. cbn [mbind option_bind].
    rewrite (for_each_mono _ (flood_neighbor c (flood_rise c (S fuel) hl) p) _ _ _
               (λ s x r, flood_neighbor_mono c _ _ p s x r (IHr hl)) E).
    cbn [mbind option_bind]. apply IHw.
  - intros hl m s r. rewrite (flood_rise_S c (S fuel)), (flood_rise_S c fuel).
    destruct (flood c fuel m s) as [[m' s']|] eqn:E; [|done].
    rewrite (IHf _ _ _ E). cbn [mbind option_bind]. destruct (decide (m' = hl)); [done|]. apply IHr.
Qed.

Lemma flood_fuel_mono c fuel fuel' hl s r :
  (fuel ≤ fuel')%nat → flood c fuel hl s = Some r → flood c fuel' hl s = Some r.
Proof.
  induction 1 as [|fuel' _ IH]; [done|]. intros Hr. by apply flood_fuel_S, IH.
Qed.

Section Below.

Variable c : Strategy.
Variable st0 : list Z.
Variable cap : Z → nat.

Local Abbreviation inv := (inv c st0 cap).
Local Abbreviation started := (started c st0).
Local Abbreviation below := (below c st0).

Lemma below_refl hl s : below hl s s.
Proof.
  constructor; try done.
  intros l q _ Hq. exists []. by rewrite app_nil_r.
Qed.

Lemma below_trans hl s1 s2 s3 : below hl s1 s2 → below hl s2 s3 → below hl s1 s3.
Proof.
  intros H1 H2. constructor.
  - intros l Hl. rewrite (below_nn H2 l Hl). by apply (below_nn H1).
  - intros l q Hl Hq. destruct (below_hq H1 l q Hl Hq) as [q1 Hq1].
    destruct (below_hq H2 l _ Hl Hq1) as [q2 Hq2]. exists (q1 ++ q2).
    by rewrite app_assoc.
  - intros l Hl Hn. apply (below_nal H2 l Hl). by apply (below_nal H1).
  - intros p k Hp Hk. apply (below_label H2 p k); [|done]. by apply (below_label H1).
  - intros p Hp. apply (below_active H2). by apply (below_active H1).
  - intros p l k Hp Hl Hs Hk. apply (below_new H1 p l k Hp Hl); [|done].
    by apply (below_new H2 p l k).
  - pose proof (below_unl H1). pose proof (below_unl H2). lia.
Qed.

Lemma below_mono hl hl' s s' : hl' ≤ hl → below hl s s' → below hl' s s'.
Proof.
  intros Hle H. constructor.
  - intros l Hl. apply (below_nn H). lia.
  - intros l q Hl. apply (below_hq H). lia.
  - intros l Hl. apply (below_nal H). lia.
  - apply (below_label H).
  - apply (below_active H).
  - intros p l k Hp Hl. apply (below_new H p l k Hp). lia.
  - apply (below_unl H).
Qed.

Lemma started_back hl s s' l :
  below hl s s' → l < hl → inv s' → started s' l → started s l.
Proof.
  intros H Hl Hinv (p & k & Hp & Hk & Hs). exists p, k. split_and!; [done| |].
  - by rewrite <- (below_nn H l Hl).
  - apply (below_new H p l k Hp Hl Hs). by apply (inv_nn_pos Hinv l).
Qed.

Lemma started_forth hl s s' l :
  below hl s s' → l < hl → inv s → started s l → started s' l.
Proof.
  intros H Hl Hinv (p & k & Hp & Hk & Hs). exists p, k. split_and!; [done| |].
  - by rewrite (below_nn H l Hl).
  - apply (below_label H p k Hs). by apply (inv_nn_pos Hinv l).
Qed.

Lemma keeps_closed_refl s : keeps_closed c s s.
Proof. by intros X. Qed.

Lemma keeps_closed_trans s1 s2 s3 :
  keeps_closed c s1 s2 → keeps_closed c s2 s3 → keeps_closed c s1 s3.
Proof. intros H1 H2 X HX. apply H2. by apply H1. Qed.

Lemma quiet_not_started s hl l :
  inv s → quiet_above hl s → hl < l → ¬ started s l.
Proof. intros Hinv Hq Hl Hs. apply (Hq l Hl). by apply (inv_nal_s Hinv). Qed.

End Below.

Section Main.

Variable c : Strategy.
Variable st0 : list Z.
Variable cap : Z → nat.
Hypothesis Hctx : ctx_ok c st0 cap.

Local Abbreviation inv := (inv c st0 cap).
Local Abbreviation at_level := (at_level c st0).
Local Abbreviation started := (started c st0).
Local Abbreviation interior := (interior st0).
Local Abbreviation closed := (closed c).
Local Abbreviation below := (below c st0).
Local Abbreviation at_work := (at_work c st0 cap).
Local Abbreviation flood_pre := (flood_pre c st0 cap).
Local Abbreviation flood_post := (flood_post c st0 cap).
Local Abbreviation while_pre := (while_pre c st0 cap).
Local Abbreviation while_post := (while_post c st0 cap).
Local Abbreviation rise_pre := (rise_pre c st0 cap).
Local Abbreviation rise_post := (rise_post c st0 cap).

Local Abbreviation rise_ok := (rise_ok c st0 cap).
Local Abbreviation while_ok := (while_ok c st0 cap).
Local Abbreviation flood_ok := (flood_ok c st0 cap).

Lemma neighbor_step fuel hl p k t d :
  rise_ok fuel → at_work hl t → quiet_above hl t → at_level p hl →
  st_at t p = Some k → 0 ≤ k → d ∈ se c → (3 * unlabelled t + 3 ≤ fuel)%nat →
  ∃ t', flood_neighbor c (flood_rise c fuel hl) p t d = Some t' ∧
        at_work hl t' ∧ quiet_above hl t' ∧ below (hl + 1) t t' ∧
        keeps_closed c t t' ∧ st_at t' (p + d) ≠ Some ACTIVE.
Proof.
  intros IH Hwork Hquiet Hp Hsp Hk Hd Hfuel.
  pose proof Hwork as (Hinv & Hhl & Hnal0 & Hnalh).
  unfold flood_neighbor.
  destruct (ctx_nbr Hctx p d (proj1 Hp) Hd) as [v0 Hv0].
  assert (is_Some (zget (STATUS t) (p + d))) as [stq Hstq].
  { apply zget_is_Some. rewrite (inv_len_status Hinv). by eapply zget_range. }
  rewrite Hstq. simpl. destruct (decide (stq = ACTIVE)) as [->|Hna].
  - pose proof (active_interior c st0 cap Hctx t (p + d) Hinv Hstq) as Hqi.
    destruct (interior_val c st0 cap Hctx (p + d) Hqi) as (vq & Hvq & Hlq).
    unfold val in Hvq. rewrite Hvq. simpl.
    destruct (flood_push_run c st0 cap Hctx _ _ t Hinv Hstq Hlq) as (fifo & Hfifo & Hpush).
    rewrite Hpush. simpl.
    assert (nn_at t 0 = Some 0) as Hnn0.
    { destruct (inv_root Hinv) as [?|[_ Hno]]; [done|]. by destruct (Hno 0). }
    pose proof (push_inv c st0 cap Hctx _ _ fifo t Hinv Hstq Hlq Hfifo Hnn0) as Hinv1.
    destruct (push_after c st0 cap (hToIndex c vq) (p + d) fifo t (hl + 1) Hinv Hstq Hfifo)
      as (Hb1 & Hc1 & Hq1 & Hother).
    assert (is_Some (nal_at t (hToIndex c vq))) as Hn'.
    { apply zget_is_Some. apply zget_range in Hfifo.
      pose proof (inv_len_nal Hinv). pose proof (inv_len_hq Hinv). lia. }
    assert (is_Some (hq_at t (hToIndex c vq))) as Hf' by done.
    set (t1 := push_state (hToIndex c vq) (p + d) fifo t) in *.
    assert (at_work hl t1) as Hwork1.
    { split_and!; [done|done|..]; unfold t1; rewrite push_nal by done; by case_decide. }
    destruct Hp as [Hpi Hvp]. unfold val in Hvp. rewrite Hvp. simpl.
    destruct (vq >? indexToH c hl) eqn:Ecmp.
    + apply Z.gtb_lt in Ecmp.
      assert (hl < hToIndex c vq) as Hlt by (unfold hToIndex, indexToH in *; lia).
      destruct (IH hl (hToIndex c vq) t1) as (t' & Hrise & Hw' & Hq' & Hb' & Hc').
      { split_and!; [done|done| | | |].
        - unfold t1. rewrite push_nal by done. by rewrite decide_True.
        - intros l Hl. unfold t1. rewrite push_nal by done.
          rewrite decide_False by lia. apply Hquiet. lia.
        - unfold t1. rewrite push_hq by done. rewrite decide_True by done.
          destruct fifo; simpl; eauto.
        - intros l Hl Hs. unfold t1 in Hs.
          apply (push_started c st0 cap _ _ _ t l Hinv Hstq) in Hs.
          by apply (quiet_not_started c st0 cap t hl l). }
      { pose proof (below_unl Hb1). lia. }
      exists t'. split_and!; try done.
      * eapply below_trans; [apply Hb1|done].
      * eapply keeps_closed_trans; [apply Hc1|done].
      * apply (below_active Hb'). fold t1. rewrite Hq1. done.
    + rewrite Z.gtb_ltb in Ecmp. apply Z.ltb_ge in Ecmp.
      assert (hToIndex c vq ≤ hl) as Hle by (unfold hToIndex, indexToH in *; lia).
      exists t1. split_and!; try done.
      * intros l Hl. unfold t1. rewrite push_nal by done.
        rewrite decide_False by lia. by apply Hquiet.
      * rewrite Hq1. done.
  - exists t. split_and!; try done.
    + apply below_refl.
    + apply keeps_closed_refl.
    + unfold st_at. rewrite Hstq. congruence.
Qed.

Lemma neighbors_loop fuel hl p k ds t :
  rise_ok fuel → (∀ d, d ∈ ds → d ∈ se c) →
  at_work hl t → quiet_above hl t → at_level p hl →
  st_at t p = Some k → 0 ≤ k → (3 * unlabelled t + 3 ≤ fuel)%nat →
  ∃ t', for_each (flood_neighbor c (flood_rise c fuel hl) p) t ds = Some t' ∧
        at_work hl t' ∧ quiet_above hl t' ∧ below (hl + 1) t t' ∧
        keeps_closed c t t' ∧ ∀ d, d ∈ ds → st_at t' (p + d) ≠ Some ACTIVE.
Proof.
  intros IH. revert t. induction ds as [|d ds IHds]; intros t Hds Hwork Hquiet Hp Hsp Hk Hfuel.
  - exists t. split_and!; try done.
    + apply below_refl.
    + apply keeps_closed_refl.
    + by intros d ?%elem_of_nil.
  - destruct (neighbor_step fuel hl p k t d IH Hwork Hquiet Hp Hsp Hk)
      as (t1 & Hstep & Hw1 & Hq1 & Hb1 & Hc1 & Hd1); [apply Hds; by left|done|].
    destruct (IHds t1) as (t' & Hrest & Hw' & Hq' & Hb' & Hc' & Hd'); try done.
    { intros d' Hd'. apply Hds. by right. }
    { by apply (below_label Hb1). }
    { pose proof (below_unl Hb1). lia. }
    exists t'. split_and!; try done.
    + simpl. rewrite Hstep. done.
    + by eapply below_trans.
    + by eapply keeps_closed_trans.
    + intros d' [->|Hin]%elem_of_cons; [|by apply Hd'].
      by apply (below_active Hb').
Qed.

Lemma flood_step fuel : while_ok fuel → flood_ok (S fuel).
Proof.
  intros IH hl s (Hwork & Hquiet & Hq) Hfuel. rewrite flood_S.
  destruct (IH hl s) as (s1 & Hwhile & Hw1 & Hq1 & He1 & Hb1 & Hc1 & Hn1 & _ & Hs1);
    [done|lia|].
  destruct (Hs1 Hq) as [Hst1 Hu1]. rewrite Hwhile. simpl.
  destruct (flood_close_spec c st0 cap Hctx hl s1 Hw1 Hq1 He1 Hst1)
    as (m & s' & Hclose & Hinv' & Hm & Hm0 & Hmt & Hquiet' & Hb' & Hc' & Hu').
  exists m, s'. split; [done|]. split_and!; try done; try lia.
  - by eapply below_trans.
  - by eapply keeps_closed_trans.
Qed.

Lemma while_step fuel : rise_ok fuel → while_ok fuel → while_ok (S fuel).
Proof.
  intros IHr IHw hl s [Hwork Hquiet] Hfuel. rewrite flood_while_S.
  pose proof Hwork as (Hinv & Hhl & Hnal0 & Hnalh).
  assert (0 ≤ hl < numberOfLevels c) as Hr.
  { apply zget_range in Hnalh. pose proof (inv_len_nal Hinv). lia. }
  destruct (level_lookup c (hq s) hl (inv_len_hq Hinv) Hr) as [fifo Hfifo].
  rewrite Hfifo. simpl. destruct fifo as [|p rest].
  - exists s. split; [done|]. split_and!; try done.
    + apply below_refl.
    + apply keeps_closed_refl.
    + intros (p & rest & E). unfold hq_at in E. congruence.
  - destruct (flood_pop_spec c st0 cap Hctx hl p rest s Hinv Hfifo)
      as (s1 & nn & Hpop & Hnn & Hst & Hhq & Hnn1 & Hnal1 & Hinv1).
    destruct (pop_after c st0 cap hl p rest s s1 nn Hinv Hfifo Hnn Hst Hhq Hnn1 Hnal1)
      as (Hb1 & Hc1 & Hu1 & Hst1 & Hq1 & Hnn' & Enal).
    destruct (inv_queue Hinv hl _ p Hfifo) as [Hp Hsp]; [by apply list_elem_of_here|].
    pose proof (inv_nn_pos Hinv hl nn Hnn) as Hpos.
    assert (st_at s1 p = Some nn) as Hsp1.
    { unfold st_at. rewrite Hst. apply zget_insert_eq. by eapply zget_range. }
    rewrite Hpop. simpl.
    destruct (neighbors_loop fuel hl p nn (se c) s1 IHr) as
      (s2 & Hloop & Hw2 & Hq2 & Hb2 & Hc2 & Hd2); try done.
    { split_and!; [done|done|by rewrite Enal|by rewrite Enal]. }
    { intros l Hl. rewrite Enal. by apply Hquiet. }
    { lia. }
    rewrite Hloop. simpl.
    destruct (IHw hl s2) as (s3 & Hwhile & Hw3 & Hq3 & He3 & Hb3 & Hc3 & Hn3 & Hs3 & _);
      [done|pose proof (below_unl Hb2); lia|].
    pose proof Hw2 as (Hinv2 & _).
    assert (started s2 hl) as Hst2.
    { apply (started_forth c st0 cap (hl + 1) s1 s2); [done|lia|done|done]. }
    exists s3. split; [done|]. split_and!; try done.
    + eapply below_trans; [apply Hb1|]. eapply below_trans; [|apply Hb3].
      by apply (below_mono c st0 (hl + 1)); [lia|].
    + intros X HX. apply Hc3. intros x k' d Hx Hk' HnX Hd.
      destruct (decide (x = p)) as [->|Hne].
      * by apply Hd2.
      * apply (Hc2 _ (Hc1 X HX) x k' d); try done. by intros [?|?].
    + rewrite Hn3. rewrite (below_nn Hb2) by lia. unfold nn_at in *. congruence.
    + intros _. by apply Hs3.
    + intros _. split; [by apply Hs3|].
      pose proof (below_unl Hb2). pose proof (below_unl Hb3). lia.
Qed.

Lemma rise_step fuel : flood_ok fuel → rise_ok fuel → rise_ok (S fuel).
Proof.
  intros IHf IHr hl m s (Hwork & Hlt & Hnalm & Hquiet & Hq & Hns) Hfuel.
  rewrite flood_rise_S. pose proof Hwork as (Hinv & Hhl & Hnal0 & Hnalh).
  destruct (IHf m s) as (m' & s' & Hflood & Hinv' & Hm' & Hm0 & Hmt & Hquiet' & Hb' & Hc' & Hu');
    [|lia|].
  { split_and!; [|done|done]. split_and!; [done|lia|done|done]. }
  rewrite Hflood. simpl.
  assert (nal_at s' hl = Some true) as Hnalh' by (by apply (below_nal Hb')).
  assert (nal_at s' 0 = Some true) as Hnal0' by (apply (below_nal Hb'); [lia|done]).
  assert (hl ≤ m') as Hge.
  { destruct (decide (hl ≤ m')); [done|]. destruct (Hquiet' hl); [lia|done]. }
  assert (at_work hl s') as Hwork' by done.
  destruct (decide (m' = hl)) as [->|Hne].
  - exists s'. split; [done|]. split_and!; try done.
    by apply (below_mono c st0 m); [lia|].
  - destruct (IHr hl m' s') as (s'' & Hrise & Hw'' & Hq'' & Hb'' & Hc''); [|lia|].
    { split_and!; try done; [lia|apply Hmt; lia| |].
      - destruct (inv_nal Hinv' m') as [?|Hs]; [apply Hmt; lia|done|].
        destruct (Hns m'); [lia|]. apply (started_back c st0 cap m s s'); [done|lia|done..].
      - intros l Hl Hs. destruct (decide (l ≤ m')) as [Hle|Hgt].
        + destruct (Hns l Hl). apply (started_back c st0 cap m s s'); [done|lia|done..].
        + apply (quiet_not_started c st0 cap s' m' l); [done|done|lia|done]. }
    exists s''. split; [done|]. split_and!; try done.
    + eapply below_trans; [|apply Hb'']. by apply (below_mono c st0 m); [lia|].
    + by eapply keeps_closed_trans.
Qed.

(** With fuel for three nested calls per pixel without a label, the
    flooding returns. *)
Lemma flood_total_aux fuel : flood_ok fuel ∧ while_ok fuel ∧ rise_ok fuel.
Proof.
  induction fuel as [|fuel (IHf & IHw & IHr)].
  - split_and!.
    + intros hl s _ Hfuel. lia.
    + intros hl s _ Hfuel. lia.
    + intros hl m s _ Hfuel. lia.
  - split_and!.
    + by apply flood_step.
    + by apply while_step.
    + by apply rise_step.
Qed.

Theorem flood_total hl s fuel :
  flood_pre hl s → (3 * unlabelled s + 2 ≤ fuel)%nat →
  ∃ m s', flood c fuel hl s = Some (m, s') ∧ flood_post hl s m s'.
Proof. apply flood_total_aux. Qed.

End Main.

(** ** [computeTree] on the state left by [init] *)

Lemma flood_pop_status c hl p rest s v :
  0 ≤ p < Z.of_nat (length (STATUS s)) →
  flood_pop c hl p rest (set_STATUS (<[Z.to_nat p := v]> (STATUS s)) s) =
  flood_pop c hl p rest s.
Proof.
  intros Hp. unfold flood_pop. simpl.
  destruct (zset (hq s) hl rest) as [hq'|]; [|done]. simpl.
  destruct (zget (number_nodes s) hl) as [nn|]; [|done]. simpl.
  rewrite !zset_total by (rewrite ?length_insert; done). simpl.
  by rewrite list_insert_insert_eq.
Qed.

Lemma flood_status c fuel hl p rest s v :
  zget (hq s) hl = Some (p :: rest) → 0 ≤ p < Z.of_nat (length (STATUS s)) →
  flood c (S (S fuel)) hl (set_STATUS (<[Z.to_nat p := v]> (STATUS s)) s) =
  flood c (S (S fuel)) hl s.
Proof.
  intros Hq Hp. rewrite !flood_S, !flood_while_S. simpl. rewrite Hq. simpl.
  by rewrite flood_pop_status.
Qed.

Lemma computeTree_fuel_mono c fuel fuel' s r :
  (fuel ≤ fuel')%nat → computeTree c fuel s = Some r → computeTree c fuel' s = Some r.
Proof.
  intros Hle. unfold computeTree.
  destruct (match first_active c (STATUS s) with Some _ => _ | None => _ end) as [s1|];
    [|done]. simpl.
  destruct (zset (node_at_level s1) _ true) as [nal|]; [|done]. simpl.
  destruct (flood c fuel _ _) as [[m s2]|] eqn:E; [|done].
  by rewrite (flood_fuel_mono c fuel fuel' _ _ _ Hle E).
Qed.

Section Build.

Variable c : Strategy.
Variable st0 : list Z.
Variable cap : Z → nat.
Hypothesis Hctx : ctx_ok c st0 cap.

Local Abbreviation inv := (inv c st0 cap).
Local Abbreviation hinv := (hinv c st0 cap).
Local Abbreviation at_level := (at_level c st0).
Local Abbreviation started := (started c st0).
Local Abbreviation interior := (interior st0).
Local Abbreviation closed := (closed c).
Local Abbreviation below := (below c st0).
Local Abbreviation initial := (initial c st0 cap).
Local Abbreviation final := (final c st0 cap).
Local Abbreviation path := (path c st0).

Lemma initial_inv s : 0 < numberOfLevels c → initial s → inv s.
Proof.
  intros HL (Hst & Hhq & Hnn & Hnal & Hidx & Hheap).
  assert (∀ l row, zget (index s) l = Some row →
            row = replicate (cap l) None ∧ 0 ≤ l < numberOfLevels c) as Hrow.
  { intros l row. rewrite Hidx, zget_Some, list_lookup_fmap.
    intros (Hl & (i & Hi & ->)%fmap_Some). apply lookup_seq in Hi as [-> Hi].
    simpl. rewrite Z2Nat.id by done. split; [done|lia]. }
  assert (∀ l k, index_at s l k = None) as Hnone.
  { intros l k. unfold index_at. destruct (zget (index s) l) as [row|] eqn:E; [|done].
    destruct (Hrow l row E) as [-> _]. simpl.
    destruct (zget (replicate (cap l) None) k) as [cell|] eqn:E'; [|done].
    apply zget_replicate in E' as [-> _]. done. }
  assert (∀ p v, st_at s p = Some v → v = ACTIVE ∨ v = BORDER_STATUS) as Hvals.
  { intros p v. unfold st_at. rewrite Hst. apply (ctx_vals Hctx). }
  assert (∀ p k, st_at s p = Some k → 0 ≤ k → False) as Hnolab.
  { intros p k Hp Hk. destruct (Hvals p k Hp) as [-> | ->]; unfold ACTIVE, BORDER_STATUS in Hk; lia. }
  assert (∀ l q, hq_at s l = Some q → q = []) as Hqs.
  { intros l q. unfold hq_at. rewrite Hhq. by intros [-> _]%zget_replicate. }
  assert (∀ l k, nn_at s l = Some k → k = 0) as Hnns.
  { intros l k. unfold nn_at. rewrite Hnn. by intros [-> _]%zget_replicate. }
  assert (∀ l, nal_at s l ≠ Some true) as Hnals.
  { intros l. unfold nal_at. rewrite Hnal. by intros [? _]%zget_replicate. }
  constructor.
  - by rewrite Hst.
  - rewrite Hhq, length_replicate. lia.
  - rewrite Hnn, length_replicate. lia.
  - rewrite Hnal, length_replicate. lia.
  - intros p. unfold st_at. by rewrite Hst.
  - intros p Hp. exists ACTIVE. unfold st_at. rewrite Hst. split; [done|by left].
  - intros l q p Hq. rewrite (Hqs l q Hq). by intros ?%elem_of_nil.
  - intros l q Hq. rewrite (Hqs l q Hq). constructor.
  - intros p l _ Hp. destruct (Hvals p _ Hp); done.
  - intros l k Hk. rewrite (Hnns l k Hk). done.
  - intros p l k _ Hp Hk. destruct (Hnolab p k Hp Hk).
  - intros l kn k Hkn. rewrite (Hnns l kn Hkn). lia.
  - intros l Hl. by destruct (Hnals l).
  - intros l p rest Hq. by pose proof (Hqs l _ Hq).
  - intros l (p & k & _ & Hk & Hp). destruct (Hnolab p k Hp). by rewrite (Hnns l k Hk).
  - left. unfold nn_at. rewrite Hnn. apply zget_replicate. split; [done|lia].
  - constructor.
    + rewrite Hidx, length_fmap, length_seq. lia.
    + intros l row Hl. destruct (Hrow l row Hl) as [-> _]. by rewrite length_replicate.
    + intros l k n. by rewrite Hnone.
    + intros n nd. by rewrite Hheap.
    + intros n nd kn. by rewrite Hheap.
    + intros n nd kn. by rewrite Hheap.
    + intros n nd ch. by rewrite Hheap.
    + intros n nd o. by rewrite Hheap.
    + intros n nd. by rewrite Hheap.
    + intros n nd. by rewrite Hheap.
  - intros n nd p. by rewrite Hheap.
  - intros n nd. by rewrite Hheap.
  - intros n nd. by rewrite Hheap.
Qed.

Lemma first_active_spec p0 : first_active c st0 = Some p0 → at_level p0 0.
Proof.
  unfold first_active. intros H%head_Some_elem_of.
  apply list_elem_of_filter in H as [[Hv Hs] _]. split; [done|].
  unfold val, indexToH. by rewrite Hv.
Qed.

Lemma final_of_flood s' m sp p0 :
  inv sp → st_at sp p0 = Some NOT_ACTIVE → at_level p0 0 →
  (∀ x k, st_at sp x = Some k → 0 ≤ k → False) →
  flood_post c st0 cap 0 sp m s' →
  ∃ root, final s' root p0.
Proof.
  intros Hinvp Hp0 Hl0 Hnolab (Hinv & Hm & _ & _ & Hquiet & Hb & Hc & _).
  assert (∀ l, nal_at s' l ≠ Some true) as Hnal.
  { intros l. destruct (decide (m < l)) as [Hl|Hl]; [by apply Hquiet|].
    unfold nal_at. rewrite zget_None by lia. done. }
  assert (labelled s' p0) as (v & Hv & Hpos).
  { destruct (inv_interior Hinv p0 (proj1 Hl0)) as (v & Hv & [->|[->|Hpos]]).
    - destruct (below_active Hb p0); [by rewrite Hp0|done].
    - destruct (inv_waiting Hinv p0 0 Hl0 Hv) as (q & Hq & Hin).
      destruct q as [|x q]; [by apply elem_of_nil in Hin|].
      destruct (Hnal 0). by apply (inv_nal_q Hinv 0 x q).
    - by exists v. }
  destruct (inv_label Hinv p0 0 v Hl0 Hv Hpos) as (kn & n & nd & K1 & K2 & K3 & _).
  destruct (inv_index Hinv 0 v n K3) as (_ & kn' & _ & _ & _ & K4 & _ & K5).
  rewrite K1 in K4. injection K4 as <-.
  assert (v ≠ kn) as Hne by (intros E; by destruct (Hnal 0); apply K5).
  assert (v = 0) as ->.
  { destruct (inv_root Hinv) as [E|[E _]]; rewrite K1 in E; injection E as ->; lia. }
  exists n. split_and!; try done.
  - apply Hc. intros x k d Hx Hk. destruct (Hnolab x k Hx Hk).
  - by exists 0.
Qed.

Lemma computeTree_spec s p0 fuel :
  0 < numberOfLevels c → initial s → first_active c st0 = Some p0 →
  (3 * unlabelled s + 2 ≤ fuel)%nat →
  ∃ root s', computeTree c fuel s = Some (Some root, s') ∧ final s' root p0.
Proof.
  intros HL Hinit Hfa Hfuel. pose proof (initial_inv s HL Hinit) as Hinv.
  pose proof (first_active_spec p0 Hfa) as Hl0.
  destruct Hinit as (Hst & Hhq & Hnn & Hnal & Hidx & Hheap).
  assert (st_at s p0 = Some ACTIVE) as Hp0 by (unfold st_at; rewrite Hst; apply Hl0).
  assert (hq_at s 0 = Some []) as Hq0.
  { unfold hq_at. rewrite Hhq. apply zget_replicate. split; [done|lia]. }
  assert (nn_at s 0 = Some 0) as Hnn0.
  { unfold nn_at. rewrite Hnn. apply zget_replicate. split; [done|lia]. }
  assert (is_Some (nal_at s 0)) as Hnal0.
  { exists false. unfold nal_at. rewrite Hnal. apply zget_replicate. split; [done|lia]. }
  assert (∀ x k, st_at s x = Some k → 0 ≤ k → False) as Hnolab.
  { intros x k. unfold st_at. rewrite Hst. intros Hx Hk.
    destruct (ctx_vals Hctx x k Hx) as [-> | ->]; unfold ACTIVE, BORDER_STATUS in Hk; lia. }
  set (sp := push_state 0 p0 [] s).
  pose proof (push_inv c st0 cap Hctx 0 p0 [] s Hinv Hp0 Hl0 Hq0 Hnn0) as Hinvp.
  destruct (push_after c st0 cap 0 p0 [] s 0 Hinv Hp0 Hq0) as (Hbp & _ & Hsp & _).
  destruct (flood_total c st0 cap Hctx 0 sp fuel) as (m & s' & Hflood & Hpost).
  { split_and!.
    - split_and!; [done|done|..]; unfold sp; rewrite push_nal by done; by rewrite decide_True.
    - intros l Hl. unfold sp. rewrite push_nal by done. rewrite decide_False by lia.
      unfold nal_at. rewrite Hnal. by intros [? _]%zget_replicate.
    - exists p0, []. unfold sp. rewrite push_hq by done. by rewrite decide_True. }
  { pose proof (below_unl Hbp). fold sp in H. lia. }
  destruct (final_of_flood s' m sp p0 Hinvp Hsp Hl0) as [root Hfinal]; [|done|].
  { intros x k Hx Hk. apply (Hnolab x k); [|done]. by eapply push_label. }
  exists root, s'. split; [|done].
  destruct Hfinal as (_ & _ & _ & Hroot & _).
  apply index_at_Some in Hroot as (row & Hrow & Hcell).
  unfold computeTree. rewrite Hst, Hfa.
  replace (hToIndex c (hMin c)) with 0 by (unfold hToIndex; lia).
  unfold hq_at in Hq0. rewrite Hq0. simpl.
  rewrite (zset_total (hq s)) by (by eapply zget_range). simpl.
  destruct Hnal0 as [b Hb]. rewrite (zset_total (node_at_level s)) by (by eapply zget_range).
  simpl. destruct fuel as [|[|fuel]]; [lia|lia|].
  match goal with |- context [flood c _ 0 ?x] => set (sc := x) end.
  assert (sp = set_STATUS (<[Z.to_nat p0 := NOT_ACTIVE]> (STATUS sc)) sc) as Esp by done.
  rewrite <- (flood_status c fuel 0 p0 [] sc NOT_ACTIVE).
  - rewrite <- Esp, Hflood. simpl. rewrite Hrow. simpl. by rewrite Hcell.
  - simpl. apply zget_insert_eq. by eapply zget_range.
  - simpl. by eapply zget_range.
Qed.

End Build.

(** ** The tree that [computeTree] leaves *)

Section Final.

Variable c : Strategy.
Variable st0 : list Z.
Variable cap : Z → nat.
Hypothesis Hctx : ctx_ok c st0 cap.

Variable s : Flood.
Variable root : NodeId.
Variable p0 : Z.
Hypothesis Hfinal : final c st0 cap s root p0.

Local Abbreviation at_level := (at_level c st0).
Local Abbreviation interior := (interior st0).
Local Abbreviation path := (path c st0).

Lemma final_inv : inv c st0 cap s.
Proof. apply Hfinal. Qed.

Lemma final_level n nd :
  heap s !! n = Some nd → hMin c ≤ h nd ≤ hMax c.
Proof.
  intros Hn. pose proof (inv_heap_index final_inv n nd Hn) as Hi.
  apply index_at_Some in Hi as (row & Hrow & _). apply zget_range in Hrow.
  pose proof (inv_len_index final_inv). unfold hToIndex, numberOfLevels in *. lia.
Qed.

(** Every node is closed: it has its parent, strictly lower, or is the
    root, its own parent. *)
Lemma final_closed n nd :
  heap s !! n = Some nd →
  (∃ f fn, father nd = Some f ∧ heap s !! f = Some fn ∧ h fn < h nd ∧ n ∈ childs fn) ∨
  (father nd = Some n ∧ n = root).
Proof.
  intros Hn. destruct Hfinal as (Hinv & Hnal & _ & Hroot & _).
  pose proof (inv_heap_index Hinv n nd Hn) as Hi.
  destruct (inv_index Hinv _ _ _ Hi) as (nd' & kn & Hn' & _ & _ & Hkn & [_ Hle] & Hopen).
  assert (label nd < kn) as Hlt.
  { destruct (decide (label nd = kn)) as [E|E]; [|lia]. destruct (Hnal _ (Hopen E)). }
  destruct (inv_closed Hinv n nd kn Hn Hkn Hlt) as [?|[Hf Hh]]; [by left|right].
  split; [done|]. rewrite Hh in Hi, Hkn.
  replace (hToIndex c (hMin c)) with 0 in Hi, Hkn by (unfold hToIndex; lia).
  assert (label nd = 0) as E.
  { pose proof (inv_nn_pos Hinv). destruct (inv_index Hinv _ _ _ Hi) as (_ & _ & _ & _ & _ & _ & [? _] & _).
    destruct (inv_root Hinv) as [E|[E _]]; rewrite Hkn in E; injection E as ->; lia. }
  rewrite E, Hroot in Hi. by injection Hi.
Qed.

Lemma final_root_ok : root_ok (heap s) root = true.
Proof.
  destruct Hfinal as (Hinv & _ & _ & Hroot & _).
  destruct (inv_index Hinv _ _ _ Hroot) as (nd & _ & Hn & Hh & _).
  unfold root_ok. rewrite Hn. apply bool_decide_eq_true.
  destruct (final_closed root nd Hn) as [(f & fn & _ & Hf & Hlt & _)|[? _]]; [|done].
  pose proof (final_level f fn Hf). rewrite Hh in Hlt. unfold indexToH in Hlt. lia.
Qed.

(** The level strictly increases along every parent link that is not
    the loop of the root. *)
Lemma final_increasing n nd f fn :
  heap s !! n = Some nd → father nd = Some f → f ≠ n → heap s !! f = Some fn →
  h fn < h nd.
Proof.
  intros Hn Hf Hne Hfn.
  destruct (final_closed n nd Hn) as [(f' & fn' & Hf' & Hfn' & Hlt & _)|[Hf' _]].
  - congruence.
  - congruence.
Qed.

Lemma final_tree_ok (d : nat) n nd :
  heap s !! n = Some nd → hMax c - h nd < Z.of_nat d →
  tree_ok d (heap s) n = true.
Proof.
  revert n nd. induction d as [|d IH]; intros n nd Hn Hd.
  - pose proof (final_level n nd Hn). lia.
  - apply tree_ok_unfold. exists nd. split; [done|]. intros ch Hch.
    destruct (inv_childs final_inv n nd ch Hn Hch) as (cn & Hc & Hf & Hlt).
    exists cn. split_and!; [done|done|]. apply (IH ch cn Hc). lia.
Qed.

Lemma final_reach n nd : heap s !! n = Some nd → reach (heap s) root n.
Proof.
  remember (Z.to_nat (h nd - hMin c)) as k eqn:Hk. revert n nd Hk.
  induction (lt_wf k) as [k _ IH]. intros n nd Hk Hn.
  destruct (final_closed n nd Hn) as [(f & fn & Hf & Hfn & Hlt & Hin)|[_ ->]].
  - apply (reach_child _ _ f n fn); [|done|done].
    apply (IH (Z.to_nat (h fn - hMin c))) with fn; [|done|done].
    pose proof (final_level f fn Hfn). lia.
  - constructor.
Qed.

Lemma final_active n nd : heap s !! n = Some nd → active nd = true.
Proof. intros Hn. by apply (inv_fresh final_inv n nd). Qed.

Lemma final_fresh n nd :
  heap s !! n = Some nd → iattr nd contourLength = 0 ∧ pixels_border nd = [].
Proof. intros Hn. by apply (inv_fresh final_inv n nd). Qed.

Lemma final_blank n nd :
  heap s !! n = Some nd → NoDup (childs nd) ∧ blank nd.
Proof. intros Hn. by apply (inv_blank final_inv n nd). Qed.

(** Every node holds a pixel, no pixel twice, and no two nodes hold the
    same pixel. *)
Lemma final_nonempty n nd : heap s !! n = Some nd → pixels nd ≠ [].
Proof.
  intros Hn. destruct Hfinal as (Hinv & Hnal & _).
  pose proof (inv_heap_index Hinv n nd Hn) as Hi.
  destruct (inv_index Hinv _ _ _ Hi) as (nd' & kn & Hn' & _ & _ & Hkn & [Hpos Hle] & Hopen).
  assert (label nd < kn) as Hlt.
  { destruct (decide (label nd = kn)) as [E|E]; [|lia]. destruct (Hnal _ (Hopen E)). }
  destruct (inv_closed_label Hinv _ kn (label nd) Hkn) as (p & Hp & Hs); [lia|].
  destruct (inv_label Hinv p _ _ Hp Hs Hpos) as (_ & m & md & _ & _ & Hm & Hmd & Hin).
  rewrite Hi in Hm. injection Hm as <-. rewrite Hn in Hmd. injection Hmd as <-.
  intros E. rewrite E in Hin. by apply elem_of_nil in Hin.
Qed.

Lemma final_pix_nodup n nd : heap s !! n = Some nd → NoDup (pixels nd).
Proof. apply (inv_pix_nodup final_inv). Qed.

Lemma final_owner n n' nd nd' o :
  heap s !! n = Some nd → heap s !! n' = Some nd' →
  o ∈ pixels nd → o ∈ pixels nd' → n = n'.
Proof. apply (owner_unique c st0 cap Hctx s), final_inv. Qed.

(** Every pixel reached from the first one has a label. *)
Lemma final_labelled q : path p0 q → labelled s q.
Proof.
  destruct Hfinal as (Hinv & Hnal & Hclosed & _ & Hp0).
  induction 1 as [|q d Hpath IH Hd Hq]; [done|].
  destruct IH as (k & Hk & Hpos).
  destruct (inv_interior Hinv (q + d) Hq) as (v & Hv & [->|[->|Hv']]).
  - destruct (Hclosed q k d Hk Hpos); [tauto|done|done].
  - destruct (interior_val c st0 cap Hctx (q + d) Hq) as (w & _ & Hl).
    destruct (inv_waiting Hinv (q + d) _ Hl Hv) as (fifo & Hf & Hin).
    destruct fifo as [|x fifo]; [by apply elem_of_nil in Hin|].
    destruct (Hnal _ (inv_nal_q Hinv _ x fifo Hf)).
  - by exists v.
Qed.

(** A pixel with a label is held by a node of its level. *)
Lemma final_pixel q v :
  labelled s q → val c q = Some v → interior q →
  ∃ n nd, heap s !! n = Some nd ∧ (imOffset_of c q).1 ∈ pixels nd ∧ h nd = v.
Proof.
  intros (k & Hk & Hpos) Hv Hq.
  pose proof (at_level_intro c st0 q v Hq Hv) as Hl.
  destruct (inv_label final_inv q _ k Hl Hk Hpos) as (kn & n & nd & _ & _ & Hi & Hn & Hin).
  exists n, nd. split_and!; [done|done|].
  destruct (inv_index final_inv _ _ _ Hi) as (nd' & _ & Hn' & Hh & _).
  rewrite Hn in Hn'. injection Hn' as <-. rewrite Hh.
  destruct (ctx_range Hctx q Hq) as (w & Hw & _). unfold indexToH, hToIndex. lia.
Qed.

End Final.

(** ** Offsets and coordinates *)

Arguments getCoord : simpl never.
Arguments getOffset : simpl never.
Arguments isPosValid : simpl never.

Lemma getOffset_range W H D x y z :
  0 ≤ x < W → 0 ≤ y < H → 0 ≤ z < D →
  0 ≤ getOffset W H (x, y, z) < W * H * D.
Proof.
  intros Hx Hy Hz. unfold getOffset.
  assert (0 ≤ y * W ∧ y * W + W ≤ H * W) as [??] by nia.
  assert (0 ≤ z * (W * H) ∧ z * (W * H) + W * H ≤ D * (W * H)) as [??] by nia.
  replace (z * W * H) with (z * (W * H)) by ring.
  replace (W * H * D) with (D * (W * H)) by ring.
  replace (H * W) with (W * H) in * by ring. lia.
Qed.

Lemma getCoord_getOffset W H x y z :
  0 ≤ x < W → 0 ≤ y < H → 0 ≤ z →
  getCoord W H (getOffset W H (x, y, z)) = (x, y, z).
Proof.
  intros Hx Hy Hz. unfold getCoord, getOffset.
  assert ((x + y * W + z * W * H) / W = y + z * H) as E1.
  { symmetry. apply (Z.div_unique _ _ _ x); [lia|nia]. }
  assert ((x + y * W + z * W * H) mod W = x) as E2.
  { symmetry. apply (Z.mod_unique _ _ (y + z * H)); [lia|nia]. }
  assert ((y + z * H) mod H = y) as E3.
  { symmetry. apply (Z.mod_unique _ _ z); [lia|nia]. }
  assert ((x + y * W + z * W * H) / (W * H) = z) as E4.
  { symmetry. apply (Z.div_unique _ _ _ (x + y * W)); [nia|nia]. }
  by rewrite E1, E2, E3, E4.
Qed.

Lemma getOffset_getCoord W H D o :
  0 < W → 0 < H → 0 ≤ o < W * H * D →
  ∃ x y z, getCoord W H o = (x, y, z) ∧ 0 ≤ x < W ∧ 0 ≤ y < H ∧ 0 ≤ z < D ∧
           getOffset W H (x, y, z) = o.
Proof.
  intros HW HH Ho. exists (o mod W), ((o / W) mod H), (o / (W * H)).
  split; [done|].
  pose proof (Z.mod_pos_bound o W HW). pose proof (Z.mod_pos_bound (o / W) H HH).
  pose proof (Z.div_mod o W ltac:(lia)) as E1.
  pose proof (Z.div_mod (o / W) H ltac:(lia)) as E2.
  assert (o / (W * H) = o / W / H) as E3 by (rewrite Z.div_div; lia).
  assert (0 ≤ o / W / H < D) as Hz.
  { split.
    - apply Z.div_pos; [|lia]. apply Z.div_pos; lia.
    - rewrite <- E3. apply Z.div_lt_upper_bound; nia. }
  split_and!; try lia. unfold getOffset. rewrite E3. nia.
Qed.

Lemma getOffset_add W H x y z dx dy dz :
  getOffset W H (x + dx, y + dy, z + dz) =
  getOffset W H (x, y, z) + getOffset W H (dx, dy, dz).
Proof. unfold getOffset. ring. Qed.

(** ** The padded images *)

Section Borders.

Variable im : Image.
Variables bx by_ bz fx fy fz value : Z.
Hypothesis Hok : image_ok im.
Hypothesis Hbx : 0 ≤ bx.
Hypothesis Hby : 0 ≤ by_.
Hypothesis Hbz : 0 ≤ bz.
Hypothesis Hfx : 0 ≤ fx.
Hypothesis Hfy : 0 ≤ fy.
Hypothesis Hfz : 0 ≤ fz.

Local Abbreviation WB := (sizeX im + bx + fx).
Local Abbreviation HB := (sizeY im + by_ + fy).
Local Abbreviation DB := (sizeZ im + bz + fz).
Local Abbreviation imB := (addBorders im (bx, by_, bz) (fx, fy, fz) value).

Lemma addBorders_length : Z.of_nat (length (data imB)) = WB * HB * DB.
Proof.
  destruct Hok as (? & ? & ? & _). unfold addBorders. simpl.
  rewrite length_fmap, length_seqZ. nia.
Qed.

Lemma image_zget x y z :
  inside im (x, y, z) →
  is_Some (zget (data im) (getOffset (sizeX im) (sizeY im) (x, y, z))).
Proof.
  intros (Hx & Hy & Hz). simpl in *. apply zget_is_Some.
  destruct Hok as (_ & _ & _ & ->). by apply getOffset_range.
Qed.

Lemma isPosValid_inside p : isPosValid im p = true ↔ inside im p.
Proof.
  destruct p as [[x y] z]. unfold isPosValid, inside. simpl.
  rewrite !andb_true_iff, !Z.leb_le, !Z.ltb_lt. tauto.
Qed.

Lemma addBorders_zget o :
  0 ≤ o < WB * HB * DB →
  zget (data imB) o =
  Some (let '(x, y, z) := getCoord WB HB o in
        if isPosValid im (x - bx, y - by_, z - bz)
        then default value (zget (data im) (getOffset (sizeX im) (sizeY im)
                                              (x - bx, y - by_, z - bz)))
        else value).
Proof.
  intros Ho. apply zget_Some. split; [lia|]. unfold addBorders. cbn [data].
  rewrite list_lookup_fmap, lookup_seqZ_lt by lia. cbn [fmap option_fmap option_map].
  by rewrite Z2Nat.id, Z.add_0_l by lia.
Qed.

Lemma addBorders_inside x y z :
  inside im (x, y, z) →
  zget (data imB) (pad WB HB (bx, by_, bz) (x, y, z)) =
  zget (data im) (getOffset (sizeX im) (sizeY im) (x, y, z)).
Proof.
  intros Hin. pose proof Hin as (Hx & Hy & Hz). cbn [fst snd] in Hx, Hy, Hz.
  destruct (image_zget x y z Hin) as [w Hw]. rewrite Hw.
  assert (0 ≤ pad WB HB (bx, by_, bz) (x, y, z) < WB * HB * DB) as Hr.
  { unfold pad. cbn [fst snd]. apply getOffset_range; lia. }
  rewrite addBorders_zget by done.
  unfold pad. cbn [fst snd]. rewrite getCoord_getOffset by lia.
  replace (x + bx - bx) with x by lia. replace (y + by_ - by_) with y by lia.
  replace (z + bz - bz) with z by lia.
  rewrite (proj2 (isPosValid_inside (x, y, z)) Hin). by rewrite Hw.
Qed.

Lemma addBorders_cases o w :
  zget (data imB) o = Some w →
  (∃ x y z, inside im (x, y, z) ∧ o = pad WB HB (bx, by_, bz) (x, y, z) ∧
            zget (data im) (getOffset (sizeX im) (sizeY im) (x, y, z)) = Some w) ∨
  w = value.
Proof.
  intros Ho. pose proof (zget_range _ _ _ Ho) as Hr. rewrite addBorders_length in Hr.
  rewrite addBorders_zget in Ho by done. destruct Hok as (? & ? & ? & _).
  destruct (getOffset_getCoord WB HB DB o) as (X & Y & Z & Ec & HX & HY & HZ & Eo); [lia..|].
  rewrite Ec in Ho.
  destruct (isPosValid im (X - bx, Y - by_, Z - bz)) eqn:Ev; [left|right; congruence].
  apply isPosValid_inside in Ev. exists (X - bx), (Y - by_), (Z - bz).
  destruct (image_zget _ _ _ Ev) as [w' Hw']. rewrite Hw' in Ho. simpl in Ho.
  split_and!; [done| |congruence]. unfold pad. cbn [fst snd]. rewrite <- Eo. f_equal.
  f_equal; [f_equal|]; lia.
Qed.

End Borders.

(** ** What [init] returns *)

Lemma foldr_max_bound {A} (f : A → Z) (l : list A) :
  0 ≤ foldr (λ p m, Z.max m (f p)) 0 l ∧
  ∀ p, p ∈ l → f p ≤ foldr (λ p m, Z.max m (f p)) 0 l.
Proof.
  induction l as [|a l [IH1 IH2]]; simpl.
  - split; [done|]. by intros p ?%elem_of_nil.
  - split; [lia|]. intros p [->|Hin]%elem_of_cons; [lia|]. specialize (IH2 p Hin). lia.
Qed.

Lemma foldr_min_spec (v : Z) (l : list Z) :
  (foldr Z.min v l = v ∨ foldr Z.min v l ∈ l) ∧
  foldr Z.min v l ≤ v ∧ ∀ x, x ∈ l → foldr Z.min v l ≤ x.
Proof.
  induction l as [|a l (IH1 & IH2 & IH3)]; simpl.
  - split_and!; [by left|done|]. by intros x ?%elem_of_nil.
  - split_and!.
    + destruct (Z.min_spec a (foldr Z.min v l)) as [[_ ->]|[_ ->]].
      * right. by left.
      * destruct IH1 as [?|?]; [by left|right; by right].
    + lia.
    + intros x [->|Hin]%elem_of_cons; [lia|]. specialize (IH3 x Hin). lia.
Qed.

Lemma foldr_max_spec (v : Z) (l : list Z) :
  v ≤ foldr Z.max v l ∧ ∀ x, x ∈ l → x ≤ foldr Z.max v l.
Proof.
  induction l as [|a l (IH2 & IH3)]; simpl.
  - split; [done|]. by intros x ?%elem_of_nil.
  - split; [lia|]. intros x [->|Hin]%elem_of_cons; [lia|]. specialize (IH3 x Hin). lia.
Qed.

Lemma getMin_spec img lo :
  getMin img = Some lo → lo ∈ data img ∧ ∀ v, v ∈ data img → lo ≤ v.
Proof.
  unfold getMin. destruct (data img) as [|v l]; [done|]. intros [= <-].
  destruct (foldr_min_spec v l) as (H1 & H2 & H3). split.
  - destruct H1 as [->|?]; [by left|by right].
  - intros x [->|Hin]%elem_of_cons; [done|by apply H3].
Qed.

Lemma getMax_spec img hi :
  getMax img = Some hi → ∀ v, v ∈ data img → v ≤ hi.
Proof.
  unfold getMax. destruct (data img) as [|v l]; [done|]. intros [= <-].
  destruct (foldr_max_spec v l) as (H2 & H3).
  intros x [->|Hin]%elem_of_cons; [done|by apply H3].
Qed.

Lemma image_ok_min_max img :
  image_ok img → ∃ lo hi, getMin img = Some lo ∧ getMax img = Some hi.
Proof.
  intros (? & ? & ? & Hlen). unfold getMin, getMax.
  destruct (data img); [simpl in Hlen; nia|eauto].
Qed.

Lemma image_ok_fill v img : image_ok img → image_ok (fill v img).
Proof.
  intros (? & ? & ? & Hlen). unfold image_ok, fill. simpl.
  by rewrite length_replicate.
Qed.

(** A list of distinct positions of a list, all holding values with the
    property [P], is no longer than the list of those values. *)
Lemma count_le (P : Z → Prop) `{∀ v, Decision (P v)} (l : list Z) (os : list nat) :
  NoDup os → (∀ o, o ∈ os → ∃ v, l !! o = Some v ∧ P v) →
  (length os ≤ length (filter P l))%nat.
Proof.
  revert os. induction l as [|a l IH]; intros os Hnd Hos.
  - destruct os as [|o os]; [done|]. destruct (Hos o) as (v & Hv & _); [by left|done].
  - assert (∀ os', NoDup os' → 0%nat ∉ os' →
              (∀ o, o ∈ os' → ∃ v, (a :: l) !! o = Some v ∧ P v) →
              (length os' ≤ length (filter P l))%nat) as Hshift.
    { intros os' Hnd' H0 Hos'. rewrite <- (length_fmap Nat.pred os'). apply IH.
      - apply NoDup_fmap_2_strong; [|done]. intros x y Hx Hy E.
        assert (x ≠ 0%nat) by (by intros ->). assert (y ≠ 0%nat) by (by intros ->). lia.
      - intros o' (o & -> & Ho)%list_elem_of_fmap.
        assert (o ≠ 0%nat) by (by intros ->). destruct (Hos' o Ho) as (v & Hv & HP).
        exists v. split; [|done]. destruct o; [done|]. done. }
    destruct (decide (0%nat ∈ os)) as [Hin|Hnotin].
    + apply elem_of_Permutation in Hin as [os' Hperm].
      rewrite Hperm in Hnd. apply NoDup_cons in Hnd as [H0 Hnd'].
      destruct (Hos 0%nat) as (v & Hv & HP); [rewrite Hperm; by left|].
      injection Hv as <-. rewrite filter_cons_True by done. rewrite Hperm. simpl.
      apply le_n_S. apply Hshift; [done..|]. intros o Ho. apply Hos. rewrite Hperm. by right.
    + etrans; [by apply Hshift|]. rewrite filter_cons. destruct (decide (P a)); simpl; lia.
Qed.

Section Init.

Variable img gradient : Image.
Variable connexity : FlatSE.
Variables lo hi : Z.
Hypothesis Hok : image_ok img.
Hypothesis Hlo : getMin img = Some lo.
Hypothesis Hhi : getMax img = Some hi.

Local Abbreviation bk := (getNegativeOffsets connexity).
Local Abbreviation fr := (getPositiveOffsets connexity).
Local Abbreviation WB := (sizeX img + bk.1.1 + fr.1.1).
Local Abbreviation HB := (sizeY img + bk.1.2 + fr.1.2).
Local Abbreviation DB := (sizeZ img + bk.2 + fr.2).
Local Abbreviation c := (init_strategy img gradient connexity lo hi).
Local Abbreviation st0 := (init_status img connexity).
Local Abbreviation cap := (histo img lo).
Local Abbreviation levels := (Z.to_nat (hi - lo + 1)).

Lemma borders_pos :
  0 ≤ bk.1.1 ∧ 0 ≤ bk.1.2 ∧ 0 ≤ bk.2 ∧ 0 ≤ fr.1.1 ∧ 0 ≤ fr.1.2 ∧ 0 ≤ fr.2.
Proof.
  unfold getNegativeOffsets, getPositiveOffsets. cbn [fst snd].
  split_and!; apply foldr_max_bound.
Qed.

Lemma borders_bound dx dy dz :
  (dx, dy, dz) ∈ connexity →
  - bk.1.1 ≤ dx ≤ fr.1.1 ∧ - bk.1.2 ≤ dy ≤ fr.1.2 ∧ - bk.2 ≤ dz ≤ fr.2.
Proof.
  intros Hin. unfold getNegativeOffsets, getPositiveOffsets. cbn [fst snd].
  pose proof (proj2 (foldr_max_bound (λ p : Z * Z * Z, - p.1.1) connexity) _ Hin).
  pose proof (proj2 (foldr_max_bound (λ p : Z * Z * Z, - p.1.2) connexity) _ Hin).
  pose proof (proj2 (foldr_max_bound (λ p : Z * Z * Z, - p.2) connexity) _ Hin).
  pose proof (proj2 (foldr_max_bound (λ p : Z * Z * Z, p.1.1) connexity) _ Hin).
  pose proof (proj2 (foldr_max_bound (λ p : Z * Z * Z, p.1.2) connexity) _ Hin).
  pose proof (proj2 (foldr_max_bound (λ p : Z * Z * Z, p.2) connexity) _ Hin).
  cbn [fst snd] in *. lia.
Qed.

Lemma init_eq :
  init img gradient connexity =
  Some (c, mkFlood st0 (replicate levels []) (replicate levels 0)
                   (replicate levels false)
                   ((λ i : nat, replicate (cap (Z.of_nat i)) None) <$> seq 0 levels) []).
Proof.
  unfold init. rewrite Hlo, Hhi. cbn [mbind option_bind]. f_equal. f_equal. f_equal.
  by rewrite <- list_fmap_compose.
Qed.

Lemma levels_pos : 0 < numberOfLevels c.
Proof.
  destruct (getMin_spec img lo Hlo) as [Hin _].
  pose proof (getMax_spec img hi Hhi lo Hin). unfold numberOfLevels. simpl. lia.
Qed.

Lemma status_length : Z.of_nat (length st0) = WB * HB * DB.
Proof.
  destruct borders_pos as (? & ? & ? & ? & ? & ?).
  unfold init_status. unfold getNegativeOffsets, getPositiveOffsets in *. cbn [fst snd] in *.
  by rewrite (addBorders_length (fill ACTIVE img)) by (done || by apply image_ok_fill).
Qed.

Lemma border_length : Z.of_nat (length (data (imBorder c))) = WB * HB * DB.
Proof.
  destruct borders_pos as (? & ? & ? & ? & ? & ?).
  unfold init_strategy. cbn [imBorder].
  unfold getNegativeOffsets, getPositiveOffsets in *. cbn [fst snd] in *.
  by rewrite (addBorders_length img).
Qed.

Lemma fill_zget v o :
  0 ≤ o < sizeX img * sizeY img * sizeZ img → zget (data (fill v img)) o = Some v.
Proof.
  intros Ho. destruct Hok as (_ & _ & _ & Hlen). unfold fill. cbn [data].
  apply zget_replicate. split; [done|lia].
Qed.

Lemma status_pad p : inside img p → zget st0 (pad WB HB bk p) = Some ACTIVE.
Proof.
  destruct p as [[x y] z]. intros Hin.
  destruct borders_pos as (? & ? & ? & ? & ? & ?).
  pose proof (addBorders_inside (fill ACTIVE img) (bk.1.1) (bk.1.2) (bk.2)
                (fr.1.1) (fr.1.2) (fr.2) BORDER_STATUS (image_ok_fill _ _ Hok)
                ltac:(done) ltac:(done) ltac:(done) ltac:(done) ltac:(done) ltac:(done) x y z Hin) as E.
  etrans; [exact E|]. apply fill_zget. destruct Hin as (? & ? & ?).
  by apply getOffset_range.
Qed.

Lemma border_pad p :
  inside img p →
  zget (data (imBorder c)) (pad WB HB bk p) =
  zget (data img) (getOffset (sizeX img) (sizeY img) p).
Proof.
  destruct p as [[x y] z]. intros Hin.
  destruct borders_pos as (? & ? & ? & ? & ? & ?).
  exact (addBorders_inside img (bk.1.1) (bk.1.2) (bk.2)
           (fr.1.1) (fr.1.2) (fr.2) BORDER Hok
           ltac:(done) ltac:(done) ltac:(done) ltac:(done) ltac:(done) ltac:(done) x y z Hin).
Qed.

Lemma status_cases o w :
  zget st0 o = Some w →
  (w = ACTIVE ∧ ∃ p, inside img p ∧ o = pad WB HB bk p) ∨ w = BORDER_STATUS.
Proof.
  intros Ho. destruct borders_pos as (? & ? & ? & ? & ? & ?).
  destruct (addBorders_cases (fill ACTIVE img) (bk.1.1) (bk.1.2) (bk.2)
              (fr.1.1) (fr.1.2) (fr.2) BORDER_STATUS (image_ok_fill _ _ Hok)
              ltac:(done) ltac:(done) ltac:(done) ltac:(done) ltac:(done) ltac:(done) o w Ho)
    as [(x & y & z & Hin & -> & Hw)|?]; [left|by right].
  rewrite fill_zget in Hw.
  - injection Hw as <-. split; [done|]. by exists (x, y, z).
  - destruct Hin as (? & ? & ?). by apply getOffset_range.
Qed.

Lemma interior_pad o :
  interior st0 o ↔ ∃ p, inside img p ∧ o = pad WB HB bk p.
Proof.
  split.
  - intros Ho. destruct (status_cases o ACTIVE Ho) as [[_ ?]|?]; done.
  - intros (p & Hin & ->). by apply status_pad.
Qed.

Lemma pad_coord x y z :
  inside img (x, y, z) →
  getCoord WB HB (pad WB HB bk (x, y, z)) = (x + bk.1.1, y + bk.1.2, z + bk.2).
Proof.
  intros (? & ? & ?). destruct borders_pos as (? & ? & ? & ? & ? & ?).
  unfold pad. cbn [fst snd] in *. apply getCoord_getOffset; lia.
Qed.

Lemma pad_inj p q :
  inside img p → inside img q → pad WB HB bk p = pad WB HB bk q → p = q.
Proof.
  destruct p as [[x y] z], q as [[x' y'] z']. intros Hp Hq E.
  pose proof (pad_coord x y z Hp) as E1. pose proof (pad_coord x' y' z' Hq) as E2.
  rewrite E in E1. rewrite E1 in E2. injection E2 as ? ? ?.
  f_equal; [f_equal|]; lia.
Qed.

Lemma imOffset_pad x y z :
  inside img (x, y, z) →
  imOffset_of c (pad WB HB bk (x, y, z)) =
  (getOffset (sizeX img) (sizeY img) (x, y, z), (x, y, z)).
Proof.
  intros Hin. unfold imOffset_of. cbn [imBorder init_strategy sizeX sizeY addBorders back oriSize].
  pose proof (pad_coord x y z Hin) as E. unfold getNegativeOffsets, getPositiveOffsets in *.
  cbn [fst snd addBorders sizeX sizeY] in *. rewrite E.
  replace (x + _ - _) with x by lia. replace (y + _ - _) with y by lia.
  replace (z + _ - _) with z by lia. done.
Qed.

Lemma imOffset_inj p q :
  interior st0 p → interior st0 q →
  (imOffset_of c p).1 = (imOffset_of c q).1 → p = q.
Proof.
  intros (a & Ha & ->)%interior_pad (b & Hb & ->)%interior_pad E. f_equal.
  destruct a as [[x y] z], b as [[x' y'] z'].
  rewrite !imOffset_pad in E by done. cbn [fst] in E.
  pose proof Ha as (? & ? & ?). pose proof Hb as (? & ? & ?). cbn [fst snd] in *.
  destruct Hok as (? & ? & ? & _).
  pose proof (getCoord_getOffset (sizeX img) (sizeY img) x y z
                ltac:(done) ltac:(done) ltac:(lia)) as E1.
  pose proof (getCoord_getOffset (sizeX img) (sizeY img) x' y' z'
                ltac:(done) ltac:(done) ltac:(lia)) as E2.
  rewrite E in E1. rewrite E1 in E2. by injection E2 as -> -> ->.
Qed.

Lemma init_ctx_ok : ctx_ok c st0 cap.
Proof.
  destruct borders_pos as (? & ? & ? & ? & ? & ?).
  constructor.
  - apply Nat2Z.inj. by rewrite border_length, status_length.
  - intros p v Hv. destruct (status_cases p v Hv) as [[? _]|?]; [by left|by right].
  - intros p d (q & Hq & ->)%interior_pad Hd.
    apply list_elem_of_fmap in Hd as ([[dx dy] dz] & -> & Hd).
    destruct (borders_bound dx dy dz Hd) as (? & ? & ?).
    destruct q as [[x y] z]. destruct Hq as (? & ? & ?). cbn [fst snd] in *.
    apply zget_is_Some. rewrite status_length. unfold pad. cbn [fst snd].
    cbn [imBorder init_strategy sizeX sizeY addBorders].
    unfold getNegativeOffsets, getPositiveOffsets in *. cbn [fst snd] in *.
    rewrite <- getOffset_add. apply getOffset_range; lia.
  - intros p (q & Hq & ->)%interior_pad. unfold val. rewrite border_pad by done.
    destruct q as [[x y] z]. destruct (image_zget img Hok x y z Hq) as [v Hv].
    exists v. split; [done|]. apply zget_Some in Hv as [_ Hv].
    apply list_elem_of_lookup_2 in Hv. cbn [hMin hMax init_strategy].
    split; [by apply (proj2 (getMin_spec img lo Hlo))|by apply (getMax_spec img hi Hhi)].
  - intros l ps Hnd Hps. unfold histo.
    rewrite <- (length_fmap (λ p, Z.to_nat (imOffset_of c p).1) ps).
    apply (count_le (λ v, v - lo = l)).
    + apply NoDup_fmap_2_strong; [|done]. intros p p' Hp Hp' E.
      destruct (Hps p Hp) as [(q & Hq & ->)%interior_pad _].
      destruct (Hps p' Hp') as [(q' & Hq' & ->)%interior_pad _].
      destruct q as [[x y] z], q' as [[x' y'] z'].
      rewrite !imOffset_pad in E by done. cbn [fst] in E.
      pose proof Hq as (? & ? & ?). pose proof Hq' as (? & ? & ?). cbn [fst snd] in *.
      destruct Hok as (? & ? & ? & _).
      pose proof (getOffset_range (sizeX img) (sizeY img) (sizeZ img) x y z
                    ltac:(done) ltac:(done) ltac:(done)).
      pose proof (getOffset_range (sizeX img) (sizeY img) (sizeZ img) x' y' z'
                    ltac:(done) ltac:(done) ltac:(done)).
      assert (getOffset (sizeX img) (sizeY img) (x, y, z) =
              getOffset (sizeX img) (sizeY img) (x', y', z')) as E' by lia.
      pose proof (getCoord_getOffset (sizeX img) (sizeY img) x y z
                    ltac:(done) ltac:(done) ltac:(lia)) as E1.
      pose proof (getCoord_getOffset (sizeX img) (sizeY img) x' y' z'
                    ltac:(done) ltac:(done) ltac:(lia)) as E2.
      rewrite E' in E1. rewrite E1 in E2. by injection E2 as -> -> ->.
    + intros o (p & -> & Hp)%list_elem_of_fmap.
      destruct (Hps p Hp) as [(q & Hq & ->)%interior_pad Hv].
      unfold val in Hv. rewrite border_pad in Hv by done.
      destruct q as [[x y] z]. rewrite imOffset_pad by done. cbn [fst].
      apply zget_Some in Hv as [_ Hv]. exists (indexToH c l). split; [done|].
      unfold indexToH. cbn [hMin init_strategy]. lia.
  - apply imOffset_inj.
Qed.

Lemma init_first_active : ∃ p0, first_active c st0 = Some p0.
Proof.
  destruct (getMin_spec img lo Hlo) as [Hin _].
  apply list_elem_of_lookup_1 in Hin as [i Hi].
  pose proof (lookup_lt_Some _ _ _ Hi) as Hlt.
  pose proof Hok as (? & ? & ? & Hlen).
  destruct (getOffset_getCoord (sizeX img) (sizeY img) (sizeZ img) (Z.of_nat i))
    as (x & y & z & _ & Hx & Hy & Hz & Eo); [lia..|].
  assert (inside img (x, y, z)) as Hin by done.
  assert (pad WB HB bk (x, y, z) ∈
          filter (λ o, zget (data (imBorder c)) o = Some (hMin c) ∧
                       zget st0 o = Some ACTIVE)
                 (seqZ 0 (Z.of_nat (length (data (imBorder c)))))) as Hp.
  { apply list_elem_of_filter. split.
    - split; [|by apply status_pad]. rewrite border_pad, Eo by done.
      apply zget_Some. split; [lia|]. by rewrite Nat2Z.id.
    - apply elem_of_seqZ. rewrite border_length, <- status_length.
      pose proof (zget_range _ _ _ (status_pad _ Hin)). lia. }
  unfold first_active. destruct (filter _ _) as [|p0 ?]; [by apply elem_of_nil in Hp|].
  by exists p0.
Qed.

Lemma init_initial :
  initial c st0 cap
    (mkFlood st0 (replicate levels []) (replicate levels 0) (replicate levels false)
             ((λ i : nat, replicate (cap (Z.of_nat i)) None) <$> seq 0 levels) []).
Proof. done. Qed.

End Init.

(** ** The builder *)

(** On an image with at least one pixel, [init] and [computeTree] return,
    and the state they leave is that of a finished flooding. *)
Lemma build_total img gradient connexity :
  image_ok img →
  ∃ lo hi s0 root s p0,
    getMin img = Some lo ∧ getMax img = Some hi ∧
    init img gradient connexity =
      Some (init_strategy img gradient connexity lo hi, s0) ∧
    converges (λ fuel, computeTree (init_strategy img gradient connexity lo hi) fuel s0)
              (Some root, s) ∧
    first_active (init_strategy img gradient connexity lo hi)
                 (init_status img connexity) = Some p0 ∧
    final (init_strategy img gradient connexity lo hi) (init_status img connexity)
          (histo img lo) s root p0.
Proof.
  intros Hok. destruct (image_ok_min_max img Hok) as (lo & hi & Hlo & Hhi).
  pose proof (init_ctx_ok img gradient connexity lo hi Hok Hlo Hhi) as Hctx.
  destruct (init_first_active img gradient connexity lo hi Hok Hlo) as [p0 Hp0].
  pose proof (init_initial img gradient connexity lo hi) as Hinit.
  pose proof (levels_pos img gradient connexity lo hi Hlo Hhi) as HL.
  eexists lo, hi, _.
  destruct (computeTree_spec _ _ _ Hctx _ p0 (3 * unlabelled _ + 2) HL Hinit Hp0 (le_n _))
    as (root & s & Hrun & Hfinal).
  exists root, s, p0. split_and!; [done|done|by apply init_eq| |done|done].
  eexists. intros fuel Hfuel. by apply (computeTree_fuel_mono _ _ _ _ _ Hfuel).
Qed.

(** C2: in the tree that the builder returns, a node whose parent is not
    the node itself is at a level strictly above that of its parent.  The
    builder returns on every image with at least one pixel. *)
Theorem builder_levels_increase (img gradient : Image) (connexity : FlatSE) :
  image_ok img →
  ∃ c s0 root s,
    init img gradient connexity = Some (c, s0) ∧
    converges (λ fuel, computeTree c fuel s0) (Some root, s) ∧
    ∀ n nd p pn,
      heap s !! n = Some nd → father nd = Some p → p ≠ n → heap s !! p = Some pn →
      h nd > h pn.
Proof.
  intros Hok.
  destruct (build_total img gradient connexity Hok)
    as (lo & hi & s0 & root & s & p0 & Hlo & Hhi & Hinit & Hrun & _ & Hfinal).
  eexists _, s0, root, s. split_and!; [done..|].
  intros n nd p pn Hn Hf Hne Hp. apply Z.lt_gt.
  by apply (final_increasing _ _ _ s root p0 Hfinal n nd p pn).
Qed.

Lemma builder_levels_increase_witness :
  image_ok img_step ∧
  ∃ c s0 root s,
    init img_step img_step make2DN8 = Some (c, s0) ∧
    converges (λ fuel, computeTree c fuel s0) (Some root, s) ∧
    ∀ n nd p pn,
      heap s !! n = Some nd → father nd = Some p → p ≠ n → heap s !! p = Some pn →
      h nd > h pn.
Proof.
  assert (image_ok img_step) as Hok by (unfold image_ok; simpl; lia).
  split; [done|]. exact (builder_levels_increase img_step img_step make2DN8 Hok).
Defined.

(** ** Connected images *)

Lemma linked_path img gradient connexity lo hi p q :
  image_ok img → inside img p → linked img connexity p q →
  inside img q ∧
  path (init_strategy img gradient connexity lo hi) (init_status img connexity)
       (pad (sizeX img + (getNegativeOffsets connexity).1.1 + (getPositiveOffsets connexity).1.1)
            (sizeY img + (getNegativeOffsets connexity).1.2 + (getPositiveOffsets connexity).1.2)
            (getNegativeOffsets connexity) p)
       (pad (sizeX img + (getNegativeOffsets connexity).1.1 + (getPositiveOffsets connexity).1.1)
            (sizeY img + (getNegativeOffsets connexity).1.2 + (getPositiveOffsets connexity).1.2)
            (getNegativeOffsets connexity) q).
Proof.
  intros Hok Hp. induction 1 as [|q d Hl [Hq IH] Hd Hin].
  - split; [done|constructor].
  - split; [done|].
    set (WB := sizeX img + _ + _) in *. set (HB := sizeY img + _ + _) in *.
    assert (pad WB HB (getNegativeOffsets connexity) (shift q d) =
            pad WB HB (getNegativeOffsets connexity) q + getOffset WB HB d) as ->.
    { destruct q as [[x y] z], d as [[dx dy] dz]. unfold pad, shift. cbn [fst snd].
      rewrite <- getOffset_add. f_equal. f_equal; [f_equal|]; lia. }
    apply path_step; [done| |].
    + cbn [se init_strategy]. unfold setContext. apply list_elem_of_fmap. by exists d.
    + destruct q as [[x y] z], d as [[dx dy] dz].
      assert (pad WB HB (getNegativeOffsets connexity) (x, y, z) + getOffset WB HB (dx, dy, dz) =
              pad WB HB (getNegativeOffsets connexity) (shift (x, y, z) (dx, dy, dz))) as ->.
      { unfold pad, shift. cbn [fst snd].
        rewrite <- getOffset_add. f_equal. f_equal; [f_equal|]; lia. }
      by apply status_pad.
Qed.

(** The eight neighbors connect every image of one slice. *)
Lemma make2DN8_connected img : sizeZ img = 1 → connected img make2DN8.
Proof.
  intros HZ [[x y] z] [[x' y'] z'] Hp Hq.
  assert (z = 0 ∧ z' = 0) as [-> ->].
  { destruct Hp as (_ & _ & ?), Hq as (_ & _ & ?). cbn [fst snd] in *. lia. }
  remember (Z.to_nat (Z.abs (x' - x) + Z.abs (y' - y))) as n eqn:Hn.
  revert x' y' Hq Hn. induction n as [|n IH]; intros x' y' Hq Hn.
  - assert (x' = x ∧ y' = y) as [-> ->] by lia. constructor.
  - destruct Hp as (Hx & Hy & _), Hq as (Hx' & Hy' & Hz'). cbn [fst snd] in *.
    assert (∀ a b da db, (da, db, 0) ∈ make2DN8 → x' = a + da → y' = b + db →
              n = Z.to_nat (Z.abs (a - x) + Z.abs (b - y)) →
              0 ≤ a < sizeX img → 0 ≤ b < sizeY img →
              linked img make2DN8 (x, y, 0) (x', y', 0)) as Hstep.
    { intros a b da db Hd -> -> Hn' Ha Hb.
      assert ((a + da, b + db, 0) = shift (a, b, 0) (da, db, 0)) as ->
        by (unfold shift; cbn [fst snd]; f_equal; lia).
      apply linked_step; [|done|].
      - apply IH; [|done]. split_and!; cbn [fst snd]; lia.
      - unfold shift, inside. cbn [fst snd]. split_and!; lia. }
    unfold make2DN8 in Hstep.
    destruct (decide (x < x')); [|destruct (decide (x' < x))].
    + apply (Hstep (x' - 1) y' 1 0); [|lia..]. repeat (first [by left|right]).
    + apply (Hstep (x' + 1) y' (-1) 0); [|lia..]. repeat (first [by left|right]).
    + destruct (decide (y < y')).
      * apply (Hstep x' (y' - 1) 0 1); [|lia..]. repeat (first [by left|right]).
      * apply (Hstep x' (y' + 1) 0 (-1)); [|lia..]. repeat (first [by left|right]).
Qed.

(** ** The attribute passes return and keep the tree *)

(** Inclusion of lists of slots written out. *)
Ltac sub_slots :=
  let x := fresh "x" in
  let Hx := fresh "Hx" in
  intros x Hx;
  repeat (apply elem_of_cons in Hx as [->|Hx]; [in_slots|]);
  by apply elem_of_nil in Hx.

Lemma converges_bind {A B} (f : nat → option A) (g : nat → A → option B) a b :
  converges f a → converges (λ fuel, g fuel a) b →
  converges (λ fuel, x ← f fuel; g fuel x) b.
Proof.
  intros [k1 H1] [k2 H2]. exists (k1 `max` k2)%nat. intros fuel Hf.
  rewrite H1 by lia. simpl. apply H2. lia.
Qed.

Lemma converges_ret {A} (a : A) : converges (λ _, Some a) a.
Proof. by exists 0%nat. Qed.

Lemma wf_tree_frame D hp hp' root KI KN pb :
  wf_tree D hp root → frame (keeps KI KN pb) hp hp' → wf_tree D hp' root.
Proof.
  intros [Hok Hroot] Hfr.
  pose proof (frame_same_links _ _ _ (keeps_links KI KN pb) Hfr) as Hsl. split.
  - by eapply tree_ok_same_links.
  - destruct (root_ok_father _ _ Hroot) as (rn & Hrn & Hf).
    destruct (same_links_lookup _ _ _ _ Hsl Hrn) as (rn' & Hrn' & _ & Hf').
    unfold root_ok. rewrite Hrn'. apply bool_decide_eq_true. congruence.
Qed.

Lemma frame_weaken KI KN pb KI' KN' pb' hp hp' :
  KI ⊆ KI' → KN ⊆ KN' → (pb = true → pb' = true) →
  frame (keeps KI KN pb) hp hp' → frame (keeps KI' KN' pb') hp hp'.
Proof.
  intros HI HN Hpb [Hl H]. split; [done|]. intros n nd Hn.
  destruct (H n nd Hn) as (nd' & Hn' & Hk). exists nd'. split; [done|].
  by eapply keeps_weaken.
Qed.

(** A child of a node of the tree is allocated, also after a pass. *)
(** The node a frame started from. *)
Lemma frame_back KI KN pb hp hp' n nd' :
  frame (keeps KI KN pb) hp hp' → hp' !! n = Some nd' →
  ∃ nd, hp !! n = Some nd ∧ keeps KI KN pb nd nd'.
Proof.
  intros [Hlen Hf] Hn'.
  destruct (lookup_lt_is_Some_2 hp n) as [nd Hn].
  { rewrite Hlen. by eapply lookup_lt_Some. }
  destruct (Hf n nd Hn) as (nd2 & Hn2 & Hk). exists nd. split; [done|]. congruence.
Qed.

Lemma frame_child D hp0 root KI KN pb hp t nd c :
  tree_ok D hp0 root = true → frame (keeps KI KN pb) hp0 hp → reach hp0 root t →
  hp !! t = Some nd → c ∈ childs nd → ∃ cn, hp !! c = Some cn.
Proof.
  intros Hok Hfr Hr Ht Hc.
  destruct (weight_reach _ _ _ _ Hok Hr) as (nd0 & Ht0 & _ & Hch).
  destruct (frame_keeps_lookup _ _ _ _ _ _ _ Hfr Ht0) as (nd' & Ht' & Hk).
  assert (nd' = nd) as -> by congruence.
  destruct Hk as (_ & _ & _ & _ & Hcs & _). rewrite Hcs in Hc.
  destruct (Hch c Hc) as (cn0 & Hc0 & _).
  destruct (frame_keeps_lookup _ _ _ _ _ _ _ Hfr Hc0) as (cn & Hcn & _). eauto.
Qed.

(** The parent of a node of the tree is allocated, also after a pass. *)
Lemma frame_father D hp0 root KI KN pb hp t nd :
  wf_tree D hp0 root → frame (keeps KI KN pb) hp0 hp → reach hp0 root t →
  hp !! t = Some nd →
  ∃ f fn, father nd = Some f ∧ hp !! f = Some fn ∧ reach hp0 root f.
Proof.
  intros [Hok Hroot] Hfr Hr Ht.
  destruct (father_reach _ _ _ _ Hok Hroot Hr) as (nd0 & f & fn0 & Ht0 & Hf & Hfn & Hrf).
  destruct (frame_keeps_lookup _ _ _ _ _ _ _ Hfr Ht0) as (nd' & Ht' & Hk).
  assert (nd' = nd) as -> by congruence.
  destruct Hk as (_ & _ & _ & Hfa & _).
  destruct (frame_keeps_lookup _ _ _ _ _ _ _ Hfr Hfn) as (fn & Hfn' & _).
  exists f, fn. split_and!; [congruence|done|done].
Qed.

(** [tree->a = f(tree)] for a recursive [f]. *)
Lemma assign_traverse {L} (a : IntAttr)
    (enter : list Node → nat → option (L * list Node))
    (child : nat → nat → Z → L * list Node → option (L * list Node))
    (leave : nat → L * list Node → option (Z * list Node))
    D hp0 root KI :
  tree_ok D hp0 root = true → a ∈ KI →
  (∀ hp t nd, frame (keeps KI [] false) hp0 hp → reach hp0 root t → hp !! t = Some nd →
     ∃ l nd', enter hp t = Some (l, <[t := nd']> hp) ∧ keeps KI [] false nd nd') →
  (∀ hp t nd c r l, frame (keeps KI [] false) hp0 hp → reach hp0 root t →
     hp !! t = Some nd → c ∈ childs nd →
     ∃ l' nd', child t c r (l, hp) = Some (l', <[t := nd']> hp) ∧ keeps KI [] false nd nd') →
  (∀ hp t nd l, frame (keeps KI [] false) hp0 hp → reach hp0 root t → hp !! t = Some nd →
     ∃ r nd', leave t (l, hp) = Some (r, <[t := nd']> hp) ∧ keeps KI [] false nd nd') →
  ∃ hp', converges (λ fuel, assign a (traverse enter child leave) fuel root hp0) hp' ∧
         frame (keeps KI [] false) hp0 hp'.
Proof.
  intros Hok Ha He Hc Hl.
  destruct (traverse_spec (λ _, enter) (λ _, child) (λ _, leave) 0 hp0 root D
              (keeps KI [] false) (λ _ _, True) Hok (keeps_refl _ _ _) (keeps_trans _ _ _)
              (keeps_links _ _ _)) with (d := D) (t := root) (hp := hp0)
    as (r & hp1 & Hrun & Hfr & _ & _).
  - intros hp t nd Hfr Hr Ht. destruct (He hp t nd Hfr Hr Ht) as (l & nd' & E & Hk).
    exists l, nd'. split; [by intros F _|done].
  - intros hp t nd c r l Hfr Hr Ht Hin.
    destruct (Hc hp t nd c r l Hfr Hr Ht Hin) as (l' & nd' & E & Hk).
    exists l', nd'. split; [by intros F _|done].
  - intros hp t nd l Hfr Hr Ht. destruct (Hl hp t nd l Hfr Hr Ht) as (r & nd' & E & Hk).
    exists r, nd'. split; [by intros F _|done].
  - done.
  - constructor.
  - apply frame_refl, keeps_refl.
  - destruct (tree_ok_reach _ _ _ _ Hok (reach_refl hp0 root)) as (d & _ & Hd).
    apply tree_ok_unfold in Hd as (rn0 & Hrn0 & _).
    destruct (frame_keeps_lookup _ _ _ _ _ _ _ Hfr Hrn0) as (rn & Hrn & _).
    exists (<[root := set_iattr a r rn]> hp1). split.
    + exists D. intros fuel Hf. unfold assign. rewrite (Hrun 0%nat fuel) by (done || lia).
      simpl. by apply upd_Some.
    + eapply frame_trans; [apply keeps_trans|done|].
      apply (frame_insert _ _ _ rn); [apply keeps_refl|done|]. by apply keeps_set_iattr.
Qed.

Lemma insert_same (hp : list Node) (t : nat) (nd : Node) :
  hp !! t = Some nd → hp = <[t := nd]> hp.
Proof. intros Ht. by rewrite list_insert_id. Qed.

(** The loops on a queue whose body takes fuel of its own. *)
Lemma queue_loop_total_fuel {S : Type}
    (visit : nat → S → nat → option (S * list nat)) (K : nat)
    (W : nat → nat) (I : S → list nat → Prop) :
  (∀ s n q, I s (n :: q) →
     ∃ s' pushed, (∀ F, (K ≤ F)%nat → visit F s n = Some (s', pushed)) ∧
                  I s' (q ++ pushed) ∧ (sum_list (W <$> pushed) < W n)%nat) →
  ∀ s q, I s q →
    ∃ s', (∀ F fuel, (K ≤ F)%nat → (sum_list (W <$> q) < fuel)%nat →
             queue_loop (visit F) fuel s q = Some s') ∧ I s' [].
Proof.
  intros Hstep s q. remember (sum_list (W <$> q)) as k eqn:Hk.
  revert s q Hk. induction k as [k IH] using lt_wf_ind. intros s [|n q] -> HI.
  - exists s. split; [|done]. intros F [|fuel] ? ?; [lia|done].
  - destruct (Hstep _ _ _ HI) as (s' & pushed & Hv & HI' & Hlt).
    destruct (IH (sum_list (W <$> (q ++ pushed)))) with (s := s') (q := q ++ pushed)
      as (s'' & Hrun & Hfin); [|done|exact HI'|].
    + rewrite fmap_app, sum_list_app, fmap_cons. simpl. lia.
    + exists s''. split; [|done]. intros F [|fuel] HF Hf; [lia|]. simpl.
      rewrite (Hv F HF). simpl. apply Hrun; [done|].
      rewrite fmap_app, sum_list_app. rewrite fmap_cons in Hf. simpl in Hf. lia.
Qed.

Section Passes.

Variable D : nat.
Variable hp0 : list Node.
Variable root : nat.
Hypothesis Hwf : wf_tree D hp0 root.

Lemma computeSumOf_total a :
  ∃ hp', converges (λ fuel, assign a (computeSumOf a) fuel root hp0) hp' ∧
         frame (keeps [a] [] false) hp0 hp'.
Proof.
  destruct Hwf as [Hok _]. apply (assign_traverse (L := unit) a _ _ _ D); [done|in_slots|..].
  - intros hp t nd _ _ Ht. exists tt, nd. split; [|apply keeps_refl].
    by rewrite <- insert_same.
  - intros hp t nd c r [] _ _ Ht _. eexists tt, _. split.
    + simpl. unfold upd_iattr. rewrite (upd_Some _ _ nd) by done. done.
    + apply keeps_set_iattr. in_slots.
  - intros hp t nd [] _ _ Ht. exists (iattr nd a), nd. split; [|apply keeps_refl].
    simpl. rewrite Ht. simpl. by rewrite <- insert_same.
Qed.

Lemma computeSubNodes_total :
  ∃ hp', converges (λ fuel, assign subNodes computeSubNodes fuel root hp0) hp' ∧
         frame (keeps [subNodes] [] false) hp0 hp'.
Proof.
  destruct Hwf as [Hok _].
  apply (assign_traverse (L := unit) subNodes _ _ _ D); [done|in_slots|..].
  - intros hp t nd _ _ Ht. exists tt, nd. split; [|apply keeps_refl].
    by rewrite <- insert_same.
  - intros hp t nd c r [] _ _ Ht _. eexists tt, _. split.
    + simpl. rewrite (upd_Some _ _ nd) by done. done.
    + apply keeps_set_iattr. in_slots.
  - intros hp t nd [] _ _ Ht. exists (iattr nd subNodes), nd. split; [|apply keeps_refl].
    simpl. rewrite Ht. simpl. by rewrite <- insert_same.
Qed.

Lemma computeContrast_total :
  ∃ hp', converges (λ fuel, assign contrast computeContrast fuel root hp0) hp' ∧
         frame (keeps [contrast] [] false) hp0 hp'.
Proof.
  destruct Hwf as [Hok _].
  apply (assign_traverse (L := Z * Z) contrast _ _ _ D); [done|in_slots|..].
  - intros hp t nd _ _ Ht. exists (h nd, 0), nd. split; [|apply keeps_refl].
    rewrite Ht. simpl. by rewrite <- insert_same.
  - intros hp t nd c r [lv mx] Hfr Hr Ht Hc.
    destruct (frame_child D hp0 root _ _ _ hp t nd c Hok Hfr Hr Ht Hc) as [cn Hcn].
    eexists _, nd. split; [|apply keeps_refl]. rewrite Hcn. simpl.
    by rewrite <- insert_same.
  - intros hp t nd [lv mx] _ _ Ht. eexists mx, _. split.
    + rewrite (upd_Some _ _ nd) by done. done.
    + apply keeps_set_iattr. in_slots.
Qed.

Lemma computeVolume_total :
  ∃ hp', converges (λ fuel, assign volume computeVolume fuel root hp0) hp' ∧
         frame (keeps [volume] [] false) hp0 hp'.
Proof.
  pose proof Hwf as [Hok _].
  apply (assign_traverse (L := unit) volume _ _ _ D); [done|in_slots|..].
  - intros hp t nd Hfr Hr Ht.
    destruct (frame_father D hp0 root _ _ _ hp t nd Hwf Hfr Hr Ht) as (f & fn & Hf & Hfn & _).
    rewrite Ht. simpl. rewrite Hf. simpl. destruct (decide (f = t)) as [->|Hne]; simpl.
    + rewrite (upd_Some _ _ nd) by done. simpl. eexists tt, _. split; [done|].
      apply keeps_set_iattr. in_slots.
    + rewrite Hfn. simpl. rewrite (upd_Some _ _ nd) by done. simpl.
      eexists tt, _. split; [done|]. apply keeps_set_iattr. in_slots.
  - intros hp t nd c r [] _ _ Ht _. eexists tt, _. split.
    + simpl. unfold upd_iattr. rewrite (upd_Some _ _ nd) by done. done.
    + apply keeps_set_iattr. in_slots.
  - intros hp t nd [] _ _ Ht. exists (iattr nd volume), nd. split; [|apply keeps_refl].
    simpl. rewrite Ht. simpl. by rewrite <- insert_same.
Qed.

Lemma after_children_keeps (epi : nat → nat → list Node → option (list Node)) K KN
    (Q : Node → Prop) :
  (∀ hp t nd, frame (keeps [] KN false) hp0 hp → reach hp0 root t → hp !! t = Some nd →
     ∃ nd', (∀ F, (K ≤ F)%nat → epi F t hp = Some (<[t := nd']> hp)) ∧
            keeps [] KN false nd nd' ∧ Q nd') →
  ∃ hp', converges (λ fuel, void (after_children (epi fuel) fuel hp0 root)) hp' ∧
         frame (keeps [] KN false) hp0 hp' ∧
         ∀ m, reach hp0 root m → ∃ nd', hp' !! m = Some nd' ∧ Q nd'.
Proof.
  intros Hepi. destruct Hwf as [Hok _].
  destruct (after_children_spec epi K hp0 root D (keeps [] KN false) (λ _, Q) Hok
              (keeps_refl _ _ _) (keeps_trans _ _ _) (keeps_links _ _ _) Hepi)
    as (hp' & Hrun & Hfr & HQ & _).
  exists hp'. split_and!; [|done|done].
  exists (K `max` D)%nat. intros fuel Hf. unfold void. by rewrite Hrun by lia.
Qed.

Lemma computeMean_total :
  ∃ hp', converges (λ fuel, void (computeMean fuel hp0 root)) hp' ∧
         frame (keeps [] [mean] false) hp0 hp' ∧
         ∀ m, reach hp0 root m → ∃ nd, hp' !! m = Some nd ∧
           nattr nd mean = LdDiv (LdInt (iattr nd sum)) (LdInt (iattr nd area)).
Proof.
  apply (after_children_keeps (λ _, _) 0). intros hp t nd _ _ Ht. eexists. split_and!.
  - intros F _. by apply upd_Some.
  - apply keeps_set_nattr. in_slots.
  - simpl. by rewrite fn_lookup_insert.
Qed.

Lemma computeVariance_total :
  ∃ hp', converges (λ fuel, void (computeVariance fuel hp0 root)) hp' ∧
         frame (keeps [] [variance] false) hp0 hp' ∧
         ∀ m, reach hp0 root m → ∃ nd, hp' !! m = Some nd ∧
           nattr nd variance =
             LdSub (LdDiv (LdInt (iattr nd sum_square)) (LdInt (iattr nd area)))
                   (LdMul (nattr nd mean) (nattr nd mean)).
Proof.
  apply (after_children_keeps (λ _, _) 0). intros hp t nd _ _ Ht. eexists. split_and!.
  - intros F _. by apply upd_Some.
  - apply keeps_set_nattr. in_slots.
  - simpl. rewrite fn_lookup_insert. by rewrite !fn_lookup_insert_ne by done.
Qed.

Lemma computeOtsu_total :
  ∃ hp', converges (λ fuel, void (computeOtsu fuel hp0 root)) hp' ∧
         frame (keeps [] [otsu] false) hp0 hp' ∧
         ∀ m, reach hp0 root m → ∃ nd, hp' !! m = Some nd ∧ nattr nd otsu = otsu_of nd.
Proof.
  apply (after_children_keeps (λ _, _) 0). intros hp t nd _ _ Ht. eexists. split_and!.
  - intros F _. by apply upd_Some.
  - apply keeps_set_nattr. in_slots.
  - simpl. rewrite fn_lookup_insert. unfold otsu_of. simpl.
    by rewrite !fn_lookup_insert_ne by done.
Qed.

Lemma computeAreaDerivative_total :
  ∃ hp', converges (λ fuel, void (computeAreaDerivative fuel hp0 root)) hp' ∧
         frame (keeps [] [area_derivative_areaN; area_derivative_h;
                          area_derivative_areaN_h] false) hp0 hp'.
Proof.
  assert (∃ hp', converges (λ fuel, void (computeAreaDerivative fuel hp0 root)) hp' ∧
            frame (keeps [] [area_derivative_areaN; area_derivative_h;
                             area_derivative_areaN_h] false) hp0 hp' ∧
            ∀ m, reach hp0 root m → ∃ nd, hp' !! m = Some nd ∧ True)
    as (hp' & ? & ? & _); [|eauto].
  apply (after_children_keeps (λ _, _) 0). intros hp t nd Hfr Hr Ht.
  destruct (frame_father D hp0 root _ _ _ hp t nd Hwf Hfr Hr Ht) as (f & fn & Hf & Hfn & _).
  eexists. split_and!; [|..|done].
  - intros F _. rewrite Ht. simpl. rewrite Hf. simpl. rewrite Hfn. simpl.
    by apply upd_Some.
  - eapply keeps_trans; [|apply keeps_set_nattr; in_slots].
    eapply keeps_trans; [|apply keeps_set_nattr; in_slots].
    apply keeps_set_nattr; in_slots.
Qed.

Lemma computeAreaDerivative2_total :
  ∃ hp', converges (λ fuel, void (computeAreaDerivative2 fuel hp0 root)) hp' ∧
         frame (keeps [] [area_derivative_areaN_h_derivative] false) hp0 hp'.
Proof.
  assert (∃ hp', converges (λ fuel, void (computeAreaDerivative2 fuel hp0 root)) hp' ∧
            frame (keeps [] [area_derivative_areaN_h_derivative] false) hp0 hp' ∧
            ∀ m, reach hp0 root m → ∃ nd, hp' !! m = Some nd ∧ True)
    as (hp' & ? & ? & _); [|eauto].
  apply (after_children_keeps (λ _, _) 0). intros hp t nd Hfr Hr Ht.
  destruct (frame_father D hp0 root _ _ _ hp t nd Hwf Hfr Hr Ht) as (f & fn & Hf & Hfn & _).
  eexists. split_and!; [|..|done].
  - intros F _. rewrite Ht. simpl. rewrite Hf. simpl. rewrite Hfn. simpl.
    by apply upd_Some.
  - apply keeps_set_nattr; in_slots.
Qed.

Lemma computeMSER_total delta :
  ∃ hp', converges (λ fuel, void (computeMSER fuel hp0 root delta)) hp' ∧
         frame (keeps [] mser_slots false) hp0 hp'.
Proof.
  destruct Hwf as [Hok Hroot].
  destruct (after_children_keeps (λ F, computeMSER_node F delta) D mser_slots (λ _, True))
    as (hp' & ? & ? & _); [|eauto].
  intros hp t nd Hfr Hr Ht.
  destruct (computeMSER_node_spec D hp0 root delta hp t nd Hok Hroot Hfr Hr Ht)
    as (nd' & Hrun & Hk & _).
  exists nd'. done.
Qed.

(** The loops that rewrite each node they take from the queue and push
    its children. *)
Lemma queue_frame (visit : nat → list Node → nat → option (list Node * list nat)) K
    (P : Node → Node → Prop) :
  (∀ nd, P nd nd) → (∀ a b c, P a b → P b c → P a c) →
  (∀ nd nd', P nd nd' → links nd = links nd') →
  (∀ hp n nd, frame P hp0 hp → reach hp0 root n → hp !! n = Some nd →
     ∃ nd', (∀ F, (K ≤ F)%nat → visit F hp n = Some (<[n := nd']> hp, childs nd)) ∧
            P nd nd') →
  ∃ hp', (∀ F fuel, (K ≤ F)%nat → (weight D hp0 root < fuel)%nat →
            queue_loop (visit F) fuel hp0 [root] = Some hp') ∧
         frame P hp0 hp'.
Proof.
  intros Pr Pt Pl Hv. destruct Hwf as [Hok _].
  destruct (queue_loop_total_fuel visit K (weight D hp0)
              (λ hp q, frame P hp0 hp ∧ ∀ n, n ∈ q → reach hp0 root n)) with
    (s := hp0) (q := [root]) as (hp' & Hrun & Hfr & _).
  - intros hp n q [Hfr Hq].
    assert (reach hp0 root n) as Hr by (apply Hq; by left).
    destruct (weight_reach _ _ _ _ Hok Hr) as (nd0 & Hn0 & Hw & _).
    destruct (proj2 Hfr n nd0 Hn0) as (nd & Hn & HP).
    destruct (Hv hp n nd Hfr Hr Hn) as (nd' & Hrun & HP').
    assert (childs nd = childs nd0) as Hcs.
    { pose proof (Pl _ _ HP) as E. by injection E. }
    exists (<[n := nd']> hp), (childs nd). split_and!; [done| | |].
    + eapply frame_trans; [done|exact Hfr|]. by eapply frame_insert.
    + intros m [Hm|Hm]%elem_of_app; [apply Hq; by right|].
      rewrite Hcs in Hm. by eapply reach_child.
    + rewrite Hcs, Hw. lia.
  - split; [by apply frame_refl|]. intros n ->%list_elem_of_singleton. constructor.
  - exists hp'. split; [|done]. intros F fuel HF Hf. apply Hrun; [done|].
    simpl. lia.
Qed.

Lemma computeComplexityAndCompacity_total :
  ∃ hp', converges (λ fuel, computeComplexityAndCompacity fuel hp0 root) hp' ∧
         frame (keeps [] [complexity; compacity] false) hp0 hp'.
Proof.
  destruct (queue_frame (λ _, computeComplexityAndCompacity_visit) 0
              (keeps [] [complexity; compacity] false)
              (keeps_refl _ _ _) (keeps_trans _ _ _) (keeps_links _ _ _))
    as (hp' & Hrun & Hfr).
  - intros hp n nd _ _ Hn. eexists. split.
    + intros F _. unfold computeComplexityAndCompacity_visit. rewrite Hn. done.
    + destruct (decide (iattr nd area = 0)), (decide (iattr nd contourLength = 0)).
      * apply keeps_set_nattr; in_slots.
      * apply keeps_set_nattr; in_slots.
      * eapply keeps_trans; [|apply keeps_set_nattr; in_slots].
        apply keeps_set_nattr; in_slots.
      * eapply keeps_trans; [|apply keeps_set_nattr; in_slots].
        apply keeps_set_nattr; in_slots.
  - exists hp'. split; [|done]. exists (S (weight D hp0 root)). intros fuel Hf.
    apply (Hrun 0%nat); lia.
Qed.

Lemma computeBoundingBox_total :
  ∃ hp', converges (λ fuel, computeBoundingBox fuel hp0 root) hp' ∧
         frame (keeps [xmin; xmax; ymin; ymax; zmin; zmax] [] false) hp0 hp'.
Proof.
  pose proof Hwf as [Hok _].
  destruct (queue_loop_total (λ (stack : list nat) tmp,
              nd ← hp0 !! tmp; Some (tmp :: stack, childs nd)) (weight D hp0)
              (λ stack q, ∀ n, n ∈ stack ++ q → reach hp0 root n)) with
    (s := @nil nat) (q := [root]) as (stack & Hrun & Hstack).
  - intros stack n q Hq.
    assert (reach hp0 root n) as Hr by (apply Hq, elem_of_app; right; by left).
    destruct (weight_reach _ _ _ _ Hok Hr) as (nd0 & Hn0 & Hw & _).
    exists (n :: stack), (childs nd0). split_and!.
    + by rewrite Hn0.
    + intros m [[->|Hm]%elem_of_cons|[Hm|Hm]%elem_of_app]%elem_of_app; [done| | |].
      * apply Hq, elem_of_app. by left.
      * apply Hq, elem_of_app. right. by right.
      * by eapply reach_child.
    + rewrite Hw. lia.
  - intros n ->%list_elem_of_singleton. constructor.
  - assert (∀ st hp, (∀ n, n ∈ st → reach hp0 root n) →
              frame (keeps [xmin; xmax; ymin; ymax; zmin; zmax] [] false) hp0 hp →
              ∃ hp', for_each computeBoundingBox_pop hp st = Some hp' ∧
                     frame (keeps [xmin; xmax; ymin; ymax; zmin; zmax] [] false) hp0 hp')
      as Hpop.
    { induction st as [|tmp st IH]; intros hp Hst Hfr; [by exists hp|].
      assert (reach hp0 root tmp) as Hr by (apply Hst; by left).
      destruct (weight_reach _ _ _ _ Hok Hr) as (nd0 & Hn0 & _).
      destruct (frame_keeps_lookup _ _ _ _ _ _ _ Hfr Hn0) as (nd & Hn & _).
      destruct (frame_father D hp0 root _ _ _ hp tmp nd Hwf Hfr Hr Hn)
        as (f & fn & Hf & Hfn & _).
      assert (∃ hp1, computeBoundingBox_pop hp tmp = Some hp1 ∧
                frame (keeps [xmin; xmax; ymin; ymax; zmin; zmax] [] false) hp0 hp1)
        as (hp1 & E1 & Hfr1).
      { unfold computeBoundingBox_pop. rewrite Hn. simpl. rewrite Hf. simpl.
        destruct (decide (f = tmp)) as [->|Hne]; [by exists hp|].
        rewrite (upd_Some _ _ fn) by done. eexists. split; [done|].
        eapply frame_trans; [apply keeps_trans|exact Hfr|].
        apply (frame_insert _ _ _ fn); [apply keeps_refl|done|].
        repeat (eapply keeps_trans; [|apply keeps_set_iattr; in_slots]).
        apply keeps_refl. }
      destruct (IH hp1) as (hp' & E & Hfr'); [|done|].
      { intros n Hin. apply Hst. by right. }
      exists hp'. split; [|done]. simpl. rewrite E1. done. }
    destruct (Hpop stack hp0) as (hp' & Hfor & Hfr).
    + intros n Hn. apply Hstack. rewrite app_nil_r. done.
    + apply frame_refl, keeps_refl.
    + exists hp'. split; [|done]. exists (S (weight D hp0 root)). intros fuel Hf.
      unfold computeBoundingBox. rewrite Hrun by (simpl; lia). done.
Qed.

Lemma computeBorderGradient_total gradient :
  (∀ n nd p, hp0 !! n = Some nd → p ∈ pixels_border nd → is_Some (zget (data gradient) p)) →
  ∃ hp', converges (λ fuel, void (computeBorderGradient gradient fuel hp0 root)) hp' ∧
         frame (keeps [] [mean_gradient_border] false) hp0 hp'.
Proof.
  intros Hpb.
  assert (∃ hp', converges (λ fuel, void (computeBorderGradient gradient fuel hp0 root)) hp' ∧
            frame (keeps [] [mean_gradient_border] false) hp0 hp' ∧
            ∀ m, reach hp0 root m → ∃ nd, hp' !! m = Some nd ∧ True)
    as (hp' & ? & ? & _); [|eauto].
  apply (after_children_keeps (λ _, _) 0). intros hp t nd Hfr Hr Ht.
  assert (∀ l acc, (∀ p, p ∈ l → is_Some (zget (data gradient) p)) →
            ∃ total, for_each (λ acc p, g ← zget (data gradient) p;
                                        Some (LdAdd acc (LdInt g))) acc l = Some total)
    as Hsum.
  { induction l as [|p l IH]; intros acc Hl; [by exists acc|].
    destruct (Hl p) as [g Hg]; [by left|]. simpl. rewrite Hg. simpl. apply IH.
    intros q Hq. apply Hl. by right. }
  destruct (Hsum (pixels_border nd) (LdInt 0)) as [total Htotal].
  { intros p Hp. destruct Hwf as [Hok _].
    destruct (weight_reach _ _ _ _ Hok Hr) as (nd0 & Hn0 & _).
    destruct (frame_keeps_lookup _ _ _ _ _ _ _ Hfr Hn0) as (nd' & Hn' & Hk).
    assert (nd' = nd) as -> by congruence.
    destruct Hk as (_ & _ & _ & _ & _ & _ & _ & _ & Hb & _).
    apply (Hpb t nd0); [done|]. by rewrite <- Hb. }
  eexists. split_and!; [|..|done].
  - intros F _. rewrite Ht. simpl. rewrite Htotal. simpl. by apply upd_Some.
  - apply keeps_set_nattr; in_slots.
Qed.

End Passes.

(** ** The contour scan *)

Lemma keeps_same_tree KI KN pb nd nd' : keeps KI KN pb nd nd' → same_tree nd nd'.
Proof. intros (_ & _ & ? & ? & ? & _). done. Qed.

Lemma up_ok_frame lo hi root hp hp' KI KN pb :
  up_ok lo hi root hp → frame (keeps KI KN pb) hp hp' → up_ok lo hi root hp'.
Proof.
  intros [(rn & Hrn & Hrf & Hrh) Hup] Hfr. split.
  - destruct (frame_keeps_lookup _ _ _ _ _ _ _ Hfr Hrn) as (rn' & Hrn' & Hk).
    destruct (keeps_same_tree _ _ _ _ _ Hk) as (E1 & _ & E3).
    exists rn'. split_and!; congruence.
  - intros n nd' Hn'.
    assert (∃ nd, hp !! n = Some nd) as [nd Hn].
    { apply lookup_lt_is_Some. rewrite (proj1 Hfr). by eapply lookup_lt_Some. }
    destruct (frame_keeps_lookup _ _ _ _ _ _ _ Hfr Hn) as (nd'' & Hn'' & Hk).
    assert (nd'' = nd') as -> by congruence.
    destruct (keeps_same_tree _ _ _ _ _ Hk) as (E1 & _ & E3).
    destruct (Hup n nd Hn) as [Hr [->|(f & fn & Hf & Hne & Hfn & Hlt)]].
    + split; [lia|by left].
    + split; [lia|right].
      destruct (frame_keeps_lookup _ _ _ _ _ _ _ Hfr Hfn) as (fn' & Hfn' & Hk').
      destruct (keeps_same_tree _ _ _ _ _ Hk') as (_ & _ & E3').
      exists f, fn'. split_and!; [congruence|done|done|lia].
Qed.

Lemma keeps_set_pixels_border KI KN l nd :
  keeps KI KN true nd (set_pixels_border l nd).
Proof. unfold keeps. simpl. split_and!; done. Qed.

Lemma contour_mark_spec c save offset tmp hp nd :
  hp !! tmp = Some nd →
  ∃ nd', contour_mark c save offset tmp hp = Some (<[tmp := nd']> hp) ∧
         keeps [contourLength] [] save nd nd' ∧
         iattr nd' contourLength = iattr nd contourLength + 1 ∧
         ∀ p, p ∈ pixels_border nd' →
              p ∈ pixels_border nd ∨ p = (imOffset_of c offset).1.
Proof.
  intros Hn. unfold contour_mark. rewrite (upd_Some _ _ nd) by done.
  eexists. split; [done|]. destruct save.
  - split_and!.
    + eapply keeps_trans; [|apply keeps_set_pixels_border].
      apply keeps_set_iattr. in_slots.
    + simpl. by rewrite fn_lookup_insert.
    + simpl. intros p [?|?%list_elem_of_singleton]%elem_of_app; [by left|by right].
  - split_and!.
    + apply keeps_set_iattr. in_slots.
    + simpl. by rewrite fn_lookup_insert.
    + simpl. by left.
Qed.

Section Walks.

Variable c : Strategy.
Variable save : bool.
Variable offset : Z.
Variables lo hi : Z.
Variable root : nat.

Local Abbreviation walked := (walked c save offset).

Lemma walked_refl hp : walked hp hp.
Proof.
  split; [apply frame_refl, keeps_refl|]. intros n nd nd' p Hn Hn' Hp.
  left. congruence.
Qed.

Lemma walked_trans hp1 hp2 hp3 : walked hp1 hp2 → walked hp2 hp3 → walked hp1 hp3.
Proof.
  intros [F1 B1] [F2 B2]. split; [eapply frame_trans; [apply keeps_trans|done..]|].
  intros n nd nd' p Hn Hn' Hp.
  destruct (frame_keeps_lookup _ _ _ _ _ _ _ F1 Hn) as (nd2 & Hn2 & _).
  destruct (B2 n nd2 nd' p Hn2 Hn' Hp) as [Hp2|?]; [|by right].
  by apply (B1 n nd nd2 p).
Qed.

Lemma walked_mark tmp hp nd :
  hp !! tmp = Some nd →
  ∃ nd', contour_mark c save offset tmp hp = Some (<[tmp := nd']> hp) ∧
         walked hp (<[tmp := nd']> hp) ∧ same_tree nd nd' ∧
         iattr nd' contourLength = iattr nd contourLength + 1.
Proof.
  intros Hn. destruct (contour_mark_spec c save offset tmp hp nd Hn) as (nd' & E & Hk & Hcl & Hpb).
  exists nd'. split_and!; [done| |by eapply keeps_same_tree|done]. split.
  - by apply (frame_insert _ _ _ nd); [apply keeps_refl|..].
  - intros n x x' p Hx Hx' Hp. destruct (decide (n = tmp)) as [->|Hne].
    + rewrite list_lookup_insert_eq in Hx' by (by eapply lookup_lt_Some).
      injection Hx' as <-. rewrite Hn in Hx. injection Hx as <-. by apply Hpb.
    + rewrite list_lookup_insert_ne in Hx' by done. left. congruence.
Qed.

(** The walk of a pixel on the frame marks every node up to the root. *)
Lemma contour_walk_root_spec (k : nat) hp tmp nd :
  up_ok lo hi root hp → hp !! tmp = Some nd → h nd - lo < Z.of_nat k →
  ∃ hp', (∀ fuel, (k ≤ fuel)%nat →
            contour_walk_root c save offset fuel tmp hp = Some hp') ∧
         walked hp hp' ∧
         ∃ rn rn', hp !! root = Some rn ∧ hp' !! root = Some rn' ∧
                   iattr rn' contourLength = iattr rn contourLength + 1.
Proof.
  revert hp tmp nd. induction k as [|k IH]; intros hp tmp nd Hup Hn Hk.
  { destruct (proj2 Hup tmp nd Hn) as [? _]. lia. }
  destruct (walked_mark tmp hp nd Hn) as (nd' & Hmark & Hw & (Ef & _ & Eh) & Hcl).
  assert (<[tmp := nd']> hp !! tmp = Some nd') as Hn'
    by (apply list_lookup_insert_eq; by eapply lookup_lt_Some).
  pose proof (up_ok_frame _ _ _ _ _ _ _ _ Hup (proj1 Hw)) as Hup'.
  destruct (proj2 Hup tmp nd Hn) as [Hr [->|(f & fn & Hf & Hne & Hfn & Hlt)]].
  - destruct (proj1 Hup) as (rn & Hrn & Hrf & _).
    assert (rn = nd) as -> by congruence.
    exists (<[root := nd']> hp). split_and!; [|done|].
    + intros [|fuel] Hfuel; [lia|]. simpl. rewrite Hmark. simpl. rewrite Hn'. simpl.
      rewrite decide_True by congruence. done.
    + exists nd, nd'. done.
  - destruct (IH (<[tmp := nd']> hp) f fn Hup') as (hp' & Hrun & Hw' & rn & rn' & Hrn & Hrn' & Hcl').
    { by rewrite list_lookup_insert_ne. } { lia. }
    assert (tmp ≠ root) as Hnr.
    { intros ->. destruct (proj1 Hup) as (rn0 & Hrn0 & Hrf & _).
      rewrite Hn in Hrn0. injection Hrn0 as <-. congruence. }
    exists hp'. split_and!.
    + intros [|fuel] Hfuel; [lia|]. simpl. rewrite Hmark. simpl. rewrite Hn'. simpl.
      rewrite decide_False by congruence. rewrite Ef, Hf. simpl. apply Hrun. lia.
    + by eapply walked_trans.
    + exists rn, rn'. split_and!; [|done..]. by rewrite list_lookup_insert_ne in Hrn.
Qed.

(** The walk of another contour pixel stops above the level [minValue]
    and does not mark the root. *)
Lemma contour_walk_spec (k : nat) minValue hp tmp nd :
  up_ok lo hi root hp → lo ≤ minValue → hp !! tmp = Some nd → h nd - lo < Z.of_nat k →
  ∃ hp', (∀ fuel, (k ≤ fuel)%nat →
            contour_walk c save offset minValue fuel tmp hp = Some hp') ∧
         walked hp hp' ∧ hp' !! root = hp !! root.
Proof.
  intros Hup Hmin. revert hp tmp nd Hup.
  induction k as [|k IH]; intros hp tmp nd Hup Hn Hk.
  { destruct (proj2 Hup tmp nd Hn) as [? _]. lia. }
  destruct (decide (h nd > minValue)) as [Hgt|Hle].
  - destruct (walked_mark tmp hp nd Hn) as (nd' & Hmark & Hw & (Ef & _ & Eh) & Hcl).
    pose proof (up_ok_frame _ _ _ _ _ _ _ _ Hup (proj1 Hw)) as Hup'.
    destruct (proj1 Hup) as (rn & Hrn & _ & Hrh).
    assert (tmp ≠ root) as Hnr.
    { intros ->. rewrite Hn in Hrn. injection Hrn as <-. lia. }
    destruct (proj2 Hup tmp nd Hn) as [Hr [->|(f & fn & Hf & Hne & Hfn & Hlt)]]; [done|].
    destruct (IH (<[tmp := nd']> hp) f fn Hup') as (hp' & Hrun & Hw' & Hroot).
    { by rewrite list_lookup_insert_ne. } { lia. }
    exists hp'. split_and!.
    + intros [|fuel] Hfuel; [lia|]. simpl. rewrite Hn. simpl.
      rewrite (proj2 (Z.gtb_lt _ _)) by lia. rewrite Hmark. simpl. rewrite Hf. simpl.
      apply Hrun. lia.
    + by eapply walked_trans.
    + rewrite Hroot. by rewrite list_lookup_insert_ne.
  - exists hp. split_and!; [|apply walked_refl|done].
    intros [|fuel] Hfuel; [lia|]. simpl. rewrite Hn. simpl.
    destruct (h nd >? minValue) eqn:E; [|done]. apply Z.gtb_lt in E. lia.
Qed.

End Walks.

Section Contour.

Variable c : Strategy.
Variable st0 : list Z.
Variable cap : Z → nat.
Variable T : PixelType.
Variable sF : Flood.
Variable root : nat.
Variable p0 : Z.
Variable N : Z.
Hypothesis Hctx : ctx_ok c st0 cap.
Hypothesis Hfinal : final c st0 cap sF root p0.
Hypothesis Hall : ∀ q, interior st0 q → labelled sF q.
Hypothesis HT : hMin c ≤ tmax T.
Hypothesis Hoff : ∀ q, interior st0 q → 0 ≤ (imOffset_of c q).1 < N.

Local Abbreviation stF := (STATUS sF).
Local Abbreviation scanning := (scanning c sF root).

Lemma final_status o :
  0 ≤ o < Z.of_nat (length st0) →
  (zget st0 o = Some BORDER_STATUS ∧ zget stF o = Some BORDER_STATUS) ∨
  (interior st0 o ∧ ∃ k v n nd,
     zget stF o = Some k ∧ 0 ≤ k ∧ val c o = Some v ∧ hMin c ≤ v ∧
     index_at sF (hToIndex c v) k = Some n ∧ heap sF !! n = Some nd).
Proof.
  intros Ho. destruct Hfinal as (Hinv & _).
  destruct (zget_is_Some st0 o Ho) as [w Hw].
  destruct (ctx_vals Hctx o w Hw) as [-> | ->].
  - right. split; [done|]. destruct (Hall o Hw) as (k & Hk & Hpos).
    destruct (ctx_range Hctx o Hw) as (v & Hv & Hr & _).
    pose proof (at_level_intro c st0 o v Hw Hv) as Hl.
    destruct (inv_label Hinv o _ k Hl Hk Hpos) as (_ & n & nd & _ & _ & Hi & Hn & _).
    exists k, v, n, nd. done.
  - left. split; [done|]. by apply (inv_border Hinv).
Qed.

Lemma final_border o :
  zget stF o = Some BORDER_STATUS ↔ zget st0 o = Some BORDER_STATUS.
Proof.
  destruct Hfinal as (Hinv & _). split; [|apply (inv_border Hinv)].
  intros Ho. pose proof (zget_range _ _ _ Ho) as Hr. rewrite (inv_len_status Hinv) in Hr.
  destruct (final_status o Hr) as [[? _]|(_ & k & _ & _ & _ & Hk & Hpos & _)]; [done|].
  rewrite Ho in Hk. injection Hk as <-. unfold BORDER_STATUS in Hpos. lia.
Qed.

(** The scan of the neighbors of a pixel of the image. *)
Lemma contour_neighbors_spec o v :
  interior st0 o →
  ∃ ct hb mv, contour_neighbors c T stF o v = Some (ct, hb, mv) ∧ hMin c ≤ mv ∧
    hb = existsb (λ d, bool_decide (zget stF (o + d) = Some BORDER_STATUS)) (se c) ∧
    (hb = true → ct = true).
Proof.
  intros Ho. unfold contour_neighbors.
  match goal with |- context [for_each ?f _ _] => set (body := f) end.
  assert (∀ l ct0 hb0 mv0, (∀ d, d ∈ l → d ∈ se c) → hMin c ≤ mv0 →
            (hb0 = true → ct0 = true) →
            ∃ ct hb mv,
              for_each body (ct0, hb0, mv0) l = Some (ct, hb, mv) ∧ hMin c ≤ mv ∧
              hb = hb0 || existsb (λ d, bool_decide (zget stF (o + d) = Some BORDER_STATUS)) l ∧
              (hb = true → ct = true)) as Hloop.
  { induction l as [|d l IH]; intros ct0 hb0 mv0 Hl Hmv Hhb.
    - exists ct0, hb0, mv0. split_and!; [done|done|by rewrite orb_false_r|done].
    - destruct Hfinal as (Hinv & _).
      destruct (ctx_nbr Hctx o d Ho) as [w Hw]; [apply Hl; by left|].
      pose proof (zget_range _ _ _ Hw) as Hr.
      assert (∀ ct1 hb1 mv1, hMin c ≤ mv1 → (hb1 = true → ct1 = true) →
                hb1 = hb0 || bool_decide (zget stF (o + d) = Some BORDER_STATUS) →
                body (ct0, hb0, mv0) d = Some (ct1, hb1, mv1) →
                ∃ ct hb mv,
                  for_each body (ct0, hb0, mv0) (d :: l) = Some (ct, hb, mv) ∧
                  hMin c ≤ mv ∧
                  hb = hb0 || existsb (λ d, bool_decide (zget stF (o + d) = Some BORDER_STATUS))
                                      (d :: l) ∧
                  (hb = true → ct = true)) as Hnext.
      { intros ct1 hb1 mv1 Hmv1 Hhb1 E1 Ebody.
        destruct (IH ct1 hb1 mv1) as (ct & hb & mv & E & Hmv' & Ehb & Hct); [|done..|].
        { intros d' Hd'. apply Hl. by right. }
        exists ct, hb, mv. split_and!; [|done| |done].
        - cbn [for_each]. rewrite Ebody. exact E.
        - rewrite Ehb, E1. simpl. by rewrite orb_assoc. }
      destruct (final_status (o + d) Hr)
        as [[_ Hb]|(Hq & k & vq & _ & _ & Hk & Hpos & Hvq & Hlo & _)].
      + apply (Hnext true true (hMin c)); [done|done| |].
        * rewrite bool_decide_eq_true_2 by done. by rewrite orb_true_r.
        * unfold body. by rewrite Hb.
      + assert (bool_decide (zget stF (o + d) = Some BORDER_STATUS) = false) as Eb.
        { apply bool_decide_eq_false. rewrite Hk. intros [= E]. unfold BORDER_STATUS in E. lia. }
        unfold val in Hvq.
        assert (body (ct0, hb0, mv0) d =
                if v >? vq then Some (true, hb0, if vq <? mv0 then vq else mv0)
                else Some (ct0, hb0, mv0)) as Ebody.
        { unfold body. rewrite Hk. simpl.
          rewrite decide_True by (unfold BORDER_STATUS; lia). by rewrite Hvq. }
        destruct (v >? vq).
        * eapply Hnext; [| | |exact Ebody]; [destruct (vq <? mv0); lia|done|].
          by rewrite Eb, orb_false_r.
        * eapply Hnext; [| | |exact Ebody]; [done|done|]. by rewrite Eb, orb_false_r. }
  destruct (Hloop (se c) false false (tmax T)) as (ct & hb & mv & E & ? & ? & ?); try done.
  exists ct, hb, mv. done.
Qed.

Lemma set_heap_id s : set_heap (heap s) s = s.
Proof. by destruct s. Qed.

Lemma contoured_refl save hp : contoured save N hp hp.
Proof.
  split; [apply frame_refl, keeps_refl|]. intros n nd nd' p Hn Hn' Hp.
  left. congruence.
Qed.

Lemma contoured_trans save hp1 hp2 hp3 :
  contoured save N hp1 hp2 → contoured save N hp2 hp3 → contoured save N hp1 hp3.
Proof.
  intros [F1 B1] [F2 B2]. split; [eapply frame_trans; [apply keeps_trans|done..]|].
  intros n nd nd' p Hn Hn' Hp.
  destruct (frame_keeps_lookup _ _ _ _ _ _ _ F1 Hn) as (nd2 & Hn2 & _).
  destruct (B2 n nd2 nd' p Hn2 Hn' Hp) as [Hp2|?]; [|by right].
  by apply (B1 n nd nd2 p).
Qed.

Lemma walked_contoured save o hp hp' :
  interior st0 o → walked c save o hp hp' → contoured save N hp hp'.
Proof.
  intros Ho [F B]. split; [done|]. intros n nd nd' p Hn Hn' Hp.
  destruct (B n nd nd' p Hn Hn' Hp) as [?| ->]; [by left|right]. by apply Hoff.
Qed.

Lemma computeContour_pixel_spec save s o :
  scanning s → 0 ≤ o < Z.of_nat (length st0) →
  ∃ hp',
    (∀ fuel, (Z.to_nat (numberOfLevels c) ≤ fuel)%nat →
       computeContour_pixel c T fuel save s o = Some (set_heap hp' s)) ∧
    contoured save N (heap s) hp' ∧
    ∃ rn rn', heap s !! root = Some rn ∧ hp' !! root = Some rn' ∧
      iattr rn' contourLength =
      iattr rn contourLength + (if frame_pixel c stF o then 1 else 0).
Proof.
  intros (Hst & Hidx & Hup & Hlen) Ho.
  destruct (proj1 Hup) as (rn & Hrn & _).
  assert (is_Some (zget (data (imBorder c)) o)) as [v Hv].
  { apply zget_is_Some. by rewrite (ctx_len Hctx). }
  unfold computeContour_pixel, frame_pixel. rewrite Hv, Hst. cbn [mbind option_bind].
  destruct (final_status o Ho)
    as [[_ Hb]|(Hq & k & v' & n & nd & Hk & Hpos & Hv' & Hlo & Hi & Hn)].
  - rewrite Hb. cbn [mbind option_bind].
    exists (heap s). split_and!; [|apply contoured_refl|].
    + intros fuel _. by rewrite set_heap_id.
    + exists rn, rn. split_and!; [done..|].
      rewrite bool_decide_eq_false_2 by (by intros ?). simpl. lia.
  - unfold val in Hv'. rewrite Hv in Hv'. injection Hv' as <-.
    rewrite Hk. cbn [mbind option_bind].
    rewrite decide_True by (unfold BORDER_STATUS; lia).
    rewrite bool_decide_eq_true_2 by (intros [= E]; unfold BORDER_STATUS in E; lia).
    destruct (contour_neighbors_spec o v Hq) as (ct & hb & mv & E & Hmv & Ehb & Hct).
    rewrite E. cbn [mbind option_bind andb]. rewrite <- Ehb.
    destruct ct.
    + apply index_at_Some in Hi as (row & Hrow & Hcell). rewrite Hidx, Hrow.
      cbn [mbind option_bind]. rewrite Hcell. cbn [mbind option_bind].
      assert (∃ nd', heap s !! n = Some nd') as [nd' Hn'].
      { apply lookup_lt_is_Some. rewrite Hlen. by eapply lookup_lt_Some. }
      assert (h nd' - hMin c < Z.of_nat (Z.to_nat (numberOfLevels c))) as Hh.
      { destruct (proj2 Hup n nd' Hn') as [? _]. unfold numberOfLevels. lia. }
      destruct hb.
      * destruct (contour_walk_root_spec c save o (hMin c) (hMax c) root _ (heap s) n nd'
                    Hup Hn' Hh) as (hp' & Hrun & Hw & rn1 & rn' & Hrn1 & Hrn' & Hcl).
        exists hp'. split_and!.
        -- intros fuel Hf. by rewrite Hrun.
        -- by eapply walked_contoured.
        -- exists rn1, rn'. done.
      * destruct (contour_walk_spec c save o (hMin c) (hMax c) root _ mv (heap s) n nd'
                    Hup Hmv Hn' Hh) as (hp' & Hrun & Hw & Hroot).
        exists hp'. split_and!.
        -- intros fuel Hf. by rewrite Hrun.
        -- by eapply walked_contoured.
        -- exists rn, rn. split_and!; [done|congruence|lia].
    + assert (hb = false) as -> by (destruct hb; [by specialize (Hct eq_refl)|done]).
      exists (heap s). split_and!; [|apply contoured_refl|].
      * intros fuel _. by rewrite set_heap_id.
      * exists rn, rn. split_and!; [done..|lia].
Qed.

Lemma scanning_step save s hp' :
  scanning s → contoured save N (heap s) hp' → scanning (set_heap hp' s).
Proof.
  intros (Hst & Hidx & Hup & Hlen) [Hfr _]. split_and!; [done|done|..].
  - by eapply up_ok_frame.
  - simpl. by rewrite <- (proj1 Hfr).
Qed.

Lemma computeContour_loop save l s :
  scanning s → (∀ o, o ∈ l → 0 ≤ o < Z.of_nat (length st0)) →
  ∃ hp',
    (∀ fuel, (Z.to_nat (numberOfLevels c) ≤ fuel)%nat →
       for_each (computeContour_pixel c T fuel save) s l = Some (set_heap hp' s)) ∧
    contoured save N (heap s) hp' ∧
    ∃ rn rn', heap s !! root = Some rn ∧ hp' !! root = Some rn' ∧
      iattr rn' contourLength =
      iattr rn contourLength +
      Z.of_nat (length (filter (λ o, frame_pixel c stF o = true) l)).
Proof.
  revert s. induction l as [|o l IH]; intros s Hs Hl.
  - destruct Hs as (Hst & Hidx & Hup & Hlen). destruct (proj1 Hup) as (rn & Hrn & _).
    exists (heap s). split_and!; [|apply contoured_refl|].
    + intros fuel _. simpl. by rewrite set_heap_id.
    + exists rn, rn. split_and!; [done..|simpl; lia].
  - destruct (computeContour_pixel_spec save s o Hs) as (hp1 & Hrun1 & Hc1 & rn & rn1 & Hrn & Hrn1 & Hcl1).
    { apply Hl. by left. }
    destruct (IH (set_heap hp1 s)) as (hp' & Hrun & Hc' & rn1' & rn' & Hrn1' & Hrn' & Hcl').
    { by eapply scanning_step. } { intros o' Ho'. apply Hl. by right. }
    simpl in Hrn1'. assert (rn1' = rn1) as -> by congruence.
    exists hp'. split_and!.
    + intros fuel Hf. simpl. rewrite (Hrun1 fuel Hf). simpl. by rewrite (Hrun fuel Hf).
    + by eapply contoured_trans.
    + exists rn, rn'. split_and!; [done..|]. rewrite Hcl', Hcl1, filter_cons.
      destruct (frame_pixel c stF o); simpl; lia.
Qed.

(** The contour scan returns; the contour length of the root grows by
    the number of pixels of the image on its frame. *)
Lemma computeContour_total save s :
  scanning s →
  ∃ hp',
    converges (λ fuel, computeContour c T fuel save s) (set_heap hp' s) ∧
    contoured save N (heap s) hp' ∧
    ∃ rn rn', heap s !! root = Some rn ∧ hp' !! root = Some rn' ∧
      iattr rn' contourLength = iattr rn contourLength + frame_count c stF.
Proof.
  intros Hs. destruct (computeContour_loop save
                         (seqZ 0 (Z.of_nat (length (data (imBorder c))))) s Hs)
    as (hp' & Hrun & Hc & Hcl).
  { intros o Ho%elem_of_seqZ. rewrite <- (ctx_len Hctx). lia. }
  exists hp'. split_and!; [|done..]. by exists (Z.to_nat (numberOfLevels c)).
Qed.

End Contour.

(** ** [computeAttributes] on the tree of the builder *)

Lemma converges_on_heap (g : nat → list Node → option (list Node)) s hp' :
  converges (λ fuel, g fuel (heap s)) hp' →
  converges (λ fuel, on_heap (g fuel) s) (set_heap hp' s).
Proof. intros [k H]. exists k. intros fuel Hf. unfold on_heap. by rewrite H. Qed.

Section Built.

Variable c : Strategy.
Variable st0 : list Z.
Variable cap : Z → nat.
Variable sF : Flood.
Variable root : nat.
Variable p0 : Z.
Variable N : Z.
Hypothesis Hbuilt : built c st0 cap sF root p0 N.

Local Abbreviation ready := (ready c sF root).
Local Abbreviation scanning := (scanning c sF root).

Lemma built_root : ∃ rn, heap sF !! root = Some rn ∧ h rn = hMin c.
Proof.
  destruct Hbuilt as (_ & (Hinv & _ & _ & Hroot & _) & _).
  destruct (inv_index Hinv _ _ _ Hroot) as (nd & _ & Hn & Hh & _).
  exists nd. split; [done|]. rewrite Hh. unfold indexToH. lia.
Qed.

Lemma built_wf : wf_tree (Z.to_nat (numberOfLevels c)) (heap sF) root.
Proof.
  destruct Hbuilt as (Hctx & Hfinal & _). destruct built_root as (rn & Hrn & Hh).
  split.
  - apply (final_tree_ok c st0 cap sF root p0 Hfinal _ root rn Hrn).
    pose proof (final_level c st0 cap sF root p0 Hfinal root rn Hrn).
    unfold numberOfLevels. lia.
  - by apply (final_root_ok c st0 cap sF root p0).
Qed.

Lemma built_up : up_ok (hMin c) (hMax c) root (heap sF).
Proof.
  destruct Hbuilt as (Hctx & Hfinal & _). destruct built_root as (rn & Hrn & Hh). split.
  - exists rn. split_and!; [done| |done].
    pose proof (final_root_ok c st0 cap sF root p0 Hfinal) as Hr.
    destruct (root_ok_father _ _ Hr) as (rn' & Hrn' & Hf). congruence.
  - intros n nd Hn. split; [by apply (final_level c st0 cap sF root p0 Hfinal n)|].
    destruct (final_closed c st0 cap sF root p0 Hfinal n nd Hn)
      as [(f & fn & Hf & Hfn & Hlt & _)|[_ ->]]; [right|by left].
    exists f, fn. split_and!; [done| |done|done]. intros ->.
    rewrite Hn in Hfn. injection Hfn as <-. lia.
Qed.

Lemma built_ready : ready sF.
Proof. split; [split_and!; [done|done|apply built_up|done]|apply built_wf]. Qed.

Lemma ready_frame s hp' KI KN pb :
  ready s → frame (keeps KI KN pb) (heap s) hp' → ready (set_heap hp' s).
Proof.
  intros [(Hst & Hidx & Hup & Hlen) Hwf] Hfr. split; [split_and!; [done|done|..]|].
  - by eapply up_ok_frame.
  - simpl. by rewrite <- (proj1 Hfr).
  - by eapply wf_tree_frame.
Qed.

Lemma frame_cl KI KN pb hp hp' n nd :
  frame (keeps KI KN pb) hp hp' → hp !! n = Some nd → contourLength ∉ KI →
  ∃ nd', hp' !! n = Some nd' ∧ iattr nd' contourLength = iattr nd contourLength.
Proof.
  intros Hfr Hn Hni. destruct (frame_keeps_lookup _ _ _ _ _ _ _ Hfr Hn) as (nd' & Hn' & Hk).
  exists nd'. split; [done|]. destruct Hk as (_ & _ & _ & _ & _ & _ & _ & _ & _ & Hi & _).
  by apply Hi.
Qed.

(** [computeAttributes(tree)] returns; it writes the slots of
    [attr_slots] and [attr_nslots] only, and the contour length of the
    root grows by the number of pixels on the frame of the image. *)
Lemma computeAttributes_total T s :
  ready s → hMin c ≤ tmax T →
  ∃ hp',
    converges (λ fuel, computeAttributes c T fuel (Some root) s) (set_heap hp' s) ∧
    frame (keeps attr_slots attr_nslots false) (heap s) hp' ∧
    ∃ rn rn', heap s !! root = Some rn ∧ hp' !! root = Some rn' ∧
      iattr rn' contourLength = iattr rn contourLength + frame_count c (STATUS sF).
Proof.
  intros Hr0 HT. destruct Hbuilt as (Hctx & Hfinal & Hall & Hoff).
  destruct (computeSumOf_total _ _ _ (proj2 Hr0) area) as (hp1 & C1 & F1).
  pose proof (ready_frame _ _ _ _ _ Hr0 F1) as Hr1.
  destruct (computeContrast_total _ _ _ (proj2 Hr1)) as (hp2 & C2 & F2).
  pose proof (ready_frame _ _ _ _ _ Hr1 F2) as Hr2.
  destruct (computeVolume_total _ _ _ (proj2 Hr2)) as (hp3 & C3 & F3).
  pose proof (ready_frame _ _ _ _ _ Hr2 F3) as Hr3.
  destruct (computeContour_total c st0 cap T sF root p0 N Hctx Hfinal Hall HT Hoff false _
              (proj1 Hr3)) as (hp4 & C4 & [F4 _] & rn3 & rn4 & Hrn3 & Hrn4 & Hcl).
  pose proof (ready_frame _ _ _ _ _ Hr3 F4) as Hr4.
  destruct (computeComplexityAndCompacity_total _ _ _ (proj2 Hr4)) as (hp5 & C5 & F5).
  pose proof (ready_frame _ _ _ _ _ Hr4 F5) as Hr5.
  destruct (computeBoundingBox_total _ _ _ (proj2 Hr5)) as (hp6 & C6 & F6).
  pose proof (ready_frame _ _ _ _ _ Hr5 F6) as Hr6.
  destruct (computeSubNodes_total _ _ _ (proj2 Hr6)) as (hp7 & C7 & F7).
  simpl in *. exists hp7. split_and!.
  - unfold computeAttributes.
    eapply converges_bind; [apply converges_on_heap; exact C1|].
    eapply converges_bind; [apply (converges_on_heap _ (set_heap hp1 s)); exact C2|].
    eapply converges_bind; [apply (converges_on_heap _ (set_heap hp2 s)); exact C3|].
    eapply converges_bind; [exact C4|].
    eapply converges_bind; [apply (converges_on_heap _ (set_heap hp4 s)); exact C5|].
    eapply converges_bind; [apply (converges_on_heap _ (set_heap hp5 s)); exact C6|].
    apply (converges_on_heap _ (set_heap hp6 s)). exact C7.
  - eapply frame_trans; [apply keeps_trans| |].
    { eapply frame_weaken; [| | |exact F1]; [unfold attr_slots; sub_slots|sub_slots|done]. }
    eapply frame_trans; [apply keeps_trans| |].
    { eapply frame_weaken; [| | |exact F2]; [unfold attr_slots; sub_slots|sub_slots|done]. }
    eapply frame_trans; [apply keeps_trans| |].
    { eapply frame_weaken; [| | |exact F3]; [unfold attr_slots; sub_slots|sub_slots|done]. }
    eapply frame_trans; [apply keeps_trans| |].
    { eapply frame_weaken; [| | |exact F4]; [unfold attr_slots; sub_slots|sub_slots|done]. }
    eapply frame_trans; [apply keeps_trans| |].
    { eapply frame_weaken; [| | |exact F5]; [sub_slots|unfold attr_nslots; sub_slots|done]. }
    eapply frame_trans; [apply keeps_trans| |].
    { eapply frame_weaken; [| | |exact F6]; [unfold attr_slots; sub_slots|sub_slots|done]. }
    eapply frame_weaken; [| | |exact F7]; [unfold attr_slots; sub_slots|sub_slots|done].
  - destruct Hr0 as [(_ & _ & [(rn & Hrn & _) _] & _) _].
    destruct (frame_cl _ _ _ _ _ root rn F1 Hrn) as (rn1 & Hrn1 & E1); [not_in_slots|].
    destruct (frame_cl _ _ _ _ _ root rn1 F2 Hrn1) as (rn2 & Hrn2 & E2); [not_in_slots|].
    destruct (frame_cl _ _ _ _ _ root rn2 F3 Hrn2) as (rn3' & Hrn3' & E3); [not_in_slots|].
    assert (rn3' = rn3) as -> by congruence.
    destruct (frame_cl _ _ _ _ _ root rn4 F5 Hrn4) as (rn5 & Hrn5 & E5); [not_in_slots|].
    destruct (frame_cl _ _ _ _ _ root rn5 F6 Hrn5) as (rn6 & Hrn6 & E6); [not_in_slots|].
    destruct (frame_cl _ _ _ _ _ root rn6 F7 Hrn6) as (rn7 & Hrn7 & E7); [not_in_slots|].
    exists rn, rn7. split_and!; [done|done|]. lia.
Qed.

End Built.

(** ** The constructors *)

(** On a connected image the builder labels every pixel. *)
Lemma build_built img gradient connexity :
  image_ok img → connected img connexity →
  ∃ lo hi s0 root sF p0,
    getMin img = Some lo ∧ getMax img = Some hi ∧
    init img gradient connexity =
      Some (init_strategy img gradient connexity lo hi, s0) ∧
    converges (λ fuel, computeTree (init_strategy img gradient connexity lo hi) fuel s0)
              (Some root, sF) ∧
    built (init_strategy img gradient connexity lo hi) (init_status img connexity)
          (histo img lo) sF root p0 (Z.of_nat (length (data img))).
Proof.
  intros Hok Hconn.
  destruct (build_total img gradient connexity Hok)
    as (lo & hi & s0 & root & sF & p0 & Hlo & Hhi & Hinit & Hrun & Hp0 & Hfinal).
  exists lo, hi, s0, root, sF, p0. split_and!; try done.
  pose proof (init_ctx_ok img gradient connexity lo hi Hok Hlo Hhi) as Hctx.
  split_and!; [done|done| |].
  - intros q (cq & Hcq & ->)%(interior_pad img connexity Hok).
    apply (final_labelled _ _ _ Hctx sF root p0 Hfinal).
    pose proof (first_active_spec _ _ p0 Hp0) as [Hi0 _].
    apply (interior_pad img connexity Hok) in Hi0 as (c0 & Hc0 & ->).
    by apply (linked_path img gradient connexity lo hi c0 cq Hok Hc0), Hconn.
  - intros q (cq & Hcq & ->)%(interior_pad img connexity Hok).
    destruct cq as [[x y] z]. rewrite (imOffset_pad img gradient connexity lo hi) by done.
    cbn [fst]. destruct Hok as (_ & _ & _ & ->). destruct Hcq as (? & ? & ?).
    by apply getOffset_range.
Qed.

(** Every pixel of the image is held by a node of its level, and by
    nodes of its level only. *)
Lemma build_pixels img gradient connexity lo hi sF root p0 :
  image_ok img → getMin img = Some lo → getMax img = Some hi →
  built (init_strategy img gradient connexity lo hi) (init_status img connexity)
        (histo img lo) sF root p0 (Z.of_nat (length (data img))) →
  (∀ n nd o, heap sF !! n = Some nd → o ∈ pixels nd →
             zget (data img) o = Some (h nd)) ∧
  (∀ i, 0 ≤ i < Z.of_nat (length (data img)) →
        ∃ n nd, heap sF !! n = Some nd ∧ i ∈ pixels nd).
Proof.
  intros Hok Hlo Hhi (Hctx & Hfinal & Hall & Hoff). split.
  - intros n nd o Hn Ho. destruct Hfinal as (Hinv & _).
    destruct (inv_pixels Hinv n nd o Hn Ho) as (p & Hp & -> & Hv).
    apply (interior_pad img connexity Hok) in Hp as ([[x y] z] & Hc & ->).
    rewrite (imOffset_pad img gradient connexity lo hi) by done. cbn [fst].
    unfold val in Hv. by rewrite (border_pad img gradient connexity lo hi) in Hv.
  - intros i Hi. pose proof Hok as (? & ? & ? & Hlen).
    destruct (getOffset_getCoord (sizeX img) (sizeY img) (sizeZ img) i)
      as (x & y & z & _ & Hx & Hy & Hz & Eo); [lia..|].
    assert (inside img (x, y, z)) as Hin by done.
    pose proof (status_pad img connexity Hok (x, y, z) Hin) as Hq.
    destruct (ctx_range Hctx _ Hq) as (v & Hv & _).
    destruct (final_pixel _ _ _ Hctx sF root p0 Hfinal _ v (Hall _ Hq) Hv Hq)
      as (n & nd & Hn & Hpx & _).
    rewrite (imOffset_pad img gradient connexity lo hi) in Hpx by done. cbn [fst] in Hpx.
    rewrite Eo in Hpx. eauto.
Qed.

(** The least value of an image of type [T] is a value of [T]. *)
Lemma image_of_min T img lo :
  image_of T img → getMin img = Some lo → lo ≤ tmax T.
Proof.
  intros HT [Hlo _]%getMin_spec.
  unfold image_of in HT. rewrite Forall_forall in HT. by apply HT.
Qed.

(** [ComponentTree(img, connexity)] returns the tree of the builder with
    the attributes of [computeAttributes(tree)]. *)
Lemma ComponentTree_se_total T img gradient connexity :
  image_ok img → image_of T img → connected img connexity →
  ∃ lo hi sF root p0 hp,
    getMin img = Some lo ∧ getMax img = Some hi ∧
    built (init_strategy img gradient connexity lo hi) (init_status img connexity)
          (histo img lo) sF root p0 (Z.of_nat (length (data img))) ∧
    converges (λ fuel, ComponentTree_se T fuel img gradient connexity)
              (mkTree (Some root) img hp) ∧
    frame (keeps attr_slots attr_nslots false) (heap sF) hp ∧
    ∃ rn', hp !! root = Some rn' ∧
           iattr rn' contourLength =
             frame_count (init_strategy img gradient connexity lo hi) (STATUS sF).
Proof.
  intros Hok HT Hconn.
  destruct (build_built img gradient connexity Hok Hconn)
    as (lo & hi & s0 & root & sF & p0 & Hlo & Hhi & Hinit & Hrun & Hbuilt).
  destruct (computeAttributes_total _ _ _ _ _ _ _ Hbuilt T sF
              (built_ready _ _ _ _ _ _ _ Hbuilt) (image_of_min T img lo HT Hlo))
    as (hp & Hattr & Hframe & rn & rn' & Hrn & Hrn' & Hcl).
  exists lo, hi, sF, root, p0, hp. split_and!; try done.
  - unfold ComponentTree_se. rewrite Hinit. cbn [mbind option_bind].
    apply (converges_bind _
             (λ fuel x, let '(root, s) := x in
                        s ← computeAttributes _ T fuel root s;
                        Some (mkTree root img (heap s))) _ _ Hrun).
    cbv beta iota.
    apply (converges_bind _ (λ _ s, Some (mkTree (Some root) img (heap s))) _ _ Hattr).
    apply converges_ret.
  - exists rn'. split; [done|]. rewrite Hcl.
    destruct Hbuilt as (_ & Hfinal & _).
    destruct (final_fresh _ _ _ _ _ _ Hfinal root rn Hrn) as [-> _]. lia.
Qed.

(** ** Reconstruction of the image from the tree *)

(** [constructImage(DIRECT)] on a tree without inactive node whose nodes
    hold, at their level, all the pixels of the image. *)
Lemma direct_identity T D hp root img res :
  tree_ok D hp root = true →
  (∀ n nd, hp !! n = Some nd → active nd = true ∧ reach hp root n) →
  (∀ n nd o, hp !! n = Some nd → o ∈ pixels nd → zget (data img) o = Some (h nd)) →
  (∀ i, 0 ≤ i < Z.of_nat (length (data img)) →
        ∃ n nd, hp !! n = Some nd ∧ i ∈ pixels nd) →
  image_of T img →
  length (data res) = length (data img) →
  ∃ hp' res',
    converges (λ fuel, constructImage T fuel hp (Some root) res DIRECT) (hp', res') ∧
    data res' = data img.
Proof.
  intros Htree Hact Hval Hcov HT Hlen.
  assert (pixels_in_range hp root (length (data res))) as Hpx.
  { intros n nd o _ Hn Ho. rewrite Hlen.
    apply (zget_range _ _ _ (Hval n nd o Hn Ho)). }
  destruct (constructImageDirectExpe_collect_spec hp root D Htree)
    as (fifo2 & Hcollect & Hfifo & Hcovered).
  destruct (constructImageDirectExpe_paint_spec T hp root D fifo2 res Htree Hpx Hfifo)
    as (hp' & res' & V & Hpaint & _ & HV & _ & _ & (Hlen' & _) & Hpainted).
  exists hp', res'. split.
  - cbn [constructImage]. unfold constructImageDirectExpe.
    by apply (converges_bind _
                (λ fuel fifo2, queue_loop (constructImageDirectExpe_paint T) fuel
                                          (hp, fill 0 res) fifo2) _ _ Hcollect).
  - apply list_eq. intros i. destruct (decide (i < length (data res'))%nat) as [Hi|Hi].
    + destruct (Hpainted i Hi) as [[_ Hno]|(m & nd & v & _ & Hm & Hpm & Hlv & ->)].
      * destruct (Hcov (Z.of_nat i)) as (n & nd & Hn & Hin); [lia|].
        destruct (Hact n nd Hn) as [Ha Hr].
        destruct (Hno n nd); [|done..]. apply HV. by apply (Hcovered n nd).
      * destruct (Hact m nd Hm) as [Ha Hr].
        rewrite (level_of_fun D hp root m v (h nd) Htree Hlv
                   (level_active hp root m nd Hr Hm Ha)).
        pose proof (Hval m nd _ Hm Hpm) as Hz.
        apply zget_Some in Hz as [_ Hz]. rewrite Nat2Z.id in Hz. rewrite Hz.
        unfold image_of in HT. rewrite Forall_forall in HT.
        destruct (HT (h nd)) as [-> _]; [|done]. by eapply list_elem_of_lookup_2.
    + rewrite !lookup_ge_None_2; [done|lia..].
Qed.

(** C1.  For an image [img] with at least one pixel, whose values are
    values of the pixel type, and a neighborhood that connects the
    pixels of [img]: [ComponentTree(img, connexity)] returns a tree on
    [img] whose nodes are all active, and [constructImage(DIRECT)] on
    this tree returns an image with the pixels of [img]. *)
Theorem build_then_DIRECT_is_identity (T : PixelType) (img gradient res : Image)
    (connexity : FlatSE) :
  image_ok img → image_of T img → connected img connexity →
  length (data res) = length (data img) →
  ∃ tree hp' res',
    converges (λ fuel, ComponentTree_se T fuel img gradient connexity) tree ∧
    m_img tree = img ∧
    (∀ n nd, nodes tree !! n = Some nd → active nd = true) ∧
    converges (λ fuel, constructImage T fuel (nodes tree) (m_root tree) res DIRECT)
              (hp', res') ∧
    data res' = data img.
Proof.
  intros Hok HT Hconn Hlen.
  destruct (ComponentTree_se_total T img gradient connexity Hok HT Hconn)
    as (lo & hi & sF & root & p0 & hp & Hlo & Hhi & Hbuilt & Hrun & Hframe & _).
  destruct (build_pixels img gradient connexity lo hi sF root p0 Hok Hlo Hhi Hbuilt)
    as [Hval Hcov].
  pose proof (built_wf _ _ _ _ _ _ _ Hbuilt) as Hwf.
  pose proof Hbuilt as (_ & Hfinal & _).
  pose proof (wf_tree_frame _ _ _ _ _ _ _ Hwf Hframe) as [Htree _].
  pose proof (frame_same_links _ _ _ (keeps_links _ _ _) Hframe) as Hlinks.
  assert (∀ n nd, hp !! n = Some nd → active nd = true ∧ reach hp root n) as Hact.
  { intros n nd' Hn'. destruct (frame_back _ _ _ _ _ _ _ Hframe Hn') as (nd & Hn & Hk).
    split.
    - destruct Hk as (_ & _ & _ & _ & _ & _ & -> & _).
      by apply (final_active _ _ _ _ _ _ Hfinal n nd).
    - apply (reach_same_links _ _ _ _ Hlinks).
      by apply (final_reach _ _ _ _ _ _ Hfinal n nd). }
  destruct (direct_identity T _ hp root img res Htree Hact) as (hp' & res' & Hd & Heq);
    try done.
  - intros n nd' o Hn' Ho. destruct (frame_back _ _ _ _ _ _ _ Hframe Hn') as (nd & Hn & Hk).
    destruct Hk as (_ & _ & Hh & _ & _ & Hp & _). rewrite Hh. rewrite Hp in Ho. eauto.
  - intros i Hi. destruct (Hcov i Hi) as (n & nd & Hn & Hin).
    destruct (frame_keeps_lookup _ _ _ _ _ _ _ Hframe Hn) as (nd' & Hn' & Hk).
    destruct Hk as (_ & _ & _ & _ & _ & Hp & _). exists n, nd'. by rewrite Hp.
  - exists (mkTree (Some root) img hp), hp', res'. split_and!; try done.
    intros n nd Hn. by apply (Hact n nd).
Qed.

Lemma build_then_DIRECT_is_identity_witness :
  image_ok img_step ∧ image_of U8 img_step ∧ connected img_step make2DN8 ∧
  ∃ tree hp' res',
    converges (λ fuel, ComponentTree_se U8 fuel img_step img_step make2DN8) tree ∧
    m_img tree = img_step ∧
    (∀ n nd, nodes tree !! n = Some nd → active nd = true) ∧
    converges (λ fuel, constructImage U8 fuel (nodes tree) (m_root tree)
                                      (mkImage 4 1 1 [7; 7; 7; 7]) DIRECT)
              (hp', res') ∧
    data res' = data img_step.
Proof.
  assert (image_ok img_step) as Hok by (unfold image_ok; simpl; lia).
  assert (image_of U8 img_step) as HT.
  { unfold image_of. simpl. repeat constructor; simpl; lia. }
  assert (connected img_step make2DN8) as Hconn by (by apply make2DN8_connected).
  split_and!; [done..|].
  exact (build_then_DIRECT_is_identity U8 img_step img_step (mkImage 4 1 1 [7; 7; 7; 7])
           make2DN8 Hok HT Hconn eq_refl).
Defined.

(** ** The frame of the image *)

Section Outside.

Variable img : Image.
Variable connexity : FlatSE.
Hypothesis Hok : image_ok img.

Local Abbreviation bk := (getNegativeOffsets connexity).
Local Abbreviation fr := (getPositiveOffsets connexity).
Local Abbreviation WB := (sizeX img + bk.1.1 + fr.1.1).
Local Abbreviation HB := (sizeY img + bk.1.2 + fr.1.2).
Local Abbreviation st0 := (init_status img connexity).

(** The padding around the image carries the status of the border. *)
Lemma status_outside x y z :
  - bk.1.1 ≤ x < sizeX img + fr.1.1 →
  - bk.1.2 ≤ y < sizeY img + fr.1.2 →
  - bk.2 ≤ z < sizeZ img + fr.2 →
  ¬ inside img (x, y, z) →
  zget st0 (pad WB HB bk (x, y, z)) = Some BORDER_STATUS.
Proof.
  intros Hx Hy Hz Hout.
  destruct (borders_pos connexity) as (? & ? & ? & ? & ? & ?).
  unfold init_status, pad. cbn [fst snd].
  destruct (getNegativeOffsets connexity) as [[bx by_] bz] eqn:Eb.
  destruct (getPositiveOffsets connexity) as [[fx fy] fz] eqn:Ef. cbn [fst snd] in *.
  rewrite (addBorders_zget (fill ACTIVE img) bx by_ bz fx fy fz BORDER_STATUS) by
    (apply (getOffset_range _ _ (sizeZ img + bz + fz)); cbn [fill sizeX sizeY sizeZ]; lia).
  cbn [fill sizeX sizeY sizeZ]. rewrite getCoord_getOffset by lia.
  destruct (isPosValid _ _) eqn:E; [|done].
  apply (isPosValid_inside (fill ACTIVE img)) in E. destruct Hout.
  unfold inside in *. cbn [fill sizeX sizeY sizeZ fst snd] in *. lia.
Qed.

End Outside.

Lemma make2DN8_borders :
  getNegativeOffsets make2DN8 = (1, 1, 0) ∧ getPositiveOffsets make2DN8 = (1, 1, 0).
Proof. done. Qed.

Section N8.

Variable img gradient : Image.
Variables lo hi : Z.
Hypothesis Hok : image_ok img.
Hypothesis HZ : sizeZ img = 1.

Local Abbreviation bk := (getNegativeOffsets make2DN8).
Local Abbreviation fr := (getPositiveOffsets make2DN8).
Local Abbreviation WB := (sizeX img + bk.1.1 + fr.1.1).
Local Abbreviation HB := (sizeY img + bk.1.2 + fr.1.2).
Local Abbreviation c := (init_strategy img gradient make2DN8 lo hi).
Local Abbreviation st0 := (init_status img make2DN8).

Variable stF : list Z.
Hypothesis Hborder : ∀ o, zget stF o = Some BORDER_STATUS ↔ zget st0 o = Some BORDER_STATUS.

(** The pixels of the first and last rows and columns are on the frame. *)
Lemma make2DN8_frame_pixel x y :
  inside img (x, y, 0) →
  x = 0 ∨ x = sizeX img - 1 ∨ y = 0 ∨ y = sizeY img - 1 →
  frame_pixel c stF (pad WB HB bk (x, y, 0)) = true.
Proof.
  intros Hin Hedge. unfold frame_pixel. apply andb_true_intro. split.
  - apply bool_decide_eq_true. rewrite Hborder, (status_pad img make2DN8 Hok) by done.
    unfold ACTIVE, BORDER_STATUS. congruence.
  - assert (∃ dx dy, (dx, dy, 0) ∈ make2DN8 ∧ ¬ inside img (x + dx, y + dy, 0) ∧
                     -1 ≤ dx ≤ 1 ∧ -1 ≤ dy ≤ 1) as (dx & dy & Hd & Hout & Hdx & Hdy).
    { unfold inside in *. cbn [fst snd] in *.
      destruct Hedge as [-> | [-> | [-> | ->]]].
      - exists (-1), 0. split; [unfold make2DN8; repeat (first [by left|right])|lia].
      - exists 1, 0. split; [unfold make2DN8; repeat (first [by left|right])|lia].
      - exists 0, (-1). split; [unfold make2DN8; repeat (first [by left|right])|lia].
      - exists 0, 1. split; [unfold make2DN8; repeat (first [by left|right])|lia]. }
    apply existsb_exists. exists (getOffset WB HB (dx, dy, 0)). split.
    + apply list_elem_of_In. cbn [se init_strategy]. unfold setContext.
      apply list_elem_of_fmap. by exists (dx, dy, 0).
    + apply bool_decide_eq_true. rewrite Hborder.
      assert (pad WB HB bk (x, y, 0) + getOffset WB HB (dx, dy, 0) =
              pad WB HB bk (x + dx, y + dy, 0)) as ->.
      { unfold pad, getOffset. cbn [fst snd]. ring. }
      destruct Hin as (? & ? & _). cbn [fst snd] in *.
      apply (status_outside img make2DN8); [| | |done];
        destruct make2DN8_borders as [-> ->]; cbn [fst snd]; lia.
Qed.

(** An image of at least two rows and two columns has [2 (W + H) - 4]
    pixels on its frame, or more. *)
Lemma make2DN8_frame_count :
  2 ≤ sizeX img → 2 ≤ sizeY img →
  2 * (sizeX img + sizeY img) - 4 ≤ frame_count c stF.
Proof.
  intros HW HH. unfold frame_count.
  set (coords := ((λ x, (x, 0, 0)) <$> seqZ 0 (sizeX img)) ++
                 ((λ x, (x, sizeY img - 1, 0)) <$> seqZ 0 (sizeX img)) ++
                 ((λ y, (0, y, 0)) <$> seqZ 1 (sizeY img - 2)) ++
                 ((λ y, (sizeX img - 1, y, 0)) <$> seqZ 1 (sizeY img - 2))).
  assert (∀ p, p ∈ coords →
            ∃ x y, p = (x, y, 0) ∧ inside img (x, y, 0) ∧
                   (x = 0 ∨ x = sizeX img - 1 ∨ y = 0 ∨ y = sizeY img - 1)) as Hcoords.
  { intros p Hp. unfold coords in Hp. unfold inside. cbn [fst snd].
    rewrite !elem_of_app in Hp.
    destruct Hp as [Hp|[Hp|[Hp|Hp]]]; apply list_elem_of_fmap in Hp as (v & -> & Hv);
      apply elem_of_seqZ in Hv; eexists _, _; (split; [done|]); lia. }
  assert (NoDup coords) as Hnd.
  { unfold coords. repeat (apply NoDup_app; split_and!).
    - apply NoDup_fmap_2_strong; [|apply NoDup_seqZ]. by intros ???? [=].
    - intros p Hp1 Hp2. apply list_elem_of_fmap in Hp1 as (v & -> & Hv).
      apply elem_of_seqZ in Hv. rewrite !elem_of_app in Hp2.
      destruct Hp2 as [Hp|[Hp|Hp]]; apply list_elem_of_fmap in Hp as (w & [=] & Hw);
        apply elem_of_seqZ in Hw; lia.
    - apply NoDup_fmap_2_strong; [|apply NoDup_seqZ]. by intros ???? [=].
    - intros p Hp1 Hp2. apply list_elem_of_fmap in Hp1 as (v & -> & Hv).
      apply elem_of_seqZ in Hv. rewrite !elem_of_app in Hp2.
      destruct Hp2 as [Hp|Hp]; apply list_elem_of_fmap in Hp as (w & [=] & Hw);
        apply elem_of_seqZ in Hw; lia.
    - apply NoDup_fmap_2_strong; [|apply NoDup_seqZ]. by intros ???? [=].
    - intros p Hp1 Hp2. apply list_elem_of_fmap in Hp1 as (v & -> & Hv).
      apply elem_of_seqZ in Hv.
      apply list_elem_of_fmap in Hp2 as (w & [=] & Hw). lia.
    - apply NoDup_fmap_2_strong; [|apply NoDup_seqZ]. by intros ???? [=]. }
  assert (∀ p, p ∈ coords → inside img p ∧ 0 ≤ pad WB HB bk p ∧
            pad WB HB bk p < Z.of_nat (length (data (imBorder c))) ∧
            frame_pixel c stF (pad WB HB bk p) = true) as Hpad.
  { intros p (x & y & -> & Hin & Hedge)%Hcoords.
    pose proof (zget_range _ _ _ (status_pad img make2DN8 Hok _ Hin)) as Hr.
    rewrite (status_length img make2DN8 Hok) in Hr.
    rewrite (border_length img gradient make2DN8 lo hi Hok).
    split_and!; [done|lia|lia|]. by apply make2DN8_frame_pixel. }
  pose proof (count_le (λ o, frame_pixel c stF o = true)
                (seqZ 0 (Z.of_nat (length (data (imBorder c)))))
                ((λ p, Z.to_nat (pad WB HB bk p)) <$> coords)) as Hcount.
  rewrite length_fmap in Hcount.
  assert (length coords = Z.to_nat (2 * (sizeX img + sizeY img) - 4)) as Hlen.
  { unfold coords. rewrite !length_app, !length_fmap, !length_seqZ. lia. }
  rewrite Hlen in Hcount.
  etrans; [|apply inj_le, Hcount].
  - lia.
  - apply NoDup_fmap_2_strong; [|done]. intros p q Hp Hq E.
    destruct (Hpad p Hp) as (? & ? & _), (Hpad q Hq) as (? & ? & _).
    apply (pad_inj img make2DN8); [done..|lia].
  - intros o (p & -> & Hp)%list_elem_of_fmap. destruct (Hpad p Hp) as (_ & ? & ? & Hf).
    exists (pad WB HB bk p). split; [|done].
    rewrite lookup_seqZ. split; lia.
Qed.

End N8.

(** ** The contour length of the root *)

(** C5, as stated, fails on the 3×3 image with a single peak: the image
    is not constant, its tree is built with the 8-connected
    neighborhood, and the contour length of its root is 8, below
    [2 (W + H) = 12]. *)
Lemma root_contour_below_perimeter :
  sizeZ img_peak = 1 ∧ getMin img_peak ≠ getMax img_peak ∧
  (tree ← ComponentTree_img U8 40 img_peak img_peak;
   root ← m_root tree;
   rn ← nodes tree !! root;
   Some (iattr rn contourLength)) = Some 8 ∧
  ¬ (2 * (sizeX img_peak + sizeY img_peak) ≤ 8).
Proof.
  split; [done|]. split; [by vm_compute|]. split; [by vm_compute|]. simpl. lia.
Qed.

(** C5, amended.  For a 2D image that is not constant, has at least two
    rows and two columns and holds values of the pixel type,
    [ComponentTree(img)], which uses the 8-connected neighborhood,
    returns a tree whose root has a contour length of at least
    [2 (W + H) - 4], the number of pixels on the frame of the image. *)
Theorem root_contour_at_least_frame (T : PixelType) (img gradient : Image) :
  image_ok img → image_of T img → sizeZ img = 1 → getMin img ≠ getMax img →
  2 ≤ sizeX img → 2 ≤ sizeY img →
  ∃ tree root rn,
    converges (λ fuel, ComponentTree_img T fuel img gradient) tree ∧
    m_root tree = Some root ∧ nodes tree !! root = Some rn ∧
    2 * (sizeX img + sizeY img) - 4 ≤ iattr rn contourLength.
Proof.
  intros Hok HT HZ _ HW HH.
  destruct (ComponentTree_se_total T img gradient make2DN8 Hok HT
              (make2DN8_connected img HZ))
    as (lo & hi & sF & root & p0 & hp & Hlo & Hhi & Hbuilt & Hrun & _ & rn & Hrn & Hcl).
  exists (mkTree (Some root) img hp), root, rn. split_and!; try done.
  rewrite Hcl. destruct Hbuilt as (Hctx & Hfinal & Hall & _).
  apply (make2DN8_frame_count img gradient lo hi Hok HZ); [|done..].
  exact (final_border _ _ _ _ _ _ Hctx Hfinal Hall).
Qed.

Lemma root_contour_at_least_frame_witness :
  image_ok img_peak ∧ image_of U8 img_peak ∧ sizeZ img_peak = 1 ∧
  getMin img_peak ≠ getMax img_peak ∧ 2 ≤ sizeX img_peak ∧ 2 ≤ sizeY img_peak ∧
  ∃ tree root rn,
    converges (λ fuel, ComponentTree_img U8 fuel img_peak img_peak) tree ∧
    m_root tree = Some root ∧ nodes tree !! root = Some rn ∧
    2 * (sizeX img_peak + sizeY img_peak) - 4 ≤ iattr rn contourLength.
Proof.
  assert (image_ok img_peak) as Hok by (unfold image_ok; simpl; lia).
  assert (image_of U8 img_peak) as HT.
  { unfold image_of. simpl. repeat constructor; simpl; lia. }
  assert (getMin img_peak ≠ getMax img_peak) as Hne by (by vm_compute).
  assert (2 ≤ sizeX img_peak) as HW by (simpl; lia).
  assert (2 ≤ sizeY img_peak) as HH by (simpl; lia).
  split_and!; [done..|].
  exact (root_contour_at_least_frame U8 img_peak img_peak Hok HT eq_refl Hne HW HH).
Defined.

(** ** Queue loops that visit every node once *)

Section Once.

Variable D : nat.
Variable hp0 : list Node.
Variable root : nat.
Hypothesis Hwf : wf_tree D hp0 root.
Hypothesis Hnodup : ∀ n nd, hp0 !! n = Some nd → NoDup (childs nd).

(** A node has one parent only, and the root has none but itself. *)
Lemma parent_unique a an b bn ch :
  reach hp0 root a → reach hp0 root b →
  hp0 !! a = Some an → hp0 !! b = Some bn →
  ch ∈ childs an → ch ∈ childs bn → a = b.
Proof.
  intros Ha Hb Han Hbn Hca Hcb. destruct Hwf as [Hok _].
  destruct (weight_reach _ _ _ _ Hok Ha) as (an' & Han' & _ & Hfa).
  destruct (weight_reach _ _ _ _ Hok Hb) as (bn' & Hbn' & _ & Hfb).
  rewrite Han in Han'. injection Han' as <-. rewrite Hbn in Hbn'. injection Hbn' as <-.
  destruct (Hfa ch Hca) as (cn & Hc & E1), (Hfb ch Hcb) as (cn' & Hc' & E2). congruence.
Qed.

Lemma root_not_child a an :
  reach hp0 root a → hp0 !! a = Some an → root ∉ childs an.
Proof.
  intros Ha Han Hin. destruct Hwf as [Hok Hroot].
  destruct (root_ok_father _ _ Hroot) as (rn & Hrn & Hf).
  destruct (weight_reach _ _ _ _ Hok Ha) as (an' & Han' & _ & Hfa).
  rewrite Han in Han'. injection Han' as <-.
  destruct (Hfa root Hin) as (rn' & Hrn' & Hf'). rewrite Hrn in Hrn'. injection Hrn' as <-.
  assert (a = root) as -> by congruence.
  by apply (child_not_self D hp0 root root an Hok).
Qed.

Lemma queue_once (visit : nat → list Node → nat → option (list Node * list nat)) K
    (KI : list IntAttr) (KN : list NumAttr) (P : nat → Node → Node → Prop) :
  (∀ hp n nd, frame (keeps KI KN false) hp0 hp → reach hp0 root n →
     hp0 !! n = Some nd → hp !! n = Some nd →
     ∃ nd', (∀ F, (K ≤ F)%nat → visit F hp n = Some (<[n := nd']> hp, childs nd)) ∧
            keeps KI KN false nd nd' ∧ P n nd nd') →
  ∃ hp', (∀ F fuel, (K ≤ F)%nat → (weight D hp0 root < fuel)%nat →
            queue_loop (visit F) fuel hp0 [root] = Some hp') ∧
         frame (keeps KI KN false) hp0 hp' ∧
         ∀ n nd, reach hp0 root n → hp0 !! n = Some nd →
                 ∃ nd', hp' !! n = Some nd' ∧ P n nd nd'.
Proof.
  intros Hv. pose proof Hwf as [Hok Hroot].
  set (I := λ (hp : list Node) (q : list nat),
    ∃ V : list nat,
      frame (keeps KI KN false) hp0 hp ∧
      (∀ n, n ∈ q → reach hp0 root n) ∧
      NoDup q ∧ (∀ n, n ∈ q → n ∉ V) ∧
      (∀ m, m ∈ V ∨ m ∈ q → m = root ∨
            ∃ f fn, f ∈ V ∧ reach hp0 root f ∧ hp0 !! f = Some fn ∧ m ∈ childs fn) ∧
      (∀ n, n ∉ V → hp !! n = hp0 !! n) ∧
      (∀ n, n ∈ V → ∃ nd nd', hp0 !! n = Some nd ∧ hp !! n = Some nd' ∧ P n nd nd') ∧
      (∀ n, reach hp0 root n → n ∈ V ∨ ∃ m, m ∈ q ∧ reach hp0 m n)).
  destruct (queue_loop_total_fuel visit K (weight D hp0) I) with (s := hp0) (q := [root])
    as (hp' & Hrun & V & Hfr & _ & _ & _ & _ & _ & HP & Hall).
  - intros hp n q (V & Hfr & Hq & Hnd & HqV & Hpar & Hun & HP & Hall).
    assert (reach hp0 root n) as Hr by (apply Hq; by left).
    destruct (weight_reach _ _ _ _ Hok Hr) as (nd & Hn0 & Hw & Hch).
    assert (n ∉ V) as HnV by (apply HqV; by left).
    assert (hp !! n = Some nd) as Hn by (by rewrite Hun).
    destruct (Hv hp n nd Hfr Hr Hn0 Hn) as (nd' & Hrun & Hk & HPn).
    apply NoDup_cons in Hnd as [Hnq Hnd].
    assert (∀ ch, ch ∈ childs nd → (ch ∉ V) ∧ (ch ∉ q) ∧ ch ≠ n) as Hnew.
    { intros ch Hin.
      assert (ch ≠ root) as Hne by (intros ->; by apply (root_not_child n nd)).
      assert ((ch ∈ V) ∨ (ch ∈ n :: q) → False) as Hno.
      { intros Hm. destruct (Hpar ch Hm) as [?|(f & fn & Hf & Hrf & Hfn & Hcf)]; [done|].
        assert (f = n) as -> by (by apply (parent_unique f fn n nd ch)). done. }
      split_and!.
      - intros ?. apply Hno. by left.
      - intros ?. apply Hno. right. by right.
      - intros ->. by apply (child_not_self D hp0 root n nd Hok). }
    exists (<[n := nd']> hp), (childs nd). split_and!; [done| |rewrite Hw; lia].
    exists (n :: V). split_and!.
    + eapply frame_trans; [apply keeps_trans|exact Hfr|].
      apply (frame_insert _ hp n nd nd'); [apply keeps_refl|done..].
    + intros m [Hm|Hm]%elem_of_app; [apply Hq; by right|]. by eapply reach_child.
    + apply NoDup_app. split_and!; [done| |by apply (Hnodup n nd)].
      intros m Hm Hm'. by destruct (Hnew m Hm') as (_ & ? & _).
    + intros m [Hm|Hm]%elem_of_app [E|HmV]%elem_of_cons.
      * by subst.
      * apply (HqV m); [by right|done].
      * by destruct (Hnew m Hm) as (_ & _ & ?).
      * by destruct (Hnew m Hm) as (? & _).
    + intros m [[->|Hm]%elem_of_cons|[Hm|Hm]%elem_of_app].
      * destruct (Hpar n) as [?|(f & fn & ? & ? & ? & ?)]; [right; by left|by left|].
        right. exists f, fn. split_and!; [by right|done..].
      * destruct (Hpar m) as [?|(f & fn & ? & ? & ? & ?)]; [by left|by left|].
        right. exists f, fn. split_and!; [by right|done..].
      * destruct (Hpar m) as [?|(f & fn & ? & ? & ? & ?)]; [right; by right|by left|].
        right. exists f, fn. split_and!; [by right|done..].
      * right. exists n, nd. split_and!; [by left|done..].
    + intros m Hm. rewrite list_lookup_insert_ne; [apply Hun|]; intros ?; apply Hm.
      * by right.
      * subst. by left.
    + intros m [->|Hm]%elem_of_cons.
      * exists nd, nd'. split_and!; [done| |done].
        apply list_lookup_insert_eq. by eapply lookup_lt_Some.
      * destruct (HP m Hm) as (md & md' & ? & ? & ?). exists md, md'.
        split_and!; [done| |done]. rewrite list_lookup_insert_ne; [done|]. by intros ->.
    + intros m Hm. destruct (Hall m Hm) as [?|(m' & [->|Hm']%elem_of_cons & Hrm)].
      * left. by right.
      * apply reach_head in Hrm as [->|(nd2 & ch & Hn2 & Hc & Hrm)]; [left; by left|].
        right. exists ch. split; [|done]. apply elem_of_app. right. congruence.
      * right. exists m'. split; [|done]. apply elem_of_app. by left.
  - exists []. split_and!.
    + apply frame_refl, keeps_refl.
    + intros n ->%list_elem_of_singleton. constructor.
    + apply NoDup_singleton.
    + intros n _ ?%elem_of_nil. done.
    + intros m [?%elem_of_nil| ->%list_elem_of_singleton]; [done|by left].
    + done.
    + intros n ?%elem_of_nil. done.
    + intros n Hn. right. exists root. split; [by left|done].
  - exists hp'. split_and!; [|done|].
    + intros F fuel HF Hf. apply Hrun; [done|]. simpl. lia.
    + intros n nd Hr Hn. destruct (Hall n Hr) as [HV|(? & ?%elem_of_nil & _)]; [|done].
      destruct (HP n HV) as (nd0 & nd' & Hn0 & Hn' & HPn).
      rewrite Hn in Hn0. injection Hn0 as <-. by exists nd'.
Qed.

End Once.

(** ** Loops over lists *)

Lemma for_each_inv {S A} (body : S → A → option S) (I : list A → S → Prop) l s :
  I [] s →
  (∀ done x s, I done s → x ∈ l → ∃ s', body s x = Some s' ∧ I (done ++ [x]) s') →
  ∃ s', for_each body s l = Some s' ∧ I l s'.
Proof.
  intros H0 Hstep.
  assert (∀ done rest s, I done s → (∀ x, x ∈ rest → x ∈ l) →
            ∃ s', for_each body s rest = Some s' ∧ I (done ++ rest) s') as Hgen.
  { intros done rest. revert done. induction rest as [|x rest IH]; intros done s1 HI Hin.
    - exists s1. by rewrite app_nil_r.
    - destruct (Hstep done x s1 HI) as (s2 & Hb & HI2); [apply Hin; by left|].
      destruct (IH (done ++ [x]) s2 HI2) as (s3 & Hrun & HI3).
      { intros y Hy. apply Hin. by right. }
      exists s3. simpl. rewrite Hb. simpl. split; [done|].
      by rewrite <- app_assoc in HI3. }
  apply (Hgen [] l s H0). auto.
Qed.

(** ** The pixels of a subtree *)

Lemma merge_pixels_spec D hp t :
  tree_ok D hp t = true →
  ∃ px, (∀ fuel, (weight D hp t < fuel)%nat → merge_pixels fuel hp t = Some px) ∧
        ∀ o, o ∈ px ↔ subtree_pixel hp t o.
Proof.
  intros Hok.
  set (I := λ (res : list Z) (q : list nat),
    ∃ V : list nat,
      (∀ n, n ∈ q → reach hp t n) ∧ (∀ n, n ∈ V → reach hp t n) ∧
      (∀ n, reach hp t n → n ∈ V ∨ ∃ m, m ∈ q ∧ reach hp m n) ∧
      ∀ o, o ∈ res ↔ ∃ m nd, m ∈ V ∧ hp !! m = Some nd ∧ o ∈ pixels nd).
  destruct (queue_loop_total (merge_pixels_visit hp) (weight D hp) I) with
    (s := @nil Z) (q := [t]) as (px & Hrun & V & _ & HV & Hall & Hpx).
  - intros res n q (V & Hq & HV & Hall & Hres).
    assert (reach hp t n) as Hr by (apply Hq; by left).
    destruct (weight_reach _ _ _ _ Hok Hr) as (nd & Hn & Hw & _).
    exists (res ++ pixels nd), (childs nd). unfold merge_pixels_visit. rewrite Hn.
    split; [done|]. split; [|rewrite Hw; lia].
    exists (n :: V). split_and!.
    + intros m [Hm|Hm]%elem_of_app; [apply Hq; by right|]. by eapply reach_child.
    + intros m [->|Hm]%elem_of_cons; auto.
    + intros m Hm. destruct (Hall m Hm) as [?|(m' & [->|Hm']%elem_of_cons & Hrm)].
      * left. by right.
      * apply reach_head in Hrm as [->|(nd2 & ch & Hn2 & Hc & Hrm)]; [left; by left|].
        right. exists ch. split; [|done]. apply elem_of_app. right. congruence.
      * right. exists m'. split; [|done]. apply elem_of_app. by left.
    + intros o. rewrite elem_of_app, Hres. split.
      * intros [(m & md & Hm & Hmd & Ho)|Ho].
        -- exists m, md. split_and!; [by right|done..].
        -- exists n, nd. split_and!; [by left|done..].
      * intros (m & md & [->|Hm]%elem_of_cons & Hmd & Ho).
        -- right. congruence.
        -- left. by exists m, md.
  - exists []. split_and!.
    + intros n ->%list_elem_of_singleton. constructor.
    + intros n ?%elem_of_nil. done.
    + intros n Hn. right. exists t. split; [by left|done].
    + intros o. split; [by intros ?%elem_of_nil|]. by intros (m & md & ?%elem_of_nil & _).
  - exists px. split.
    + intros fuel Hf. apply Hrun. simpl. lia.
    + intros o. rewrite Hpx. split.
      * intros (m & md & Hm & Hmd & Ho). exists m, md. split_and!; [by apply HV|done..].
      * intros (m & md & Hm & Hmd & Ho). exists m, md. split_and!; [|done..].
        destruct (Hall m Hm) as [?|(? & ?%elem_of_nil & _)]; done.
Qed.

(** ** The ring of a node *)

Section Ring.

Variable m_img : Image.
Variable ball : FlatSE.
Hypothesis Hok : image_ok m_img.

Lemma nghb_target_range p d q :
  nghb_target m_img p d = Some q → 0 ≤ q < Z.of_nat (length (data m_img)).
Proof.
  unfold nghb_target. destruct (getCoord _ _ p) as [[x y] z].
  destruct (isPosValid _ _) eqn:Ev; [|done]. intros [= <-].
  apply isPosValid_inside in Ev as (? & ? & ?). cbn [fst snd] in *.
  destruct Hok as (_ & _ & _ & ->). by apply getOffset_range.
Qed.

Variable px : list Z.
Variable hp : list Node.
Variable n : nat.
Variable nd : Node.
Hypothesis Hn : hp !! n = Some nd.

Local Abbreviation ring_state := (ring_state m_img px hp n nd).

Lemma ring_state_ext (Dn Dn' : Z → Prop) s :
  (∀ q, Dn q ↔ Dn' q) → ring_state Dn s → ring_state Dn' s.
Proof.
  intros HD (R & nd' & Hhp & Hacc & Hnd & HR & Hact).
  exists R, nd'. split_and!; try done. intros q. by rewrite HR, HD.
Qed.

(** One point of the ball around one pixel. *)
Lemma nghb_point_spec p d Dn act hpc :
  ring_state Dn (act, hpc) →
  ∃ s',
    match nghb_target m_img p d with
    | Some oq =>
        a ← zget act oq;
        if a : bool then
          v ← zget (data m_img) oq;
          hp' ← upd n (λ nd,
                  set_iattr sum_square_nghb (iattr nd sum_square_nghb + v * v)
                    (set_iattr sum_nghb (iattr nd sum_nghb + v)
                       (set_iattr area_nghb (iattr nd area_nghb + 1) nd))) hpc;
          act' ← zset act oq false;
          Some (act', hp')
        else Some (act, hpc)
    | None => Some (act, hpc)
    end = Some s' ∧
    ring_state (λ q, Dn q ∨ nghb_target m_img p d = Some q) s'.
Proof.
  intros (R & nd' & Hhp & Hacc & Hnd & HR & Hlen & Hact). cbn [fst snd] in *. subst hpc.
  destruct (nghb_target m_img p d) as [oq|] eqn:Ht.
  - pose proof (nghb_target_range p d oq Ht) as Hr.
    destruct (Hact oq Hr) as (b & Hb & Hbx). rewrite Hb. cbn [mbind option_bind].
    destruct b.
    + destruct (zget_is_Some (data m_img) oq Hr) as [v Hv]. rewrite Hv.
      cbn [mbind option_bind].
      rewrite (upd_Some _ n nd') by (apply list_lookup_insert_eq; by eapply lookup_lt_Some).
      cbn [mbind option_bind]. rewrite zset_total by (rewrite Hlen; lia).
      cbn [mbind option_bind]. eexists. split; [reflexivity|].
      assert ((oq ∉ px) ∧ (oq ∉ R)) as [Hpx HoR].
      { destruct Hbx as [Hbx _]. specialize (Hbx eq_refl). split; intros ?; apply Hbx; auto. }
      destruct Hacc as (Hk & Ha & Hs & Hq).
      exists (oq :: R), (set_iattr sum_square_nghb (iattr nd' sum_square_nghb + v * v)
                          (set_iattr sum_nghb (iattr nd' sum_nghb + v)
                             (set_iattr area_nghb (iattr nd' area_nghb + 1) nd'))).
      cbn [fst snd]. split_and!.
      * by rewrite list_insert_insert_eq.
      * split_and!.
        -- eapply keeps_trans; [exact Hk|].
           eapply keeps_trans; [|apply keeps_set_iattr; in_slots].
           eapply keeps_trans; [|apply keeps_set_iattr; in_slots].
           apply keeps_set_iattr; in_slots.
        -- simpl. rewrite ?fn_lookup_insert_ne by done. rewrite ?fn_lookup_insert.
           rewrite Ha. lia.
        -- simpl. rewrite ?fn_lookup_insert_ne by done. rewrite ?fn_lookup_insert.
           rewrite ?fn_lookup_insert_ne by done. rewrite Hs. unfold pixel_sum. simpl.
           rewrite Hv. simpl. lia.
        -- simpl. rewrite ?fn_lookup_insert. rewrite ?fn_lookup_insert_ne by done.
           rewrite Hq. unfold pixel_sum. simpl. rewrite Hv. simpl. lia.
      * by apply NoDup_cons.
      * intros q. rewrite elem_of_cons, HR. split.
        -- intros [->|[? ?]]; [by auto|]. auto.
        -- intros [Hqp [HD|[= ->]]]; auto.
      * split; [by rewrite length_insert|]. intros q Hq'.
        rewrite zget_insert by (rewrite Hlen; lia).
        destruct (decide (q = oq)) as [->|Hne].
        -- exists false. split; [done|]. split; [done|]. intros Hx. destruct Hx. right. by left.
        -- destruct (Hact q Hq') as (b & Hb' & Hbx'). exists b. split; [done|].
           rewrite Hbx'. rewrite elem_of_cons. intuition.
    + eexists. split; [reflexivity|]. exists R, nd'. cbn [fst snd].
      split_and!; try done. intros q. rewrite HR. split; [intros [? ?]; auto|].
      intros [Hqp [HD|[= ->]]]; [done|].
      destruct (decide (q ∈ R)) as [?|HqR]; [by apply HR|].
      destruct Hbx as [_ Hbx]. exfalso. assert (false = true); [|done].
      apply Hbx. by intros [?|?].
  - eexists. split; [reflexivity|]. exists R, nd'. cbn [fst snd].
    split_and!; try done. intros q. rewrite HR. split; [intros [? ?]; auto|].
    by intros [? [?|?]].
Qed.

(** The ball around one pixel. *)
Lemma nghb_pixel_spec p Dn s :
  ring_state Dn s →
  ∃ s', nghb_pixel m_img ball n s p = Some s' ∧
        ring_state (λ q, Dn q ∨ ∃ d, d ∈ ball ∧ nghb_target m_img p d = Some q) s'.
Proof.
  intros Hs. unfold nghb_pixel.
  destruct (getCoord (sizeX m_img) (sizeY m_img) p) as [[x y] z] eqn:Ec.
  apply (for_each_inv _
           (λ done s, ring_state
              (λ q, Dn q ∨ ∃ d, d ∈ done ∧ nghb_target m_img p d = Some q) s)).
  - eapply ring_state_ext; [|exact Hs]. intros q. split; [auto|].
    by intros [?|(d & ?%elem_of_nil & _)].
  - intros done d [act hpc] HI Hd.
    destruct (nghb_point_spec p d _ act hpc HI) as (s' & Hrun & Hs').
    exists s'. split.
    + rewrite <- Hrun. unfold nghb_target. rewrite Ec.
      by destruct (isPosValid _ _).
    + eapply ring_state_ext; [|exact Hs']. intros q. split.
      * intros [[?|(d' & Hd' & Ht)]|Ht]; [by left| |].
        -- right. exists d'. split; [|done]. apply elem_of_app. by left.
        -- right. exists d. split; [|done]. apply elem_of_app. right. by left.
      * intros [?|(d' & [Hd'| ->%list_elem_of_singleton]%elem_of_app & Ht)].
        -- left. by left.
        -- left. right. by exists d'.
        -- by right.
Qed.

End Ring.

Lemma weight_same_links d hp hp' t :
  same_links hp hp' → weight d hp' t = weight d hp t.
Proof.
  intros Hs. revert t. induction d as [|d IH]; intros t; [done|]. simpl.
  destruct (hp !! t) as [nd|] eqn:Ht.
  - destruct (same_links_lookup _ _ _ _ Hs Ht) as (nd' & -> & -> & _).
    f_equal. f_equal. apply list_fmap_ext. auto.
  - destruct (hp' !! t) as [nd'|] eqn:Ht'; [|done].
    destruct (same_links_lookup _ _ _ _ (same_links_sym _ _ Hs) Ht') as (? & ? & _).
    congruence.
Qed.

Lemma act_ok_ext m_img act (X X' : Z → Prop) :
  (∀ q, X q ↔ X' q) → act_ok m_img act X → act_ok m_img act X'.
Proof.
  intros HX [Hlen Hact]. split; [done|]. intros q Hq.
  destruct (Hact q Hq) as (b & Hb & Hbx). exists b. split; [done|]. by rewrite <- HX.
Qed.

(** [active.fill(true)] followed by the loop that clears the pixels of
    the node. *)
Lemma clear_pixels_spec m_img px :
  (∀ o, o ∈ px → 0 ≤ o < Z.of_nat (length (data m_img))) →
  ∃ act, for_each (λ act px, zset act px false)
                  (replicate (length (data m_img)) true) px = Some act ∧
         act_ok m_img act (λ q, q ∈ px).
Proof.
  intros Hpx.
  apply (for_each_inv _ (λ done act, act_ok m_img act (λ q, q ∈ done))).
  - split; [by rewrite length_replicate|]. intros q Hq. exists true. split.
    + apply zget_replicate. lia.
    + split; [by intros _ ?%elem_of_nil|done].
  - intros done o act [Hlen Hact] Ho. pose proof (Hpx o Ho) as Hr.
    rewrite zset_total by (rewrite Hlen; lia). eexists. split; [reflexivity|].
    split; [by rewrite length_insert|]. intros q Hq.
    rewrite zget_insert by (rewrite Hlen; lia).
    destruct (decide (q = o)) as [->|Hne].
    + exists false. split; [done|]. split; [done|]. intros Hx. destruct Hx.
      apply elem_of_app. right. by left.
    + destruct (Hact q Hq) as (b & Hb & Hbx). exists b. split; [done|].
      rewrite Hbx, elem_of_app, list_elem_of_singleton. intuition.
Qed.

(** ** [computeNeighborhoodAttributes] *)

Section Nghb.

Variable m_img : Image.
Variable ball : FlatSE.
Variable D : nat.
Variable hp0 : list Node.
Variable root : nat.
Hypothesis Hok : image_ok m_img.
Hypothesis Hwf : wf_tree D hp0 root.
Hypothesis Hnodup : ∀ n nd, hp0 !! n = Some nd → NoDup (childs nd).
Hypothesis Hrange : ∀ n nd o, hp0 !! n = Some nd → o ∈ pixels nd →
                              0 ≤ o < Z.of_nat (length (data m_img)).

Lemma subtree_pixel_frame KI KN pb hp n o :
  frame (keeps KI KN pb) hp0 hp →
  subtree_pixel hp n o ↔ subtree_pixel hp0 n o.
Proof.
  intros Hfr. pose proof (frame_same_links _ _ _ (keeps_links _ _ _) Hfr) as Hl.
  split; intros (m & md & Hr & Hm & Ho).
  - destruct (frame_back _ _ _ _ _ _ _ Hfr Hm) as (md0 & Hm0 & Hk).
    exists m, md0. split_and!; [|done|].
    + by apply (reach_same_links _ _ _ _ (same_links_sym _ _ Hl)).
    + destruct Hk as (_ & _ & _ & _ & _ & <- & _). done.
  - destruct (frame_keeps_lookup _ _ _ _ _ _ _ Hfr Hm) as (md' & Hm' & Hk).
    exists m, md'. split_and!; [|done|].
    + by apply (reach_same_links _ _ _ _ Hl).
    + destruct Hk as (_ & _ & _ & _ & _ & -> & _). done.
Qed.

Lemma nghb_visit_spec hp n nd :
  frame (keeps nghb_slots nghb_nslots false) hp0 hp → reach hp0 root n →
  hp0 !! n = Some nd → hp !! n = Some nd →
  ∃ nd',
    (∀ F, (S (weight D hp0 root) ≤ F)%nat →
          computeNeighborhoodAttributes_visit F m_img ball hp n =
          Some (<[n := nd']> hp, childs nd)) ∧
    keeps nghb_slots nghb_nslots false nd nd' ∧
    (blank nd → ring_stats m_img ball hp0 n nd').
Proof.
  intros Hfr Hr Hn0 Hn. destruct Hwf as [Htree0 _].
  pose proof (frame_same_links _ _ _ (keeps_links _ _ _) Hfr) as Hl.
  assert (tree_ok D hp n = true) as Htree.
  { apply (tree_ok_same_links _ _ _ _ Hl). by apply (tree_ok_sub D hp0 root). }
  destruct (merge_pixels_spec D hp n Htree) as (px & Hmerge & Hpx).
  assert (weight D hp n ≤ weight D hp0 root)%nat as Hw.
  { rewrite (weight_same_links D hp0 hp n Hl).
    apply (weight_reach_le D hp0 root root n Htree0); [constructor|done]. }
  assert (∀ o, o ∈ px → 0 ≤ o < Z.of_nat (length (data m_img))) as Hpxr.
  { intros o (m & md & _ & Hm & Ho)%Hpx%(subtree_pixel_frame _ _ _ _ _ _ Hfr).
    by apply (Hrange m md). }
  destruct (clear_pixels_spec m_img px Hpxr) as (act1 & Hclear & Hact1).
  destruct (for_each_inv (nghb_pixel m_img ball n)
              (λ done s, ring_state m_img px hp n nd
                 (λ q, ∃ p d, p ∈ done ∧ d ∈ ball ∧ nghb_target m_img p d = Some q) s)
              px (act1, hp)) as ([actF hp1] & Hloop & R & nd1 & Hhp1 & Hacc & HRnd & HR & _).
  { exists [], nd. cbn [fst snd]. split_and!.
    - by rewrite list_insert_id.
    - split_and!; [apply keeps_refl|simpl; unfold pixel_sum; simpl; lia..].
    - constructor.
    - intros q. split; [by intros ?%elem_of_nil|]. by intros [_ (p & d & ?%elem_of_nil & _)].
    - eapply act_ok_ext; [|exact Hact1]. intros q. split; [auto|].
      by intros [?|?%elem_of_nil]. }
  { intros done p s Hs _.
    destruct (nghb_pixel_spec m_img ball Hok px hp n nd Hn p _ s Hs) as (s' & Hrun & Hs').
    exists s'. split; [done|]. eapply ring_state_ext; [|exact Hs']. intros q. split.
    - intros [(p' & d & Hp' & Hd & Ht)|(d & Hd & Ht)].
      + exists p', d. split_and!; [|done..]. apply elem_of_app. by left.
      + exists p, d. split_and!; [|done..]. apply elem_of_app. right. by left.
    - intros (p' & d & [Hp'| ->%list_elem_of_singleton]%elem_of_app & Hd & Ht).
      + left. by exists p', d.
      + right. by exists d. }
  cbn [fst snd] in Hhp1. subst hp1.
  destruct Hacc as (Hk & Ha & Hs & Hq).
  set (m := LdDiv (LdInt (iattr nd1 sum_nghb)) (LdInt (iattr nd1 area_nghb))).
  set (nd' := if iattr nd1 area_nghb >? 0
              then set_nattr variance_nghb
                     (LdSub (LdDiv (LdInt (iattr nd1 sum_square_nghb))
                                   (LdInt (iattr nd1 area_nghb)))
                            (LdMul m m))
                     (set_nattr mean_nghb m nd1)
              else nd1).
  assert (childs nd1 = childs nd) as Hcs by (by destruct Hk as (_ & _ & _ & _ & -> & _)).
  assert (hp !! n = Some nd → (n < length hp)%nat) as Hlt by (intros ?%lookup_lt_Some; done).
  exists nd'. split_and!.
  - intros F HF. unfold computeNeighborhoodAttributes_visit.
    rewrite Hmerge by lia. cbn [mbind option_bind]. rewrite Hclear.
    cbn [mbind option_bind]. rewrite Hloop. cbn [mbind option_bind].
    rewrite list_lookup_insert_eq by auto. cbn [mbind option_bind].
    rewrite Hcs. f_equal. f_equal. unfold nd', m.
    destruct (iattr nd1 area_nghb >? 0); [|done]. by rewrite list_insert_insert_eq.
  - assert (keeps nghb_slots nghb_nslots false nd nd1) as Hk1.
    { eapply keeps_weaken; [| |done|exact Hk]; [done|sub_slots]. }
    unfold nd'. destruct (iattr nd1 area_nghb >? 0); [|done].
    eapply keeps_trans; [exact Hk1|].
    eapply keeps_trans; [apply keeps_set_nattr|apply keeps_set_nattr]; in_slots.
  - intros (Bn & Ba & Bs & Bq). rewrite Ba in Ha. rewrite Bs in Hs. rewrite Bq in Hq.
    assert (∀ a, nattr nd1 a = LdInt 0) as Hn1.
    { intros a. destruct Hk as (_ & _ & _ & _ & _ & _ & _ & _ & _ & _ & ->);
        [by rewrite Bn|apply not_elem_of_nil]. }
    exists R. split_and!; [done| | | | | |].
    + intros q. rewrite HR. unfold ring_pixel.
      rewrite <- (subtree_pixel_frame _ _ _ hp n q Hfr), <- Hpx. split.
      * intros [Hq' (p & d & Hp & Hd & Ht)]. split; [done|]. exists p, d.
        split_and!; [|done..]. by apply (subtree_pixel_frame _ _ _ hp n p Hfr), Hpx.
      * intros [Hq' (p & d & Hp & Hd & Ht)]. split; [done|]. exists p, d.
        split_and!; [|done..]. by apply Hpx, (subtree_pixel_frame _ _ _ hp n p Hfr).
    + unfold nd'. destruct (iattr nd1 area_nghb >? 0); simpl; lia.
    + unfold nd'. destruct (iattr nd1 area_nghb >? 0); simpl; lia.
    + unfold nd'. destruct (iattr nd1 area_nghb >? 0); simpl; lia.
    + unfold nd'. destruct (decide (R = [])) as [->|HRne].
      * simpl in Ha. rewrite Ha. simpl. apply Hn1.
      * assert ((iattr nd1 area_nghb >? 0) = true) as ->.
        { destruct R; [done|]. simpl in Ha. lia. }
        simpl. rewrite fn_lookup_insert_ne by done. by rewrite fn_lookup_insert.
    + unfold nd'. destruct (decide (R = [])) as [->|HRne].
      * simpl in Ha. rewrite Ha. simpl. apply Hn1.
      * assert ((iattr nd1 area_nghb >? 0) = true) as ->.
        { destruct R; [done|]. simpl in Ha. lia. }
        simpl. rewrite fn_lookup_insert. rewrite fn_lookup_insert_ne by done.
        by rewrite fn_lookup_insert.
Qed.

Lemma computeNeighborhoodAttributes_ball :
  ∃ hp',
    (∀ fuel, (S (weight D hp0 root) ≤ fuel)%nat →
       queue_loop (computeNeighborhoodAttributes_visit fuel m_img ball) fuel hp0 [root] =
       Some hp') ∧
    frame (keeps nghb_slots nghb_nslots false) hp0 hp' ∧
    ∀ n nd, reach hp0 root n → hp0 !! n = Some nd → blank nd →
            ∃ nd', hp' !! n = Some nd' ∧ ring_stats m_img ball hp0 n nd'.
Proof.
  destruct (queue_once D hp0 root Hwf Hnodup
              (λ F, computeNeighborhoodAttributes_visit F m_img ball)
              (S (weight D hp0 root)) nghb_slots nghb_nslots
              (λ n nd nd', blank nd → ring_stats m_img ball hp0 n nd'))
    as (hp' & Hrun & Hfr & HP).
  - intros hp n nd Hfr Hr Hn0 Hn. by apply nghb_visit_spec.
  - exists hp'. split_and!; [|done|].
    + intros fuel Hf. apply Hrun; lia.
    + intros n nd Hr Hn Hb. destruct (HP n nd Hr Hn) as (nd' & Hn' & Hst).
      exists nd'. split; [done|]. by apply Hst.
Qed.

End Nghb.

Lemma computeNeighborhoodAttributes_total m_img r D hp0 root :
  image_ok m_img → wf_tree D hp0 root →
  (∀ n nd, hp0 !! n = Some nd → NoDup (childs nd)) →
  (∀ n nd o, hp0 !! n = Some nd → o ∈ pixels nd →
             0 ≤ o < Z.of_nat (length (data m_img))) →
  ∃ hp',
    converges (λ fuel, computeNeighborhoodAttributes fuel m_img r root hp0) hp' ∧
    frame (keeps nghb_slots nghb_nslots false) hp0 hp' ∧
    ∀ n nd, reach hp0 root n → hp0 !! n = Some nd → blank nd →
            ∃ nd', hp' !! n = Some nd' ∧
                   ring_stats m_img (make2DEuclidianBall r) hp0 n nd'.
Proof.
  intros Hok Hwf Hnodup Hrange.
  destruct (computeNeighborhoodAttributes_ball m_img (make2DEuclidianBall r) D hp0 root
              Hok Hwf Hnodup Hrange) as (hp' & Hrun & Hfr & HP).
  exists hp'. split_and!; [|done..].
  exists (S (weight D hp0 root)). intros fuel Hf. by apply Hrun.
Qed.

(** ** The passes of [computeAttributes(tree, ca, delta)] *)

Lemma pb_ok_frame N KI KN hp hp' :
  frame (keeps KI KN false) hp hp' → pb_ok N hp → pb_ok N hp'.
Proof.
  intros Hfr Hpb n nd' p Hn' Hp.
  destruct (frame_back _ _ _ _ _ _ _ Hfr Hn') as (nd & Hn & Hk).
  destruct Hk as (_ & _ & _ & _ & _ & _ & _ & _ & Hb & _).
  rewrite Hb in Hp by done. by apply (Hpb n nd).
Qed.

Section Stages.

Variable c : Strategy.
Variable st0 : list Z.
Variable cap : Z → nat.
Variable sF : Flood.
Variable root : nat.
Variable p0 : Z.
Variable N : Z.
Variable T : PixelType.
Hypothesis Hbuilt : built c st0 cap sF root p0 N.
Hypothesis HT : hMin c ≤ tmax T.

Local Abbreviation ready := (ready c sF root).
Local Abbreviation staged := (stage c sF root N).

Lemma stage_bind (f g : nat → Flood → option Flood) :
  staged f → staged g → staged (λ fuel s, f fuel s ≫= g fuel).
Proof.
  intros Hf Hg s Hr Hpb.
  destruct (Hf s Hr Hpb) as (hp1 & C1 & F1 & P1).
  pose proof (ready_frame c sF root _ _ _ _ _ Hr F1) as Hr1.
  destruct (Hg (set_heap hp1 s) Hr1 P1) as (hp2 & C2 & F2 & P2).
  exists hp2. split_and!; [|by eapply frame_trans; [apply keeps_trans|..]|done].
  by apply (converges_bind _ _ _ _ C1).
Qed.

Lemma stage_when b (f : nat → Flood → option Flood) :
  staged f → staged (λ fuel, when b (f fuel)).
Proof.
  intros Hf s Hr Hpb. destruct b; [by apply Hf|].
  exists (heap s). split_and!; [|apply frame_refl, keeps_refl|done].
  exists 0%nat. intros fuel _. simpl. by rewrite set_heap_id.
Qed.

Lemma stage_if (b : bool) (f g : nat → Flood → option Flood) :
  staged f → staged g → staged (λ fuel s, if b then f fuel s else g fuel s).
Proof. intros Hf Hg. by destruct b. Qed.

Lemma stage_on_heap (g : nat → list Node → option (list Node)) KI KN :
  (∀ hp, wf_tree (Z.to_nat (numberOfLevels c)) hp root →
         ∃ hp', converges (λ fuel, g fuel hp) hp' ∧ frame (keeps KI KN false) hp hp') →
  KI ⊆ late_slots → KN ⊆ late_nslots →
  staged (λ fuel, on_heap (g fuel)).
Proof.
  intros Hg HKI HKN s Hr Hpb. destruct (Hg (heap s) (proj2 Hr)) as (hp' & C & F).
  exists hp'. split_and!.
  - by apply converges_on_heap.
  - by eapply frame_weaken; [| | |exact F].
  - by eapply pb_ok_frame.
Qed.

Lemma stage_contour save : staged (λ fuel, computeContour c T fuel save).
Proof.
  intros s Hr Hpb. destruct Hbuilt as (Hctx & Hfinal & Hall & Hoff).
  destruct (computeContour_total c st0 cap T sF root p0 N Hctx Hfinal Hall HT Hoff save s
              (proj1 Hr)) as (hp' & C & [F Hnew] & _).
  exists hp'. split_and!; [done| |].
  - eapply frame_weaken; [| | |exact F]; [unfold late_slots; sub_slots|sub_slots|done].
  - intros n nd' p Hn' Hp.
    destruct (frame_back _ _ _ _ _ _ _ F Hn') as (nd & Hn & _).
    destruct (Hnew n nd nd' p Hn Hn' Hp) as [?|?]; [by apply (Hpb n nd)|done].
Qed.

Lemma stage_border_gradient :
  N ≤ Z.of_nat (length (data (imGradient c))) →
  staged (λ fuel, on_heap (λ hp, void (computeBorderGradient (imGradient c) fuel hp root))).
Proof.
  intros HN s Hr Hpb.
  destruct (computeBorderGradient_total _ (heap s) root (proj2 Hr) (imGradient c))
    as (hp' & C & F).
  { intros n nd p Hn Hp. apply zget_is_Some. pose proof (Hpb n nd p Hn Hp). lia. }
  exists hp'. split_and!.
  - by apply (converges_on_heap (λ fuel hp, void (computeBorderGradient _ fuel hp root))).
  - eapply frame_weaken; [| | |exact F]; [sub_slots|unfold late_nslots; sub_slots|done].
  - by eapply pb_ok_frame.
Qed.

Ltac stage_seq :=
  lazymatch goal with
  | |- stage _ _ _ _ (λ fuel s, @?f fuel s ≫= @?g fuel) =>
      apply (stage_bind f g)
  end.

Ltac stage_opt :=
  lazymatch goal with
  | |- stage _ _ _ _ (λ fuel s, when ?b (@?f fuel) s) =>
      apply (stage_when b f)
  end.

(** The bundles after [AREA] and [OTSU]. *)
Lemma late_stage ca delta :
  N ≤ Z.of_nat (length (data (imGradient c))) →
  ∃ tail : nat → Flood → option Flood,
    staged tail ∧
    ∀ fuel s,
      computeAttributes_ca c T fuel (Some root) ca delta s =
      when (has ca AREA) (λ s,
        s ← on_heap (assign area computeArea fuel root) s;
        when (has ca OTSU) (λ s,
          s ← on_heap (assign sum computeSum fuel root) s;
          s ← on_heap (assign sum_square computeSumSquare fuel root) s;
          s ← on_heap (λ hp, void (computeMean fuel hp root)) s;
          s ← on_heap (λ hp, void (computeVariance fuel hp root)) s;
          on_heap (λ hp, void (computeOtsu fuel hp root)) s) s) s ≫= tail fuel.
Proof.
  intros HN. eexists. split; [|intros fuel s; unfold computeAttributes_ca; reflexivity].
  cbv beta.
  stage_seq.
  { stage_opt. stage_seq; [|stage_seq].
    - apply (stage_on_heap (λ fuel hp, void (computeAreaDerivative fuel hp root))
               [] [area_derivative_areaN; area_derivative_h; area_derivative_areaN_h]);
        [|sub_slots|unfold late_nslots; sub_slots].
      intros hp Hwf. apply (computeAreaDerivative_total _ hp root Hwf).
    - apply (stage_on_heap (λ fuel hp, void (computeAreaDerivative2 fuel hp root))
               [] [area_derivative_areaN_h_derivative]);
        [|sub_slots|unfold late_nslots; sub_slots].
      intros hp Hwf. apply (computeAreaDerivative2_total _ hp root Hwf).
    - apply (stage_on_heap (λ fuel hp, void (computeMSER fuel hp root delta))
               [] mser_slots); [|sub_slots|unfold late_nslots, mser_slots; sub_slots].
      intros hp Hwf. apply (computeMSER_total _ hp root Hwf). }
  stage_seq.
  { stage_opt.
    apply (stage_on_heap (λ fuel hp, assign contrast computeContrast fuel root hp)
             [contrast] []); [|unfold late_slots; sub_slots|sub_slots].
    intros hp Hwf. apply (computeContrast_total _ hp root Hwf). }
  stage_seq.
  { stage_opt.
    apply (stage_on_heap (λ fuel hp, assign volume computeVolume fuel root hp)
             [volume] []); [|unfold late_slots; sub_slots|sub_slots].
    intros hp Hwf. apply (computeVolume_total _ hp root Hwf). }
  stage_seq.
  { stage_opt. stage_seq; [apply stage_contour|by apply stage_border_gradient]. }
  stage_seq.
  { stage_opt.
    assert (staged (λ fuel, on_heap (λ hp, computeComplexityAndCompacity fuel hp root)))
      as Hcc.
    { apply (stage_on_heap (λ fuel hp, computeComplexityAndCompacity fuel hp root)
               [] [complexity; compacity]); [|sub_slots|unfold late_nslots; sub_slots].
      intros hp Hwf. apply (computeComplexityAndCompacity_total _ hp root Hwf). }
    apply (stage_if (has ca BORDER_GRADIENT)
             (λ fuel, on_heap (λ hp, computeComplexityAndCompacity fuel hp root))
             (λ fuel s, s ← computeContour c T fuel false s;
                        on_heap (λ hp, computeComplexityAndCompacity fuel hp root) s));
      [done|].
    stage_seq; [apply stage_contour|done]. }
  stage_seq.
  { stage_opt.
    apply (stage_on_heap (λ fuel hp, computeBoundingBox fuel hp root)
             [xmin; xmax; ymin; ymax; zmin; zmax] []);
      [|unfold late_slots; sub_slots|sub_slots].
    intros hp Hwf. apply (computeBoundingBox_total _ hp root Hwf). }
  stage_opt.
  apply (stage_on_heap (λ fuel hp, assign subNodes computeSubNodes fuel root hp)
           [subNodes] []); [|unfold late_slots; sub_slots|sub_slots].
  intros hp Hwf. apply (computeSubNodes_total _ hp root Hwf).
Qed.

End Stages.

(** ** The bundle [OTSU] *)

Lemma converges_ext {A} (f g : nat → option A) r :
  (∀ fuel, f fuel = g fuel) → converges g r → converges f r.
Proof. intros E [k H]. exists k. intros fuel Hf. rewrite E. by apply H. Qed.

Lemma mean_keeps KI KN pb nd nd' :
  keeps KI KN pb nd nd' → area ∉ KI → sum ∉ KI → mean ∉ KN →
  nattr nd mean = LdDiv (LdInt (iattr nd sum)) (LdInt (iattr nd area)) →
  nattr nd' mean = LdDiv (LdInt (iattr nd' sum)) (LdInt (iattr nd' area)).
Proof.
  intros (_ & _ & _ & _ & _ & _ & _ & _ & _ & Hi & Hn) H1 H2 H3 E.
  by rewrite (Hi area H1), (Hi sum H2), (Hn mean H3).
Qed.

Lemma variance_keeps KI KN pb nd nd' :
  keeps KI KN pb nd nd' → area ∉ KI → sum_square ∉ KI → mean ∉ KN → variance ∉ KN →
  nattr nd variance =
    LdSub (LdDiv (LdInt (iattr nd sum_square)) (LdInt (iattr nd area)))
          (LdMul (nattr nd mean) (nattr nd mean)) →
  nattr nd' variance =
    LdSub (LdDiv (LdInt (iattr nd' sum_square)) (LdInt (iattr nd' area)))
          (LdMul (nattr nd' mean) (nattr nd' mean)).
Proof.
  intros (_ & _ & _ & _ & _ & _ & _ & _ & _ & Hi & Hn) H1 H2 H3 H4 E.
  by rewrite (Hi area H1), (Hi sum_square H2), (Hn mean H3), (Hn variance H4).
Qed.

Lemma otsu_keeps KI KN pb nd nd' :
  keeps KI KN pb nd nd' →
  mean ∉ KN → variance ∉ KN → mean_nghb ∉ KN → variance_nghb ∉ KN → otsu ∉ KN →
  nattr nd otsu = otsu_of nd → nattr nd' otsu = otsu_of nd'.
Proof.
  intros (_ & _ & _ & _ & _ & _ & _ & _ & _ & Hi & Hn) H1 H2 H3 H4 H5 E.
  unfold otsu_of in *.
  by rewrite (Hn mean H1), (Hn variance H2), (Hn mean_nghb H3), (Hn variance_nghb H4),
    (Hn otsu H5).
Qed.

Lemma otsu_node_keeps KI KN pb nd nd' :
  keeps KI KN pb nd nd' → area ∉ KI → sum ∉ KI → sum_square ∉ KI →
  mean ∉ KN → variance ∉ KN → mean_nghb ∉ KN → variance_nghb ∉ KN → otsu ∉ KN →
  otsu_node nd → otsu_node nd'.
Proof.
  intros Hk ? ? ? ? ? ? ? ? (E1 & E2 & E3). split_and!.
  - by eapply mean_keeps.
  - by eapply variance_keeps.
  - by eapply otsu_keeps.
Qed.

Lemma ring_stats_keeps m_img ball hp n KI KN pb nd nd' :
  keeps KI KN pb nd nd' →
  area_nghb ∉ KI → sum_nghb ∉ KI → sum_square_nghb ∉ KI →
  mean_nghb ∉ KN → variance_nghb ∉ KN →
  ring_stats m_img ball hp n nd → ring_stats m_img ball hp n nd'.
Proof.
  intros (_ & _ & _ & _ & _ & _ & _ & _ & _ & Hi & Hn) H1 H2 H3 H4 H5
    (R & HR & Hring & E1 & E2 & E3 & E4 & E5).
  exists R.
  rewrite (Hi area_nghb H1), (Hi sum_nghb H2), (Hi sum_square_nghb H3),
    (Hn mean_nghb H4), (Hn variance_nghb H5).
  by split_and!.
Qed.

Lemma ring_stats_heap m_img ball KI KN pb hp hp' n nd :
  frame (keeps KI KN pb) hp hp' →
  ring_stats m_img ball hp n nd → ring_stats m_img ball hp' n nd.
Proof.
  intros Hfr (R & HR & Hring & E). exists R. split; [done|]. split; [|done].
  intros q. rewrite Hring. unfold ring_pixel.
  rewrite (subtree_pixel_frame hp KI KN pb hp' n q Hfr). split.
  - intros [Hq (p & d & Hp & Hd & Ht)]. split; [done|]. exists p, d.
    split_and!; [|done..]. by apply (subtree_pixel_frame hp KI KN pb hp' n p Hfr).
  - intros [Hq (p & d & Hp & Hd & Ht)]. split; [done|]. exists p, d.
    split_and!; [|done..]. by apply (subtree_pixel_frame hp KI KN pb hp' n p Hfr).
Qed.

Section Masks.

Variable c : Strategy.
Variable st0 : list Z.
Variable cap : Z → nat.
Variable sF : Flood.
Variable root : nat.
Variable p0 : Z.
Variable N : Z.
Variable T : PixelType.
Hypothesis Hbuilt : built c st0 cap sF root p0 N.
Hypothesis HT : hMin c ≤ tmax T.
Hypothesis HN : N ≤ Z.of_nat (length (data (imGradient c))).

Local Abbreviation ready := (ready c sF root).
Local Abbreviation D := (Z.to_nat (numberOfLevels c)).

(** [computeAttributes(tree, ca, delta)] for a mask with [AREA] and
    [OTSU]: it returns, and every node of the tree holds its mean, its
    variance and its Otsu criterion. *)
Lemma computeAttributes_ca_total ca delta s :
  has ca AREA = true → has ca OTSU = true →
  ready s → pb_ok N (heap s) →
  ∃ hp',
    converges (λ fuel, computeAttributes_ca c T fuel (Some root) ca delta s)
              (set_heap hp' s) ∧
    frame (keeps ca_slots ca_nslots true) (heap s) hp' ∧
    ∀ m, reach (heap s) root m → ∃ nd, hp' !! m = Some nd ∧ otsu_node nd.
Proof.
  intros Ha Ho Hr0 Hpb.
  destruct (late_stage c st0 cap sF root p0 N T Hbuilt HT ca delta HN)
    as (tail & Htail & Heq).
  destruct (computeSumOf_total D _ root (proj2 Hr0) area) as (hp1 & C1 & F1).
  pose proof (ready_frame c sF root _ _ _ _ _ Hr0 F1) as Hr1.
  destruct (computeSumOf_total D _ root (proj2 Hr1) sum) as (hp2 & C2 & F2).
  pose proof (ready_frame c sF root _ _ _ _ _ Hr1 F2) as Hr2.
  destruct (computeSumOf_total D _ root (proj2 Hr2) sum_square) as (hp3 & C3 & F3).
  pose proof (ready_frame c sF root _ _ _ _ _ Hr2 F3) as Hr3.
  destruct (computeMean_total D _ root (proj2 Hr3)) as (hp4 & C4 & F4 & Q4).
  pose proof (ready_frame c sF root _ _ _ _ _ Hr3 F4) as Hr4.
  destruct (computeVariance_total D _ root (proj2 Hr4)) as (hp5 & C5 & F5 & Q5).
  pose proof (ready_frame c sF root _ _ _ _ _ Hr4 F5) as Hr5.
  destruct (computeOtsu_total D _ root (proj2 Hr5)) as (hp6 & C6 & F6 & Q6).
  pose proof (ready_frame c sF root _ _ _ _ _ Hr5 F6) as Hr6.
  cbn [heap set_heap] in *.
  assert (frame (keeps ca_slots ca_nslots false) (heap s) hp3) as G3.
  { eapply frame_trans; [apply keeps_trans| |].
    { eapply frame_weaken; [| | |exact F1]; [unfold ca_slots; sub_slots|sub_slots|done]. }
    eapply frame_trans; [apply keeps_trans| |].
    { eapply frame_weaken; [| | |exact F2]; [unfold ca_slots; sub_slots|sub_slots|done]. }
    eapply frame_weaken; [| | |exact F3]; [unfold ca_slots; sub_slots|sub_slots|done]. }
  assert (frame (keeps ca_slots ca_nslots false) (heap s) hp4) as G4.
  { eapply frame_trans; [apply keeps_trans|exact G3|].
    eapply frame_weaken; [| | |exact F4]; [sub_slots|unfold ca_nslots; sub_slots|done]. }
  assert (frame (keeps ca_slots ca_nslots false) (heap s) hp5) as G5.
  { eapply frame_trans; [apply keeps_trans|exact G4|].
    eapply frame_weaken; [| | |exact F5]; [sub_slots|unfold ca_nslots; sub_slots|done]. }
  assert (frame (keeps ca_slots ca_nslots false) (heap s) hp6) as G6.
  { eapply frame_trans; [apply keeps_trans|exact G5|].
    eapply frame_weaken; [| | |exact F6]; [sub_slots|unfold ca_nslots; sub_slots|done]. }
  destruct (Htail (set_heap hp6 s) Hr6 (pb_ok_frame _ _ _ _ _ G6 Hpb))
    as (hp7 & C7 & F7 & P7).
  cbn [heap set_heap] in *.
  exists hp7. split_and!.
  - apply (converges_ext _ _ _ (λ fuel, Heq fuel s)). rewrite Ha, Ho. cbn [when].
    apply (converges_bind _ tail (set_heap hp6 s)); [|exact C7].
    eapply converges_bind; [apply converges_on_heap; exact C1|].
    eapply converges_bind; [apply (converges_on_heap _ (set_heap hp1 s)); exact C2|].
    eapply converges_bind; [apply (converges_on_heap _ (set_heap hp2 s)); exact C3|].
    eapply converges_bind;
      [apply (converges_on_heap (λ fuel hp, void (computeMean fuel hp root))
                (set_heap hp3 s)); exact C4|].
    eapply converges_bind;
      [apply (converges_on_heap (λ fuel hp, void (computeVariance fuel hp root))
                (set_heap hp4 s)); exact C5|].
    apply (converges_on_heap (λ fuel hp, void (computeOtsu fuel hp root))
             (set_heap hp5 s)). exact C6.
  - eapply frame_trans; [apply keeps_trans| |].
    { eapply frame_weaken; [| | |exact G6]; done. }
    eapply frame_weaken; [| | |exact F7];
      [unfold late_slots, ca_slots; sub_slots|unfold late_nslots, ca_nslots; sub_slots|done].
  - intros m Hm.
    assert (∀ hp, frame (keeps ca_slots ca_nslots false) (heap s) hp → reach hp root m)
      as Hreach.
    { intros hp G. apply (reach_same_links (heap s)); [|done].
      apply (frame_same_links _ _ _ (keeps_links _ _ _) G). }
    destruct (Q4 m (Hreach _ G3)) as (nd4 & Hn4 & E4).
    destruct (Q5 m (Hreach _ G4)) as (nd5 & Hn5 & E5).
    destruct (Q6 m (Hreach _ G5)) as (nd6 & Hn6 & E6).
    destruct (frame_keeps_lookup _ _ _ _ _ _ _ F5 Hn4) as (nd5' & Hn5' & K5).
    assert (nd5' = nd5) as -> by congruence.
    destruct (frame_keeps_lookup _ _ _ _ _ _ _ F6 Hn5) as (nd6' & Hn6' & K6).
    assert (nd6' = nd6) as -> by congruence.
    destruct (frame_keeps_lookup _ _ _ _ _ _ _ F7 Hn6) as (nd7 & Hn7 & K7).
    exists nd7. split; [done|].
    apply (otsu_node_keeps _ _ _ nd6 nd7 K7);
      [unfold late_slots; not_in_slots..|unfold late_nslots; not_in_slots
       |unfold late_nslots; not_in_slots|unfold late_nslots; not_in_slots
       |unfold late_nslots; not_in_slots|unfold late_nslots; not_in_slots|].
    split_and!; [| |done].
    + apply (mean_keeps _ _ _ nd5 nd6 K6); [not_in_slots..|].
      apply (mean_keeps _ _ _ nd4 nd5 K5); [not_in_slots..|done].
    + apply (variance_keeps _ _ _ nd5 nd6 K6); [not_in_slots..|done].
Qed.

End Masks.

(** ** [ComponentTree(img, connexity, ca, delta)] *)

Section MaskSkip.

Variable c : Strategy.
Variable st0 : list Z.
Variable cap : Z → nat.
Variable sF : Flood.
Variable root : nat.
Variable p0 : Z.
Variable N : Z.
Variable T : PixelType.
Hypothesis Hbuilt : built c st0 cap sF root p0 N.
Hypothesis HT : hMin c ≤ tmax T.
Hypothesis HN : N ≤ Z.of_nat (length (data (imGradient c))).

(** Without [AREA] in the mask the passes of [AREA] and [OTSU] are not
    run. *)
Lemma computeAttributes_ca_skips ca delta s :
  has ca AREA = false →
  ready c sF root s → pb_ok N (heap s) →
  ∃ hp',
    converges (λ fuel, computeAttributes_ca c T fuel (Some root) ca delta s)
              (set_heap hp' s) ∧
    frame (keeps late_slots late_nslots true) (heap s) hp'.
Proof.
  intros Ha Hr Hpb.
  destruct (late_stage c st0 cap sF root p0 N T Hbuilt HT ca delta HN)
    as (tail & Htail & Heq).
  destruct (Htail s Hr Hpb) as (hp' & C & F & _).
  exists hp'. split; [|done].
  apply (converges_ext _ _ _ (λ fuel, Heq fuel s)). by rewrite Ha.
Qed.

(** The builder leaves no contour pixel. *)
Lemma built_pb_ok : pb_ok N (heap sF).
Proof.
  destruct Hbuilt as (_ & Hfinal & _). intros n nd p Hn Hp.
  destruct (final_fresh _ _ _ _ _ _ Hfinal n nd Hn) as [_ E]. rewrite E in Hp.
  by apply elem_of_nil in Hp.
Qed.

End MaskSkip.

(** The builder followed by the neighborhood pass that the flag [OTSU]
    selects. *)
Lemma ComponentTree_ca_nghb img gradient connexity ca delta :
  image_ok img → connected img connexity →
  ∃ lo hi s0 sF root p0 hpN,
    getMin img = Some lo ∧
    init img gradient connexity =
      Some (init_strategy img gradient connexity lo hi, s0) ∧
    converges (λ fuel, computeTree (init_strategy img gradient connexity lo hi) fuel s0)
              (Some root, sF) ∧
    built (init_strategy img gradient connexity lo hi) (init_status img connexity)
          (histo img lo) sF root p0 (Z.of_nat (length (data img))) ∧
    converges
      (λ fuel, when (has ca OTSU) (λ s,
                 r ← Some root;
                 on_heap (computeNeighborhoodAttributes fuel img (int_of_uint delta) r) s)
               sF)
      (set_heap hpN sF) ∧
    frame (keeps nghb_slots nghb_nslots false) (heap sF) hpN ∧
    (has ca OTSU = true →
     ∀ n nd, heap sF !! n = Some nd →
       ∃ nd', hpN !! n = Some nd' ∧
              ring_stats img (make2DEuclidianBall (int_of_uint delta)) (heap sF) n nd').
Proof.
  intros Hok Hconn.
  destruct (build_built img gradient connexity Hok Hconn)
    as (lo & hi & s0 & root & sF & p0 & Hlo & Hhi & Hinit & Hrun & Hbuilt).
  pose proof Hbuilt as (_ & Hfinal & _).
  destruct (build_pixels img gradient connexity lo hi sF root p0 Hok Hlo Hhi Hbuilt)
    as [Hval _].
  destruct (has ca OTSU) eqn:Ho.
  - destruct (computeNeighborhoodAttributes_total img (int_of_uint delta) _ (heap sF) root
                Hok (built_wf _ _ _ _ _ _ _ Hbuilt)) as (hpN & C & F & HR).
    { intros n nd Hn. by destruct (final_blank _ _ _ _ _ _ Hfinal n nd Hn). }
    { intros n nd o Hn Ho'. apply (zget_range _ _ _ (Hval n nd o Hn Ho')). }
    exists lo, hi, s0, sF, root, p0, hpN. split_and!; try done.
    + cbn [when mbind option_bind].
      by apply (converges_on_heap
                  (λ fuel, computeNeighborhoodAttributes fuel img (int_of_uint delta) root)).
    + intros _ n nd Hn. apply (HR n nd); [|done|].
      * by apply (final_reach _ _ _ _ _ _ Hfinal n nd).
      * by destruct (final_blank _ _ _ _ _ _ Hfinal n nd Hn).
  - exists lo, hi, s0, sF, root, p0, (heap sF). split_and!; try done.
    + exists 0%nat. intros fuel _. cbn [when]. by rewrite set_heap_id.
    + apply frame_refl, keeps_refl.
Qed.

(** * The flag [OTSU] and the flag [AREA] *)




(** ** The accumulating passes: [computeArea], [computeSum],
    [computeSumSquare] *)

Lemma subtree_sum_stable f d hp n d' :
  tree_ok d hp n = true → (d ≤ d')%nat →
  subtree_sum d' hp f n = subtree_sum d hp f n.
Proof.
  revert n d'. induction d as [|d IH]; intros n d' Hok Hle; [done|].
  destruct d' as [|d']; [lia|].
  apply tree_ok_unfold in Hok as (nd & Hn & Hc). simpl. rewrite Hn. f_equal. f_equal.
  apply list_fmap_ext. intros i c Hi. apply list_elem_of_lookup_2 in Hi.
  destruct (Hc c Hi) as (cn & _ & _ & Hok). apply IH; [done|lia].
Qed.

(** The sum depends on the links and on the values of [f] only. *)
Lemma subtree_sum_ext f f' d hp hp' n :
  same_links hp hp' →
  (∀ m nd nd', hp !! m = Some nd → hp' !! m = Some nd' → f m nd = f' m nd') →
  subtree_sum d hp f n = subtree_sum d hp' f' n.
Proof.
  intros Hl Hf. revert n. induction d as [|d IH]; intros n; [done|]. simpl.
  destruct (hp !! n) as [nd|] eqn:Hn.
  - destruct (same_links_lookup _ _ _ _ Hl Hn) as (nd' & Hn' & Hcs & _).
    rewrite Hn', Hcs, (Hf n nd nd' Hn Hn'). f_equal. f_equal.
    apply list_fmap_ext. intros i c _. apply IH.
  - specialize (Hl n). rewrite Hn in Hl. destruct (hp' !! n); done.
Qed.

Lemma reach_last hp a b :
  reach hp a b → b = a ∨ ∃ m nd, reach hp a m ∧ hp !! m = Some nd ∧ b ∈ childs nd.
Proof. destruct 1 as [|m c nd Hr Hm Hc]; [by left|right]. by exists m, nd. Qed.

Lemma computeSumOf_S a fuel hp t :
  computeSumOf a (S fuel) hp t =
  nd ← hp !! t;
  s ← for_each (λ s c, '(r, hp') ← computeSumOf a fuel s.2 c;
                      hp'' ← upd_iattr t a (λ v, v + r) hp'; Some (tt, hp''))
               (tt, hp) (childs nd);
  nd' ← s.2 !! t; Some (iattr nd' a, s.2).
Proof. reflexivity. Qed.

Section Sums.

Variable D : nat.
Variable hp0 : list Node.
Variable root : nat.
Hypothesis Hwf : wf_tree D hp0 root.
Hypothesis Hnodup : ∀ n nd, hp0 !! n = Some nd → NoDup (childs nd).

Lemma subtree_sum_unfold f n nd :
  reach hp0 root n → hp0 !! n = Some nd →
  subtree_sum D hp0 f n = f n nd + foldr Z.add 0 (subtree_sum D hp0 f <$> childs nd).
Proof.
  intros Hr Hn. destruct Hwf as [Hok _].
  destruct (tree_ok_reach _ _ _ _ Hok Hr) as (d & Hle & Hokn).
  rewrite (subtree_sum_stable f (S d) hp0 n D Hokn Hle). simpl. rewrite Hn. f_equal. f_equal.
  apply list_fmap_ext. intros i c Hi. apply list_elem_of_lookup_2 in Hi.
  apply tree_ok_unfold in Hokn as (nd' & Hn' & Hcs). assert (nd' = nd) as -> by congruence.
  destruct (Hcs c Hi) as (cn & _ & _ & Hokc). symmetry. apply subtree_sum_stable; [done|lia].
Qed.

(** The subtrees of two children of a node share no node. *)
Lemma siblings_apart t nd c c' m :
  reach hp0 root t → hp0 !! t = Some nd → c ∈ childs nd → c' ∈ childs nd →
  reach hp0 c m → reach hp0 c' m → c = c'.
Proof.
  intros Hrt Ht Hc Hc' Hrm Hrm'. pose proof Hwf as [Hok _].
  assert (reach hp0 root c) as Hrc by exact (reach_child hp0 root t c nd Hrt Ht Hc).
  assert (reach hp0 root c') as Hrc' by exact (reach_child hp0 root t c' nd Hrt Ht Hc').
  revert Hrm. induction Hrm' as [|p' m nd' Hr' IH Hp' Hm']; intros Hrm.
  - apply reach_last in Hrm as [?|(p & ndp & Hrp & Hp & Hx)]; [done|]. exfalso.
    assert (p = t) as ->.
    { apply (parent_unique D hp0 root Hwf p ndp t nd c'); try done.
      exact (reach_trans _ _ _ _ Hrc Hrp). }
    by apply (child_not_above D hp0 root t nd c Hok Hrt Ht Hc).
  - apply reach_last in Hrm as [->|(p & ndp & Hrp & Hp & Hx)].
    + exfalso. assert (p' = t) as ->.
      { apply (parent_unique D hp0 root Hwf p' nd' t nd c); try done.
        exact (reach_trans _ _ _ _ Hrc' Hr'). }
      by apply (child_not_above D hp0 root t nd c' Hok Hrt Ht Hc').
    + assert (p = p') as ->.
      { apply (parent_unique D hp0 root Hwf p ndp p' nd' m); try done.
        - exact (reach_trans _ _ _ _ Hrc Hrp).
        - exact (reach_trans _ _ _ _ Hrc' Hr'). }
      by apply IH.
Qed.

Variable a : IntAttr.

Local Abbreviation total := (subtree_sum D hp0 (λ _ nd, iattr nd a)).

(** [computeArea], [computeSum] and [computeSumSquare] on a subtree that
    no pass touched yet: the value returned, and left in the slot of
    every node of the subtree, is the sum of the slots over the subtree
    of the node. *)
Lemma computeSumOf_values d t hp :
  tree_ok d hp0 t = true → reach hp0 root t →
  (∀ m, reach hp0 t m → hp !! m = hp0 !! m) →
  ∃ hp',
    (∀ fuel, (d ≤ fuel)%nat → computeSumOf a fuel hp t = Some (total t, hp')) ∧
    (∀ m, reach hp0 t m →
       ∃ nd0 nd', hp0 !! m = Some nd0 ∧ hp' !! m = Some nd' ∧
                  keeps [a] [] false nd0 nd' ∧ iattr nd' a = total m) ∧
    (∀ m, ¬ reach hp0 t m → hp' !! m = hp !! m).
Proof.
  pose proof Hwf as [Hok _].
  revert t hp. induction d as [|d IH]; intros t hp Hokt Hrt Hsame; [done|].
  apply tree_ok_unfold in Hokt as (nd0 & Ht0 & Hcs).
  assert (hp !! t = Some nd0) as Ht by (rewrite Hsame; [done|constructor]).
  assert (∀ cs acc hpc ndc,
    (∀ c, c ∈ cs → c ∈ childs nd0) → NoDup cs →
    hpc !! t = Some ndc → keeps [a] [] false nd0 ndc → iattr ndc a = acc →
    (∀ c m, c ∈ cs → reach hp0 c m → hpc !! m = hp0 !! m) →
    ∃ hp' nd',
      (∀ fuel, (d ≤ fuel)%nat →
         for_each (λ s c, '(r, hp1) ← computeSumOf a fuel s.2 c;
                          hp2 ← upd_iattr t a (λ v, v + r) hp1; Some (tt, hp2))
                  (tt, hpc) cs = Some (tt, hp')) ∧
      hp' !! t = Some nd' ∧ keeps [a] [] false nd0 nd' ∧
      iattr nd' a = acc + foldr Z.add 0 (total <$> cs) ∧
      (∀ c m, c ∈ cs → reach hp0 c m →
         ∃ x0 x, hp0 !! m = Some x0 ∧ hp' !! m = Some x ∧
                 keeps [a] [] false x0 x ∧ iattr x a = total m) ∧
      (∀ m, m ≠ t → ¬ (∃ c, c ∈ cs ∧ reach hp0 c m) → hp' !! m = hpc !! m)) as Hloop.
  { induction cs as [|c cs IHcs]; intros acc hpc ndc Hsub Hnd Htc Hkc Hacc Hfresh.
    - exists hpc, ndc. split_and!; [done|done|done|simpl; lia| |done].
      intros c m Hc. by apply elem_of_nil in Hc.
    - apply NoDup_cons in Hnd as [Hnc Hnd].
      assert (c ∈ childs nd0) as Hc by (apply Hsub; by left).
      destruct (Hcs c Hc) as (cn & Hcn & Hfa & Hokc).
      assert (reach hp0 root c) as Hrc by exact (reach_child hp0 root t c nd0 Hrt Ht0 Hc).
      destruct (IH c hpc Hokc Hrc) as (hp1 & Hrun1 & Hval1 & Hun1).
      { intros m Hm. apply (Hfresh c); [by left|done]. }
      assert (¬ reach hp0 c t) as Hnct
        by exact (child_not_above D hp0 root t nd0 c Hok Hrt Ht0 Hc).
      assert (hp1 !! t = Some ndc) as Ht1 by (by rewrite Hun1).
      set (nd2 := set_iattr a (iattr ndc a + total c) ndc).
      assert (∀ c' m, c' ∈ cs → reach hp0 c' m → m ≠ t ∧ ¬ reach hp0 c m) as Hapart.
      { intros c' m Hc' Hm. split.
        - intros ->. apply (child_not_above D hp0 root t nd0 c' Hok Hrt Ht0); [|done].
          apply Hsub. by right.
        - intros Hm'. apply Hnc.
          rewrite (siblings_apart t nd0 c c' m); try done. apply Hsub. by right. }
      destruct (IHcs (acc + total c) (<[t := nd2]> hp1) nd2)
        as (hp' & nd' & Hrun' & Ht' & Hk' & Hacc' & Hval' & Hun').
      { intros c' Hc'. apply Hsub. by right. }
      { done. }
      { apply list_lookup_insert_eq. by eapply lookup_lt_Some. }
      { eapply keeps_trans; [exact Hkc|]. apply keeps_set_iattr. by left. }
      { unfold nd2. simpl. rewrite fn_lookup_insert. by rewrite Hacc. }
      { intros c' m Hc' Hm. destruct (Hapart c' m Hc' Hm) as [Hmt Hnm].
        rewrite list_lookup_insert_ne by done. rewrite Hun1 by done.
        apply (Hfresh c'); [by right|done]. }
      exists hp', nd'. split_and!; [|done|done| | |].
      + intros fuel Hf. simpl. rewrite (Hrun1 fuel Hf). simpl.
        unfold upd_iattr. rewrite (upd_Some _ _ ndc) by done. simpl. by apply Hrun'.
      + rewrite Hacc', fmap_cons. cbn [foldr]. lia.
      + intros c' m [->|Hc']%elem_of_cons Hm; [|by apply (Hval' c')].
        destruct (Hval1 m Hm) as (x0 & x & Hx0 & Hx & Hkx & Hv).
        exists x0, x. split_and!; [done| |done|done].
        rewrite Hun'; [by rewrite list_lookup_insert_ne by (by intros ->)|by intros ->|].
        intros (c' & Hc' & Hm'). by destruct (Hapart c' m Hc' Hm').
      + intros m Hmt Hno. rewrite Hun'; [|done|].
        * rewrite list_lookup_insert_ne by done. apply Hun1. intros Hm. apply Hno.
          exists c. split; [by left|done].
        * intros (c' & Hc' & Hm). apply Hno. exists c'. split; [by right|done]. }
  destruct (Hloop (childs nd0) (iattr nd0 a) hp nd0)
    as (hp' & nd' & Hrun & Ht' & Hk' & Hacc & Hval & Hun).
  { done. } { by apply (Hnodup t). } { done. } { apply keeps_refl. } { done. }
  { intros c m Hc Hm. apply Hsame. eapply reach_trans; [|exact Hm].
    eapply reach_child; [constructor|exact Ht0|done]. }
  assert (iattr nd' a = total t) as Etot.
  { rewrite Hacc. by rewrite (subtree_sum_unfold _ t nd0 Hrt Ht0). }
  exists hp'. split_and!.
  - intros [|fuel] Hf; [lia|]. rewrite computeSumOf_S, Ht. simpl.
    rewrite Hrun by lia. simpl. rewrite Ht'. simpl. by rewrite Etot.
  - intros m Hm. apply reach_head in Hm as [->|(x & c & Hx & Hc & Hr)].
    + by exists nd0, nd'.
    + assert (x = nd0) as -> by congruence. by apply (Hval c).
  - intros m Hm. apply Hun.
    + intros ->. apply Hm. constructor.
    + intros (c & Hc & Hr). apply Hm. eapply reach_trans; [|exact Hr].
      eapply reach_child; [constructor|exact Ht0|done].
Qed.

(** [tree->a = computeSumOf(tree)] on the whole tree. *)
Lemma assign_sum_values :
  ∃ hp', converges (λ fuel, assign a (computeSumOf a) fuel root hp0) hp' ∧
         frame (keeps [a] [] false) hp0 hp' ∧
         ∀ m, reach hp0 root m →
              ∃ nd', hp' !! m = Some nd' ∧ iattr nd' a = total m.
Proof.
  pose proof Hwf as [Hok _].
  destruct (computeSumOf_total D hp0 root Hwf a) as (hpT & CT & FT).
  destruct (computeSumOf_values D root hp0 Hok) as (hp1 & Hrun & Hval & _);
    [constructor|done|].
  destruct (Hval root) as (rn0 & rn & Hrn0 & Hrn & _ & Ern); [constructor|].
  assert (converges (λ fuel, assign a (computeSumOf a) fuel root hp0)
            (<[root := set_iattr a (total root) rn]> hp1)) as C1.
  { exists D. intros fuel Hf. unfold assign. rewrite (Hrun fuel Hf). simpl.
    by rewrite (upd_Some _ _ rn). }
  exists (<[root := set_iattr a (total root) rn]> hp1). split; [done|].
  split; [by rewrite (converges_fun _ _ _ C1 CT)|].
  intros m Hm. destruct (decide (m = root)) as [->|Hne].
  - eexists. split; [apply list_lookup_insert_eq; by eapply lookup_lt_Some|].
    simpl. by rewrite fn_lookup_insert.
  - rewrite list_lookup_insert_ne by done.
    destruct (Hval m Hm) as (x0 & x & _ & Hx & _ & Ex). by exists x.
Qed.

End Sums.

(** ** The pixels of a subtree *)

Lemma pixel_sum_app g m_img R1 R2 :
  pixel_sum g m_img (R1 ++ R2) = pixel_sum g m_img R1 + pixel_sum g m_img R2.
Proof. unfold pixel_sum. induction R1 as [|q R1 IH]; simpl; lia. Qed.

Lemma pixel_sum_length m_img R : pixel_sum (λ _, 1) m_img R = Z.of_nat (length R).
Proof. unfold pixel_sum. induction R as [|q R IH]; simpl; lia. Qed.

Lemma pixel_sum_const g m_img R v :
  (∀ o, o ∈ R → zget (data m_img) o = Some v) →
  pixel_sum g m_img R = Z.of_nat (length R) * g v.
Proof.
  unfold pixel_sum. induction R as [|q R IH]; intros H; [simpl; lia|].
  cbn [foldr length]. rewrite (H q) by (by left). cbn [default].
  rewrite IH by (intros o Ho; apply H; by right). unfold id. lia.
Qed.

Lemma subtree_pixel_head hp n nd q :
  hp !! n = Some nd →
  subtree_pixel hp n q ↔ q ∈ pixels nd ∨ ∃ c, c ∈ childs nd ∧ subtree_pixel hp c q.
Proof.
  intros Hn. split.
  - intros (m & md & Hr & Hm & Hq).
    apply reach_head in Hr as [->|(x & c & Hx & Hc & Hr)].
    + left. congruence.
    + right. assert (x = nd) as -> by congruence. exists c. split; [done|].
      by exists m, md.
  - intros [Hq|(c & Hc & m & md & Hr & Hm & Hq)].
    + exists n, nd. split_and!; [constructor|done..].
    + exists m, md. split_and!; [|done..]. eapply reach_trans; [|exact Hr].
      eapply reach_child; [constructor|exact Hn|done].
Qed.

Section Regions.

Variable D : nat.
Variable hp : list Node.
Variable root : nat.
Variable m_img : Image.
Hypothesis Hwf : wf_tree D hp root.
Hypothesis Hreg : regions_ok m_img hp.

(** The pixels of a subtree, listed once each: the sum over the subtree
    of the sums over the lists of pixels is the sum over this list. *)
Lemma subtree_region d n :
  tree_ok d hp n = true → reach hp root n →
  ∃ R, region_of hp n R ∧
       ∀ g, subtree_sum D hp (λ _ nd, pixel_sum g m_img (pixels nd)) n =
            pixel_sum g m_img R.
Proof.
  destruct Hreg as [Hnode Hown]. pose proof Hwf as [Hok _].
  revert n. induction d as [|d IH]; intros n Hokn Hrn; [done|].
  apply tree_ok_unfold in Hokn as (nd & Hn & Hcs).
  destruct (Hnode n nd Hn) as (Hnc & Hnp & _).
  assert (∀ cs, (∀ c, c ∈ cs → c ∈ childs nd) → NoDup cs →
    ∃ R, NoDup R ∧ (∀ q, q ∈ R ↔ ∃ c, c ∈ cs ∧ subtree_pixel hp c q) ∧
         ∀ g, foldr Z.add 0
                (subtree_sum D hp (λ _ nd, pixel_sum g m_img (pixels nd)) <$> cs) =
              pixel_sum g m_img R) as Hloop.
  { induction cs as [|c cs IHcs]; intros Hsub Hnd.
    - exists []. split_and!; [constructor| |done]. intros q. split.
      + by intros ?%elem_of_nil.
      + intros (c & ?%elem_of_nil & _). done.
    - apply NoDup_cons in Hnd as [Hnc' Hnd].
      assert (c ∈ childs nd) as Hc by (apply Hsub; by left).
      destruct (Hcs c Hc) as (cn & Hcn & _ & Hokc).
      assert (reach hp root c) as Hrc by exact (reach_child hp root n c nd Hrn Hn Hc).
      destruct (IH c Hokc Hrc) as (Rc & [HRc1 HRc2] & HRc3).
      destruct IHcs as (Rs & HRs1 & HRs2 & HRs3); [intros; apply Hsub; by right|done|].
      exists (Rc ++ Rs). split_and!.
      + apply NoDup_app. split_and!; [done| |done].
        intros q (m & md & Hr & Hm & Hq)%HRc2 (c' & Hc' & m' & md' & Hr' & Hm' & Hq')%HRs2.
        assert (m = m') as <- by (by apply (Hown m m' md md' q)).
        apply Hnc'. rewrite (siblings_apart D hp root Hwf n nd c c' m); try done.
        apply Hsub. by right.
      + intros q. rewrite elem_of_app, HRc2, HRs2. split.
        * intros [?|(c' & ? & ?)].
          -- exists c. split; [by left|done].
          -- exists c'. split; [by right|done].
        * intros (c' & [->|?]%elem_of_cons & ?); [by left|right; by exists c'].
      + intros g. rewrite fmap_cons. cbn [foldr]. by rewrite HRc3, HRs3, pixel_sum_app. }
  destruct (Hloop (childs nd)) as (Rs & HRs1 & HRs2 & HRs3); [done|done|].
  exists (pixels nd ++ Rs). split; [split|].
  - apply NoDup_app. split_and!; [done| |done].
    intros q Hq (c & Hc & m & md & Hr & Hm & Hq')%HRs2.
    assert (n = m) as <- by (by apply (Hown n m nd md q)).
    by apply (child_not_above D hp root n nd c Hok Hrn Hn Hc).
  - intros q. rewrite elem_of_app, HRs2. symmetry. by apply subtree_pixel_head.
  - intros g.
    by rewrite (subtree_sum_unfold D hp root Hwf _ n nd Hrn Hn), HRs3, pixel_sum_app.
Qed.

Hypothesis Hcounts : ∀ n nd, hp !! n = Some nd → counts nd.

(** [computeArea]: every node gets the number of pixels of its
    subtree. *)
Lemma area_pass_regions :
  ∃ hp1,
    converges (λ fuel, assign area computeArea fuel root hp) hp1 ∧
    frame (keeps [area] [] false) hp hp1 ∧
    ∀ m, reach hp root m → ∃ nd1, hp1 !! m = Some nd1 ∧ region_area hp m nd1.
Proof.
  destruct Hreg as [Hnode Hown]. pose proof Hwf as [Hok _].
  destruct (assign_sum_values D hp root Hwf) with (a := area) as (hp1 & C1 & F1 & V1).
  { intros n nd Hn. by destruct (Hnode n nd Hn). }
  exists hp1. split_and!; [done..|]. intros m Hm.
  destruct (V1 m Hm) as (nd1 & Hn1 & E1). exists nd1. split; [done|].
  destruct (subtree_region D m (tree_ok_sub _ _ _ _ Hok Hm) Hm) as (R & HR & Hsum).
  exists R. split; [done|]. rewrite E1, <- pixel_sum_length with (m_img := m_img), <- Hsum.
  apply subtree_sum_ext; [done|]. intros n nd nd' Hn Hn'.
  assert (nd' = nd) as -> by congruence.
  destruct (Hcounts n nd Hn) as (-> & _). by rewrite pixel_sum_length.
Qed.

(** [computeArea], [computeSum] and [computeSumSquare] in turn: every
    node gets the number of pixels of its subtree, the sum of their
    values and the sum of the squares of their values. *)
Lemma sums_pass_regions :
  ∃ hp1 hp2 hp3,
    converges (λ fuel, assign area computeArea fuel root hp) hp1 ∧
    converges (λ fuel, assign sum computeSum fuel root hp1) hp2 ∧
    converges (λ fuel, assign sum_square computeSumSquare fuel root hp2) hp3 ∧
    frame (keeps [area] [] false) hp hp1 ∧
    frame (keeps [sum] [] false) hp1 hp2 ∧
    frame (keeps [sum_square] [] false) hp2 hp3 ∧
    ∀ m, reach hp root m → ∃ nd3, hp3 !! m = Some nd3 ∧ region_sums m_img hp m nd3.
Proof.
  destruct Hreg as [Hnode Hown]. pose proof Hwf as [Hok _].
  assert (∀ n nd, hp !! n = Some nd → NoDup (childs nd)) as Hnd
    by (intros n nd Hn; by destruct (Hnode n nd Hn)).
  destruct (assign_sum_values D hp root Hwf Hnd area) as (hp1 & C1 & F1 & V1).
  pose proof (frame_same_links _ _ _ (keeps_links _ _ _) F1) as L1.
  pose proof (wf_tree_frame _ _ _ _ _ _ _ Hwf F1) as Hwf1.
  destruct (assign_sum_values D hp1 root Hwf1) with (a := sum) as (hp2 & C2 & F2 & V2).
  { intros n nd1 Hn1. destruct (frame_back _ _ _ _ _ _ _ F1 Hn1) as (nd & Hn & K).
    destruct K as (_ & _ & _ & _ & -> & _). by apply (Hnd n). }
  pose proof (frame_same_links _ _ _ (keeps_links _ _ _) F2) as L2.
  pose proof (wf_tree_frame _ _ _ _ _ _ _ Hwf1 F2) as Hwf2.
  assert (frame (keeps [area; sum] [] false) hp hp2) as F12.
  { eapply frame_trans; [apply keeps_trans| |].
    - eapply frame_weaken; [| | |exact F1]; [sub_slots|sub_slots|done].
    - eapply frame_weaken; [| | |exact F2]; [sub_slots|sub_slots|done]. }
  destruct (assign_sum_values D hp2 root Hwf2) with (a := sum_square)
    as (hp3 & C3 & F3 & V3).
  { intros n nd2 Hn2. destruct (frame_back _ _ _ _ _ _ _ F12 Hn2) as (nd & Hn & K).
    destruct K as (_ & _ & _ & _ & -> & _). by apply (Hnd n). }
  exists hp1, hp2, hp3. split_and!; [done..|]. intros m Hm.
  assert (reach hp1 root m) as Hm1 by (by apply (reach_same_links hp)).
  assert (reach hp2 root m) as Hm2 by (by apply (reach_same_links hp1)).
  destruct (V1 m Hm) as (nd1 & Hn1 & E1).
  destruct (V2 m Hm1) as (nd2 & Hn2 & E2).
  destruct (V3 m Hm2) as (nd3 & Hn3 & E3).
  destruct (frame_keeps_lookup _ _ _ _ _ _ _ F2 Hn1) as (nd2' & Hn2' & K2).
  assert (nd2' = nd2) as -> by congruence.
  destruct (frame_keeps_lookup _ _ _ _ _ _ _ F3 Hn2) as (nd3' & Hn3' & K3).
  assert (nd3' = nd3) as -> by congruence.
  destruct K2 as (_ & _ & _ & _ & _ & _ & _ & _ & _ & I2 & _).
  destruct K3 as (_ & _ & _ & _ & _ & _ & _ & _ & _ & I3 & _).
  exists nd3. split; [done|].
  destruct (subtree_region D m (tree_ok_sub _ _ _ _ Hok Hm) Hm) as (R & HR & Hsum).
  exists R. split; [done|]. split_and!.
  - rewrite I3, I2 by not_in_slots.
    rewrite E1, <- pixel_sum_length with (m_img := m_img), <- Hsum.
    apply subtree_sum_ext; [done|]. intros n nd nd' Hn Hn'.
    assert (nd' = nd) as -> by congruence.
    destruct (Hcounts n nd Hn) as (-> & _). by rewrite pixel_sum_length.
  - rewrite I3 by not_in_slots. rewrite E2, <- Hsum.
    apply subtree_sum_ext; [by apply same_links_sym|]. intros n nx nd Hx Hn.
    destruct (frame_keeps_lookup _ _ _ _ _ _ _ F1 Hn) as (nx' & Hx' & K).
    assert (nx' = nx) as -> by congruence.
    destruct K as (_ & _ & _ & _ & _ & _ & _ & _ & _ & I & _).
    rewrite I by not_in_slots. destruct (Hcounts n nd Hn) as (_ & -> & _).
    destruct (Hnode n nd Hn) as (_ & _ & Hv). by rewrite (pixel_sum_const _ _ _ (h nd)).
  - rewrite E3, <- Hsum.
    apply subtree_sum_ext.
    { apply same_links_sym. intros n. by rewrite (L1 n), (L2 n). }
    intros n nx nd Hx Hn.
    destruct (frame_keeps_lookup _ _ _ _ _ _ _ F12 Hn) as (nx' & Hx' & K).
    assert (nx' = nx) as -> by congruence.
    destruct K as (_ & _ & _ & _ & _ & _ & _ & _ & _ & I & _).
    rewrite I by not_in_slots. destruct (Hcounts n nd Hn) as (_ & _ & ->).
    destruct (Hnode n nd Hn) as (_ & _ & Hv). by rewrite (pixel_sum_const _ _ _ (h nd)).
Qed.

End Regions.

(** The counters of the regions are kept by the passes that do not write
    them. *)
Lemma region_of_frame KI KN pb hp hp' n R :
  frame (keeps KI KN pb) hp hp' → region_of hp n R → region_of hp' n R.
Proof.
  intros Hfr [HR1 HR2]. split; [done|]. intros q. rewrite HR2.
  symmetry. by apply (subtree_pixel_frame hp KI KN pb hp' n q).
Qed.

Lemma region_area_keeps KI KN pb hp hp' n nd nd' :
  frame (keeps KI KN pb) hp hp' → keeps KI KN pb nd nd' → area ∉ KI →
  region_area hp n nd → region_area hp' n nd'.
Proof.
  intros Hfr (_ & _ & _ & _ & _ & _ & _ & _ & _ & Hi & _) H1 (R & HR & E1).
  exists R. split; [by eapply region_of_frame|]. by rewrite Hi.
Qed.

Lemma region_sums_keeps m_img KI KN pb hp hp' n nd nd' :
  frame (keeps KI KN pb) hp hp' → keeps KI KN pb nd nd' →
  area ∉ KI → sum ∉ KI → sum_square ∉ KI →
  region_sums m_img hp n nd → region_sums m_img hp' n nd'.
Proof.
  intros Hfr (_ & _ & _ & _ & _ & _ & _ & _ & _ & Hi & _) H1 H2 H3 (R & HR & E1 & E2 & E3).
  exists R. split; [by eapply region_of_frame|]. by rewrite !Hi.
Qed.

Lemma regions_ok_frame m_img KI KN pb hp hp' :
  frame (keeps KI KN pb) hp hp' → regions_ok m_img hp → regions_ok m_img hp'.
Proof.
  intros Hfr [Hnode Hown]. split.
  - intros n nd' Hn'. destruct (frame_back _ _ _ _ _ _ _ Hfr Hn') as (nd & Hn & K).
    destruct K as (_ & _ & -> & _ & -> & -> & _). by apply (Hnode n).
  - intros n n' nd1 nd1' o Hn Hn' Ho Ho'.
    destruct (frame_back _ _ _ _ _ _ _ Hfr Hn) as (nd & Hn0 & K).
    destruct (frame_back _ _ _ _ _ _ _ Hfr Hn') as (nd' & Hn0' & K').
    destruct K as (_ & _ & _ & _ & _ & Ep & _). destruct K' as (_ & _ & _ & _ & _ & Ep' & _).
    rewrite Ep in Ho. rewrite Ep' in Ho'. by apply (Hown n n' nd nd' o).
Qed.

Lemma counts_keeps KI KN pb nd nd' :
  keeps KI KN pb nd nd' → area ∉ KI → sum ∉ KI → sum_square ∉ KI →
  counts nd → counts nd'.
Proof.
  intros (_ & _ & Eh & _ & _ & Ep & _ & _ & _ & Hi & _) H1 H2 H3 (E1 & E2 & E3).
  unfold counts. by rewrite !Hi, Ep, Eh.
Qed.

(** A list of [N] different offsets of an image of [N] pixels. *)
Lemma region_all (N : nat) R :
  NoDup R → (∀ q, q ∈ R ↔ 0 ≤ q < Z.of_nat N) → length R = N.
Proof.
  intros HR Hin. transitivity (length (seqZ 0 (Z.of_nat N))).
  - apply Permutation_length, NoDup_Permutation; [done|apply NoDup_seqZ|].
    intros q. rewrite Hin, elem_of_seqZ. lia.
  - rewrite length_seqZ. lia.
Qed.

(** ** [computeContrast] *)

Lemma computeContrast_S fuel hp t :
  computeContrast (S fuel) hp t =
  nd ← hp !! t;
  nd' ← hp !! t;
  s ← for_each (λ s c, '(r, hp') ← computeContrast fuel s.2 c;
                      let '((lvl, mx), hp) := (s.1, hp') in
                      cn ← hp !! c;
                      Some ((lvl, if (h cn - lvl) + r >? mx then (h cn - lvl) + r else mx),
                            hp))
               ((h nd, 0), hp) (childs nd');
  let '((_, mx), hp) := s in
  hp' ← upd t (set_iattr contrast mx) hp; Some (mx, hp').
Proof.
  unfold computeContrast. simpl. destruct (hp !! t) eqn:E; simpl; rewrite ?E; reflexivity.
Qed.

Section Contrast.

Variable D : nat.
Variable hp0 : list Node.
Variable root : nat.
Hypothesis Hwf : wf_tree D hp0 root.

Local Abbreviation kept := (keeps [contrast] [] false).

Local Abbreviation top := (top_at hp0).

Lemma computeContrast_values d t hp :
  tree_ok d hp0 t = true → reach hp0 root t → frame kept hp0 hp →
  ∃ r hp',
    (∀ fuel, (d ≤ fuel)%nat → computeContrast fuel hp t = Some (r, hp')) ∧
    frame kept hp hp' ∧ top t r ∧
    (∀ m, reach hp0 t m → ∃ nd', hp' !! m = Some nd' ∧ top m (iattr nd' contrast)) ∧
    (∀ m nd nd', hp !! m = Some nd → hp' !! m = Some nd' →
       iattr nd' contrast = iattr nd contrast ∨ top m (iattr nd' contrast)).
Proof.
  pose proof Hwf as [Hok _].
  revert t hp. induction d as [|d IH]; intros t hp Hokt Hrt Hfr; [done|].
  apply tree_ok_unfold in Hokt as (nd0 & Ht0 & Hcs).
  destruct (frame_keeps_lookup _ _ _ _ _ _ _ Hfr Ht0) as (nd & Ht & Hk0).
  assert (h nd = h nd0 ∧ childs nd = childs nd0) as [Eh Ech].
  { destruct Hk0 as (_ & _ & ? & _ & ? & _). done. }
  assert (∀ cs mx hpc,
    (∀ c, c ∈ cs → c ∈ childs nd0) → frame kept hp0 hpc →
    ∃ mx' hp',
      (∀ fuel, (d ≤ fuel)%nat →
         for_each (λ s c, '(r, hp1) ← computeContrast fuel s.2 c;
                          let '((lvl, mx), hp) := (s.1, hp1) in
                          cn ← hp !! c;
                          Some ((lvl, if (h cn - lvl) + r >? mx
                                      then (h cn - lvl) + r else mx), hp))
                  ((h nd0, mx), hpc) cs = Some ((h nd0, mx'), hp')) ∧
      frame kept hpc hp' ∧ mx ≤ mx' ∧
      (∀ c x xd, c ∈ cs → reach hp0 c x → hp0 !! x = Some xd → h xd - h nd0 ≤ mx') ∧
      (mx' = mx ∨ ∃ c x xd, c ∈ cs ∧ reach hp0 c x ∧ hp0 !! x = Some xd ∧
                            mx' = h xd - h nd0) ∧
      (∀ c m, c ∈ cs → reach hp0 c m →
         ∃ nd', hp' !! m = Some nd' ∧ top m (iattr nd' contrast)) ∧
      (∀ m x x', hpc !! m = Some x → hp' !! m = Some x' →
         iattr x' contrast = iattr x contrast ∨ top m (iattr x' contrast))) as Hloop.
  { induction cs as [|c cs IHcs]; intros mx hpc Hsub Hfc.
    - exists mx, hpc. split_and!; [done|apply frame_refl, keeps_refl|lia| |by left| |].
      + intros c x xd Hc. by apply elem_of_nil in Hc.
      + intros c m Hc. by apply elem_of_nil in Hc.
      + intros m x x' Hx Hx'. left. congruence.
    - assert (c ∈ childs nd0) as Hc by (apply Hsub; by left).
      destruct (Hcs c Hc) as (cn0 & Hcn0 & Hfa & Hokc).
      assert (reach hp0 root c) as Hrc by exact (reach_child hp0 root t c nd0 Hrt Ht0 Hc).
      destruct (IH c hpc Hokc Hrc Hfc) as (r & hp1 & Hrun1 & Hf1 & Htop1 & Hval1 & Hpres1).
      assert (frame kept hp0 hp1) as Hf01 by (eapply frame_trans; [apply keeps_trans|done..]).
      destruct (frame_keeps_lookup _ _ _ _ _ _ _ Hf01 Hcn0) as (cn & Hcn & Hkc).
      assert (h cn = h cn0) as Ehc by (by destruct Hkc as (_ & _ & ? & _)).
      destruct Htop1 as (cn0' & Hcn0' & Hb1 & x1 & xd1 & Hr1 & Hx1 & Er).
      assert (cn0' = cn0) as -> by congruence.
      set (cc := (h cn - h nd0) + r).
      set (mx1 := if cc >? mx then cc else mx).
      assert (mx ≤ mx1 ∧ cc ≤ mx1 ∧ (mx1 = mx ∨ mx1 = cc)) as (Hle1 & Hle2 & Hor).
      { unfold mx1. destruct (cc >? mx) eqn:E; lia. }
      destruct (IHcs mx1 hp1) as (mx' & hp' & Hrun' & Hf' & Hle' & Hb' & Hat' & Hval' & Hpres').
      { intros c' Hc'. apply Hsub. by right. }
      { done. }
      exists mx', hp'. split_and!.
      + intros fuel Hf. cbn [for_each]. cbn [snd fst]. rewrite (Hrun1 fuel Hf).
        cbn [mbind option_bind]. rewrite Hcn. cbn [mbind option_bind]. by apply Hrun'.
      + eapply frame_trans; [apply keeps_trans|done..].
      + lia.
      + intros c' y yd [->|Hc']%elem_of_cons Hy Hyd; [|by apply (Hb' c' y yd)].
        pose proof (Hb1 y yd Hy Hyd). unfold cc in Hle2. lia.
      + destruct Hat' as [->|(c' & y & yd & Hc' & Hy & Hyd & ->)].
        * destruct Hor as [->| ->]; [by left|right].
          exists c, x1, xd1. split_and!; [by left|done|done|]. unfold cc. lia.
        * right. exists c', y, yd. split_and!; [by right|done..].
      + intros c' m [->|Hc']%elem_of_cons Hm; [|by apply (Hval' c')].
        destruct (Hval1 m Hm) as (x & Hx & Htx).
        destruct (frame_keeps_lookup _ _ _ _ _ _ _ Hf' Hx) as (x' & Hx' & _).
        exists x'. split; [done|].
        destruct (Hpres' m x x' Hx Hx') as [->|?]; done.
      + intros m x x' Hx Hx'.
        destruct (frame_keeps_lookup _ _ _ _ _ _ _ Hf1 Hx) as (x1' & Hx1' & _).
        destruct (Hpres' m x1' x' Hx1' Hx') as [E|?]; [|by right].
        rewrite E. by apply (Hpres1 m x x1'). }
  destruct (Hloop (childs nd0) 0 hp) as (mx & hp1 & Hrun & Hf1 & Hle & Hb & Hat & Hval & Hpres);
    [done|done|].
  destruct (frame_keeps_lookup _ _ _ _ _ _ _ Hf1 Ht) as (nd1 & Ht1 & Hk1).
  assert (top t mx) as Htop.
  { exists nd0. split; [done|]. split.
    - intros m md Hm Hmd. apply reach_head in Hm as [->|(x & c & Hx & Hc & Hr)].
      + assert (md = nd0) as -> by congruence. lia.
      + assert (x = nd0) as -> by congruence. by apply (Hb c m md).
    - destruct Hat as [->|(c & x & xd & Hc & Hx & Hxd & ->)].
      + exists t, nd0. split_and!; [constructor|done|lia].
      + exists x, xd. split_and!; [|done..]. eapply reach_trans; [|exact Hx].
        eapply reach_child; [constructor|exact Ht0|done]. }
  exists mx, (<[t := set_iattr contrast mx nd1]> hp1). split_and!.
  - intros [|fuel] Hf; [lia|]. rewrite computeContrast_S, Ht. cbn [mbind option_bind].
    rewrite Eh, Ech, Hrun by lia. cbn [mbind option_bind]. by rewrite (upd_Some _ _ nd1).
  - eapply frame_trans; [apply keeps_trans|exact Hf1|].
    apply (frame_insert _ hp1 t nd1); [apply keeps_refl|done|].
    apply keeps_set_iattr. by left.
  - done.
  - intros m Hm. destruct (decide (m = t)) as [->|Hne].
    + eexists. split; [apply list_lookup_insert_eq; by eapply lookup_lt_Some|].
      simpl. by rewrite fn_lookup_insert.
    + rewrite list_lookup_insert_ne by done.
      apply reach_head in Hm as [->|(x & c & Hx & Hc & Hr)]; [done|].
      assert (x = nd0) as -> by congruence. by apply (Hval c).
  - intros m x x' Hx. destruct (decide (m = t)) as [->|Hne].
    + rewrite list_lookup_insert_eq by (by eapply lookup_lt_Some). intros [= <-].
      right. simpl. by rewrite fn_lookup_insert.
    + rewrite list_lookup_insert_ne by done. by apply Hpres.
Qed.

(** [tree->contrast = computeContrast(tree)] on the whole tree: every
    node gets the height of its subtree. *)
Lemma computeContrast_tops :
  ∃ hp', converges (λ fuel, assign contrast computeContrast fuel root hp0) hp' ∧
         frame kept hp0 hp' ∧
         ∀ m, reach hp0 root m → ∃ nd', hp' !! m = Some nd' ∧ top_contrast hp' m nd'.
Proof.
  pose proof Hwf as [Hok _].
  destruct (computeContrast_values D root hp0 Hok) as (r & hp1 & Hrun & Hf1 & Htop & Hval & _);
    [constructor|apply frame_refl, keeps_refl|].
  destruct (Hval root) as (rn & Hrn & _); [constructor|].
  set (hp2 := <[root := set_iattr contrast r rn]> hp1).
  assert (frame kept hp0 hp2) as Hf2.
  { eapply frame_trans; [apply keeps_trans|exact Hf1|].
    apply (frame_insert _ hp1 root rn); [apply keeps_refl|done|].
    apply keeps_set_iattr. by left. }
  exists hp2. split_and!; [|done|].
  - exists D. intros fuel Hf. unfold assign. rewrite (Hrun fuel Hf). simpl.
    by rewrite (upd_Some _ _ rn).
  - intros m Hm.
    assert (∃ nd', hp2 !! m = Some nd' ∧ top m (iattr nd' contrast)) as (nd' & Hn' & Ht').
    { unfold hp2. destruct (decide (m = root)) as [->|Hne].
      - eexists. split; [apply list_lookup_insert_eq; by eapply lookup_lt_Some|].
        simpl. by rewrite fn_lookup_insert.
      - rewrite list_lookup_insert_ne by done. by apply Hval. }
    exists nd'. split; [done|]. destruct Ht' as (md & Hmd & Hb & x & xd & Hx & Hxd & E).
    destruct (frame_keeps_lookup _ _ _ _ _ _ _ Hf2 Hmd) as (nd'' & Hn'' & Hk).
    assert (nd'' = nd') as -> by congruence.
    assert (h nd' = h md) as Eh by (by destruct Hk as (_ & _ & ? & _)).
    pose proof (frame_same_links _ _ _ (keeps_links _ _ _) Hf2) as Hl.
    unfold top_contrast, top_value. rewrite Eh. split.
    + intros y yd' Hy Hyd'.
      destruct (frame_back _ _ _ _ _ _ _ Hf2 Hyd') as (yd & Hyd & Hky).
      destruct Hky as (_ & _ & -> & _).
      apply (Hb y yd); [|done]. by apply (reach_same_links _ _ _ _ (same_links_sym _ _ Hl)).
    + destruct (frame_keeps_lookup _ _ _ _ _ _ _ Hf2 Hxd) as (xd' & Hxd' & Hkx).
      exists x, xd'. split_and!; [by apply (reach_same_links _ _ _ _ Hl)|done|].
      destruct Hkx as (_ & _ & -> & _). done.
Qed.

End Contrast.

(** The height held by a node is kept by the passes that do not write
    [contrast]. *)
Lemma top_contrast_keeps KI KN pb hp hp' n nd nd' :
  frame (keeps KI KN pb) hp hp' → keeps KI KN pb nd nd' → contrast ∉ KI →
  top_contrast hp n nd → top_contrast hp' n nd'.
Proof.
  intros Hfr Hk Hni [Hb (x & xd & Hx & Hxd & E)].
  pose proof (frame_same_links _ _ _ (keeps_links _ _ _) Hfr) as Hl.
  destruct Hk as (_ & _ & Eh & _ & _ & _ & _ & _ & _ & Hi & _).
  unfold top_contrast, top_value. rewrite Eh, (Hi contrast Hni). split.
  - intros y yd' Hy Hyd'.
    destruct (frame_back _ _ _ _ _ _ _ Hfr Hyd') as (yd & Hyd & Hky).
    destruct Hky as (_ & _ & -> & _).
    apply (Hb y yd); [|done]. by apply (reach_same_links _ _ _ _ (same_links_sym _ _ Hl)).
  - destruct (frame_keeps_lookup _ _ _ _ _ _ _ Hfr Hxd) as (xd' & Hxd' & Hkx).
    exists x, xd'. split_and!; [by apply (reach_same_links _ _ _ _ Hl)|done|].
    destruct Hkx as (_ & _ & -> & _). done.
Qed.

(** ** [computeVolume] *)

Lemma computeVolume_S fuel hp t :
  computeVolume (S fuel) hp t =
  nd ← hp !! t;
  f ← father nd;
  lc ← (if decide (f = t) then Some (h nd) else fn ← hp !! f; Some (h nd - h fn));
  hp1 ← upd t (set_iattr volume (to_int32 (iattr nd area) * lc)) hp;
  nd1 ← hp1 !! t;
  s ← for_each (λ s c, '(r, hp') ← computeVolume fuel s.2 c;
                      hp'' ← upd_iattr t volume (λ v, v + r) hp'; Some (tt, hp''))
               (tt, hp1) (childs nd1);
  nd' ← s.2 !! t; Some (iattr nd' volume, s.2).
Proof.
  unfold computeVolume. simpl. destruct (hp !! t) as [nd|]; [|done]. simpl.
  destruct (father nd) as [f|]; [|done]. simpl.
  destruct (decide (f = t)); simpl.
  - destruct (upd t _ hp); done.
  - destruct (hp !! f); [|done]. simpl. destruct (upd t _ hp); done.
Qed.

Lemma foldr_add_split (F A B : nat → Z) (k : Z) (cs : list nat) :
  (∀ c, c ∈ cs → F c = A c - B c * k) →
  foldr Z.add 0 (F <$> cs) = foldr Z.add 0 (A <$> cs) - foldr Z.add 0 (B <$> cs) * k.
Proof.
  induction cs as [|c cs IH]; intros H; [simpl; lia|].
  rewrite !fmap_cons. cbn [foldr]. rewrite (H c) by (by left).
  rewrite IH by (intros c' ?; apply H; by right). lia.
Qed.

Lemma pixel_sum_shift m_img R b :
  pixel_sum (λ v, v - b) m_img R = pixel_sum (λ v, v) m_img R - Z.of_nat (length R) * b.
Proof. unfold pixel_sum. induction R as [|q R IH]; cbn [foldr length]; lia. Qed.

Section Volume.

Variable D : nat.
Variable hp0 : list Node.
Variable root : nat.
Hypothesis Hwf : wf_tree D hp0 root.

Local Abbreviation kept := (keeps [volume] [] false).
Local Abbreviation vol :=
  (subtree_sum D hp0 (λ m md, to_int32 (iattr md area) * local_contrast hp0 m md)).

(** The value returned for a subtree, and left in the slot of each of its
    nodes: the sum over the subtree of [(int)area * local_contrast]. *)
Lemma computeVolume_values d t hp :
  tree_ok d hp0 t = true → reach hp0 root t → frame kept hp0 hp →
  ∃ hp',
    (∀ fuel, (d ≤ fuel)%nat → computeVolume fuel hp t = Some (vol t, hp')) ∧
    frame kept hp hp' ∧
    (∀ m, reach hp0 t m → ∃ nd', hp' !! m = Some nd' ∧ iattr nd' volume = vol m) ∧
    (∀ m, ¬ reach hp0 t m → hp' !! m = hp !! m).
Proof.
  pose proof Hwf as [Hok Hroot].
  revert t hp. induction d as [|d IH]; intros t hp Hokt Hrt Hfr; [done|].
  apply tree_ok_unfold in Hokt as (nd0 & Ht0 & Hcs).
  destruct (frame_keeps_lookup _ _ _ _ _ _ _ Hfr Ht0) as (nd & Ht & Hk0).
  destruct (father_reach _ _ _ _ Hok Hroot Hrt) as (nd0' & f & fn0 & Ht0' & Hf0 & Hfn0 & _).
  assert (nd0' = nd0) as -> by congruence.
  destruct (frame_keeps_lookup _ _ _ _ _ _ _ Hfr Hfn0) as (fn & Hfn & Hkf).
  assert (h nd = h nd0 ∧ father nd = Some f ∧ childs nd = childs nd0 ∧
          iattr nd area = iattr nd0 area ∧ h fn = h fn0) as (Eh & Ef & Ech & Ea & Ehf).
  { destruct Hk0 as (_ & _ & ? & Hfa & ? & _ & _ & _ & _ & Hi & _).
    destruct Hkf as (_ & _ & ? & _). split_and!; [done|congruence|done| |done].
    apply Hi. not_in_slots. }
  set (v0 := to_int32 (iattr nd0 area) * local_contrast hp0 t nd0).
  set (nde := set_iattr volume v0 nd).
  assert (∀ cs acc hpc ndc,
    (∀ c, c ∈ cs → c ∈ childs nd0) → frame kept hp0 hpc →
    hpc !! t = Some ndc → iattr ndc volume = acc →
    ∃ hp' nd',
      (∀ fuel, (d ≤ fuel)%nat →
         for_each (λ s c, '(r, hp1) ← computeVolume fuel s.2 c;
                          hp2 ← upd_iattr t volume (λ v, v + r) hp1; Some (tt, hp2))
                  (tt, hpc) cs = Some (tt, hp')) ∧
      frame kept hpc hp' ∧ hp' !! t = Some nd' ∧
      iattr nd' volume = acc + foldr Z.add 0 (vol <$> cs) ∧
      (∀ c m, c ∈ cs → reach hp0 c m →
         ∃ x, hp' !! m = Some x ∧ iattr x volume = vol m) ∧
      (∀ m, m ≠ t → ¬ (∃ c, c ∈ cs ∧ reach hp0 c m) → hp' !! m = hpc !! m)) as Hloop.
  { induction cs as [|c cs IHcs]; intros acc hpc ndc Hsub Hfc Htc Hacc.
    - exists hpc, ndc. split_and!; [done|apply frame_refl, keeps_refl|done|simpl; lia| |done].
      intros c m Hc. by apply elem_of_nil in Hc.
    - assert (c ∈ childs nd0) as Hc by (apply Hsub; by left).
      destruct (Hcs c Hc) as (cn & Hcn & Hfa & Hokc).
      assert (reach hp0 root c) as Hrc by exact (reach_child hp0 root t c nd0 Hrt Ht0 Hc).
      destruct (IH c hpc Hokc Hrc Hfc) as (hp1 & Hrun1 & Hf1 & Hval1 & Hun1).
      assert (¬ reach hp0 c t) as Hnct
        by exact (child_not_above D hp0 root t nd0 c Hok Hrt Ht0 Hc).
      assert (hp1 !! t = Some ndc) as Ht1 by (by rewrite Hun1).
      set (nd2 := set_iattr volume (iattr ndc volume + vol c) ndc).
      assert (frame kept hp1 (<[t := nd2]> hp1)) as Hf2.
      { apply (frame_insert _ hp1 t ndc); [apply keeps_refl|done|].
        apply keeps_set_iattr. by left. }
      destruct (IHcs (acc + vol c) (<[t := nd2]> hp1) nd2)
        as (hp' & nd' & Hrun' & Hf' & Ht' & Hacc' & Hval' & Hun').
      { intros c' Hc'. apply Hsub. by right. }
      { eapply frame_trans; [apply keeps_trans|exact Hfc|].
        eapply frame_trans; [apply keeps_trans|exact Hf1|exact Hf2]. }
      { apply list_lookup_insert_eq. by eapply lookup_lt_Some. }
      { unfold nd2. simpl. rewrite fn_lookup_insert. by rewrite Hacc. }
      exists hp', nd'. split_and!; [| |done| | |].
      + intros fuel Hf. simpl. rewrite (Hrun1 fuel Hf). simpl.
        unfold upd_iattr. rewrite (upd_Some _ _ ndc) by done. simpl. by apply Hrun'.
      + eapply frame_trans; [apply keeps_trans|exact Hf1|].
        eapply frame_trans; [apply keeps_trans|exact Hf2|exact Hf'].
      + rewrite Hacc', fmap_cons. cbn [foldr]. lia.
      + intros c' m [->|Hc']%elem_of_cons Hm; [|by apply (Hval' c')].
        destruct (decide (c ∈ cs)) as [Hin|Hin]; [by apply (Hval' c)|].
        destruct (Hval1 m Hm) as (x & Hx & Hv). exists x. split; [|done].
        rewrite Hun'.
        * rewrite list_lookup_insert_ne; [done|]. by intros ->.
        * by intros ->.
        * intros (c' & Hc' & Hm'). apply Hin.
          rewrite (siblings_apart D hp0 root Hwf t nd0 c c' m); try done.
          apply Hsub. by right.
      + intros m Hmt Hno. rewrite Hun'; [|done|].
        * rewrite list_lookup_insert_ne by done. apply Hun1. intros Hm. apply Hno.
          exists c. split; [by left|done].
        * intros (c' & Hc' & Hm). apply Hno. exists c'. split; [by right|done]. }
  destruct (Hloop (childs nd0) v0 (<[t := nde]> hp) nde)
    as (hp' & nd' & Hrun & Hf' & Ht' & Hacc & Hval & Hun).
  { done. }
  { eapply frame_trans; [apply keeps_trans|exact Hfr|].
    apply (frame_insert _ hp t nd); [apply keeps_refl|done|].
    apply keeps_set_iattr. by left. }
  { apply list_lookup_insert_eq. by eapply lookup_lt_Some. }
  { unfold nde. simpl. by rewrite fn_lookup_insert. }
  assert (iattr nd' volume = vol t) as Etot.
  { rewrite Hacc. by rewrite (subtree_sum_unfold D hp0 root Hwf _ t nd0 Hrt Ht0). }
  assert ((if decide (f = t) then Some (h nd) else hp !! f ≫= λ fn, Some (h nd - h fn)) =
          Some (local_contrast hp0 t nd0)) as Elc.
  { unfold local_contrast. rewrite Hf0. destruct (decide (f = t)); [by rewrite Eh|].
    rewrite Hfn, Hfn0. simpl. by rewrite Eh, Ehf. }
  exists hp'. split_and!.
  - intros [|fuel] Hf; [lia|]. rewrite computeVolume_S, Ht. cbn [mbind option_bind].
    rewrite Ef. cbn [mbind option_bind]. rewrite Elc. cbn [mbind option_bind].
    rewrite (upd_Some _ _ nd) by done. cbn [mbind option_bind].
    rewrite Ea. fold v0. fold nde.
    rewrite list_lookup_insert_eq by (by eapply lookup_lt_Some). cbn [mbind option_bind].
    replace (childs nde) with (childs nd0) by (by rewrite <- Ech).
    rewrite Hrun by lia. cbn [mbind option_bind snd]. rewrite Ht'. simpl. by rewrite Etot.
  - eapply frame_trans; [apply keeps_trans| |exact Hf'].
    apply (frame_insert _ hp t nd); [apply keeps_refl|done|].
    apply keeps_set_iattr. by left.
  - intros m Hm. apply reach_head in Hm as [->|(x & c & Hx & Hc & Hr)].
    + by exists nd'.
    + assert (x = nd0) as -> by congruence. by apply (Hval c).
  - intros m Hm. assert (m ≠ t) as Hmt by (intros ->; apply Hm; constructor).
    rewrite Hun; [by rewrite list_lookup_insert_ne|done|].
    intros (c & Hc & Hr). apply Hm. eapply reach_trans; [|exact Hr].
    eapply reach_child; [constructor|exact Ht0|done].
Qed.

(** [tree->volume = computeVolume(tree)] on the whole tree. *)
Lemma computeVolume_sums :
  ∃ hp', converges (λ fuel, assign volume computeVolume fuel root hp0) hp' ∧
         frame kept hp0 hp' ∧
         ∀ m, reach hp0 root m → ∃ nd', hp' !! m = Some nd' ∧ iattr nd' volume = vol m.
Proof.
  pose proof Hwf as [Hok _].
  destruct (computeVolume_values D root hp0 Hok) as (hp1 & Hrun & Hf1 & Hval & _);
    [constructor|apply frame_refl, keeps_refl|].
  destruct (Hval root) as (rn & Hrn & Ern); [constructor|].
  exists (<[root := set_iattr volume (vol root) rn]> hp1). split_and!.
  - exists D. intros fuel Hf. unfold assign. rewrite (Hrun fuel Hf). simpl.
    by rewrite (upd_Some _ _ rn).
  - eapply frame_trans; [apply keeps_trans|exact Hf1|].
    apply (frame_insert _ hp1 root rn); [apply keeps_refl|done|].
    apply keeps_set_iattr. by left.
  - intros m Hm. destruct (decide (m = root)) as [->|Hne].
    + eexists. split; [apply list_lookup_insert_eq; by eapply lookup_lt_Some|].
      simpl. by rewrite fn_lookup_insert.
    + rewrite list_lookup_insert_ne by done. by apply Hval.
Qed.

End Volume.

(** ** The volume of a region *)

Section VolumeRegion.

Variable D : nat.
Variable hp : list Node.
Variable root : nat.
Variable m_img : Image.
Hypothesis Hwf : wf_tree D hp root.
Hypothesis Hreg : regions_ok m_img hp.

Local Abbreviation size := (subtree_sum D hp (λ _ nd, Z.of_nat (length (pixels nd)))).
Local Abbreviation tot :=
  (subtree_sum D hp (λ _ nd, Z.of_nat (length (pixels nd)) * h nd)).
Local Abbreviation vol :=
  (subtree_sum D hp (λ m md, to_int32 (iattr md area) * local_contrast hp m md)).

Hypothesis Harea : ∀ n nd, reach hp root n → hp !! n = Some nd →
  iattr nd area = size n ∧ to_int32 (iattr nd area) = iattr nd area.

Lemma volume_sum d n nd :
  tree_ok d hp n = true → reach hp root n → hp !! n = Some nd →
  vol n = tot n - size n * (h nd - local_contrast hp n nd).
Proof.
  pose proof Hwf as [Hok _].
  revert n nd. induction d as [|d IH]; intros n nd Hokn Hrn Hn; [done|].
  apply tree_ok_unfold in Hokn as (nd' & Hn' & Hcs).
  assert (nd' = nd) as -> by congruence.
  rewrite (subtree_sum_unfold D hp root Hwf _ n nd Hrn Hn).
  rewrite (subtree_sum_unfold D hp root Hwf (λ _ nd, Z.of_nat (length (pixels nd)) * h nd)
             n nd Hrn Hn).
  destruct (Harea n nd Hrn Hn) as [Ea ->]. rewrite Ea.
  rewrite (foldr_add_split _ tot size (h nd)).
  - pose proof (subtree_sum_unfold D hp root Hwf (λ _ nd, Z.of_nat (length (pixels nd)))
                  n nd Hrn Hn) as Es.
    cbv beta in Es. clear Ea. revert Es. generalize (size n). intros sn ->. ring.
  - intros c Hc. destruct (Hcs c Hc) as (cn & Hcn & Hfa & Hokc).
    assert (reach hp root c) as Hrc by exact (reach_child hp root n c nd Hrn Hn Hc).
    rewrite (IH c cn Hokc Hrc Hcn). f_equal. f_equal.
    unfold local_contrast. rewrite Hfa.
    rewrite decide_False.
    + rewrite Hn. simpl. lia.
    + intros ->. by apply (child_not_self D hp root c nd Hok Hrn Hn).
Qed.

(** The sum over the subtree is the sum over the pixels of the region. *)
Lemma volume_region n nd nd' :
  reach hp root n → hp !! n = Some nd →
  father nd' = father nd → iattr nd' volume = vol n →
  region_volume m_img hp n nd'.
Proof.
  intros Hrn Hn Hfa Hv. pose proof Hwf as [Hok Hroot].
  destruct Hreg as [Hnode Hown].
  destruct (subtree_region D hp root m_img Hwf Hreg D n (tree_ok_sub _ _ _ _ Hok Hrn) Hrn)
    as (R & HR & Hsum).
  destruct (father_reach _ _ _ _ Hok Hroot Hrn) as (nd0 & f & fn & Hn0 & Hf & Hfn & _).
  assert (nd0 = nd) as -> by congruence.
  exists R, f, fn. split; [done|]. split; [congruence|]. split; [done|].
  rewrite Hv, (volume_sum D n nd (tree_ok_sub _ _ _ _ Hok Hrn) Hrn Hn), pixel_sum_shift.
  assert (tot n = pixel_sum (λ v, v) m_img R) as ->.
  { rewrite <- Hsum. apply subtree_sum_ext; [done|]. intros m md md' Hm Hm'.
    assert (md' = md) as -> by congruence.
    destruct (Hnode m md Hm) as (_ & _ & Hval).
    by rewrite (pixel_sum_const _ _ _ (h md)). }
  assert (size n = Z.of_nat (length R)) as ->.
  { rewrite <- pixel_sum_length with (m_img := m_img), <- Hsum.
    apply subtree_sum_ext; [done|]. intros m md md' Hm Hm'.
    assert (md' = md) as -> by congruence. by rewrite pixel_sum_length. }
  f_equal. f_equal. unfold local_contrast. rewrite Hf.
  destruct (decide (f = n)); [lia|]. rewrite Hfn. simpl. lia.
Qed.

End VolumeRegion.

(** The volume held by a node is kept by the passes that do not write
    [volume]. *)
Lemma region_volume_keeps m_img KI KN pb hp hp' n nd nd' :
  frame (keeps KI KN pb) hp hp' → keeps KI KN pb nd nd' → volume ∉ KI →
  region_volume m_img hp n nd → region_volume m_img hp' n nd'.
Proof.
  intros Hfr Hk Hni (R & f & fn & HR & Hf & Hfn & Hv).
  destruct (frame_keeps_lookup _ _ _ _ _ _ _ Hfr Hfn) as (fn' & Hfn' & Hkf).
  destruct Hk as (_ & _ & _ & Efa & _ & _ & _ & _ & _ & Hi & _).
  destruct Hkf as (_ & _ & Ehf & _).
  exists R, f, fn'. split; [by eapply region_of_frame|]. split; [congruence|]. split; [done|].
  rewrite (Hi volume Hni), Hv, Ehf. done.
Qed.

Lemma region_volume_heap m_img KI KN pb hp hp' n nd :
  frame (keeps KI KN pb) hp hp' → region_volume m_img hp n nd → region_volume m_img hp' n nd.
Proof.
  intros Hfr (R & f & fn & HR & Hf & Hfn & Hv).
  destruct (frame_keeps_lookup _ _ _ _ _ _ _ Hfr Hfn) as (fn' & Hfn' & Hkf).
  destruct Hkf as (_ & _ & Ehf & _).
  exists R, f, fn'. split; [by eapply region_of_frame|]. split; [done|]. split; [done|].
  by rewrite Hv, Ehf.
Qed.

Lemma to_int32_small x : 0 ≤ x < 2 ^ 31 → to_int32 x = x.
Proof. intros Hx. unfold to_int32. rewrite Z.mod_small; lia. Qed.

(** A region has at most as many pixels as the image. *)
Lemma region_size_le m_img hp n R :
  regions_ok m_img hp → region_of hp n R → (length R ≤ length (data m_img))%nat.
Proof.
  intros [Hnode _] [HR1 HR2].
  rewrite <- (Nat2Z.id (length (data m_img))), <- (length_seqZ 0).
  apply submseteq_length, NoDup_submseteq; [done|].
  intros q (m & md & _ & Hm & Hq)%HR2. apply elem_of_seqZ.
  destruct (Hnode m md Hm) as (_ & _ & Hval).
  pose proof (zget_range _ _ _ (Hval q Hq)). lia.
Qed.

Lemma region_of_length hp n R R' :
  region_of hp n R → region_of hp n R' → length R = length R'.
Proof.
  intros [H1 H2] [H1' H2']. apply Permutation_length, NoDup_Permutation; [done..|].
  intros q. by rewrite H2, H2'.
Qed.

(** After [computeArea] the slot [area] is the sum of the sizes of the
    lists of pixels over the subtree. *)
Lemma region_area_size D hp root m_img n nd :
  wf_tree D hp root → regions_ok m_img hp → reach hp root n →
  region_area hp n nd →
  iattr nd area = subtree_sum D hp (λ _ nd, Z.of_nat (length (pixels nd))) n.
Proof.
  intros Hwf Hreg Hrn (R & HR & ->). pose proof Hwf as [Hok _].
  destruct (subtree_region D hp root m_img Hwf Hreg D n (tree_ok_sub _ _ _ _ Hok Hrn) Hrn)
    as (R' & HR' & Hsum).
  rewrite (region_of_length hp n R R' HR HR').
  rewrite <- pixel_sum_length with (m_img := m_img), <- Hsum.
  apply subtree_sum_ext; [done|]. intros m md md' Hm Hm'.
  assert (md' = md) as -> by congruence. by rewrite pixel_sum_length.
Qed.

(** ** The counters of the regions in the trees of the constructors *)

Lemma region_area_heap KI KN pb hp hp' n nd :
  frame (keeps KI KN pb) hp hp' → region_area hp n nd → region_area hp' n nd.
Proof. intros Hfr (R & HR & E). exists R. split; [by eapply region_of_frame|done]. Qed.

Lemma region_sums_heap m_img KI KN pb hp hp' n nd :
  frame (keeps KI KN pb) hp hp' → region_sums m_img hp n nd → region_sums m_img hp' n nd.
Proof. intros Hfr (R & HR & E). exists R. split; [by eapply region_of_frame|done]. Qed.

Lemma region_sums_area m_img hp n nd : region_sums m_img hp n nd → region_area hp n nd.
Proof. intros (R & HR & E & _). by exists R. Qed.

Section Counted.

Variable c : Strategy.
Variable st0 : list Z.
Variable cap : Z → nat.
Variable sF : Flood.
Variable root : nat.
Variable p0 : Z.
Variable N : Z.
Variable T : PixelType.
Variable m_img : Image.
Hypothesis Hbuilt : built c st0 cap sF root p0 N.
Hypothesis HT : hMin c ≤ tmax T.

Local Abbreviation ready := (ready c sF root).
Local Abbreviation D := (Z.to_nat (numberOfLevels c)).

(** [computeAttributes(tree)]: it returns, and every node holds in
    [area] the number of pixels of its subtree, in [contrast] the height
    of its subtree and, for an image of fewer than 2^31 pixels, in
    [volume] the volume of its subtree above the level of its parent. *)
Lemma computeAttributes_values s :
  ready s → regions_ok m_img (heap s) →
  (∀ n nd, heap s !! n = Some nd → counts nd) →
  ∃ hp',
    converges (λ fuel, computeAttributes c T fuel (Some root) s) (set_heap hp' s) ∧
    frame (keeps attr_slots attr_nslots false) (heap s) hp' ∧
    ∀ m, reach (heap s) root m →
         ∃ nd, hp' !! m = Some nd ∧ region_area hp' m nd ∧ top_contrast hp' m nd ∧
               (Z.of_nat (length (data m_img)) < 2 ^ 31 → region_volume m_img hp' m nd).
Proof.
  intros Hr0 Hreg Hcnt. destruct Hbuilt as (Hctx & Hfinal & Hall & Hoff).
  destruct (area_pass_regions D (heap s) root m_img (proj2 Hr0) Hreg Hcnt)
    as (hp1 & C1 & F1 & V1).
  pose proof (ready_frame _ _ _ _ _ _ _ _ Hr0 F1) as Hr1.
  destruct (computeContrast_tops D _ root (proj2 Hr1)) as (hp2 & C2 & F2 & V2).
  pose proof (ready_frame _ _ _ _ _ _ _ _ Hr1 F2) as Hr2.
  destruct (computeVolume_sums D _ root (proj2 Hr2)) as (hp3 & C3 & F3 & V3).
  pose proof (ready_frame _ _ _ _ _ _ _ _ Hr2 F3) as Hr3.
  destruct (computeContour_total c st0 cap T sF root p0 N Hctx Hfinal Hall HT Hoff false _
              (proj1 Hr3)) as (hp4 & C4 & [F4 _] & _).
  pose proof (ready_frame _ _ _ _ _ _ _ _ Hr3 F4) as Hr4.
  destruct (computeComplexityAndCompacity_total _ _ _ (proj2 Hr4)) as (hp5 & C5 & F5).
  pose proof (ready_frame _ _ _ _ _ _ _ _ Hr4 F5) as Hr5.
  destruct (computeBoundingBox_total _ _ _ (proj2 Hr5)) as (hp6 & C6 & F6).
  pose proof (ready_frame _ _ _ _ _ _ _ _ Hr5 F6) as Hr6.
  destruct (computeSubNodes_total _ _ _ (proj2 Hr6)) as (hp7 & C7 & F7).
  cbn [heap set_heap] in *.
  assert (frame (keeps [contourLength; subNodes; xmin; xmax; ymin; ymax; zmin; zmax]
                       attr_nslots false) hp3 hp7) as G3.
  { eapply frame_trans; [apply keeps_trans| |].
    { eapply frame_weaken; [| | |exact F4]; [sub_slots|sub_slots|done]. }
    eapply frame_trans; [apply keeps_trans| |].
    { eapply frame_weaken; [| | |exact F5]; [sub_slots|unfold attr_nslots; sub_slots|done]. }
    eapply frame_trans; [apply keeps_trans| |].
    { eapply frame_weaken; [| | |exact F6]; [sub_slots|sub_slots|done]. }
    eapply frame_weaken; [| | |exact F7]; [sub_slots|sub_slots|done]. }
  assert (frame (keeps [volume; contourLength; subNodes; xmin; xmax; ymin; ymax; zmin; zmax]
                       attr_nslots false) hp2 hp7) as G2.
  { eapply frame_trans; [apply keeps_trans| |].
    { eapply frame_weaken; [| | |exact F3]; [sub_slots|sub_slots|done]. }
    eapply frame_trans; [apply keeps_trans| |].
    { eapply frame_weaken; [| | |exact F4]; [sub_slots|sub_slots|done]. }
    eapply frame_trans; [apply keeps_trans| |].
    { eapply frame_weaken; [| | |exact F5]; [sub_slots|unfold attr_nslots; sub_slots|done]. }
    eapply frame_trans; [apply keeps_trans| |].
    { eapply frame_weaken; [| | |exact F6]; [sub_slots|sub_slots|done]. }
    eapply frame_weaken; [| | |exact F7]; [sub_slots|sub_slots|done]. }
  assert (frame (keeps late_slots attr_nslots false) hp1 hp7) as G.
  { eapply frame_trans; [apply keeps_trans| |].
    { eapply frame_weaken; [| | |exact F2]; [unfold late_slots; sub_slots|sub_slots|done]. }
    eapply frame_weaken; [| | |exact G2]; [unfold late_slots; sub_slots|sub_slots|done]. }
  exists hp7. split_and!.
  - unfold computeAttributes.
    eapply converges_bind; [apply converges_on_heap; exact C1|].
    eapply converges_bind; [apply (converges_on_heap _ (set_heap hp1 s)); exact C2|].
    eapply converges_bind; [apply (converges_on_heap _ (set_heap hp2 s)); exact C3|].
    eapply converges_bind; [exact C4|].
    eapply converges_bind; [apply (converges_on_heap _ (set_heap hp4 s)); exact C5|].
    eapply converges_bind; [apply (converges_on_heap _ (set_heap hp5 s)); exact C6|].
    apply (converges_on_heap _ (set_heap hp6 s)). exact C7.
  - eapply frame_trans; [apply keeps_trans| |].
    { eapply frame_weaken; [| | |exact F1]; [unfold attr_slots; sub_slots|sub_slots|done]. }
    eapply frame_weaken; [| | |exact G];
      [unfold late_slots, attr_slots; sub_slots|sub_slots|done].
  - intros m Hm. destruct (V1 m Hm) as (nd1 & Hn1 & A1).
    destruct (V2 m) as (nd2 & Hn2 & T2).
    { apply (reach_same_links (heap s)); [|done].
      apply (frame_same_links _ _ _ (keeps_links _ _ _) F1). }
    destruct (frame_keeps_lookup _ _ _ _ _ _ _ G Hn1) as (nd7 & Hn7 & K).
    destruct (frame_keeps_lookup _ _ _ _ _ _ _ G2 Hn2) as (nd7' & Hn7' & K2).
    assert (nd7' = nd7) as -> by congruence.
    assert (reach hp2 root m) as Hm2.
    { apply (reach_same_links hp1); [apply (frame_same_links _ _ _ (keeps_links _ _ _) F2)|].
      apply (reach_same_links (heap s)); [|done].
      apply (frame_same_links _ _ _ (keeps_links _ _ _) F1). }
    exists nd7. split_and!; [done| | |].
    + apply (region_area_keeps _ _ _ hp1 hp7 m nd1 nd7 G K); [unfold late_slots; not_in_slots|].
      by apply (region_area_heap _ _ _ _ _ _ _ F1).
    + apply (top_contrast_keeps _ _ _ hp2 hp7 m nd2 nd7 G2 K2); [not_in_slots|done].
    + intros Hsmall.
      assert (frame (keeps [area; contrast] [] false) (heap s) hp2) as F12.
      { eapply frame_trans; [apply keeps_trans| |].
        - eapply frame_weaken; [| | |exact F1]; [sub_slots|sub_slots|done].
        - eapply frame_weaken; [| | |exact F2]; [sub_slots|sub_slots|done]. }
      pose proof (regions_ok_frame _ _ _ _ _ _ F12 Hreg) as Hreg2.
      assert (∀ n nd, reach hp2 root n → hp2 !! n = Some nd → region_area hp2 n nd) as Ha2.
      { intros n x2 Hrn Hx2.
        destruct (frame_back _ _ _ _ _ _ _ F2 Hx2) as (x1 & Hx1 & Kx).
        destruct (V1 n) as (x1' & Hx1' & Ax).
        { apply (reach_same_links hp1);
            [apply same_links_sym, (frame_same_links _ _ _ (keeps_links _ _ _) F1)|].
          apply (reach_same_links hp2); [|done].
          apply same_links_sym, (frame_same_links _ _ _ (keeps_links _ _ _) F2). }
        assert (x1' = x1) as -> by congruence.
        apply (region_area_keeps _ _ _ hp1 hp2 n x1 x2 F2 Kx); [not_in_slots|].
        by apply (region_area_heap _ _ _ _ _ _ _ F1). }
      destruct (V3 m Hm2) as (nd3 & Hn3 & E3).
      destruct (frame_keeps_lookup _ _ _ _ _ _ _ F3 Hn2) as (nd3' & Hn3' & K3).
      assert (nd3' = nd3) as -> by congruence.
      destruct (frame_keeps_lookup _ _ _ _ _ _ _ G3 Hn3) as (nd7x & Hn7x & K7).
      assert (nd7x = nd7) as -> by congruence.
      apply (region_volume_keeps _ _ _ _ hp3 hp7 m nd3 nd7 G3 K7); [not_in_slots|].
      apply (region_volume_heap _ _ _ _ _ _ _ _ F3).
      apply (volume_region D hp2 root m_img (proj2 Hr2) Hreg2) with (nd := nd2);
        [|exact Hm2|exact Hn2|exact (proj1 (proj2 (proj2 (proj2 K3))))|exact E3].
      intros n x2 Hrn Hx2. pose proof (Ha2 n x2 Hrn Hx2) as Ax. split.
      * exact (region_area_size D hp2 root m_img n x2 (proj2 Hr2) Hreg2 Hrn Ax).
      * destruct Ax as (R & HR & ->). apply to_int32_small.
        pose proof (region_size_le m_img hp2 n R Hreg2 HR). lia.
Qed.

Hypothesis HN : N ≤ Z.of_nat (length (data (imGradient c))).

(** [computeAttributes(tree, ca, delta)] for a mask with [AREA]: it
    returns, and every node holds in [area] the number of pixels of its
    subtree; with [OTSU] in the mask it also holds, in [sum] and
    [sum_square], the sum of the values of these pixels and the sum of
    their squares. *)
Lemma computeAttributes_ca_regions ca delta s :
  has ca AREA = true →
  ready s → pb_ok N (heap s) → regions_ok m_img (heap s) →
  (∀ n nd, heap s !! n = Some nd → counts nd) →
  ∃ hp',
    converges (λ fuel, computeAttributes_ca c T fuel (Some root) ca delta s)
              (set_heap hp' s) ∧
    frame (keeps ca_slots ca_nslots true) (heap s) hp' ∧
    ∀ m, reach (heap s) root m →
         ∃ nd, hp' !! m = Some nd ∧ region_area hp' m nd ∧
               (has ca OTSU = true → region_sums m_img hp' m nd).
Proof.
  intros Ha Hr0 Hpb Hreg Hcnt.
  destruct (late_stage c st0 cap sF root p0 N T Hbuilt HT ca delta HN)
    as (tail & Htail & Heq).
  destruct (has ca OTSU) eqn:Ho.
  - destruct (sums_pass_regions D (heap s) root m_img (proj2 Hr0) Hreg Hcnt)
      as (hp1 & hp2 & hp3 & C1 & C2 & C3 & F1 & F2 & F3 & V3).
    pose proof (ready_frame c sF root _ _ _ _ _ Hr0 F1) as Hr1.
    pose proof (ready_frame c sF root _ _ _ _ _ Hr1 F2) as Hr2.
    pose proof (ready_frame c sF root _ _ _ _ _ Hr2 F3) as Hr3.
    destruct (computeMean_total D _ root (proj2 Hr3)) as (hp4 & C4 & F4 & _).
    pose proof (ready_frame c sF root _ _ _ _ _ Hr3 F4) as Hr4.
    destruct (computeVariance_total D _ root (proj2 Hr4)) as (hp5 & C5 & F5 & _).
    pose proof (ready_frame c sF root _ _ _ _ _ Hr4 F5) as Hr5.
    destruct (computeOtsu_total D _ root (proj2 Hr5)) as (hp6 & C6 & F6 & _).
    pose proof (ready_frame c sF root _ _ _ _ _ Hr5 F6) as Hr6.
    cbn [heap set_heap] in *.
    assert (frame (keeps [area; sum; sum_square] [] false) (heap s) hp3) as G3.
    { eapply frame_trans; [apply keeps_trans| |].
      { eapply frame_weaken; [| | |exact F1]; [sub_slots|sub_slots|done]. }
      eapply frame_trans; [apply keeps_trans| |].
      { eapply frame_weaken; [| | |exact F2]; [sub_slots|sub_slots|done]. }
      eapply frame_weaken; [| | |exact F3]; [sub_slots|sub_slots|done]. }
    assert (frame (keeps [] [mean; variance; otsu] false) hp3 hp6) as G6.
    { eapply frame_trans; [apply keeps_trans| |].
      { eapply frame_weaken; [| | |exact F4]; [sub_slots|sub_slots|done]. }
      eapply frame_trans; [apply keeps_trans| |].
      { eapply frame_weaken; [| | |exact F5]; [sub_slots|sub_slots|done]. }
      eapply frame_weaken; [| | |exact F6]; [sub_slots|sub_slots|done]. }
    assert (frame (keeps ca_slots ca_nslots false) (heap s) hp6) as G.
    { eapply frame_trans; [apply keeps_trans| |].
      { eapply frame_weaken; [| | |exact G3]; [unfold ca_slots; sub_slots|sub_slots|done]. }
      eapply frame_weaken; [| | |exact G6]; [sub_slots|unfold ca_nslots; sub_slots|done]. }
    destruct (Htail (set_heap hp6 s) Hr6 (pb_ok_frame _ _ _ _ _ G Hpb))
      as (hp7 & C7 & F7 & _).
    cbn [heap set_heap] in *.
    exists hp7. split_and!.
    + apply (converges_ext _ _ _ (λ fuel, Heq fuel s)). rewrite Ha. cbn [when].
      apply (converges_bind _ tail (set_heap hp6 s)); [|exact C7].
      eapply converges_bind; [apply converges_on_heap; exact C1|].
      eapply converges_bind; [apply (converges_on_heap _ (set_heap hp1 s)); exact C2|].
      eapply converges_bind; [apply (converges_on_heap _ (set_heap hp2 s)); exact C3|].
      eapply converges_bind;
        [apply (converges_on_heap (λ fuel hp, void (computeMean fuel hp root))
                  (set_heap hp3 s)); exact C4|].
      eapply converges_bind;
        [apply (converges_on_heap (λ fuel hp, void (computeVariance fuel hp root))
                  (set_heap hp4 s)); exact C5|].
      apply (converges_on_heap (λ fuel hp, void (computeOtsu fuel hp root))
               (set_heap hp5 s)). exact C6.
    + eapply frame_trans; [apply keeps_trans| |].
      { eapply frame_weaken; [| | |exact G]; done. }
      eapply frame_weaken; [| | |exact F7];
        [unfold late_slots, ca_slots; sub_slots|unfold late_nslots, ca_nslots; sub_slots
        |done].
    + intros m Hm. destruct (V3 m Hm) as (nd3 & Hn3 & S3).
      destruct (frame_keeps_lookup _ _ _ _ _ _ _ G6 Hn3) as (nd6 & Hn6 & K6).
      destruct (frame_keeps_lookup _ _ _ _ _ _ _ F7 Hn6) as (nd7 & Hn7 & K7).
      assert (region_sums m_img hp7 m nd7) as S7.
      { apply (region_sums_keeps _ _ _ _ hp6 hp7 m nd6 nd7 F7 K7);
          [unfold late_slots; not_in_slots..|].
        apply (region_sums_keeps _ _ _ _ hp3 hp6 m nd3 nd6 G6 K6); [not_in_slots..|].
        by apply (region_sums_heap _ _ _ _ _ _ _ _ G3). }
      exists nd7. split_and!; [done| |done]. by eapply region_sums_area.
  - destruct (area_pass_regions D (heap s) root m_img (proj2 Hr0) Hreg Hcnt)
      as (hp1 & C1 & F1 & V1).
    pose proof (ready_frame c sF root _ _ _ _ _ Hr0 F1) as Hr1.
    destruct (Htail (set_heap hp1 s) Hr1 (pb_ok_frame _ _ _ _ _ F1 Hpb))
      as (hp7 & C7 & F7 & _).
    cbn [heap set_heap] in *.
    exists hp7. split_and!.
    + apply (converges_ext _ _ _ (λ fuel, Heq fuel s)). rewrite Ha. cbn [when].
      apply (converges_bind _ tail (set_heap hp1 s)); [|exact C7].
      eapply converges_bind; [apply converges_on_heap; exact C1|]. apply converges_ret.
    + eapply frame_trans; [apply keeps_trans| |].
      { eapply frame_weaken; [| | |exact F1]; [unfold ca_slots; sub_slots|sub_slots|done]. }
      eapply frame_weaken; [| | |exact F7];
        [unfold late_slots, ca_slots; sub_slots|unfold late_nslots, ca_nslots; sub_slots
        |done].
    + intros m Hm. destruct (V1 m Hm) as (nd1 & Hn1 & A1).
      destruct (frame_keeps_lookup _ _ _ _ _ _ _ F7 Hn1) as (nd7 & Hn7 & K7).
      exists nd7. split_and!; [done| |done].
      apply (region_area_keeps _ _ _ hp1 hp7 m nd1 nd7 F7 K7);
        [unfold late_slots; not_in_slots|].
      by apply (region_area_heap _ _ _ _ _ _ _ F1).
Qed.

End Counted.

(** The tree of the builder, for the image it was built from. *)
Lemma built_regions_ok img gradient connexity lo hi sF root p0 :
  image_ok img → getMin img = Some lo → getMax img = Some hi →
  built (init_strategy img gradient connexity lo hi) (init_status img connexity)
        (histo img lo) sF root p0 (Z.of_nat (length (data img))) →
  regions_ok img (heap sF) ∧ (∀ n nd, heap sF !! n = Some nd → counts nd).
Proof.
  intros Hok Hlo Hhi Hbuilt.
  destruct (build_pixels img gradient connexity lo hi sF root p0 Hok Hlo Hhi Hbuilt)
    as [Hval _].
  destruct Hbuilt as (Hctx & Hfinal & _). split; [split|].
  - intros n nd Hn. split_and!.
    + by destruct (final_blank _ _ _ _ _ _ Hfinal n nd Hn).
    + by apply (final_pix_nodup _ _ _ _ _ _ Hfinal n).
    + intros o Ho. by apply (Hval n).
  - intros n n' nd nd' o. by apply (final_owner _ _ _ Hctx _ _ _ Hfinal).
  - intros n nd Hn. by apply (inv_counts (final_inv _ _ _ _ _ _ Hfinal) n).
Qed.

(** The subtree of the root of the builder holds every pixel of the
    image. *)
Lemma built_root_region img gradient connexity lo hi sF root p0 KI KN pb hp R :
  image_ok img → getMin img = Some lo → getMax img = Some hi →
  built (init_strategy img gradient connexity lo hi) (init_status img connexity)
        (histo img lo) sF root p0 (Z.of_nat (length (data img))) →
  frame (keeps KI KN pb) (heap sF) hp → region_of hp root R →
  length R = length (data img).
Proof.
  intros Hok Hlo Hhi Hbuilt Hfr [HR1 HR2].
  destruct (build_pixels img gradient connexity lo hi sF root p0 Hok Hlo Hhi Hbuilt)
    as [Hval Hall].
  destruct Hbuilt as (Hctx & Hfinal & _).
  apply region_all; [done|]. intros q. rewrite HR2.
  rewrite (subtree_pixel_frame (heap sF) KI KN pb hp root q Hfr). split.
  - intros (m & md & _ & Hm & Hq). apply (zget_range _ _ _ (Hval m md q Hm Hq)).
  - intros Hq. destruct (Hall q Hq) as (n & nd & Hn & Hin). exists n, nd.
    split_and!; [|done..]. by apply (final_reach _ _ _ _ _ _ Hfinal n nd).
Qed.

(** ** [constructImageMin] *)

Lemma chained_head hp a m :
  chained hp a m →
  m = a ∨ ∃ an c, hp !! a = Some an ∧ c ∈ childs an ∧ chained hp c m.
Proof.
  induction 1 as [|m mn c cn Hm IH Hmn Hc Hcn Ha]; [by left|right].
  destruct IH as [->|(an & c' & Han & Hc' & Hch)].
  - exists mn, c. split_and!; [done..|]. by eapply chained_refl.
  - exists an, c'. split_and!; [done..|]. by eapply chained_child.
Qed.

Lemma chained_reach hp a m : chained hp a m → reach hp a m.
Proof. induction 1; [constructor|by eapply reach_child]. Qed.

Lemma chained_first hp a m : chained hp a m → ∃ an, hp !! a = Some an ∧ active an = true.
Proof. induction 1; eauto. Qed.

Lemma chained_last hp a m : chained hp a m → ∃ mn, hp !! m = Some mn ∧ active mn = true.
Proof. destruct 1; eauto. Qed.

(** With an active root every node of the tree has its place under the
    rule. *)
Lemma cut_at_exists D hp root m :
  tree_ok D hp root = true → chained hp root root → reach hp root m →
  ∃ a, chained hp root a ∧ cut_at hp a m.
Proof.
  intros Hok Hroot. induction 1 as [|x c xd Hrx IH Hx Hc].
  - exists root. split; [done|by left].
  - destruct IH as (a & Ha & Hcut).
    assert (reach hp root c) as Hrc by exact (reach_child hp root x c xd Hrx Hx Hc).
    destruct (weight_reach _ _ _ _ Hok Hrc) as (cn & Hcn & _).
    destruct Hcut as [->|(an & c0 & cn0 & Han & Hc0 & Hcn0 & Hi & Hr0)].
    + destruct (active cn) eqn:Hact.
      * exists c. split; [by eapply chained_child|by left].
      * exists a. split; [done|]. right. exists xd, c, cn. split_and!; [done..|constructor].
    + exists a. split; [done|]. right. exists an, c0, cn0. split_and!; [done..|].
      by eapply reach_child.
Qed.

Section Min.

Variable T : PixelType.
Variable D : nat.
Variable hp : list Node.
Variable root : nat.
Variable res0 : Image.
Hypothesis Hok : tree_ok D hp root = true.
Hypothesis Hpx : pixels_in_range hp root (length (data res0)).

Local Abbreviation K := (S (weight D hp root)).

(** The loop over the children of [n]: the pixels of the subtrees of the
    children that are not active are painted, the active children are
    pushed. *)
Lemma constructImageMin_childs_spec n nd v cs res pushed :
  reach hp root n → hp !! n = Some nd → (∀ c, c ∈ cs → c ∈ childs nd) →
  length (data res) = length (data res0) →
  ∃ res' ps,
    (∀ F, (K ≤ F)%nat →
       constructImageMin_childs T F hp v cs res pushed = Some (res', pushed ++ ps)) ∧
    length (data res') = length (data res0) ∧
    (∀ c, c ∈ ps ↔ c ∈ cs ∧ ∃ cn, hp !! c = Some cn ∧ active cn = true) ∧
    (sum_list (weight D hp <$> ps) ≤ sum_list (weight D hp <$> cs))%nat ∧
    ∀ i : nat,
      (data res' !! i = Some (cast T v) ∧
       ∃ c cn, c ∈ cs ∧ hp !! c = Some cn ∧ active cn = false ∧
               subtree_pixel hp c (Z.of_nat i)) ∨
      (data res' !! i = data res !! i ∧
       ¬ ∃ c cn, c ∈ cs ∧ hp !! c = Some cn ∧ active cn = false ∧
                 subtree_pixel hp c (Z.of_nat i)).
Proof.
  intros Hrn Hn. revert res pushed.
  induction cs as [|c cs IH]; intros res pushed Hsub Hlen.
  - exists res, []. split_and!; [by rewrite app_nil_r|done| |done|].
    + intros c. split; [by intros ?%elem_of_nil|]. by intros [?%elem_of_nil _].
    + intros i. right. split; [done|]. by intros (c & cn & ?%elem_of_nil & _).
  - assert (c ∈ childs nd) as Hc by (apply Hsub; by left).
    assert (reach hp root c) as Hrc by exact (reach_child hp root n c nd Hrn Hn Hc).
    destruct (weight_reach _ _ _ _ Hok Hrc) as (cn & Hcn & _).
    destruct (active cn) eqn:Hact.
    + destruct (IH res (pushed ++ [c])) as (res' & ps & Hrun & Hlen' & Hps & Hw & Hpaint).
      { intros c' Hc'. apply Hsub. by right. } { done. }
      exists res', (c :: ps). split_and!; [|done| | |].
      * intros F HF. simpl. rewrite Hcn. simpl. rewrite Hact.
        rewrite (Hrun F HF). by rewrite <- app_assoc.
      * intros c'. rewrite !elem_of_cons, Hps. split.
        -- intros [->|[? ?]]; [|by split; [right|]]. split; [by left|by exists cn].
        -- intros [[->|?] ?]; [by left|by right].
      * rewrite !fmap_cons. simpl. lia.
      * intros i. destruct (Hpaint i) as [[E (c' & cn' & ? & ? & ? & ?)]|[E Hno]].
        -- left. split; [done|]. exists c', cn'. split_and!; [by right|done..].
        -- right. split; [done|]. intros (c' & cn' & [->|?]%elem_of_cons & Hc' & Hi & ?).
           ++ congruence.
           ++ apply Hno. by exists c', cn'.
    + destruct (merge_pixels_spec D hp c (tree_ok_sub _ _ _ _ Hok Hrc)) as (px & Hmerge & Hin).
      destruct (paint_spec res px (cast T v)) as (res1 & Hp1 & _ & _ & _ & Hlen1 & Hlook1).
      { intros o (m & md & Hm & Hmd & Ho)%Hin. rewrite Hlen.
        apply (Hpx m md o); [|done..]. by eapply reach_trans. }
      destruct (IH res1 pushed) as (res' & ps & Hrun & Hlen' & Hps & Hw & Hpaint).
      { intros c' Hc'. apply Hsub. by right. } { lia. }
      exists res', ps. split_and!; [|done| | |].
      * intros F HF. simpl. rewrite Hcn. simpl. rewrite Hact.
        rewrite Hmerge. 2:{ pose proof (weight_reach_le _ _ _ _ _ Hok (reach_refl hp root) Hrc). lia. }
        simpl. rewrite Hp1. simpl. by apply Hrun.
      * intros c'. rewrite elem_of_cons, Hps. split.
        -- intros [? ?]. split; [by right|done].
        -- intros [[->|?] (cn' & Hcn' & Ha')]; [congruence|]. split; [done|by exists cn'].
      * rewrite fmap_cons. simpl. lia.
      * intros i. destruct (Hpaint i) as [[E (c' & cn' & ? & ? & ? & ?)]|[E Hno]].
        -- left. split; [done|]. exists c', cn'. split_and!; [by right|done..].
        -- rewrite Hlook1 in E. case_decide as Hi.
           ++ left. split; [done|]. exists c, cn. split_and!; [by left|done..|by apply Hin].
           ++ right. split; [done|].
              intros (c' & cn' & [->|?]%elem_of_cons & Hc' & Ha' & Hs).
              ** by apply Hi, Hin.
              ** apply Hno. by exists c', cn'.
Qed.

(** [constructImageMin] on a tree with an active root. *)
Lemma constructImageMin_levels rn :
  hp !! root = Some rn → active rn = true →
  ∃ res',
    (∀ fuel, (K < fuel)%nat → constructImageMin T fuel hp root res0 = Some res') ∧
    length (data res') = length (data res0) ∧
    ∀ i : nat, (i < length (data res0))%nat →
      (data res' !! i = data res0 !! i ∧
       ∀ m nd, reach hp root m → hp !! m = Some nd → Z.of_nat i ∉ pixels nd) ∨
      (∃ m nd v, hp !! m = Some nd ∧ Z.of_nat i ∈ pixels nd ∧ min_level hp root m v ∧
                 data res' !! i = Some (cast T v)).
Proof.
  intros Hrn Hact.
  assert (chained hp root root) as Hroot by (by eapply chained_refl).
  set (I := λ (res : Image) (q : list nat),
    ∃ V : list nat,
      length (data res) = length (data res0) ∧
      (∀ n, n ∈ q → chained hp root n) ∧
      (∀ m, chained hp root m → m ∈ V ∨ ∃ t, t ∈ q ∧ chained hp t m) ∧
      ∀ i : nat, (i < length (data res0))%nat →
        (data res !! i = data res0 !! i ∧
         ∀ a m nd, a ∈ V → cut_at hp a m → hp !! m = Some nd → Z.of_nat i ∉ pixels nd) ∨
        (∃ m nd v, hp !! m = Some nd ∧ Z.of_nat i ∈ pixels nd ∧ min_level hp root m v ∧
                   data res !! i = Some (cast T v))).
  destruct (queue_loop_total_fuel (λ F, constructImageMin_visit T F hp) K (weight D hp) I)
    with (s := res0) (q := [root]) as (res' & Hrun & V & Hlen & _ & Hall & Hpaint).
  - intros res n q (V & Hlen & Hq & Hall & Hpaint).
    assert (chained hp root n) as Hcn by (apply Hq; by left).
    pose proof (chained_reach _ _ _ Hcn) as Hr.
    destruct (weight_reach _ _ _ _ Hok Hr) as (nd & Hn & Hw & _).
    destruct (paint_spec res (pixels nd) (cast T (h nd)))
      as (res1 & Hp1 & _ & _ & _ & Hlen1 & Hlook1).
    { intros o Ho. rewrite Hlen. by apply (Hpx n nd o). }
    destruct (constructImageMin_childs_spec n nd (h nd) (childs nd) res1 [] Hr Hn)
      as (res2 & ps & Hrun2 & Hlen2 & Hps & Hwps & Hpaint2); [done|lia|].
    exists res2, ps. split_and!.
    + intros F HF. unfold constructImageMin_visit. rewrite Hn. simpl. rewrite Hp1. simpl.
      by apply Hrun2.
    + exists (n :: V). split_and!; [done| | |].
      * intros m [Hm|Hm]%elem_of_app; [apply Hq; by right|].
        apply Hps in Hm as (Hm & mn & Hmn & Ham). by eapply chained_child.
      * intros m Hm. destruct (Hall m Hm) as [?|(t & [->|Ht]%elem_of_cons & Htm)].
        -- left. by right.
        -- apply chained_head in Htm as [->|(nd' & c & Hn' & Hc & Hcm)]; [left; by left|].
           assert (nd' = nd) as -> by congruence.
           right. exists c. split; [|done]. apply elem_of_app. right. apply Hps.
           split; [done|]. by apply (chained_first _ _ _ Hcm).
        -- right. exists t. split; [|done]. apply elem_of_app. by left.
      * intros i Hi.
        destruct (Hpaint2 i) as [[E (c & cn & Hc & Hcn' & Ha & m & md & Hm & Hmd & Ho)]|[E Hno]].
        { right. exists m, md, (h nd). split_and!; [done..| |done].
          exists n, nd. split_and!; [done| |done..]. right. by exists nd, c, cn. }
        rewrite Hlook1 in E. case_decide as Ho.
        { right. exists n, nd, (h nd). split_and!; [done..| |done].
          exists n, nd. split_and!; [done|by left|done..]. }
        destruct (Hpaint i Hi) as [[E0 Hnone]|(m & md & v & ? & ? & ? & E0)].
        -- left. split; [congruence|].
           intros a m md [->|Ha]%elem_of_cons Hcut Hmd; [|by apply (Hnone a m md)].
           destruct Hcut as [->|(an & c & cn & Han & Hc & Hcn' & Hi' & Hrm)].
           ++ assert (md = nd) as -> by congruence. done.
           ++ assert (an = nd) as -> by congruence. intros Hin. apply Hno.
              exists c, cn. split_and!; [done..|]. by exists m, md.
        -- right. exists m, md, v. split_and!; [done..|congruence].
    + rewrite Hw. lia.
  - exists []. split_and!; [done| | |].
    + by intros n ->%list_elem_of_singleton.
    + intros m Hm. right. exists root. split; [by left|done].
    + intros i Hi. left. split; [done|]. intros a m nd Ha. by apply elem_of_nil in Ha.
  - exists res'. split_and!; [|done|].
    + intros fuel Hf. unfold constructImageMin. rewrite Hrn. simpl. rewrite Hact.
      apply Hrun; [lia|]. simpl. lia.
    + intros i Hi. destruct (Hpaint i Hi) as [[E Hnone]|?]; [left|by right].
      split; [done|]. intros m nd Hm Hnd.
      destruct (cut_at_exists D hp root m Hok Hroot Hm) as (a & Ha & Hcut).
      apply (Hnone a m nd); [|done..].
      destruct (Hall a Ha) as [?|(t & ?%elem_of_nil & _)]; done.
Qed.

End Min.

(** ** The masks of attributes *)

(** X5.  For an image with at least one pixel whose values are values of
    the pixel type and have squares that fit an [int] (below 2^31, so
    that no product of two values overflows), a neighborhood that
    connects its pixels, a gradient image of the size of the image and a
    mask [ca] with the flags [AREA] and [OTSU]:
    [ComponentTree(img, connexity, ca, delta)] returns, and
    every node of its tree holds the statistics of its ring for the ball
    of radius [(int)delta], its mean [sum / area], its variance
    [sum_square / area - mean * mean] and its Otsu criterion
    [(mean - mean_nghb)² / (variance + variance_nghb)]. *)
Theorem ComponentTree_ca_area_otsu (T : PixelType) (img gradient : Image)
    (connexity : FlatSE) (ca delta : Z) :
  image_ok img → image_of T img → squares_fit img → connected img connexity →
  length (data gradient) = length (data img) →
  has ca AREA = true → has ca OTSU = true →
  ∃ root hp,
    converges (λ fuel, ComponentTree_ca T fuel img gradient connexity ca delta)
              (mkTree (Some root) img hp) ∧
    ∀ n nd, hp !! n = Some nd →
      ring_stats img (make2DEuclidianBall (int_of_uint delta)) hp n nd ∧ otsu_node nd.
Proof.
  intros Hok HT _ Hconn Hg Ha Ho.
  destruct (ComponentTree_ca_nghb img gradient connexity ca delta Hok Hconn)
    as (lo & hi & s0 & sF & root & p0 & hpN & Hlo & Hinit & Hrun & Hbuilt & CN & FN & HR).
  pose proof Hbuilt as (_ & Hfinal & _).
  pose proof (ready_frame _ _ _ _ _ _ _ _ (built_ready _ _ _ _ _ _ _ Hbuilt) FN) as HrN.
  pose proof (pb_ok_frame _ _ _ _ _ FN (built_pb_ok _ _ _ _ _ _ _ Hbuilt)) as HpN.
  destruct (computeAttributes_ca_total _ _ _ _ _ _ _ T Hbuilt (image_of_min T img lo HT Hlo)
              ltac:(cbn; lia) ca delta _ Ha Ho HrN HpN) as (hp & C & F & Q).
  cbn [heap set_heap] in *.
  exists root, hp. split.
  - unfold ComponentTree_ca. rewrite Hinit. cbn [mbind option_bind].
    apply (converges_bind _
             (λ fuel x, let '(root, s) := x in
                s ← when (has ca OTSU) (λ s,
                       r ← root;
                       on_heap (computeNeighborhoodAttributes fuel img (int_of_uint delta) r)
                               s) s;
                s ← computeAttributes_ca _ T fuel root ca delta s;
                Some (mkTree root img (heap s))) _ _ Hrun).
    cbv beta iota.
    apply (converges_bind _
             (λ fuel s, s ← computeAttributes_ca _ T fuel (Some root) ca delta s;
                        Some (mkTree (Some root) img (heap s))) _ _ CN).
    cbv beta.
    apply (converges_bind _ (λ _ s, Some (mkTree (Some root) img (heap s))) _ _ C).
    apply converges_ret.
  - intros n nd Hn.
    destruct (frame_back _ _ _ _ _ _ _ F Hn) as (ndN & HnN & K).
    destruct (frame_back _ _ _ _ _ _ _ FN HnN) as (nd0 & Hn0 & K0).
    split.
    + destruct (HR Ho n nd0 Hn0) as (ndN' & HnN' & Hst).
      assert (ndN' = ndN) as -> by congruence.
      apply (ring_stats_heap _ _ _ _ _ _ _ _ _ F).
      apply (ring_stats_heap _ _ _ _ _ _ _ _ _ FN).
      apply (ring_stats_keeps _ _ _ _ _ _ _ _ _ K);
        [unfold ca_slots; not_in_slots..|unfold ca_nslots; not_in_slots
         |unfold ca_nslots; not_in_slots|done].
    + destruct (Q n) as (nd' & Hn' & Hot).
      * apply (reach_same_links (heap sF));
          [apply (frame_same_links _ _ _ (keeps_links _ _ _) FN)|].
        by apply (final_reach _ _ _ _ _ _ Hfinal n nd0).
      * congruence.
Qed.

Lemma ComponentTree_ca_area_otsu_witness :
  image_ok img_step ∧ image_of U8 img_step ∧ squares_fit img_step ∧
  connected img_step make2DN8 ∧
  length (data img_step) = length (data img_step) ∧
  has 257 AREA = true ∧ has 257 OTSU = true ∧
  ∃ root hp,
    converges (λ fuel, ComponentTree_ca U8 fuel img_step img_step make2DN8 257 1)
              (mkTree (Some root) img_step hp) ∧
    ∀ n nd, hp !! n = Some nd →
      ring_stats img_step (make2DEuclidianBall (int_of_uint 1)) hp n nd ∧ otsu_node nd.
Proof.
  assert (image_ok img_step) as Hok by (unfold image_ok; simpl; lia).
  assert (image_of U8 img_step) as HT.
  { unfold image_of. simpl. repeat constructor; simpl; lia. }
  assert (squares_fit img_step) as Hsq by (repeat constructor).
  assert (connected img_step make2DN8) as Hconn by (by apply make2DN8_connected).
  split_and!; [done..|].
  exact (ComponentTree_ca_area_otsu U8 img_step img_step make2DN8 257 1
           Hok HT Hsq Hconn eq_refl eq_refl eq_refl).
Defined.

(** X6.  Under the same conditions on the image, for a mask [ca] without
    the flag [AREA], with or without [OTSU]:
    [ComponentTree(img, connexity, ca, delta)] returns a tree whose nodes
    all have their mean, their variance and their Otsu criterion at 0,
    the value the constructor of the nodes gave them; the passes of the
    flag [OTSU] are nested in those of the flag [AREA]. *)
Theorem ComponentTree_ca_without_area (T : PixelType) (img gradient : Image)
    (connexity : FlatSE) (ca delta : Z) :
  image_ok img → image_of T img → connected img connexity →
  length (data gradient) = length (data img) →
  has ca AREA = false →
  ∃ root hp,
    converges (λ fuel, ComponentTree_ca T fuel img gradient connexity ca delta)
              (mkTree (Some root) img hp) ∧
    ∀ n nd, hp !! n = Some nd →
      nattr nd mean = LdInt 0 ∧ nattr nd variance = LdInt 0 ∧ nattr nd otsu = LdInt 0.
Proof.
  intros Hok HT Hconn Hg Ha.
  destruct (ComponentTree_ca_nghb img gradient connexity ca delta Hok Hconn)
    as (lo & hi & s0 & sF & root & p0 & hpN & Hlo & Hinit & Hrun & Hbuilt & CN & FN & _).
  pose proof Hbuilt as (_ & Hfinal & _).
  pose proof (ready_frame _ _ _ _ _ _ _ _ (built_ready _ _ _ _ _ _ _ Hbuilt) FN) as HrN.
  pose proof (pb_ok_frame _ _ _ _ _ FN (built_pb_ok _ _ _ _ _ _ _ Hbuilt)) as HpN.
  destruct (computeAttributes_ca_skips _ _ _ _ _ _ _ T Hbuilt (image_of_min T img lo HT Hlo)
              ltac:(cbn; lia) ca delta _ Ha HrN HpN) as (hp & C & F).
  cbn [heap set_heap] in *.
  exists root, hp. split.
  - unfold ComponentTree_ca. rewrite Hinit. cbn [mbind option_bind].
    apply (converges_bind _
             (λ fuel x, let '(root, s) := x in
                s ← when (has ca OTSU) (λ s,
                       r ← root;
                       on_heap (computeNeighborhoodAttributes fuel img (int_of_uint delta) r)
                               s) s;
                s ← computeAttributes_ca _ T fuel root ca delta s;
                Some (mkTree root img (heap s))) _ _ Hrun).
    cbv beta iota.
    apply (converges_bind _
             (λ fuel s, s ← computeAttributes_ca _ T fuel (Some root) ca delta s;
                        Some (mkTree (Some root) img (heap s))) _ _ CN).
    cbv beta.
    apply (converges_bind _ (λ _ s, Some (mkTree (Some root) img (heap s))) _ _ C).
    apply converges_ret.
  - intros n nd Hn.
    destruct (frame_back _ _ _ _ _ _ _ F Hn) as (ndN & HnN & K).
    destruct (frame_back _ _ _ _ _ _ _ FN HnN) as (nd0 & Hn0 & K0).
    destruct (final_blank _ _ _ _ _ _ Hfinal n nd0 Hn0) as (_ & B & _).
    destruct K as (_ & _ & _ & _ & _ & _ & _ & _ & _ & _ & KN).
    destruct K0 as (_ & _ & _ & _ & _ & _ & _ & _ & _ & _ & KN0).
    rewrite !KN by (unfold late_nslots; not_in_slots).
    rewrite !KN0 by (unfold nghb_nslots; not_in_slots).
    by rewrite B.
Qed.

Lemma ComponentTree_ca_without_area_witness :
  image_ok img_step ∧ image_of U8 img_step ∧ connected img_step make2DN8 ∧
  length (data img_step) = length (data img_step) ∧ has 256 AREA = false ∧
  ∃ root hp,
    converges (λ fuel, ComponentTree_ca U8 fuel img_step img_step make2DN8 256 1)
              (mkTree (Some root) img_step hp) ∧
    ∀ n nd, hp !! n = Some nd →
      nattr nd mean = LdInt 0 ∧ nattr nd variance = LdInt 0 ∧ nattr nd otsu = LdInt 0.
Proof.
  assert (image_ok img_step) as Hok by (unfold image_ok; simpl; lia).
  assert (image_of U8 img_step) as HT.
  { unfold image_of. simpl. repeat constructor; simpl; lia. }
  assert (connected img_step make2DN8) as Hconn by (by apply make2DN8_connected).
  split_and!; [done..|].
  exact (ComponentTree_ca_without_area U8 img_step img_step make2DN8 256 1
           Hok HT Hconn eq_refl eq_refl).
Defined.

(** ** The tree of the builder *)

(** X1.  For an image with at least one pixel whose pixels the
    neighborhood connects, [init] followed by [computeTree] returns a
    tree whose lists of pixels partition the image: every node holds at
    least one pixel, holds no pixel twice, and holds only pixels whose
    value is its level; every offset of the image is in the list of one
    node, and of no other node. *)
Theorem builder_partitions_pixels (img gradient : Image) (connexity : FlatSE) :
  image_ok img → connected img connexity →
  ∃ c s0 root s,
    init img gradient connexity = Some (c, s0) ∧
    converges (λ fuel, computeTree c fuel s0) (Some root, s) ∧
    (∀ n nd, heap s !! n = Some nd →
       pixels nd ≠ [] ∧ NoDup (pixels nd) ∧
       ∀ o, o ∈ pixels nd → zget (data img) o = Some (h nd)) ∧
    (∀ i, 0 ≤ i < Z.of_nat (length (data img)) →
       ∃ n nd, heap s !! n = Some nd ∧ i ∈ pixels nd ∧
               ∀ n' nd', heap s !! n' = Some nd' → i ∈ pixels nd' → n' = n).
Proof.
  intros Hok Hconn.
  destruct (build_built img gradient connexity Hok Hconn)
    as (lo & hi & s0 & root & s & p0 & Hlo & Hhi & Hinit & Hrun & Hbuilt).
  destruct (build_pixels img gradient connexity lo hi s root p0 Hok Hlo Hhi Hbuilt)
    as [Hval Hall].
  destruct Hbuilt as (Hctx & Hfinal & _).
  exists (init_strategy img gradient connexity lo hi), s0, root, s.
  split_and!; [done..| |].
  - intros n nd Hn. split_and!.
    + by apply (final_nonempty _ _ _ _ _ _ Hfinal n).
    + by apply (final_pix_nodup _ _ _ _ _ _ Hfinal n).
    + intros o Ho. by apply (Hval n).
  - intros i Hi. destruct (Hall i Hi) as (n & nd & Hn & Hin). exists n, nd.
    split_and!; [done..|]. intros n' nd' Hn' Hin'.
    by apply (final_owner _ _ _ Hctx _ _ _ Hfinal n' n nd' nd i).
Qed.

Lemma builder_partitions_pixels_witness :
  image_ok img_valley ∧ connected img_valley make2DN8 ∧
  ∃ c s0 root s,
    init img_valley img_valley make2DN8 = Some (c, s0) ∧
    converges (λ fuel, computeTree c fuel s0) (Some root, s) ∧
    (∀ n nd, heap s !! n = Some nd →
       pixels nd ≠ [] ∧ NoDup (pixels nd) ∧
       ∀ o, o ∈ pixels nd → zget (data img_valley) o = Some (h nd)) ∧
    (∀ i, 0 ≤ i < Z.of_nat (length (data img_valley)) →
       ∃ n nd, heap s !! n = Some nd ∧ i ∈ pixels nd ∧
               ∀ n' nd', heap s !! n' = Some nd' → i ∈ pixels nd' → n' = n).
Proof.
  assert (image_ok img_valley) as Hok by (unfold image_ok; simpl; lia).
  assert (connected img_valley make2DN8) as Hconn by (by apply make2DN8_connected).
  split_and!; [done..|].
  exact (builder_partitions_pixels img_valley img_valley make2DN8 Hok Hconn).
Defined.

(** X2.  For an image with at least one pixel, [init] followed by
    [computeTree] returns a root such that: the root is its own parent,
    at the least level of the image; every node is reached from the root
    through the lists of children; a list of children holds no node
    twice and each child names its parent; every node but the root is in
    the list of children of the parent it names. *)
Theorem builder_links_consistent (img gradient : Image) (connexity : FlatSE) :
  image_ok img →
  ∃ c s0 root s lo,
    init img gradient connexity = Some (c, s0) ∧
    converges (λ fuel, computeTree c fuel s0) (Some root, s) ∧
    getMin img = Some lo ∧
    (∃ rn, heap s !! root = Some rn ∧ father rn = Some root ∧ h rn = lo) ∧
    ∀ n nd, heap s !! n = Some nd →
      reach (heap s) root n ∧ NoDup (childs nd) ∧
      (∀ ch, ch ∈ childs nd → ∃ cn, heap s !! ch = Some cn ∧ father cn = Some n) ∧
      (n ≠ root → ∃ f fn, father nd = Some f ∧ heap s !! f = Some fn ∧ n ∈ childs fn).
Proof.
  intros Hok.
  destruct (build_total img gradient connexity Hok)
    as (lo & hi & s0 & root & s & p0 & Hlo & Hhi & Hinit & Hrun & _ & Hfinal).
  exists (init_strategy img gradient connexity lo hi), s0, root, s, lo.
  split_and!; [done..| |].
  - pose proof (final_root_ok _ _ _ _ _ _ Hfinal) as Hr.
    destruct (root_ok_father _ _ Hr) as (rn & Hrn & Hf). exists rn. split_and!; [done..|].
    destruct Hfinal as (Hinv & _ & _ & Hroot & _).
    destruct (inv_index Hinv _ _ _ Hroot) as (nd & _ & Hn & Hh & _).
    rewrite Hrn in Hn. injection Hn as <-. rewrite Hh. unfold indexToH. simpl. lia.
  - intros n nd Hn. split_and!.
    + by apply (final_reach _ _ _ _ _ _ Hfinal n nd).
    + by destruct (final_blank _ _ _ _ _ _ Hfinal n nd Hn).
    + intros ch Hch. destruct Hfinal as (Hinv & _).
      destruct (inv_childs Hinv n nd ch Hn Hch) as (cn & ? & ? & _). by exists cn.
    + intros Hne. destruct (final_closed _ _ _ _ _ _ Hfinal n nd Hn)
        as [(f & fn & ? & ? & _ & ?)|[_ ?]]; [|done]. by exists f, fn.
Qed.

Lemma builder_links_consistent_witness :
  image_ok img_valley ∧
  ∃ c s0 root s lo,
    init img_valley img_valley make2DN8 = Some (c, s0) ∧
    converges (λ fuel, computeTree c fuel s0) (Some root, s) ∧
    getMin img_valley = Some lo ∧
    (∃ rn, heap s !! root = Some rn ∧ father rn = Some root ∧ h rn = lo) ∧
    ∀ n nd, heap s !! n = Some nd →
      reach (heap s) root n ∧ NoDup (childs nd) ∧
      (∀ ch, ch ∈ childs nd → ∃ cn, heap s !! ch = Some cn ∧ father cn = Some n) ∧
      (n ≠ root → ∃ f fn, father nd = Some f ∧ heap s !! f = Some fn ∧ n ∈ childs fn).
Proof.
  assert (image_ok img_valley) as Hok by (unfold image_ok; simpl; lia).
  split; [done|]. exact (builder_links_consistent img_valley img_valley make2DN8 Hok).
Defined.

(** X3.  On a tree whose links are consistent, [merge_pixels(tree)]
    returns, and the offsets it returns are those of the lists of pixels
    of the nodes of the subtree of [tree], no other. *)
Theorem merge_pixels_collects_subtree (D : nat) (hp : list Node) (t : nat) :
  tree_ok D hp t = true →
  ∃ px, converges (λ fuel, merge_pixels fuel hp t) px ∧
        ∀ o, o ∈ px ↔ ∃ m nd, reach hp t m ∧ hp !! m = Some nd ∧ o ∈ pixels nd.
Proof.
  intros Hok. destruct (merge_pixels_spec D hp t Hok) as (px & Hrun & Hpx).
  exists px. split; [by eapply converges_of_bound|]. intros o. apply Hpx.
Qed.

Lemma merge_pixels_collects_subtree_witness :
  tree_ok 3 ex_heap 1 = true ∧
  ∃ px, converges (λ fuel, merge_pixels fuel ex_heap 1) px ∧
        ∀ o, o ∈ px ↔ ∃ m nd, reach ex_heap 1 m ∧ ex_heap !! m = Some nd ∧ o ∈ pixels nd.
Proof.
  split; [reflexivity|]. apply (merge_pixels_collects_subtree 3 ex_heap 1). reflexivity.
Defined.

(** X4.  On a tree whose links are consistent, whose lists of children
    hold no node twice and whose pixels are offsets of the image, for an
    image whose values have squares that fit an [int] (below 2^31, so
    that no product of two values overflows),
    [computeNeighborhoodAttributes(r)] returns; it writes the five slots
    of the neighborhood statistics only, and a node whose slots had the
    values of the constructor ends with the statistics of its ring: the
    points of the image in the ball of radius [r] around a pixel of its
    subtree that are not pixels of this subtree, counted once each. *)
Theorem computeNeighborhoodAttributes_ring (m_img : Image) (r : Z) (D : nat)
    (hp0 : list Node) (root : nat) :
  image_ok m_img → squares_fit m_img → wf_tree D hp0 root →
  (∀ n nd, hp0 !! n = Some nd → NoDup (childs nd)) →
  (∀ n nd o, hp0 !! n = Some nd → o ∈ pixels nd →
             0 ≤ o < Z.of_nat (length (data m_img))) →
  ∃ hp',
    converges (λ fuel, computeNeighborhoodAttributes fuel m_img r root hp0) hp' ∧
    frame (keeps nghb_slots nghb_nslots false) hp0 hp' ∧
    ∀ n nd, reach hp0 root n → hp0 !! n = Some nd → blank nd →
            ∃ nd', hp' !! n = Some nd' ∧
                   ring_stats m_img (make2DEuclidianBall r) hp0 n nd'.
Proof. intros Hok _. by apply computeNeighborhoodAttributes_total. Qed.

Lemma computeNeighborhoodAttributes_ring_witness :
  image_ok ex_res ∧ squares_fit ex_res ∧ wf_tree 3 ex_heap 0 ∧
  (∀ n nd, ex_heap !! n = Some nd → NoDup (childs nd)) ∧
  (∀ n nd o, ex_heap !! n = Some nd → o ∈ pixels nd →
             0 ≤ o < Z.of_nat (length (data ex_res))) ∧
  ∃ hp',
    converges (λ fuel, computeNeighborhoodAttributes fuel ex_res 1 0 ex_heap) hp' ∧
    frame (keeps nghb_slots nghb_nslots false) ex_heap hp' ∧
    ∀ n nd, reach ex_heap 0 n → ex_heap !! n = Some nd → blank nd →
            ∃ nd', hp' !! n = Some nd' ∧
                   ring_stats ex_res (make2DEuclidianBall 1) ex_heap n nd'.
Proof.
  assert (image_ok ex_res) as Hok by (unfold image_ok; simpl; lia).
  assert (squares_fit ex_res) as Hsq by (repeat constructor).
  assert (wf_tree 3 ex_heap 0) as Hwf by (split; reflexivity).
  assert (∀ n nd, ex_heap !! n = Some nd → NoDup (childs nd)) as Hnd.
  { intros [|[|[|n]]] nd; simpl; intros [= <-]; simpl;
      repeat (constructor; [by intros ?%elem_of_nil|]); constructor. }
  assert (∀ n nd o, ex_heap !! n = Some nd → o ∈ pixels nd →
                    0 ≤ o < Z.of_nat (length (data ex_res))) as Hpx.
  { intros [|[|[|n]]] nd o; simpl; intros [= <-]; simpl; intros Ho;
      repeat (apply elem_of_cons in Ho as [->|Ho]; [lia|]); by apply elem_of_nil in Ho. }
  split_and!; [done..|].
  exact (computeNeighborhoodAttributes_ring ex_res 1 3 ex_heap 0 Hok Hsq Hwf Hnd Hpx).
Defined.

(** ** Filters and reconstruction *)

Lemma level_of_covered hp root fifo2 m v :
  (∀ n nd, reach hp root n → hp !! n = Some nd → active nd = true →
           covered hp fifo2 n) →
  level_of hp root m v → covered hp fifo2 m.
Proof.
  intros Hcov. induction 1 as [n nd Hr Hn Ha|p pn ch cn v Hlv IH Hp Hc Hcn Hi].
  - by apply (Hcov n nd).
  - destruct IH as (t & Ht & Hr). exists t. split; [done|]. by eapply reach_child.
Qed.

(** X7.  On a tree whose links are consistent and whose pixels are
    offsets of the result, [constructImage(DIRECT)] returns an image of
    the size of the result in which a pixel held by a node that is
    active, or has an active ancestor, carries the level of the nearest
    such node, and a pixel held by no such node is 0. *)
Theorem constructImage_DIRECT_levels (T : PixelType) (hp : list Node) (root D : nat)
    (res : Image) :
  tree_ok D hp root = true →
  pixels_in_range hp root (length (data res)) →
  ∃ hp' res',
    converges (λ fuel, constructImage T fuel hp (Some root) res DIRECT) (hp', res') ∧
    length (data res') = length (data res) ∧
    ∀ i : nat, (i < length (data res))%nat →
      (data res' !! i = Some 0 ∧
       ∀ m nd v, level_of hp root m v → hp !! m = Some nd → Z.of_nat i ∉ pixels nd) ∨
      (∃ m nd v, hp !! m = Some nd ∧ Z.of_nat i ∈ pixels nd ∧ level_of hp root m v ∧
                 data res' !! i = Some (cast T v)).
Proof.
  intros Htree Hpx.
  destruct (constructImageDirectExpe_collect_spec hp root D Htree)
    as (fifo2 & Hcollect & Hfifo & Hcovered).
  destruct (constructImageDirectExpe_paint_spec T hp root D fifo2 res Htree Hpx Hfifo)
    as (hp' & res' & V & Hpaint & _ & HV & _ & _ & (Hlen & _) & Hpainted).
  exists hp', res'. split_and!; [|done|].
  - cbn [constructImage]. unfold constructImageDirectExpe.
    by apply (converges_bind _
                (λ fuel fifo2, queue_loop (constructImageDirectExpe_paint T) fuel
                                          (hp, fill 0 res) fifo2) _ _ Hcollect).
  - intros i Hi. rewrite <- Hlen in Hi.
    destruct (Hpainted i Hi) as [[Hz Hno]|(m & nd & v & _ & Hm & Hin & Hlv & Hd)].
    + left. split; [done|]. intros m nd v Hlv Hm. apply (Hno m nd); [|done].
      apply HV. by apply (level_of_covered hp root fifo2 m v).
    + right. by exists m, nd, v.
Qed.

Lemma constructImage_DIRECT_levels_witness :
  tree_ok 3 ex_heap 0 = true ∧ pixels_in_range ex_heap 0 (length (data ex_res)) ∧
  ∃ hp' res',
    converges (λ fuel, constructImage U8 fuel ex_heap (Some 0%nat) ex_res DIRECT)
              (hp', res') ∧
    length (data res') = length (data ex_res) ∧
    ∀ i : nat, (i < length (data ex_res))%nat →
      (data res' !! i = Some 0 ∧
       ∀ m nd v, level_of ex_heap 0 m v → ex_heap !! m = Some nd →
                 Z.of_nat i ∉ pixels nd) ∨
      (∃ m nd v, ex_heap !! m = Some nd ∧ Z.of_nat i ∈ pixels nd ∧
                 level_of ex_heap 0 m v ∧ data res' !! i = Some (cast U8 v)).
Proof.
  assert (pixels_in_range ex_heap 0 (length (data ex_res))) as Hpx.
  { apply pixels_in_range_Forall. simpl. repeat constructor; simpl; lia. }
  split_and!; [reflexivity|done|].
  exact (constructImage_DIRECT_levels U8 ex_heap 0 3 ex_res eq_refl Hpx).
Defined.

Lemma set_active_twice b b' nd : set_active b (set_active b' nd) = set_active b nd.
Proof. by destruct nd. Qed.

Lemma filter_post_links a lo hi hp root hp' :
  filter_post a lo hi hp root hp' → same_links hp hp'.
Proof.
  intros [Hlen Hp] n. destruct (hp !! n) as [nd|] eqn:Hn.
  - destruct (Hp n nd Hn) as (nd' & -> & -> & _). by destruct nd.
  - rewrite lookup_ge_None_2; [done|]. rewrite Hlen. by apply lookup_ge_None_1.
Qed.

(** Two threshold filters in a row. *)
Lemma filter_twice a b lo1 hi1 lo2 hi2 hp root D :
  tree_ok D hp root = true →
  ∃ hp1 hp2,
    converges (λ fuel, attrFiltering a fuel lo1 hi1 (Some root) hp) hp1 ∧
    converges (λ fuel, attrFiltering b fuel lo2 hi2 (Some root) hp1) hp2 ∧
    length hp2 = length hp ∧
    ∀ n nd, hp !! n = Some nd →
      (reach hp root n →
       hp2 !! n =
       Some (set_active (active nd && bool_decide (lo1 ≤ iattr nd a ≤ hi1) &&
                         bool_decide (lo2 ≤ iattr nd b ≤ hi2)) nd)) ∧
      (¬ reach hp root n → hp2 !! n = Some nd).
Proof.
  intros Hok.
  destruct (attrFiltering_spec a lo1 hi1 hp root D Hok) as (hp1 & C1 & F1).
  pose proof (filter_post_links _ _ _ _ _ _ F1) as L1.
  destruct (attrFiltering_spec b lo2 hi2 hp1 root D (tree_ok_same_links _ _ _ _ L1 Hok))
    as (hp2 & C2 & F2).
  exists hp1, hp2. split_and!; [done|done|by rewrite (proj1 F2), (proj1 F1)|].
  intros n nd Hn.
  destruct (proj2 F1 n nd Hn) as (nd1 & Hn1 & E1 & R1 & N1).
  destruct (proj2 F2 n nd1 Hn1) as (nd2 & Hn2 & E2 & R2 & N2).
  rewrite Hn2.
  assert (iattr nd1 b = iattr nd b) as Eb by (rewrite E1; by destruct nd).
  split; intros Hr; f_equal; rewrite E2, E1, set_active_twice.
  - f_equal. rewrite R2 by (by apply (reach_same_links _ _ _ _ L1)). by rewrite R1, Eb.
  - rewrite N2, N1; [by destruct nd|done|].
    intros Hr1. apply Hr. by apply (reach_same_links _ _ _ _ (same_links_sym _ _ L1)).
Qed.

(** X8.  On a tree whose links are consistent, [areaFiltering] followed
    by [contrastFiltering] and [contrastFiltering] followed by
    [areaFiltering] return the same tree: a node of the tree is active
    in it when it was active and both attributes are within their
    thresholds, and no other field changed. *)
Theorem area_contrast_filters_commute (lo1 hi1 lo2 hi2 : Z) (hp : list Node)
    (root D : nat) :
  tree_ok D hp root = true →
  ∃ hp1 hp2 hp',
    converges (λ fuel, areaFiltering fuel lo1 hi1 (Some root) hp) hp1 ∧
    converges (λ fuel, contrastFiltering fuel lo2 hi2 (Some root) hp1) hp' ∧
    converges (λ fuel, contrastFiltering fuel lo2 hi2 (Some root) hp) hp2 ∧
    converges (λ fuel, areaFiltering fuel lo1 hi1 (Some root) hp2) hp' ∧
    ∀ n nd, reach hp root n → hp !! n = Some nd →
      hp' !! n =
      Some (set_active (active nd && bool_decide (lo1 ≤ iattr nd area ≤ hi1) &&
                        bool_decide (lo2 ≤ iattr nd contrast ≤ hi2)) nd).
Proof.
  intros Hok.
  destruct (filter_twice area contrast lo1 hi1 lo2 hi2 hp root D Hok)
    as (hp1 & hp12 & C1 & C12 & Hlen12 & H12).
  destruct (filter_twice contrast area lo2 hi2 lo1 hi1 hp root D Hok)
    as (hp2 & hp21 & C2 & C21 & Hlen21 & H21).
  assert (hp21 = hp12) as ->.
  { apply list_eq. intros n. destruct (hp !! n) as [nd|] eqn:Hn.
    - destruct (H12 n nd Hn) as [R12 N12], (H21 n nd Hn) as [R21 N21].
      destruct (reach_dec D hp root n Hok) as [Hr|Hr].
      + rewrite (R12 Hr), (R21 Hr). f_equal. f_equal.
        destruct (active nd), (bool_decide (lo1 ≤ _ ≤ hi1)), (bool_decide (lo2 ≤ _ ≤ hi2));
          done.
      + by rewrite (N12 Hr), (N21 Hr).
    - apply lookup_ge_None_1 in Hn.
      rewrite !lookup_ge_None_2; [done|lia..]. }
  exists hp1, hp2, hp12. split_and!; [done..|].
  intros n nd Hr Hn. by apply (H12 n nd Hn).
Qed.

Lemma area_contrast_filters_commute_witness :
  tree_ok 3 ex_heap 0 = true ∧
  ∃ hp1 hp2 hp',
    converges (λ fuel, areaFiltering fuel 2 9 (Some 0%nat) ex_heap) hp1 ∧
    converges (λ fuel, contrastFiltering fuel 0 5 (Some 0%nat) hp1) hp' ∧
    converges (λ fuel, contrastFiltering fuel 0 5 (Some 0%nat) ex_heap) hp2 ∧
    converges (λ fuel, areaFiltering fuel 2 9 (Some 0%nat) hp2) hp' ∧
    ∀ n nd, reach ex_heap 0 n → ex_heap !! n = Some nd →
      hp' !! n =
      Some (set_active (active nd && bool_decide (2 ≤ iattr nd area ≤ 9) &&
                        bool_decide (0 ≤ iattr nd contrast ≤ 5)) nd).
Proof.
  split; [reflexivity|].
  exact (area_contrast_filters_commute 2 9 0 5 ex_heap 0 3 eq_refl).
Defined.

(** X9.  On a tree whose links are consistent, [setFalse] returns with
    every node of the tree inactive and nothing else changed; after it
    [constructImage(DIRECT)] returns the image filled with 0 and leaves
    the tree as it is.  The loop of [restore] then makes every node of
    the tree active again, with [h] equal to [ori_h], but [restore],
    declared [int], has no [return] statement: the call is undefined
    once its loop is over. *)
Theorem setFalse_clears_then_restore (T : PixelType) (hp : list Node) (root D : nat)
    (res : Image) :
  tree_ok D hp root = true →
  ∃ hpF res' hpR,
    converges (λ fuel, setFalse fuel (Some root) hp) hpF ∧
    (∀ n nd, reach hp root n → hp !! n = Some nd →
             hpF !! n = Some (set_active false nd)) ∧
    (∀ n, ¬ reach hp root n → hpF !! n = hp !! n) ∧
    converges (λ fuel, constructImage T fuel hpF (Some root) res DIRECT) (hpF, res') ∧
    data res' = replicate (length (data res)) 0 ∧
    converges (λ fuel, restore_loop fuel (Some root) hpF) hpR ∧
    (∀ n nd, reach hp root n → hp !! n = Some nd →
             hpR !! n = Some (set_h (ori_h nd) (set_active true nd))) ∧
    converges (λ fuel, restore fuel (Some root) hpF) Undefined.
Proof.
  intros Hok.
  destruct (map_bfs (set_active false) hp root D Hok)
    as (hpF & CF & HlenF & HinF & HoutF & Hdec); [done|done|].
  assert (same_links hp hpF) as HL.
  { intros n. destruct (Hdec n) as [Hr|Hr]; [|by rewrite (HoutF n Hr)].
    rewrite (HinF n Hr). by destruct (hp !! n). }
  pose proof (tree_ok_same_links _ _ _ _ HL Hok) as HokF.
  destruct (constructImageDirectExpe_collect_spec hpF root D HokF)
    as (fifo2 & Hcollect & Hfifo & _).
  assert (fifo2 = []) as ->.
  { destruct fifo2 as [|t fifo2]; [done|].
    destruct (Hfifo t) as (Hr & tn & Ht & Ha); [by left|].
    rewrite HinF in Ht by (by apply (reach_same_links _ _ _ _ (same_links_sym _ _ HL))).
    apply fmap_Some in Ht as (tn0 & _ & ->). done. }
  destruct (map_bfs (λ nd, set_h (ori_h nd) (set_active true nd)) hpF root D HokF)
    as (hpR & CR & _ & HinR & _ & _); [done|done|].
  exists hpF, (fill 0 res), hpR. split_and!; [done| |done| |done|done| |].
  - intros n nd Hr Hn. by rewrite (HinF n Hr), Hn.
  - cbn [constructImage]. unfold constructImageDirectExpe.
    apply (converges_bind _
             (λ fuel fifo2, queue_loop (constructImageDirectExpe_paint T) fuel
                                       (hpF, fill 0 res) fifo2) _ _ Hcollect).
    exists 1%nat. intros [|fuel] Hf; [lia|done].
  - intros n nd Hr Hn.
    rewrite HinR by (by apply (reach_same_links _ _ _ _ HL)).
    by rewrite (HinF n Hr), Hn.
  - assert (converges (λ fuel, restore_loop fuel (Some root) hpF) hpR) as [k Hk] by exact CR.
      exists k. intros fuel Hf. unfold restore.
      pose proof (Hk fuel Hf) as E. cbv beta in E. by rewrite E.
Qed.

Lemma setFalse_clears_then_restore_witness :
  tree_ok 3 ex_heap 0 = true ∧
  ∃ hpF res' hpR,
    converges (λ fuel, setFalse fuel (Some 0%nat) ex_heap) hpF ∧
    (∀ n nd, reach ex_heap 0 n → ex_heap !! n = Some nd →
             hpF !! n = Some (set_active false nd)) ∧
    (∀ n, ¬ reach ex_heap 0 n → hpF !! n = ex_heap !! n) ∧
    converges (λ fuel, constructImage U8 fuel hpF (Some 0%nat) ex_res DIRECT)
              (hpF, res') ∧
    data res' = replicate (length (data ex_res)) 0 ∧
    converges (λ fuel, restore_loop fuel (Some 0%nat) hpF) hpR ∧
    (∀ n nd, reach ex_heap 0 n → ex_heap !! n = Some nd →
             hpR !! n = Some (set_h (ori_h nd) (set_active true nd))) ∧
    converges (λ fuel, restore fuel (Some 0%nat) hpF) Undefined.
Proof.
  split; [reflexivity|].
  exact (setFalse_clears_then_restore U8 ex_heap 0 3 ex_res eq_refl).
Defined.

(** ** Lookup of the node of a pixel *)

Lemma existsb_eqb (l : list Z) (x : Z) : existsb (λ p, p =? x) l = true ↔ x ∈ l.
Proof.
  rewrite existsb_exists. split.
  - intros (y & Hy & ->%Z.eqb_eq). by apply list_elem_of_In.
  - intros Hx. exists x. split; [by apply list_elem_of_In|apply Z.eqb_refl].
Qed.

Lemma offsetToNode_loop_spec D hp root o fifo :
  tree_ok D hp root = true →
  (∀ n, n ∈ fifo → reach hp root n) →
  ∃ r, (∀ fuel, (sum_list (weight D hp <$> fifo) < fuel)%nat →
          offsetToNode_loop fuel hp o fifo = Some r) ∧
       match r with
       | Some n => reach hp root n ∧ ∃ nd, hp !! n = Some nd ∧ o ∈ pixels nd
       | None => ∀ t m nd, t ∈ fifo → reach hp t m → hp !! m = Some nd → o ∉ pixels nd
       end.
Proof.
  intros Hok. remember (sum_list (weight D hp <$> fifo)) as k eqn:Hk.
  revert fifo Hk. induction k as [k IH] using lt_wf_ind. intros [|n fifo] -> Hq.
  - exists None. split; [by intros [|fuel] ?; [lia|]|]. by intros t m nd ?%elem_of_nil.
  - assert (reach hp root n) as Hr by (apply Hq; by left).
    destruct (weight_reach _ _ _ _ Hok Hr) as (nd & Hn & Hw & _).
    destruct (existsb (λ p, p =? o) (pixels nd)) eqn:E.
    + exists (Some n). split.
      * intros [|fuel] Hf; [simpl in Hf; lia|]. simpl. rewrite Hn. simpl. by rewrite E.
      * split; [done|]. exists nd. split; [done|]. by apply existsb_eqb.
    + destruct (IH (sum_list (weight D hp <$> (fifo ++ childs nd)))) with
        (fifo := fifo ++ childs nd) as (r & Hrun & Hres); [|done| |].
      { rewrite fmap_app, sum_list_app, fmap_cons. simpl. lia. }
      { intros m [Hm|Hm]%elem_of_app; [apply Hq; by right|]. by eapply reach_child. }
      exists r. split.
      * intros [|fuel] Hf; [simpl in Hf; lia|]. simpl. rewrite Hn. simpl. rewrite E.
        apply Hrun. rewrite fmap_app, sum_list_app. rewrite fmap_cons in Hf.
        simpl in Hf. lia.
      * destruct r as [m|]; [done|]. intros t m md [->|Ht]%elem_of_cons Hrm Hm.
        -- apply reach_head in Hrm as [->|(nd2 & ch & Hn2 & Hc & Hrm)].
           ++ rewrite Hn in Hm. injection Hm as <-. intros Hin%existsb_eqb. congruence.
           ++ apply (Hres ch m md); [|done..]. apply elem_of_app. right. congruence.
        -- apply (Hres t m md); [|done..]. apply elem_of_app. by left.
Qed.

(** X10.  On a tree whose links are consistent, [offsetToNode(offset)]
    returns; the node it returns is a node of the tree whose list of
    pixels holds [offset], and it returns the null pointer only when no
    node of the tree holds [offset]. *)
Theorem offsetToNode_finds_holder (D : nat) (hp : list Node) (root : nat) (o : Z) :
  tree_ok D hp root = true →
  ∃ r, converges (λ fuel, offsetToNode fuel (Some root) hp o) r ∧
       match r with
       | Some n => reach hp root n ∧ ∃ nd, hp !! n = Some nd ∧ o ∈ pixels nd
       | None => ∀ m nd, reach hp root m → hp !! m = Some nd → o ∉ pixels nd
       end.
Proof.
  intros Hok.
  destruct (offsetToNode_loop_spec D hp root o [root] Hok) as (r & Hrun & Hres).
  { intros n ->%list_elem_of_singleton. constructor. }
  exists r. split; [by eapply converges_of_bound|].
  destruct r as [n|]; [done|]. intros m nd Hr Hm. apply (Hres root m nd); [by left|done..].
Qed.

Lemma offsetToNode_finds_holder_witness :
  tree_ok 3 ex_heap 0 = true ∧
  ∃ r, converges (λ fuel, offsetToNode fuel (Some 0%nat) ex_heap 3) r ∧
       match r with
       | Some n => reach ex_heap 0 n ∧ ∃ nd, ex_heap !! n = Some nd ∧ 3 ∈ pixels nd
       | None => ∀ m nd, reach ex_heap 0 m → ex_heap !! m = Some nd → 3 ∉ pixels nd
       end.
Proof.
  split; [reflexivity|]. exact (offsetToNode_finds_holder 3 ex_heap 0 3 eq_refl).
Defined.

(** ** Inclusion of a structuring element *)

(** X11.  For a structuring element whose offsets are distinct,
    [isInclude(se, pixels)] holds exactly when some pixel [p] of the
    list has every [p + d], for [d] in [se], in the list: the early
    test on the sizes never changes the answer.  In particular the
    result is [false] for an empty list of pixels, also for an empty
    structuring element. *)
Theorem isInclude_translate (se pixels : list Z) :
  NoDup se →
  isInclude se pixels = true ↔ ∃ p, p ∈ pixels ∧ ∀ d, d ∈ se → d + p ∈ pixels.
Proof.
  intros Hnd. unfold isInclude.
  assert (existsb (λ p, forallb (λ d, existsb (λ p2, p2 =? d + p) pixels) se) pixels = true
          ↔ ∃ p, p ∈ pixels ∧ ∀ d, d ∈ se → d + p ∈ pixels) as Hscan.
  { rewrite existsb_exists. split.
    - intros (p & Hp & Hall). exists p. split; [by apply list_elem_of_In|].
      intros d Hd. rewrite forallb_forall in Hall. apply existsb_eqb, Hall.
      by apply list_elem_of_In.
    - intros (p & Hp & Hall). exists p. split; [by apply list_elem_of_In|].
      apply forallb_forall. intros d Hd. apply existsb_eqb, Hall.
      by apply list_elem_of_In. }
  destruct (Z.of_nat (length se) >? Z.of_nat (length pixels)) eqn:E; [|done].
  split; [done|]. intros (p & Hp & Hall). exfalso.
  set (shift := λ d : Z, d + p).
  assert (length (shift <$> se) ≤ length pixels)%nat as Hle.
  { apply submseteq_length, NoDup_submseteq.
    - apply NoDup_fmap_2; [|done]. intros x y. unfold shift. lia.
    - intros q (d & -> & Hd)%list_elem_of_fmap. by apply Hall. }
  rewrite length_fmap in Hle. lia.
Qed.

Lemma isInclude_translate_witness :
  NoDup [0; 1] ∧
  (isInclude [0; 1] [4; 7; 8] = true ↔
   ∃ p, p ∈ [4; 7; 8] ∧ ∀ d, d ∈ [0; 1] → d + p ∈ [4; 7; 8]).
Proof.
  assert (NoDup [0; 1]) as Hnd.
  { constructor; [by intros [=]%list_elem_of_singleton|apply NoDup_singleton]. }
  split; [done|]. exact (isInclude_translate [0; 1] [4; 7; 8] Hnd).
Defined.

(** ** The table of the nodes of the pixels *)

Lemma indexedNodes_pixels_spec (index : list (option nat)) n px :
  (∀ o, o ∈ px → 0 ≤ o < Z.of_nat (length index)) →
  ∃ index', indexedNodes_pixels index n px = Some index' ∧
            length index' = length index ∧
            ∀ o, 0 ≤ o < Z.of_nat (length index) →
                 zget index' o = if decide (o ∈ px) then Some (Some n) else zget index o.
Proof.
  revert index. induction px as [|p px IH]; intros index Hr.
  - exists index. split_and!; done.
  - assert (0 ≤ p < Z.of_nat (length index)) as Hp by (apply Hr; by left).
    simpl. rewrite zset_Some by done. simpl.
    destruct (IH (<[Z.to_nat p := Some n]> index)) as (index' & Hrun & Hlen & Hlook).
    { rewrite length_insert. intros o Ho. apply Hr. by right. }
    rewrite length_insert in Hlen, Hlook.
    exists index'. split_and!; [done..|]. intros o Ho. rewrite (Hlook o Ho).
    destruct (decide (o ∈ px)) as [Hi|Hi].
    + rewrite decide_True; [done|by right].
    + destruct (decide (o = p)) as [->|Hne].
      * rewrite decide_True by (by left). unfold zget.
        replace (p <? 0) with false by lia. apply list_lookup_insert_eq. lia.
      * rewrite decide_False by (by intros [?|?]%elem_of_cons). unfold zget.
        destruct (o <? 0); [done|]. apply list_lookup_insert_ne. lia.
Qed.

(** X19.  On a tree whose links are consistent, whose pixels are offsets
    of the image and where no two nodes hold the same pixel, for an
    image of fewer than 2^32 pixels: [indexedNodes()] returns a table of
    the size of the image whose entry at every offset is the node that
    [offsetToNode] returns for this offset, the null pointer when no
    node holds it. *)
Theorem indexedNodes_agrees_with_offsetToNode (D : nat) (hp : list Node) (root : nat)
    (m_img : Image) :
  tree_ok D hp root = true →
  0 ≤ sizeX m_img * sizeY m_img * sizeZ m_img < 2 ^ 32 →
  (∀ n nd o, reach hp root n → hp !! n = Some nd → o ∈ pixels nd →
             0 ≤ o < sizeX m_img * sizeY m_img * sizeZ m_img) →
  (∀ n n' nd nd' o, reach hp root n → reach hp root n' →
     hp !! n = Some nd → hp !! n' = Some nd' →
     o ∈ pixels nd → o ∈ pixels nd' → n = n') →
  ∃ index,
    converges (λ fuel, indexedNodes fuel m_img (Some root) hp) index ∧
    Z.of_nat (length index) = sizeX m_img * sizeY m_img * sizeZ m_img ∧
    ∀ o, 0 ≤ o < sizeX m_img * sizeY m_img * sizeZ m_img →
         ∃ r, zget index o = Some r ∧
              converges (λ fuel, offsetToNode fuel (Some root) hp o) r.
Proof.
  intros Hok HN Hpx Hown. set (N := sizeX m_img * sizeY m_img * sizeZ m_img) in *.
  set (I := λ (index : list (option nat)) (q : list nat),
    ∃ V : list nat,
      Z.of_nat (length index) = N ∧
      (∀ n, n ∈ q → reach hp root n) ∧ (∀ n, n ∈ V → reach hp root n) ∧
      (∀ n, reach hp root n → n ∈ V ∨ ∃ m, m ∈ q ∧ reach hp m n) ∧
      ∀ o, 0 ≤ o < N →
        (zget index o = Some None ∧
         ∀ m nd, m ∈ V → hp !! m = Some nd → o ∉ pixels nd) ∨
        (∃ m nd, m ∈ V ∧ hp !! m = Some nd ∧ o ∈ pixels nd ∧
                 zget index o = Some (Some m))).
  destruct (queue_loop_total (indexedNodes_visit hp) (weight D hp) I) with
    (s := replicate (Z.to_nat N) (@None nat)) (q := [root])
    as (index & Hrun & V & Hlen & _ & HV & Hall & Hidx).
  - intros index n q (V & Hlen & Hq & HV & Hall & Hidx).
    assert (reach hp root n) as Hr by (apply Hq; by left).
    destruct (weight_reach _ _ _ _ Hok Hr) as (nd & Hn & Hw & _).
    destruct (indexedNodes_pixels_spec index n (pixels nd)) as (index' & Hp & Hlen' & Hlook).
    { intros o Ho. rewrite Hlen. by apply (Hpx n nd). }
    exists index', (childs nd). unfold indexedNodes_visit. rewrite Hn. simpl. rewrite Hp.
    split; [done|]. split; [|rewrite Hw; lia].
    exists (n :: V). split_and!.
    + congruence.
    + intros m [Hm|Hm]%elem_of_app; [apply Hq; by right|]. by eapply reach_child.
    + intros m [->|Hm]%elem_of_cons; auto.
    + intros m Hm. destruct (Hall m Hm) as [?|(m' & [->|Hm']%elem_of_cons & Hrm)].
      * left. by right.
      * apply reach_head in Hrm as [->|(nd2 & ch & Hn2 & Hc & Hrm)]; [left; by left|].
        right. exists ch. split; [|done]. apply elem_of_app. right. congruence.
      * right. exists m'. split; [|done]. apply elem_of_app. by left.
    + intros o Ho. rewrite Hlook by lia. case_decide as Hin.
      * right. exists n, nd. split_and!; [by left|done..].
      * destruct (Hidx o Ho) as [[E Hno]|(m & md & Hm & Hmd & Hom & E)].
        -- left. split; [done|]. intros m md [->|Hm]%elem_of_cons Hmd; [congruence|].
           by apply (Hno m md).
        -- right. exists m, md. split_and!; [by right|done..].
  - exists []. split_and!.
    + rewrite length_replicate. lia.
    + intros n ->%list_elem_of_singleton. constructor.
    + intros n ?%elem_of_nil. done.
    + intros n Hn. right. exists root. split; [by left|done].
    + intros o Ho. left. split; [|by intros m nd ?%elem_of_nil].
      unfold zget. replace (o <? 0) with false by lia.
      apply lookup_replicate_2. lia.
  - exists index. split_and!; [|done|].
    + apply (converges_of_bound _ _ (weight D hp root)). intros fuel Hf.
      unfold indexedNodes. fold N. rewrite Z.mod_small by done. apply Hrun. simpl. lia.
    + intros o Ho.
      destruct (offsetToNode_loop_spec D hp root o [root] Hok) as (r & Hrun' & Hres).
      { intros n ->%list_elem_of_singleton. constructor. }
      assert (converges (λ fuel, offsetToNode fuel (Some root) hp o) r) as Hconv
        by (by eapply converges_of_bound).
      exists r. split; [|done].
      destruct (Hidx o Ho) as [[E Hno]|(m & md & Hm & Hmd & Hom & E)].
      * rewrite E. destruct r as [n|]; [|done]. destruct Hres as (Hrn & nd & Hn & Hin).
        destruct (Hno n nd); [|done..].
        destruct (Hall n Hrn) as [?|(? & ?%elem_of_nil & _)]; done.
      * rewrite E. destruct r as [n|].
        -- destruct Hres as (Hrn & nd & Hn & Hin).
           by rewrite (Hown m n md nd o (HV m Hm) Hrn Hmd Hn Hom Hin).
        -- destruct (Hres root m md); [by left|by apply HV|done..].
Qed.

Lemma indexedNodes_agrees_with_offsetToNode_witness :
  tree_ok 3 ex_heap 0 = true ∧
  0 ≤ sizeX ex_res * sizeY ex_res * sizeZ ex_res < 2 ^ 32 ∧
  ∃ index,
    converges (λ fuel, indexedNodes fuel ex_res (Some 0%nat) ex_heap) index ∧
    Z.of_nat (length index) = sizeX ex_res * sizeY ex_res * sizeZ ex_res ∧
    ∀ o, 0 ≤ o < sizeX ex_res * sizeY ex_res * sizeZ ex_res →
         ∃ r, zget index o = Some r ∧
              converges (λ fuel, offsetToNode fuel (Some 0%nat) ex_heap o) r.
Proof.
  split; [reflexivity|]. split; [by compute|].
  apply (indexedNodes_agrees_with_offsetToNode 3 ex_heap 0 ex_res); [reflexivity|by compute|..].
  - intros n nd o _ Hn Ho.
    destruct n as [|[|[|n]]]; simpl in Hn; [| | |done]; injection Hn as <-; simpl in Ho;
      repeat (apply elem_of_cons in Ho as [->|Ho]; [by compute|]);
      by apply elem_of_nil in Ho.
  - intros n n' nd nd' o _ _ Hn Hn' Ho Ho'.
    destruct n as [|[|[|n]]]; simpl in Hn; [| | |done]; injection Hn as <-;
      destruct n' as [|[|[|n']]]; simpl in Hn'; try done; injection Hn' as <-;
      simpl in Ho, Ho';
      repeat (apply elem_of_cons in Ho as [->|Ho];
              [repeat (apply elem_of_cons in Ho' as [?|Ho']; [done|]);
               by apply elem_of_nil in Ho'|]);
      by apply elem_of_nil in Ho.
Defined.

(** ** Writing an image file and reading it back *)

Arguments decimal : simpl never.

Lemma take_while_app (p : Z → bool) (l : list Z) (x : Z) (r : list Z) :
  Forall (λ ch, p ch = true) l → p x = false →
  take_while p (l ++ x :: r) = l ∧ drop_while p (l ++ x :: r) = x :: r.
Proof.
  intros Hl Hx. induction Hl as [|ch l Hch Hl IH]; simpl.
  - by rewrite Hx.
  - rewrite Hch. destruct IH as [-> ->]. done.
Qed.

Lemma take_while_all (p : Z → bool) (l : list Z) :
  Forall (λ ch, p ch = true) l → take_while p l = l.
Proof. induction 1 as [|ch l Hch Hl IH]; simpl; [done|]. by rewrite Hch, IH. Qed.

(** The digits written for a number. *)
Lemma decimal_digits_spec fuel n acc :
  0 ≤ n < 2 ^ (Z.of_nat fuel + 1) →
  ∃ ds, decimal_digits fuel n acc = ds ++ acc ∧ ds ≠ [] ∧
        Forall (λ ch, is_digit ch = true) ds ∧
        foldl (λ a ch, 10 * a + (ch - 48)) 0 ds = n.
Proof.
  revert n acc. induction fuel as [|fuel IH]; intros n acc Hn.
  - exists [48 + n mod 10]. simpl in *.
    assert (n mod 10 = n) as -> by (apply Z.mod_small; lia).
    split_and!; [done|done| |lia].
    constructor; [|done]. unfold is_digit. apply andb_true_intro. split; lia.
  - simpl. destruct (n <? 10) eqn:E.
    + exists [48 + n mod 10].
      assert (n mod 10 = n) as -> by (apply Z.mod_small; lia).
      split_and!; [done|done| |simpl; lia].
      constructor; [|done]. unfold is_digit. apply andb_true_intro. split; lia.
    + destruct (IH (n / 10) ((48 + n mod 10) :: acc)) as (ds & E1 & _ & Hd & Hv).
      { split; [apply Z.div_pos; lia|].
        apply Z.div_lt_upper_bound; [lia|].
        replace (Z.of_nat (S fuel) + 1) with (Z.succ (Z.of_nat fuel + 1)) in Hn by lia.
        rewrite Z.pow_succ_r in Hn by lia. lia. }
      exists (ds ++ [48 + n mod 10]).
      pose proof (Z.mod_pos_bound n 10 ltac:(lia)).
      split_and!.
      * by rewrite E1, <- app_assoc.
      * by destruct ds.
      * apply Forall_app. split; [done|]. constructor; [|done].
        unfold is_digit. apply andb_true_intro. split; lia.
      * rewrite foldl_app. simpl. rewrite Hv.
        pose proof (Z.div_mod n 10 ltac:(lia)). lia.
Qed.

Lemma decimal_spec n :
  0 ≤ n →
  decimal n ≠ [] ∧ Forall (λ ch, is_digit ch = true) (decimal n) ∧
  foldl (λ a ch, 10 * a + (ch - 48)) 0 (decimal n) = n.
Proof.
  intros Hn. unfold decimal.
  destruct (decimal_digits_spec (Z.to_nat (Z.log2 n)) n []) as (ds & -> & ? & ? & ?).
  - split; [done|]. rewrite Z2Nat.id by apply Z.log2_nonneg.
    destruct (decide (n = 0)) as [->|?]; [done|].
    replace (Z.log2 n + 1) with (Z.succ (Z.log2 n)) by lia.
    apply Z.log2_spec. lia.
  - by rewrite app_nil_r.
Qed.

Lemma read_uint_decimal n : 0 ≤ n < 2 ^ 32 → read_uint (decimal n) = Some n.
Proof.
  intros Hn. destruct (decimal_spec n) as (Hne & Hd & Hv); [lia|].
  unfold read_uint. destruct (decimal n) as [|ch l] eqn:E; [done|].
  assert (is_digit ch = true) as Hch by (by inversion Hd).
  assert ((ch =? 43) || (ch =? 45) = false) as ->.
  { unfold is_digit in Hch. apply andb_prop in Hch as [? ?].
    apply orb_false_intro; apply Z.eqb_neq; lia. }
  rewrite (take_while_all _ _ Hd), Hv.
  rewrite bool_decide_eq_false_2 by done.
  destruct (2 ^ 32 <=? n) eqn:E1; [lia|].
  assert ((ch =? 45) = false) as ->; [|done].
  unfold is_digit in Hch. apply andb_prop in Hch as [? ?]. apply Z.eqb_neq. lia.
Qed.

Lemma digit_not_space ch : is_digit ch = true → negb (is_space ch) = true.
Proof.
  unfold is_digit, is_space. intros [? ?]%andb_prop. apply negb_true_iff.
  apply bool_decide_eq_false. lia.
Qed.

(** [file >> str] on a stream that starts with a number. *)
Lemma read_token_decimal n sp r str :
  0 ≤ n → is_space sp = true →
  read_token (mkStream (decimal n ++ sp :: r) false false) str =
  (mkStream (sp :: r) false false, decimal n).
Proof.
  intros Hn Hsp. destruct (decimal_spec n Hn) as (Hne & Hd & _).
  assert (Forall (λ ch, negb (is_space ch) = true) (decimal n)) as Hns.
  { eapply Forall_impl; [exact Hd|]. apply digit_not_space. }
  unfold read_token. cbn [good eofbit failbit rest negb andb].
  assert (drop_while is_space (decimal n ++ sp :: r) = decimal n ++ sp :: r) as ->.
  { destruct (decimal n) as [|ch l] eqn:E; [done|]. simpl.
    inversion Hns as [|? ? Hch _]. apply negb_true_iff in Hch. by rewrite Hch. }
  destruct (take_while_app (λ ch, negb (is_space ch)) (decimal n) sp r Hns) as [E1 E2].
  { by rewrite Hsp. }
  destruct (decimal n ++ sp :: r) as [|z l0] eqn:E; [by destruct (decimal n)|].
  by rewrite E1, E2.
Qed.


Lemma skip_comments_digit fuel f ch l :
  is_digit ch = true → skip_comments (S fuel) f (ch :: l) = Some (f, ch :: l).
Proof.
  unfold is_digit. intros [? ?]%andb_prop.
  assert (ch = 48 ∨ ch = 49 ∨ ch = 50 ∨ ch = 51 ∨ ch = 52 ∨ ch = 53 ∨ ch = 54 ∨
          ch = 55 ∨ ch = 56 ∨ ch = 57) as Hch by lia.
  destruct Hch as [->|[->|[->|[->|[->|[->|[->|[->|[->| ->]]]]]]]]]; reflexivity.
Qed.

(** [GImageIO_NextLine] on a stream that starts with a number followed
    by a white space. *)
Lemma GImageIO_NextLine_decimal fuel n sp r :
  0 ≤ n → is_space sp = true → (1 ≤ fuel)%nat →
  GImageIO_NextLine fuel (mkStream (decimal n ++ sp :: r) false false) =
  Some (mkStream r false false, decimal n).
Proof.
  intros Hn Hsp Hf. unfold GImageIO_NextLine.
  rewrite (read_token_decimal n sp r [] Hn Hsp).
  destruct (decimal_spec n Hn) as (Hne & Hd & _).
  destruct (decimal n) as [|ch l]; [done|].
  destruct fuel as [|fuel]; [lia|].
  rewrite skip_comments_digit by (by inversion Hd). done.
Qed.

(** The header that [Image<U8>::save] writes is read back. *)
Lemma header_of_saved fuel W H r :
  0 ≤ W < 2 ^ 32 → 0 ≤ H < 2 ^ 32 → (2 ≤ fuel)%nat →
  GImageIO_ReadPPMHeader fuel
    (mkStream (P5 ++ [10] ++ creator ++ [10] ++
               decimal W ++ [32] ++ decimal H ++ [10] ++ max255 ++ [10] ++ r)
              false false) =
  Some (mkStream r false false, mkHeader P5 (Some W) (Some H) (Some 255)).
Proof.
  intros HW HH Hf. unfold GImageIO_ReadPPMHeader.
  destruct fuel as [|[|fuel]]; [lia..|].
  assert (GImageIO_NextLine (S (S fuel))
            (mkStream (P5 ++ [10] ++ creator ++ [10] ++
               decimal W ++ [32] ++ decimal H ++ [10] ++ max255 ++ [10] ++ r)
              false false) =
          Some (mkStream (creator ++ [10] ++
               decimal W ++ [32] ++ decimal H ++ [10] ++ max255 ++ [10] ++ r)
              false false, P5)) as -> by reflexivity.
  cbn [mbind option_bind].
  assert (GImageIO_NextLine (S (S fuel))
            (mkStream (creator ++ [10] ++
               decimal W ++ [32] ++ decimal H ++ [10] ++ max255 ++ [10] ++ r)
              false false) =
          Some (mkStream (decimal H ++ 10 :: (max255 ++ 10 :: r)) false false,
                decimal W)) as ->.
  { unfold GImageIO_NextLine.
    assert (read_token (mkStream (creator ++ [10] ++
               decimal W ++ [32] ++ decimal H ++ [10] ++ max255 ++ [10] ++ r)
              false false) [] =
            (mkStream ([32; 71; 73; 109; 97; 103; 101; 32] ++ [10] ++
               decimal W ++ [32] ++ decimal H ++ [10] ++ max255 ++ [10] ++ r)
              false false, [35; 67; 82; 69; 65; 84; 79; 82; 58])) as -> by reflexivity.
    assert (getline256 (mkStream ([32; 71; 73; 109; 97; 103; 101; 32] ++ [10] ++
               decimal W ++ [32] ++ decimal H ++ [10] ++ max255 ++ [10] ++ r)
              false false) =
            mkStream (decimal W ++ 32 :: (decimal H ++ 10 :: (max255 ++ 10 :: r)))
              false false) as Hline by reflexivity.
    change (skip_comments (S (S fuel)) ?f (35 :: ?l)) with
      (let '(f', str') := read_token (getline256 f) (35 :: l) in
       skip_comments (S fuel) f' str').
    rewrite Hline.
    rewrite (read_token_decimal W 32 _ _ (proj1 HW) eq_refl).
    destruct (decimal_spec W (proj1 HW)) as (Hne & Hd & _).
    destruct (decimal W) as [|ch l]; [done|].
    rewrite skip_comments_digit by (by inversion Hd). done. }
  cbn [mbind option_bind].
  rewrite (GImageIO_NextLine_decimal (S (S fuel)) H 10 _ (proj1 HH) eq_refl) by lia.
  cbn [mbind option_bind].
  assert (GImageIO_NextLine (S (S fuel)) (mkStream (max255 ++ 10 :: r) false false) =
          Some (mkStream r false false, max255)) as -> by reflexivity.
  cbn [mbind option_bind].
  by rewrite !read_uint_decimal.
Qed.

(** X12.  A file written by [Image<U8>::save] for an image of width [W]
    and height [H] whose buffer holds [W * H] bytes is read back by
    [Image<U8>::load]: the call returns 1 and the image object gets the
    sizes [(W, H, 1)], the data size [W * H], unit spacing and the bytes
    that were saved.  The comment line that [save] writes is skipped by
    the reader. *)
Theorem save_then_load_U8 (fuel : nat) (W H : Z) (data : list Z) (files : Files)
    (filename junk : list Z) (im : ImageObject) :
  0 ≤ W < 2 ^ 32 → 0 ≤ H < 2 ^ 32 → W * H < 2 ^ 32 →
  Z.of_nat (length data) = W * H → (2 ≤ fuel)%nat →
  files filename = (save_U8 true W H data).2 →
  load_U8 fuel files filename junk im =
  Some (Returns (1, mkImageObject (Some data) (W, H, 1) (W * H) (1, 1, 1))).
Proof.
  intros HW HH HWH Hlen Hf Hfile.
  unfold load_U8, load_body. rewrite Hfile. cbn [save_U8 snd].
  rewrite (header_of_saved fuel W H _ HW HH Hf). cbn [mbind option_bind].
  cbn [format colormax width height].
  rewrite bool_decide_eq_false_2 by (by intros ?).
  assert ((255 >=? 256) = false) as -> by reflexivity.
  assert ((W * H) mod 2 ^ 32 = W * H) as -> by (apply Z.mod_small; nia).
  f_equal. f_equal. f_equal. f_equal. f_equal.
  unfold read_raster. cbn [rest good eofbit failbit negb andb]. rewrite !Z.mul_1_r.
  assert (Z.to_nat (W * H) = length data) as -> by (rewrite <- Hlen; lia).
  rewrite (take_ge data) by lia.
  rewrite take_app_length. by rewrite take_app_length.
Qed.

Lemma save_then_load_U8_witness :
  0 ≤ 2 < 2 ^ 32 ∧ 0 ≤ 1 < 2 ^ 32 ∧ 2 * 1 < 2 ^ 32 ∧
  Z.of_nat (length [7; 9]) = 2 * 1 ∧ (2 ≤ 2)%nat ∧
  load_U8 2 (λ _, (save_U8 true 2 1 [7; 9]).2) [] [] (mkImageObject None (0, 0, 0) 0 (0, 0, 0)) =
  Some (Returns (1, mkImageObject (Some [7; 9]) (2, 1, 1) (2 * 1) (1, 1, 1))).
Proof.
  assert (0 ≤ 2 < 2 ^ 32) as H2 by (by compute).
  assert (0 ≤ 1 < 2 ^ 32) as H1 by (by compute).
  assert (2 * 1 < 2 ^ 32) as H21 by reflexivity.
  assert ((2 ≤ 2)%nat) as Hf by lia.
  split_and!; [done..|].
  exact (save_then_load_U8 2 2 1 [7; 9] (λ _, (save_U8 true 2 1 [7; 9]).2) [] []
           (mkImageObject None (0, 0, 0) 0 (0, 0, 0)) H2 H1 H21 eq_refl Hf eq_refl).
Defined.

(** ** A comment that is not ended *)

Lemma no_newline_rest (line : list Z) :
  10 ∉ line →
  take_while (λ ch, negb (ch =? 10)) line = line ∧
  drop_while (λ ch, negb (ch =? 10)) line = [].
Proof.
  induction line as [|ch line IH]; intros Hno; [done|]. simpl.
  assert (ch ≠ 10) as Hch by (intros ->; apply Hno; by left).
  assert ((ch =? 10) = false) as -> by (by apply Z.eqb_neq). simpl.
  destruct IH as [-> ->]; [|done]. intros ?. apply Hno. by right.
Qed.

(** After a token that starts with '#' on a last line without newline,
    the loop of [GImageIO_NextLine] does not end. *)
Lemma skip_comments_last_line fuel line str :
  10 ∉ line →
  let '(f, tok) := read_token (mkStream (35 :: line) false false) str in
  skip_comments fuel f tok = None.
Proof.
  intros Hno. unfold read_token. cbn [good eofbit failbit rest negb andb].
  assert (drop_while is_space (35 :: line) = 35 :: line) as -> by reflexivity.
  assert (take_while (λ ch, negb (is_space ch)) (35 :: line) =
          35 :: take_while (λ ch, negb (is_space ch)) line) as -> by reflexivity.
  assert (drop_while (λ ch, negb (is_space ch)) (35 :: line) =
          drop_while (λ ch, negb (is_space ch)) line) as -> by reflexivity.
  set (l' := drop_while (λ ch, negb (is_space ch)) line).
  set (tok := take_while (λ ch, negb (is_space ch)) line).
  assert (10 ∉ l') as Hno' by (intros ?%drop_while_suffix; done).
  destruct fuel as [|fuel]; [done|]. cbn [skip_comments].
  assert (good (getline256 (mkStream l' (bool_decide (l' = [])) false)) = false) as Hg.
  { unfold getline256. cbn [good eofbit failbit rest negb andb].
    destruct (bool_decide (l' = [])) eqn:E; [done|]. cbn [negb andb].
    destruct (no_newline_rest l' Hno') as [-> ->].
    destruct (decide (255 < Z.of_nat (length l'))); done. }
  assert (read_token (getline256 (mkStream l' (bool_decide (l' = [])) false)) (35 :: tok) =
          (mkStream (rest (getline256 (mkStream l' (bool_decide (l' = [])) false)))
                    (eofbit (getline256 (mkStream l' (bool_decide (l' = [])) false))) true,
           35 :: tok)) as ->.
  { unfold read_token. by rewrite Hg. }
  apply skip_comments_stuck. unfold good. simpl. by rewrite andb_false_r.
Qed.

(** X13.  On a file made of the format, a newline and a last line that
    starts with '#' and has no newline, the three readers never return:
    the loop that skips the comments repeats an extraction that fails
    and leaves the string as it was. *)
Theorem load_never_returns_on_open_comment (fuel : nat) (line : list Z)
    (files : Files) (filename junk : list Z) (im : ImageObject) :
  10 ∉ line →
  files filename = Some (P5 ++ [10] ++ 35 :: line) →
  load_U8 fuel files filename junk im = None ∧
  load_U16 fuel files filename junk im = None ∧
  load_RGB fuel files filename junk im = None.
Proof.
  intros Hno Hfile.
  assert (GImageIO_ReadPPMHeader fuel (mkStream (P5 ++ [10] ++ 35 :: line) false false)
          = None) as Hhd.
  { unfold GImageIO_ReadPPMHeader.
    destruct fuel as [|fuel]; [done|].
    assert (GImageIO_NextLine (S fuel) (mkStream (P5 ++ [10] ++ 35 :: line) false false) =
            Some (mkStream (35 :: line) false false, P5)) as -> by reflexivity.
    cbn [mbind option_bind].
    assert (GImageIO_NextLine (S fuel) (mkStream (35 :: line) false false) = None) as ->.
    { unfold GImageIO_NextLine.
      pose proof (skip_comments_last_line (S fuel) line [] Hno) as Hs.
      destruct (read_token (mkStream (35 :: line) false false) []) as [f tok].
      by rewrite Hs. }
    done. }
  unfold load_U8, load_U16, load_RGB, load_body. rewrite Hfile, Hhd. done.
Qed.

Lemma load_never_returns_on_open_comment_witness :
  (10 ∉ [32; 120]) ∧
  load_U8 9 (λ _, Some (P5 ++ [10] ++ 35 :: [32; 120])) [] [] (mkImageObject None (0, 0, 0) 0 (0, 0, 0)) = None ∧
  load_U16 9 (λ _, Some (P5 ++ [10] ++ 35 :: [32; 120])) [] [] (mkImageObject None (0, 0, 0) 0 (0, 0, 0)) = None ∧
  load_RGB 9 (λ _, Some (P5 ++ [10] ++ 35 :: [32; 120])) [] [] (mkImageObject None (0, 0, 0) 0 (0, 0, 0)) = None.
Proof.
  assert (10 ∉ [32; 120]) as Hno.
  { intros Hin. repeat (apply elem_of_cons in Hin as [Hin|Hin]; [done|]).
    by apply elem_of_nil in Hin. }
  split; [done|].
  exact (load_never_returns_on_open_comment 9 [32; 120]
           (λ _, Some (P5 ++ [10] ++ 35 :: [32; 120])) [] []
           (mkImageObject None (0, 0, 0) 0 (0, 0, 0)) Hno eq_refl).
Defined.

(** ** The attributes [area], [sum] and [sum_square] *)

(** X14.  For an image with at least one pixel whose values are values
    of the pixel type and a neighborhood that connects its pixels,
    [ComponentTree(img, connexity)] returns a tree where the attribute
    [area] of every node is the number of pixels of its subtree (the
    pixels of the node and of its descendants, each counted once); the
    area of the root is the number of pixels of the image. *)
Theorem ComponentTree_area_counts_pixels (T : PixelType) (img gradient : Image)
    (connexity : FlatSE) :
  image_ok img → image_of T img → connected img connexity →
  ∃ root hp rn,
    converges (λ fuel, ComponentTree_se T fuel img gradient connexity)
              (mkTree (Some root) img hp) ∧
    (∀ n nd, hp !! n = Some nd → region_area hp n nd) ∧
    hp !! root = Some rn ∧ iattr rn area = Z.of_nat (length (data img)).
Proof.
  intros Hok HT Hconn.
  destruct (build_built img gradient connexity Hok Hconn)
    as (lo & hi & s0 & root & sF & p0 & Hlo & Hhi & Hinit & Hrun & Hbuilt).
  pose proof Hbuilt as (_ & Hfinal & _).
  destruct (built_regions_ok img gradient connexity lo hi sF root p0 Hok Hlo Hhi Hbuilt)
    as [Hreg Hcnt].
  destruct (computeAttributes_values _ _ _ _ _ _ _ T img Hbuilt
              (image_of_min T img lo HT Hlo) sF (built_ready _ _ _ _ _ _ _ Hbuilt) Hreg Hcnt)
    as (hp & C & F & V).
  assert (∀ n nd, hp !! n = Some nd → region_area hp n nd) as Hall.
  { intros n nd Hn. destruct (frame_back _ _ _ _ _ _ _ F Hn) as (nd0 & Hn0 & _).
    destruct (V n (final_reach _ _ _ _ _ _ Hfinal n nd0 Hn0)) as (nd' & Hn' & A & _).
    congruence. }
  destruct (V root) as (rn & Hrn & (R & HR & Earea) & _); [constructor|].
  exists root, hp, rn. split_and!; [|done|done|].
  - unfold ComponentTree_se. rewrite Hinit. cbn [mbind option_bind].
    apply (converges_bind _
             (λ fuel x, let '(root, s) := x in
                        s ← computeAttributes _ T fuel root s;
                        Some (mkTree root img (heap s))) _ _ Hrun).
    cbv beta iota.
    apply (converges_bind _ (λ _ s, Some (mkTree (Some root) img (heap s))) _ _ C).
    apply converges_ret.
  - rewrite Earea. f_equal.
    exact (built_root_region img gradient connexity lo hi sF root p0 _ _ _ hp R
             Hok Hlo Hhi Hbuilt F HR).
Qed.

Lemma ComponentTree_area_counts_pixels_witness :
  image_ok img_step ∧ image_of U8 img_step ∧ connected img_step make2DN8 ∧
  ∃ root hp rn,
    converges (λ fuel, ComponentTree_se U8 fuel img_step img_step make2DN8)
              (mkTree (Some root) img_step hp) ∧
    (∀ n nd, hp !! n = Some nd → region_area hp n nd) ∧
    hp !! root = Some rn ∧ iattr rn area = Z.of_nat (length (data img_step)).
Proof.
  assert (image_ok img_step) as Hok by (unfold image_ok; simpl; lia).
  assert (image_of U8 img_step) as HT.
  { unfold image_of. simpl. repeat constructor; simpl; lia. }
  assert (connected img_step make2DN8) as Hconn by (by apply make2DN8_connected).
  split_and!; [done..|].
  exact (ComponentTree_area_counts_pixels U8 img_step img_step make2DN8 Hok HT Hconn).
Defined.

(** X15.  Under the same conditions on the image, when moreover the
    squares of its values fit an [int] (they are below 2^31, so that no
    product of two values overflows), for a gradient image of the size
    of the image and a mask [ca] with the flag [AREA],
    [ComponentTree(img, connexity, ca, delta)] returns a tree where the
    attribute [area] of every node is the number of pixels of its
    subtree; when the mask also has the flag [OTSU], the attributes
    [sum] and [sum_square] of the node are the sum of the values of
    these pixels in the image and the sum of the squares of these
    values. *)
Theorem ComponentTree_ca_region_sums (T : PixelType) (img gradient : Image)
    (connexity : FlatSE) (ca delta : Z) :
  image_ok img → image_of T img → squares_fit img → connected img connexity →
  length (data gradient) = length (data img) →
  has ca AREA = true →
  ∃ root hp,
    converges (λ fuel, ComponentTree_ca T fuel img gradient connexity ca delta)
              (mkTree (Some root) img hp) ∧
    ∀ n nd, hp !! n = Some nd →
      region_area hp n nd ∧ (has ca OTSU = true → region_sums img hp n nd).
Proof.
  intros Hok HT _ Hconn Hg Ha.
  destruct (ComponentTree_ca_nghb img gradient connexity ca delta Hok Hconn)
    as (lo & hi & s0 & sF & root & p0 & hpN & Hlo & Hinit & Hrun & Hbuilt & CN & FN & _).
  pose proof Hbuilt as (_ & Hfinal & _).
  assert (regions_ok img (heap sF) ∧ ∀ n nd, heap sF !! n = Some nd → counts nd)
    as [Hreg Hcnt].
  { destruct (build_built img gradient connexity Hok Hconn)
      as (lo1 & hi1 & s1 & _ & _ & _ & Hlo1 & Hhi1 & Hinit1 & _).
    assert (lo1 = lo) as -> by congruence.
    rewrite Hinit in Hinit1. injection Hinit1 as E _.
    pose proof Hbuilt as Hbuilt'. rewrite E in Hbuilt'.
    exact (built_regions_ok img gradient connexity lo hi1 sF root p0 Hok Hlo Hhi1 Hbuilt'). }
  pose proof (ready_frame _ _ _ _ _ _ _ _ (built_ready _ _ _ _ _ _ _ Hbuilt) FN) as HrN.
  pose proof (pb_ok_frame _ _ _ _ _ FN (built_pb_ok _ _ _ _ _ _ _ Hbuilt)) as HpN.
  destruct (computeAttributes_ca_regions _ _ _ _ _ _ _ T img Hbuilt
              (image_of_min T img lo HT Hlo) ltac:(cbn; lia) ca delta (set_heap hpN sF) Ha
              HrN HpN) as (hp & C & F & Q).
  { cbn [heap set_heap]. by apply (regions_ok_frame _ _ _ _ _ _ FN). }
  { cbn [heap set_heap]. intros n nd Hn.
    destruct (frame_back _ _ _ _ _ _ _ FN Hn) as (nd0 & Hn0 & K).
    apply (counts_keeps _ _ _ _ _ K); [unfold nghb_slots; not_in_slots..|].
    by apply (Hcnt n). }
  cbn [heap set_heap] in *.
  exists root, hp. split.
  - unfold ComponentTree_ca. rewrite Hinit. cbn [mbind option_bind].
    apply (converges_bind _
             (λ fuel x, let '(root, s) := x in
                s ← when (has ca OTSU) (λ s,
                       r ← root;
                       on_heap (computeNeighborhoodAttributes fuel img (int_of_uint delta) r)
                               s) s;
                s ← computeAttributes_ca _ T fuel root ca delta s;
                Some (mkTree root img (heap s))) _ _ Hrun).
    cbv beta iota.
    apply (converges_bind _
             (λ fuel s, s ← computeAttributes_ca _ T fuel (Some root) ca delta s;
                        Some (mkTree (Some root) img (heap s))) _ _ CN).
    cbv beta.
    apply (converges_bind _ (λ _ s, Some (mkTree (Some root) img (heap s))) _ _ C).
    apply converges_ret.
  - intros n nd Hn.
    destruct (frame_back _ _ _ _ _ _ _ F Hn) as (ndN & HnN & _).
    destruct (frame_back _ _ _ _ _ _ _ FN HnN) as (nd0 & Hn0 & _).
    destruct (Q n) as (nd' & Hn' & A & S).
    + apply (reach_same_links (heap sF));
        [apply (frame_same_links _ _ _ (keeps_links _ _ _) FN)|].
      by apply (final_reach _ _ _ _ _ _ Hfinal n nd0).
    + assert (nd' = nd) as -> by congruence. done.
Qed.

Lemma ComponentTree_ca_region_sums_witness :
  image_ok img_step ∧ image_of U8 img_step ∧ squares_fit img_step ∧
  connected img_step make2DN8 ∧
  length (data img_step) = length (data img_step) ∧
  has 257 AREA = true ∧
  ∃ root hp,
    converges (λ fuel, ComponentTree_ca U8 fuel img_step img_step make2DN8 257 1)
              (mkTree (Some root) img_step hp) ∧
    ∀ n nd, hp !! n = Some nd →
      region_area hp n nd ∧ (has 257 OTSU = true → region_sums img_step hp n nd).
Proof.
  assert (image_ok img_step) as Hok by (unfold image_ok; simpl; lia).
  assert (image_of U8 img_step) as HT.
  { unfold image_of. simpl. repeat constructor; simpl; lia. }
  assert (connected img_step make2DN8) as Hconn by (by apply make2DN8_connected).
  assert (squares_fit img_step) as Hsq by (repeat constructor).
  split_and!; [done..|].
  exact (ComponentTree_ca_region_sums U8 img_step img_step make2DN8 257 1
           Hok HT Hsq Hconn eq_refl eq_refl).
Defined.

(** X16.  Under the conditions of X14, [ComponentTree(img, connexity)]
    returns a tree where the attribute [contrast] of every node is the
    height of its subtree: no node of the subtree has a level above the
    level of the node by more than [contrast], and one node of the
    subtree has a level above it by exactly [contrast] (for a leaf, the
    node itself, with [contrast] 0). *)
Theorem ComponentTree_contrast_is_height (T : PixelType) (img gradient : Image)
    (connexity : FlatSE) :
  image_ok img → image_of T img → connected img connexity →
  ∃ root hp,
    converges (λ fuel, ComponentTree_se T fuel img gradient connexity)
              (mkTree (Some root) img hp) ∧
    ∀ n nd, hp !! n = Some nd →
      (∀ m md, reach hp n m → hp !! m = Some md → h md - h nd ≤ iattr nd contrast) ∧
      ∃ m md, reach hp n m ∧ hp !! m = Some md ∧ iattr nd contrast = h md - h nd.
Proof.
  intros Hok HT Hconn.
  destruct (build_built img gradient connexity Hok Hconn)
    as (lo & hi & s0 & root & sF & p0 & Hlo & Hhi & Hinit & Hrun & Hbuilt).
  pose proof Hbuilt as (_ & Hfinal & _).
  destruct (built_regions_ok img gradient connexity lo hi sF root p0 Hok Hlo Hhi Hbuilt)
    as [Hreg Hcnt].
  destruct (computeAttributes_values _ _ _ _ _ _ _ T img Hbuilt
              (image_of_min T img lo HT Hlo) sF (built_ready _ _ _ _ _ _ _ Hbuilt) Hreg Hcnt)
    as (hp & C & F & V).
  exists root, hp. split.
  - unfold ComponentTree_se. rewrite Hinit. cbn [mbind option_bind].
    apply (converges_bind _
             (λ fuel x, let '(root, s) := x in
                        s ← computeAttributes _ T fuel root s;
                        Some (mkTree root img (heap s))) _ _ Hrun).
    cbv beta iota.
    apply (converges_bind _ (λ _ s, Some (mkTree (Some root) img (heap s))) _ _ C).
    apply converges_ret.
  - intros n nd Hn. destruct (frame_back _ _ _ _ _ _ _ F Hn) as (nd0 & Hn0 & _).
    destruct (V n (final_reach _ _ _ _ _ _ Hfinal n nd0 Hn0)) as (nd' & Hn' & _ & Htop & _).
    assert (nd' = nd) as -> by congruence. exact Htop.
Qed.

Lemma ComponentTree_contrast_is_height_witness :
  image_ok img_step ∧ image_of U8 img_step ∧ connected img_step make2DN8 ∧
  ∃ root hp,
    converges (λ fuel, ComponentTree_se U8 fuel img_step img_step make2DN8)
              (mkTree (Some root) img_step hp) ∧
    ∀ n nd, hp !! n = Some nd →
      (∀ m md, reach hp n m → hp !! m = Some md → h md - h nd ≤ iattr nd contrast) ∧
      ∃ m md, reach hp n m ∧ hp !! m = Some md ∧ iattr nd contrast = h md - h nd.
Proof.
  assert (image_ok img_step) as Hok by (unfold image_ok; simpl; lia).
  assert (image_of U8 img_step) as HT.
  { unfold image_of. simpl. repeat constructor; simpl; lia. }
  assert (connected img_step make2DN8) as Hconn by (by apply make2DN8_connected).
  split_and!; [done..|].
  exact (ComponentTree_contrast_is_height U8 img_step img_step make2DN8 Hok HT Hconn).
Defined.

(** X20.  Under the conditions of X14, for an image whose number of
    pixels times the largest value of its pixel type is below 2^31 (no
    [int] of [computeVolume] then overflows),
    [ComponentTree(img, connexity)] returns a tree where the attribute
    [volume] of every node is the sum, over the pixels of its subtree,
    of the value of the pixel minus the level of the parent of the node;
    for the root, which is its own parent, nothing is subtracted. *)
Theorem ComponentTree_volume_above_parent (T : PixelType) (img gradient : Image)
    (connexity : FlatSE) :
  image_ok img → image_of T img → connected img connexity →
  Z.of_nat (length (data img)) * Z.max 1 (tmax T) < 2 ^ 31 →
  ∃ root hp,
    converges (λ fuel, ComponentTree_se T fuel img gradient connexity)
              (mkTree (Some root) img hp) ∧
    ∀ n nd, hp !! n = Some nd →
      ∃ R f fn, region_of hp n R ∧ father nd = Some f ∧ hp !! f = Some fn ∧
                iattr nd volume =
                  pixel_sum (λ v, v - (if decide (f = n) then 0 else h fn)) img R.
Proof.
  intros Hok HT Hconn Hsmall.
  destruct (build_built img gradient connexity Hok Hconn)
    as (lo & hi & s0 & root & sF & p0 & Hlo & Hhi & Hinit & Hrun & Hbuilt).
  pose proof Hbuilt as (_ & Hfinal & _).
  destruct (built_regions_ok img gradient connexity lo hi sF root p0 Hok Hlo Hhi Hbuilt)
    as [Hreg Hcnt].
  destruct (computeAttributes_values _ _ _ _ _ _ _ T img Hbuilt
              (image_of_min T img lo HT Hlo) sF (built_ready _ _ _ _ _ _ _ Hbuilt) Hreg Hcnt)
    as (hp & C & F & V).
  exists root, hp. split.
  - unfold ComponentTree_se. rewrite Hinit. cbn [mbind option_bind].
    apply (converges_bind _
             (λ fuel x, let '(root, s) := x in
                        s ← computeAttributes _ T fuel root s;
                        Some (mkTree root img (heap s))) _ _ Hrun).
    cbv beta iota.
    apply (converges_bind _ (λ _ s, Some (mkTree (Some root) img (heap s))) _ _ C).
    apply converges_ret.
  - intros n nd Hn. destruct (frame_back _ _ _ _ _ _ _ F Hn) as (nd0 & Hn0 & _).
    destruct (V n (final_reach _ _ _ _ _ _ Hfinal n nd0 Hn0)) as (nd' & Hn' & _ & _ & Hvol).
    assert (nd' = nd) as -> by congruence. apply Hvol. nia.
Qed.

Lemma ComponentTree_volume_above_parent_witness :
  image_ok img_step ∧ image_of U8 img_step ∧ connected img_step make2DN8 ∧
  Z.of_nat (length (data img_step)) * Z.max 1 (tmax U8) < 2 ^ 31 ∧
  ∃ root hp,
    converges (λ fuel, ComponentTree_se U8 fuel img_step img_step make2DN8)
              (mkTree (Some root) img_step hp) ∧
    ∀ n nd, hp !! n = Some nd →
      ∃ R f fn, region_of hp n R ∧ father nd = Some f ∧ hp !! f = Some fn ∧
                iattr nd volume =
                  pixel_sum (λ v, v - (if decide (f = n) then 0 else h fn)) img_step R.
Proof.
  assert (image_ok img_step) as Hok by (unfold image_ok; simpl; lia).
  assert (image_of U8 img_step) as HT.
  { unfold image_of. simpl. repeat constructor; simpl; lia. }
  assert (connected img_step make2DN8) as Hconn by (by apply make2DN8_connected).
  assert (Z.of_nat (length (data img_step)) * Z.max 1 (tmax U8) < 2 ^ 31) as Hs
    by (by compute).
  split_and!; [done..|].
  exact (ComponentTree_volume_above_parent U8 img_step img_step make2DN8 Hok HT Hconn Hs).
Defined.

(** ** Reconstruction under the rule [MIN] *)

(** X17.  On a tree whose links are consistent, whose root is active and
    whose pixels are offsets of the result, [constructImage(MIN)]
    returns and leaves the tree as it is; a pixel held by a node [m] of
    the tree carries the level of the last node, on the path from the
    root to [m], that is reached through active nodes only (an inactive
    node cuts its whole subtree, active descendants included), and a
    pixel held by no node of the tree keeps the value it had. *)
Theorem constructImage_MIN_levels (T : PixelType) (hp : list Node) (root D : nat)
    (res : Image) (rn : Node) :
  tree_ok D hp root = true →
  pixels_in_range hp root (length (data res)) →
  hp !! root = Some rn → active rn = true →
  ∃ res',
    converges (λ fuel, constructImage T fuel hp (Some root) res MIN) (hp, res') ∧
    length (data res') = length (data res) ∧
    ∀ i : nat, (i < length (data res))%nat →
      (data res' !! i = data res !! i ∧
       ∀ m nd, reach hp root m → hp !! m = Some nd → Z.of_nat i ∉ pixels nd) ∨
      (∃ m nd v, hp !! m = Some nd ∧ Z.of_nat i ∈ pixels nd ∧ min_level hp root m v ∧
                 data res' !! i = Some (cast T v)).
Proof.
  intros Htree Hpx Hrn Hact.
  destruct (constructImageMin_levels T D hp root res Htree Hpx rn Hrn Hact)
    as (res' & Hrun & Hlen & Hpaint).
  exists res'. split_and!; [|done..].
  apply (converges_of_bound _ _ (S (weight D hp root))). intros fuel Hf.
  cbn [constructImage]. by rewrite (Hrun fuel Hf).
Qed.

Lemma constructImage_MIN_levels_witness :
  tree_ok 3 ex_heap 0 = true ∧ pixels_in_range ex_heap 0 (length (data ex_res)) ∧
  ex_heap !! 0%nat = Some (ex_node 0 0 [1%nat] [0; 1] true 4) ∧
  active (ex_node 0 0 [1%nat] [0; 1] true 4) = true ∧
  ∃ res',
    converges (λ fuel, constructImage U8 fuel ex_heap (Some 0%nat) ex_res MIN)
              (ex_heap, res') ∧
    length (data res') = length (data ex_res) ∧
    ∀ i : nat, (i < length (data ex_res))%nat →
      (data res' !! i = data ex_res !! i ∧
       ∀ m nd, reach ex_heap 0 m → ex_heap !! m = Some nd → Z.of_nat i ∉ pixels nd) ∨
      (∃ m nd v, ex_heap !! m = Some nd ∧ Z.of_nat i ∈ pixels nd ∧
                 min_level ex_heap 0 m v ∧ data res' !! i = Some (cast U8 v)).
Proof.
  assert (pixels_in_range ex_heap 0 (length (data ex_res))) as Hpx.
  { apply pixels_in_range_Forall. simpl. repeat constructor; simpl; lia. }
  split_and!; [reflexivity|done|reflexivity|reflexivity|].
  exact (constructImage_MIN_levels U8 ex_heap 0 3 ex_res _ eq_refl Hpx eq_refl eq_refl).
Defined.

(** [constructImage(MIN)] on a tree without inactive node whose nodes
    hold, at their level, all the pixels of the image. *)
Lemma min_identity T D hp root img res :
  tree_ok D hp root = true →
  (∀ n nd, hp !! n = Some nd → active nd = true ∧ reach hp root n) →
  (∀ n nd o, hp !! n = Some nd → o ∈ pixels nd → zget (data img) o = Some (h nd)) →
  (∀ i, 0 ≤ i < Z.of_nat (length (data img)) →
        ∃ n nd, hp !! n = Some nd ∧ i ∈ pixels nd) →
  image_of T img →
  length (data res) = length (data img) →
  ∃ res',
    converges (λ fuel, constructImage T fuel hp (Some root) res MIN) (hp, res') ∧
    data res' = data img.
Proof.
  intros Htree Hact Hval Hcov HT Hlen.
  assert (pixels_in_range hp root (length (data res))) as Hpx.
  { intros n nd o _ Hn Ho. rewrite Hlen.
    apply (zget_range _ _ _ (Hval n nd o Hn Ho)). }
  assert (∃ rn, hp !! root = Some rn) as [rn Hrn].
  { destruct D as [|D]; [done|]. apply tree_ok_unfold in Htree as (rn & Hrn & _).
    by exists rn. }
  destruct (Hact root rn Hrn) as [Ha _].
  destruct (constructImageMin_levels T D hp root res Htree Hpx rn Hrn Ha)
    as (res' & Hrun & Hlen' & Hpaint).
  exists res'. split.
  - apply (converges_of_bound _ _ (S (weight D hp root))). intros fuel Hf.
    cbn [constructImage]. by rewrite (Hrun fuel Hf).
  - apply list_eq. intros i. destruct (decide (i < length (data res))%nat) as [Hi|Hi].
    + destruct (Hpaint i Hi) as [[_ Hno]|(m & nd & v & Hm & Hpm & Hlv & ->)].
      * destruct (Hcov (Z.of_nat i)) as (n & nd & Hn & Hin); [lia|].
        destruct (Hact n nd Hn) as [_ Hr]. by destruct (Hno n nd Hr Hn).
      * destruct Hlv as (a & an & Hch & Hcut & Han & ->).
        destruct Hcut as [->|(an' & c & cn & _ & _ & Hcn & Hi' & _)].
        2:{ destruct (Hact c cn Hcn) as [Hac _]. congruence. }
        assert (an = nd) as -> by congruence.
        pose proof (Hval a nd _ Hm Hpm) as Hz.
        apply zget_Some in Hz as [_ Hz]. rewrite Nat2Z.id in Hz. rewrite Hz.
        unfold image_of in HT. rewrite Forall_forall in HT.
        destruct (HT (h nd)) as [-> _]; [|done]. by eapply list_elem_of_lookup_2.
    + rewrite !lookup_ge_None_2; [done|lia..].
Qed.

(** X18.  For an image [img] with at least one pixel, whose values are
    values of the pixel type, and a neighborhood that connects the
    pixels of [img]: [constructImage(MIN)] on the tree that
    [ComponentTree(img, connexity)] returns, without any filtering,
    returns an image with the pixels of [img] and leaves the tree as it
    is. *)
Theorem build_then_MIN_is_identity (T : PixelType) (img gradient res : Image)
    (connexity : FlatSE) :
  image_ok img → image_of T img → connected img connexity →
  length (data res) = length (data img) →
  ∃ tree res',
    converges (λ fuel, ComponentTree_se T fuel img gradient connexity) tree ∧
    m_img tree = img ∧
    converges (λ fuel, constructImage T fuel (nodes tree) (m_root tree) res MIN)
              (nodes tree, res') ∧
    data res' = data img.
Proof.
  intros Hok HT Hconn Hlen.
  destruct (ComponentTree_se_total T img gradient connexity Hok HT Hconn)
    as (lo & hi & sF & root & p0 & hp & Hlo & Hhi & Hbuilt & Hrun & Hframe & _).
  destruct (build_pixels img gradient connexity lo hi sF root p0 Hok Hlo Hhi Hbuilt)
    as [Hval Hcov].
  pose proof (built_wf _ _ _ _ _ _ _ Hbuilt) as Hwf.
  pose proof Hbuilt as (_ & Hfinal & _).
  pose proof (wf_tree_frame _ _ _ _ _ _ _ Hwf Hframe) as [Htree _].
  pose proof (frame_same_links _ _ _ (keeps_links _ _ _) Hframe) as Hlinks.
  assert (∀ n nd, hp !! n = Some nd → active nd = true ∧ reach hp root n) as Hact.
  { intros n nd' Hn'. destruct (frame_back _ _ _ _ _ _ _ Hframe Hn') as (nd & Hn & Hk).
    split.
    - destruct Hk as (_ & _ & _ & _ & _ & _ & -> & _).
      by apply (final_active _ _ _ _ _ _ Hfinal n nd).
    - apply (reach_same_links _ _ _ _ Hlinks).
      by apply (final_reach _ _ _ _ _ _ Hfinal n nd). }
  destruct (min_identity T _ hp root img res Htree Hact) as (res' & Hd & Heq); try done.
  - intros n nd' o Hn' Ho. destruct (frame_back _ _ _ _ _ _ _ Hframe Hn') as (nd & Hn & Hk).
    destruct Hk as (_ & _ & Hh & _ & _ & Hp & _). rewrite Hh. rewrite Hp in Ho. eauto.
  - intros i Hi. destruct (Hcov i Hi) as (n & nd & Hn & Hin).
    destruct (frame_keeps_lookup _ _ _ _ _ _ _ Hframe Hn) as (nd' & Hn' & Hk).
    destruct Hk as (_ & _ & _ & _ & _ & Hp & _). exists n, nd'. by rewrite Hp.
  - by exists (mkTree (Some root) img hp), res'.
Qed.

Lemma build_then_MIN_is_identity_witness :
  image_ok img_step ∧ image_of U8 img_step ∧ connected img_step make2DN8 ∧
  length (data (mkImage 4 1 1 [7; 7; 7; 7])) = length (data img_step) ∧
  ∃ tree res',
    converges (λ fuel, ComponentTree_se U8 fuel img_step img_step make2DN8) tree ∧
    m_img tree = img_step ∧
    converges (λ fuel, constructImage U8 fuel (nodes tree) (m_root tree)
                                      (mkImage 4 1 1 [7; 7; 7; 7]) MIN)
              (nodes tree, res') ∧
    data res' = data img_step.
Proof.
  assert (image_ok img_step) as Hok by (unfold image_ok; simpl; lia).
  assert (image_of U8 img_step) as HT.
  { unfold image_of. simpl. repeat constructor; simpl; lia. }
  assert (connected img_step make2DN8) as Hconn by (by apply make2DN8_connected).
  split_and!; [done..|].
  exact (build_then_MIN_is_identity U8 img_step img_step (mkImage 4 1 1 [7; 7; 7; 7])
           make2DN8 Hok HT Hconn eq_refl).
Defined.
